(** * wcPlay: the node graph, the link protocol and the scheduler

    A shallow embedding of the wcPlay scripting engine.  The engine class
    [wcPlay] and the node classes are the ones of the built script (the
    file that holds [wcPlay], [wcPlayEditor] and [wcNode] together); the
    setter [initialValue] is the one of [Code/nodes/node.js].

    JavaScript objects are records.  Node objects live in a heap and are
    referred to by their address, so that [===] on nodes is equality of
    addresses and a link can point back to the node that holds it. *)

From Stdlib Require Import ZArith String Bool Lia.
From stdpp Require Import base tactics option list strings.

Local Open Scope string_scope.
Local Open Scope list_scope.

(** ** Values *)

(** The JavaScript values that properties hold.  Numbers are integers:
    the engine itself never computes with them. *)
Inductive Value : Type :=
  | VUndefined
  | VNull
  | VBool (b : bool)
  | VNum (z : Z)
  | VStr (s : string).

(** [a === b] *)
Definition strict_eq (a b : Value) : bool :=
  match a, b with
  | VUndefined, VUndefined => true
  | VNull, VNull => true
  | VBool x, VBool y => Bool.eqb x y
  | VNum x, VNum y => Z.eqb x y
  | VStr x, VStr y => String.eqb x y
  | _, _ => false
  end.

(** Truthiness, as tested by [if (v)] and [v || w]. *)
Definition truthy (v : Value) : bool :=
  match v with
  | VUndefined | VNull => false
  | VBool b => b
  | VNum z => negb (Z.eqb z 0)
  | VStr s => negb (String.eqb s EmptyString)
  end.

(** ** Enumerations *)

(** [wcNode.LINK_TYPE] *)
Inductive LINK_TYPE : Type := ENTRY | EXIT | INPUT | OUTPUT.

#[global] Instance LINK_TYPE_eq_dec : EqDecision LINK_TYPE.
Proof. solve_decision. Defined.

(** [wcNode.CONNECT_RESULT] *)
Inductive CONNECT_RESULT : Type := NOT_FOUND | ALREADY_CONNECTED | SUCCESS.

(** The string that a connection result is in the source. *)
Definition result_value (r : CONNECT_RESULT) : Value :=
  match r with
  | NOT_FOUND => VStr "not_found"
  | ALREADY_CONNECTED => VStr "already_connected"
  | SUCCESS => VStr "success"
  end.

(** The classes of the built script. *)
Inductive NodeClass : Type :=
  | wcNode
  | wcNodeEntry
  | wcNodeProcess
  | wcNodeStorage
  | wcNodeEntryStart
  | wcNodeProcessDelay
  | wcNodeProcessConsoleLog
  | wcNodeProcessAlert
  | wcNodeProcessOperation
  | wcNodeStorageToggle
  | wcNodeStorageNumber
  | wcNodeStorageString.

(** [wcPlay.NODE_TYPE], with the case of a node that is of no kind. *)
Inductive NODE_TYPE : Type := KEntry | KProcess | KComposite | KStorage.

(** The [instanceof] tests of [__addNode]. *)
Definition kind_of (c : NodeClass) : option NODE_TYPE :=
  match c with
  | wcNode => None
  | wcNodeEntry | wcNodeEntryStart => Some KEntry
  | wcNodeProcess | wcNodeProcessDelay | wcNodeProcessConsoleLog
  | wcNodeProcessAlert | wcNodeProcessOperation => Some KProcess
  | wcNodeStorage | wcNodeStorageToggle | wcNodeStorageNumber
  | wcNodeStorageString => Some KStorage
  end.

(** ** The node graph *)

Abbreviation NodeId := nat (only parsing).

(** One end of a connection, [{name, node}]. *)
Record Ref : Type := mkRef { r_name : string; r_node : NodeId }.

#[global] Instance Ref_eq_dec : EqDecision Ref.
Proof. solve_decision. Defined.

Definition ref_eqb (a b : Ref) : bool :=
  Nat.eqb (r_node a) (r_node b) && String.eqb (r_name a) (r_name b).

(** The [meta] of a link: [flashDelta] and [color] belong to the editor. *)
Record LinkMeta : Type := mkLinkMeta { m_flash : bool; m_paused : bool }.

Definition meta0 : LinkMeta := mkLinkMeta false false.

(** An entry or exit link, [{name, links, meta}]. *)
Record Link : Type := mkLink {
  l_name : string;
  l_links : list Ref;
  l_meta : LinkMeta
}.

(** A property of a node. *)
Record Property : Type := mkProperty {
  p_name : string;
  p_value : Value;
  p_initialValue : Value;
  p_type : string;
  p_inputs : list Ref;
  p_outputs : list Ref;
  p_inputMeta : LinkMeta;
  p_outputMeta : LinkMeta
}.

(** A thread token: a number (a timer of the host) or another object. *)
Inductive Thread : Type :=
  | ThreadNumber (id : nat)
  | ThreadObject (id : nat).

(** [_meta] of a node. *)
Record NodeMeta : Type := mkNodeMeta {
  nm_flash : bool;
  nm_paused : bool;
  nm_awake : bool;
  nm_threads : list Thread
}.

(** A node.  [n_parent] tells whether the chain of parents reaches the
    engine, that is, whether [engine()] returns it rather than [null]. *)
Record Node : Type := mkNode {
  n_class : NodeClass;
  n_entry : list Link;
  n_exit : list Link;
  n_properties : list Property;
  n_meta : NodeMeta;
  n_break : bool;
  n_parent : bool
}.

Abbreviation Heap := (list Node) (only parsing).

(** ** Named lookup, as the [for] loops with [break] do it *)

Fixpoint find_first {A : Type} (P : A -> bool) (l : list A) : option A :=
  match l with
  | [] => None
  | a :: l' => if P a then Some a else find_first P l'
  end.

(** Assignment through the reference that the loop found. *)
Fixpoint update_first {A : Type} (P : A -> bool) (f : A -> A) (l : list A)
  : list A :=
  match l with
  | [] => []
  | a :: l' => if P a then f a :: l' else a :: update_first P f l'
  end.

Definition link_named (name : string) (l : Link) : bool :=
  String.eqb (l_name l) name.

Definition prop_named (name : string) (p : Property) : bool :=
  String.eqb (p_name p) name.

Definition set_links (f : list Ref -> list Ref) (l : Link) : Link :=
  mkLink (l_name l) (f (l_links l)) (l_meta l).

Definition set_inputs (f : list Ref -> list Ref) (p : Property) : Property :=
  mkProperty (p_name p) (p_value p) (p_initialValue p) (p_type p)
    (f (p_inputs p)) (p_outputs p) (p_inputMeta p) (p_outputMeta p).

Definition set_outputs (f : list Ref -> list Ref) (p : Property) : Property :=
  mkProperty (p_name p) (p_value p) (p_initialValue p) (p_type p)
    (p_inputs p) (f (p_outputs p)) (p_inputMeta p) (p_outputMeta p).

Definition set_entry (f : list Link -> list Link) (n : Node) : Node :=
  mkNode (n_class n) (f (n_entry n)) (n_exit n) (n_properties n)
    (n_meta n) (n_break n) (n_parent n).

Definition set_exit (f : list Link -> list Link) (n : Node) : Node :=
  mkNode (n_class n) (n_entry n) (f (n_exit n)) (n_properties n)
    (n_meta n) (n_break n) (n_parent n).

Definition set_properties (f : list Property -> list Property) (n : Node)
  : Node :=
  mkNode (n_class n) (n_entry n) (n_exit n) (f (n_properties n))
    (n_meta n) (n_break n) (n_parent n).

Definition set_node_meta (f : NodeMeta -> NodeMeta) (n : Node) : Node :=
  mkNode (n_class n) (n_entry n) (n_exit n) (n_properties n)
    (f (n_meta n)) (n_break n) (n_parent n).

(** The other end's side. *)
Definition opposite (t : LINK_TYPE) : LINK_TYPE :=
  match t with
  | ENTRY => EXIT
  | EXIT => ENTRY
  | INPUT => OUTPUT
  | OUTPUT => INPUT
  end.

(** The array of references of the link of side [t] called [name]:
    [myLink.links], [myProperty.inputs] or [myProperty.outputs]; [None]
    when the search leaves [myLink] at [null]. *)
Definition node_refs (t : LINK_TYPE) (n : Node) (name : string)
  : option (list Ref) :=
  match t with
  | ENTRY => l_links <$> find_first (link_named name) (n_entry n)
  | EXIT => l_links <$> find_first (link_named name) (n_exit n)
  | INPUT => p_inputs <$> find_first (prop_named name) (n_properties n)
  | OUTPUT => p_outputs <$> find_first (prop_named name) (n_properties n)
  end.

Definition node_set_refs (t : LINK_TYPE) (name : string)
    (f : list Ref -> list Ref) (n : Node) : Node :=
  match t with
  | ENTRY => set_entry (update_first (link_named name) (set_links f)) n
  | EXIT => set_exit (update_first (link_named name) (set_links f)) n
  | INPUT =>
      set_properties (update_first (prop_named name) (set_inputs f)) n
  | OUTPUT =>
      set_properties (update_first (prop_named name) (set_outputs f)) n
  end.

Definition refs_opt (h : Heap) (t : LINK_TYPE) (a : NodeId) (name : string)
  : option (list Ref) :=
  match h !! a with
  | Some n => node_refs t n name
  | None => None
  end.

Definition refs_of (h : Heap) (t : LINK_TYPE) (a : NodeId) (name : string)
  : list Ref :=
  default [] (refs_opt h t a name).

Definition set_refs (h : Heap) (t : LINK_TYPE) (a : NodeId) (name : string)
    (f : list Ref -> list Ref) : Heap :=
  alter (node_set_refs t name f) a h.

(** ** Disconnecting *)

(** The test of the disconnect loops,
    [(!targetNode || targetNode === targetLink.node) &&
     (!targetName || targetName === targetLink.name)]:
    an absent argument and the empty string are both falsy. *)
Definition link_filter (targetNode : option NodeId)
    (targetName : option string) (r : Ref) : bool :=
  match targetNode with
  | None => true
  | Some b => Nat.eqb b (r_node r)
  end
  &&
  match targetName with
  | None => true
  | Some s => String.eqb s EmptyString || String.eqb s (r_name r)
  end.

(** The loop of [disconnectEntry], [disconnectExit], [disconnectInput] and
    [disconnectOutput], which are the same text up to the side [t], run
    from index [i] on.  The array is read again at every round, since the
    calls into the target may come back and change it.  A removal is
    followed by the call of the opposite disconnect on the target, which
    answers [NOT_FOUND] and changes nothing when it has no such link.
    [fuel] bounds the rounds and calls together. *)
Fixpoint disconnect_loop (fuel : nat) (t : LINK_TYPE) (self : NodeId)
    (name : string) (targetNode : option NodeId) (targetName : option string)
    (i : nat) (h : Heap) : option Heap :=
  match fuel with
  | O => None
  | S fuel' =>
      match refs_of h t self name !! i with
      | None => Some h
      | Some targetLink =>
          if link_filter targetNode targetName targetLink then
            let h1 := set_refs h t self name (delete i) in
            match
              match refs_opt h1 (opposite t) (r_node targetLink)
                      (r_name targetLink) with
              | None => Some h1
              | Some _ =>
                  disconnect_loop fuel' (opposite t) (r_node targetLink)
                    (r_name targetLink) (Some self) (Some name) 0 h1
              end
            with
            | None => None
            | Some h2 =>
                disconnect_loop fuel' t self name targetNode targetName i h2
            end
          else
            disconnect_loop fuel' t self name targetNode targetName (S i) h
      end
  end.

(** A disconnect call: find my link, then run the loop. *)
Definition disconnect (fuel : nat) (t : LINK_TYPE) (self : NodeId)
    (name : string) (targetNode : option NodeId) (targetName : option string)
    (h : Heap) : option (Heap * CONNECT_RESULT) :=
  match refs_opt h t self name with
  | None => Some (h, NOT_FOUND)
  | Some _ =>
      match disconnect_loop fuel t self name targetNode targetName 0 h with
      | None => None
      | Some h' => Some (h', SUCCESS)
      end
  end.

Definition disconnectEntry (fuel : nat) := disconnect fuel ENTRY.
Definition disconnectExit (fuel : nat) := disconnect fuel EXIT.
Definition disconnectInput (fuel : nat) := disconnect fuel INPUT.
Definition disconnectOutput (fuel : nat) := disconnect fuel OUTPUT.

(** ** The engine *)

(** A property of the script, an element of [wcPlay._properties]. *)
Record ScriptProperty : Type := mkScriptProperty {
  sp_name : string;
  sp_value : Value;
  sp_initialValue : Value;
  sp_type : string
}.

(** An element of [_queuedChain], [{node, name}]. *)
Record ChainItem : Type := mkChainItem {
  ci_node : NodeId;
  ci_name : string
}.

(** An element of [_queuedProperties], [{node, name, value}]. *)
Record PropertyItem : Type := mkPropertyItem {
  pi_node : NodeId;
  pi_name : string;
  pi_value : Value
}.

(** [wcPlay._options].  [updateLimit] is a count of items. *)
Record Options : Type := mkOptions {
  o_silent : bool;
  o_updateRate : nat;
  o_updateLimit : nat;
  o_debugging : bool
}.

(** The fields of a [wcPlay] object. *)
Record Play : Type := mkPlay {
  entryNodes : list NodeId;
  processNodes : list NodeId;
  compositeNodes : list NodeId;
  storageNodes : list NodeId;
  properties : list ScriptProperty;
  queuedChain : list ChainItem;
  queuedProperties : list PropertyItem;
  updateID : nat;
  isPaused : bool;
  isStepping : bool;
  options : Options
}.

(** The timers of the host: the identifiers that [setTimeout] and
    [setInterval] gave out and that have neither fired for good nor been
    cleared, and the next identifier. *)
Record Host : Type := mkHost {
  timers : list nat;
  nextTimer : nat
}.

(** The whole state: the node objects, the engine and the host. *)
Record World : Type := mkWorld {
  heap : Heap;
  play : Play;
  host : Host
}.

Definition with_heap (f : Heap -> Heap) (w : World) : World :=
  mkWorld (f (heap w)) (play w) (host w).

Definition with_play (f : Play -> Play) (w : World) : World :=
  mkWorld (heap w) (f (play w)) (host w).

Definition with_host (f : Host -> Host) (w : World) : World :=
  mkWorld (heap w) (play w) (f (host w)).

Definition set_queuedChain (q : list ChainItem) (p : Play) : Play :=
  mkPlay (entryNodes p) (processNodes p) (compositeNodes p) (storageNodes p)
    (properties p) q (queuedProperties p) (updateID p) (isPaused p)
    (isStepping p) (options p).

Definition set_queuedProperties (q : list PropertyItem) (p : Play) : Play :=
  mkPlay (entryNodes p) (processNodes p) (compositeNodes p) (storageNodes p)
    (properties p) (queuedChain p) q (updateID p) (isPaused p)
    (isStepping p) (options p).

Definition set_isPaused (b : bool) (p : Play) : Play :=
  mkPlay (entryNodes p) (processNodes p) (compositeNodes p) (storageNodes p)
    (properties p) (queuedChain p) (queuedProperties p) (updateID p) b
    (isStepping p) (options p).

Definition set_isStepping (b : bool) (p : Play) : Play :=
  mkPlay (entryNodes p) (processNodes p) (compositeNodes p) (storageNodes p)
    (properties p) (queuedChain p) (queuedProperties p) (updateID p)
    (isPaused p) b (options p).

Definition set_script_properties (l : list ScriptProperty) (p : Play)
  : Play :=
  mkPlay (entryNodes p) (processNodes p) (compositeNodes p) (storageNodes p)
    l (queuedChain p) (queuedProperties p) (updateID p) (isPaused p)
    (isStepping p) (options p).

Definition set_updateID (id : nat) (p : Play) : Play :=
  mkPlay (entryNodes p) (processNodes p) (compositeNodes p) (storageNodes p)
    (properties p) (queuedChain p) (queuedProperties p) id (isPaused p)
    (isStepping p) (options p).

(** *** Flags of a node *)

(** The getter form of [wcNode.property]: the value of the first property
    of that name, [undefined] when there is none. *)
Definition node_property (n : Node) (name : string) : Value :=
  match find_first (prop_named name) (n_properties n) with
  | Some p => p_value p
  | None => VUndefined
  end.

(** The initial value of the first property of that name. *)
Definition node_initial (n : Node) (name : string) : Value :=
  match find_first (prop_named name) (n_properties n) with
  | Some p => p_initialValue p
  | None => VUndefined
  end.

(** The live and the initial value of a property of the node at an
    address. *)
Definition value_of (w : World) (self : NodeId) (name : string) : Value :=
  match heap w !! self with
  | Some n => node_property n name
  | None => VUndefined
  end.

Definition initial_of (w : World) (self : NodeId) (name : string) : Value :=
  match heap w !! self with
  | Some n => node_initial n name
  | None => VUndefined
  end.

(** [enabled()] without an argument. *)
Definition enabled (n : Node) : Value := node_property n "enabled".

(** [debugBreak()] without an argument:
    [engine && engine.debugging() && this._break]. *)
Definition debugBreak (w : World) (n : Node) : bool :=
  n_parent n && o_debugging (options (play w)) && n_break n.

(** [engine && engine.stepping()] *)
Definition engine_stepping (w : World) (n : Node) : bool :=
  n_parent n && isStepping (play w).

Definition mark (paused : bool) (m : LinkMeta) : LinkMeta :=
  mkLinkMeta true (if paused then true else m_paused m).

Definition set_link_meta (f : LinkMeta -> LinkMeta) (l : Link) : Link :=
  mkLink (l_name l) (l_links l) (f (l_meta l)).

Definition set_inputMeta (f : LinkMeta -> LinkMeta) (p : Property)
  : Property :=
  mkProperty (p_name p) (p_value p) (p_initialValue p) (p_type p)
    (p_inputs p) (p_outputs p) (f (p_inputMeta p)) (p_outputMeta p).

Definition set_outputMeta (f : LinkMeta -> LinkMeta) (p : Property)
  : Property :=
  mkProperty (p_name p) (p_value p) (p_initialValue p) (p_type p)
    (p_inputs p) (p_outputs p) (p_inputMeta p) (f (p_outputMeta p)).

Definition set_value (v : Value) (p : Property) : Property :=
  mkProperty (p_name p) v (p_initialValue p) (p_type p)
    (p_inputs p) (p_outputs p) (p_inputMeta p) (p_outputMeta p).

Definition set_initialValue (v : Value) (p : Property) : Property :=
  mkProperty (p_name p) (p_value p) v (p_type p)
    (p_inputs p) (p_outputs p) (p_inputMeta p) (p_outputMeta p).

(** [node._meta.flash = true; node._meta.paused = b] *)
Definition flash_node (b : bool) (m : NodeMeta) : NodeMeta :=
  mkNodeMeta true b (nm_awake m) (nm_threads m).

(** [debugBreak(enabled)] with its argument: [this._break] is set. *)
Definition set_debugBreak (self : NodeId) (enabled : bool) (w : World)
  : World :=
  with_heap
    (alter
       (fun n =>
          mkNode (n_class n) (n_entry n) (n_exit n) (n_properties n)
            (n_meta n) enabled (n_parent n))
       self)
    w.

(** *** Queueing *)

(** [wcPlay.queueNodeEntry] *)
Definition queueNodeEntry (node : NodeId) (name : string) (w : World)
  : World :=
  match heap w !! node with
  | None => w
  | Some n =>
      if truthy (enabled n) then
        let w1 :=
          with_play
            (fun p => set_queuedChain (queuedChain p ++ [mkChainItem node name]) p)
            w in
        if debugBreak w n || isStepping (play w) then
          with_play (set_isPaused true)
            (with_heap (alter (set_node_meta (flash_node true)) node) w1)
        else w1
      else w
  end.

(** [wcPlay.queueNodeProperty] *)
Definition queueNodeProperty (node : NodeId) (name : string) (value : Value)
    (w : World) : World :=
  match heap w !! node with
  | None => w
  | Some n =>
      if truthy (enabled n) then
        let w1 :=
          with_play
            (fun p =>
               set_queuedProperties
                 (queuedProperties p ++ [mkPropertyItem node name value]) p)
            w in
        if debugBreak w n || isStepping (play w) then
          with_play (set_isPaused true)
            (with_heap (alter (set_node_meta (flash_node true)) node) w1)
        else w1
      else w
  end.

(** *** Triggers *)

(** [wcNode.triggerEntry] *)
Definition triggerEntry (self : NodeId) (name : string) (w : World)
  : World * bool :=
  match heap w !! self with
  | None => (w, false)
  | Some n =>
      match find_first (link_named name) (n_entry n) with
      | None => (w, false)
      | Some l =>
          let w1 :=
            with_heap
              (alter
                 (set_entry
                    (update_first (link_named name)
                       (set_link_meta
                          (mark (debugBreak w n || engine_stepping w n)))))
                 self)
              w in
          (if n_parent n then queueNodeEntry self (l_name l) w1 else w1,
           true)
      end
  end.

(** The body of the loop over [exitLink.links] in [wcNode.triggerExit]. *)
Definition triggerExit_link (self : NodeId) (name : string) (w : World)
    (r : Ref) : World :=
  let w1 := fst (triggerEntry (r_node r) (r_name r) w) in
  match heap w1 !! r_node r, heap w1 !! self with
  | Some target, Some n =>
      if debugBreak w1 target || engine_stepping w1 n then
        with_heap
          (alter
             (set_exit
                (update_first (link_named name) (set_link_meta (mark true))))
             self)
          w1
      else w1
  | _, _ => w1
  end.

(** [wcNode.triggerExit] *)
Definition triggerExit (self : NodeId) (name : string) (w : World)
  : World * bool :=
  match heap w !! self with
  | None => (w, false)
  | Some n =>
      match find_first (link_named name) (n_exit n) with
      | None => (w, false)
      | Some exitLink =>
          let w1 :=
            with_heap
              (alter
                 (set_exit
                    (update_first (link_named name)
                       (set_link_meta (mark false))))
                 self)
              w in
          (foldl (triggerExit_link self name) w1 (l_links exitLink), true)
      end
  end.

(** [wcNode.triggerProperty] *)
Definition triggerProperty (self : NodeId) (name : string) (value : Value)
    (w : World) : World :=
  match heap w !! self with
  | None => w
  | Some n =>
      let w1 :=
        if n_parent n then queueNodeProperty self name value w else w in
      with_heap
        (alter
           (set_properties
              (map
                 (fun p =>
                    if prop_named name p then
                      set_inputMeta
                        (mark (debugBreak w1 n || engine_stepping w1 n)) p
                    else p)))
           self)
        w1
  end.

(** [wcNode.onPropertyChanging], which no class of the script overrides:
    it returns nothing. *)
Definition onPropertyChanging (c : NodeClass) (name : string)
    (oldValue newValue : Value) : Value :=
  VUndefined.

(** [forceOrSilent] is absent ([None]) or a boolean. *)
Definition is_true (o : option bool) : bool :=
  match o with
  | Some true => true
  | _ => false
  end.

(** [wcNode.property], with its result. *)
Definition property (self : NodeId) (name : string) (value : Value)
    (forceOrSilent : option bool) (w : World) : World * Value :=
  match heap w !! self with
  | None => (w, VUndefined)
  | Some n =>
      match find_first (prop_named name) (n_properties n) with
      | None => (w, VUndefined)
      | Some prop =>
          if strict_eq value VUndefined then (w, p_value prop)
          else
            let oldValue := p_value prop in
            let w1 :=
              with_heap
                (alter
                   (set_properties
                      (update_first (prop_named name)
                         (set_outputMeta
                            (mark (debugBreak w n || engine_stepping w n)))))
                   self)
                w in
            let value :=
              if is_true forceOrSilent || negb (strict_eq oldValue value) then
                let r := onPropertyChanging (n_class n) name oldValue value in
                if truthy r then r else value
              else value in
            if is_true forceOrSilent || negb (strict_eq oldValue value) then
              let w2 :=
                with_heap
                  (alter
                     (set_properties
                        (update_first (prop_named name) (set_value value)))
                     self)
                  w1 in
              let w3 :=
                match forceOrSilent with
                | Some false => w2
                | _ =>
                    foldl
                      (fun w' r =>
                         triggerProperty (r_node r) (r_name r) value w')
                      w2 (p_outputs prop)
                end in
              (w3, value)
            else (w1, oldValue)
      end
  end.

(** [wcNode.initialProperty] of the built script. *)
Definition initialProperty (self : NodeId) (name : string) (value : Value)
    (w : World) : World * Value :=
  match heap w !! self with
  | None => (w, VUndefined)
  | Some n =>
      match find_first (prop_named name) (n_properties n) with
      | None => (w, VUndefined)
      | Some prop =>
          if strict_eq value VUndefined then (w, p_initialValue prop)
          else
            let w1 :=
              if strict_eq (p_value prop) (p_initialValue prop) then
                fst (property self name value None w)
              else w in
            (with_heap
               (alter
                  (set_properties
                     (update_first (prop_named name)
                        (set_initialValue value)))
                  self)
               w1,
             value)
      end
  end.

(** [wcNode.initialValue] of [Code/nodes/node.js]: every property of that
    name gets the value; nothing is returned. *)
Definition initialValue (self : NodeId) (name : string) (value : Value)
    (w : World) : World * Value :=
  (with_heap
     (alter
        (set_properties
           (map
              (fun p =>
                 if prop_named name p then set_initialValue value p else p)))
        self)
     w,
   VUndefined).

(** ** Connecting *)

(** The search for an existing pairing,
    [links[i].node === node && links[i].name === name]. *)
Definition has_ref (node : NodeId) (name : string) (l : list Ref) : bool :=
  existsb (fun r => Nat.eqb (r_node r) node && String.eqb (r_name r) name) l.

(** [wcNode.onConnect], overridden by no class of the script: an output
    that gets connected sends its value to the other end. *)
Definition onConnect (self : NodeId) (isConnecting : bool) (name : string)
    (type : LINK_TYPE) (targetNode : NodeId) (targetName : string)
    (w : World) : World :=
  match isConnecting, type, heap w !! self with
  | true, OUTPUT, Some n =>
      triggerProperty targetNode targetName (node_property n name) w
  | _, _, _ => w
  end.

(** [connectEntry], [connectExit], [connectInput] and [connectOutput],
    which are the same text up to the side [t].  A [targetNode] that is no
    node of the heap is the case [!(targetNode instanceof wcNode)]. *)
Definition connect (t : LINK_TYPE) (self : NodeId) (name : string)
    (targetNode : NodeId) (targetName : string) (w : World)
  : World * CONNECT_RESULT :=
  match heap w !! targetNode with
  | None => (w, NOT_FOUND)
  | Some _ =>
      match refs_opt (heap w) t self name,
            refs_opt (heap w) (opposite t) targetNode targetName with
      | Some mine, Some theirs =>
          if has_ref targetNode targetName mine then (w, ALREADY_CONNECTED)
          else if has_ref self name theirs then (w, ALREADY_CONNECTED)
          else
            let w1 :=
              with_heap
                (fun h =>
                   set_refs h t self name
                     (fun l => l ++ [mkRef targetName targetNode]))
                w in
            let w2 :=
              with_heap
                (fun h =>
                   set_refs h (opposite t) targetNode targetName
                     (fun l => l ++ [mkRef name self]))
                w1 in
            let w3 := onConnect self true name t targetNode targetName w2 in
            let w4 :=
              onConnect targetNode true targetName (opposite t) self name w3 in
            (w4, SUCCESS)
      | _, _ => (w, NOT_FOUND)
      end
  end.

(** How many times an array of references holds the pairing with the
    link [name] of [node]. *)
Definition pairings (node : NodeId) (name : string) (l : list Ref) : nat :=
  length
    (List.filter
       (fun r => Nat.eqb (r_node r) node && String.eqb (r_name r) name) l).

Definition connectEntry := connect ENTRY.
Definition connectExit := connect EXIT.
Definition connectInput := connect INPUT.
Definition connectOutput := connect OUTPUT.

(** ** Removing links and properties *)

(** [this.chain.entry[i].name], [this.chain.exit[i].name] or
    [this.properties[i].name]; [None] from the length of the array on. *)
Definition name_at (h : Heap) (t : LINK_TYPE) (self : NodeId) (i : nat)
  : option string :=
  match h !! self with
  | None => None
  | Some n =>
      match t with
      | ENTRY => l_name <$> n_entry n !! i
      | EXIT => l_name <$> n_exit n !! i
      | INPUT | OUTPUT => p_name <$> n_properties n !! i
      end
  end.

(** [splice(i, 1)] on the array of links or of properties. *)
Definition delete_at (t : LINK_TYPE) (self : NodeId) (i : nat) (h : Heap)
  : Heap :=
  alter
    (match t with
     | ENTRY => set_entry (delete i)
     | EXIT => set_exit (delete i)
     | INPUT | OUTPUT => set_properties (delete i)
     end)
    self h.

(** The loop of [removeEntry] ([t = ENTRY]) and [removeExit] ([t = EXIT])
    from index [i] on, for at most [steps] rounds. *)
Fixpoint remove_link_loop (fuel : nat) (t : LINK_TYPE) (self : NodeId)
    (name : string) (steps i : nat) (h : Heap) : option (Heap * bool) :=
  match steps with
  | O => Some (h, false)
  | S steps' =>
      match name_at h t self i with
      | None => Some (h, false)
      | Some nm =>
          if String.eqb nm name then
            match disconnect fuel t self name None None h with
            | None => None
            | Some (h1, r) =>
                if strict_eq (result_value r) (result_value SUCCESS) then
                  Some (delete_at t self i h1, true)
                else remove_link_loop fuel t self name steps' (S i) h1
            end
          else remove_link_loop fuel t self name steps' (S i) h
      end
  end.

Definition links_length (h : Heap) (t : LINK_TYPE) (self : NodeId) : nat :=
  match h !! self with
  | None => 0
  | Some n =>
      match t with
      | ENTRY => length (n_entry n)
      | EXIT => length (n_exit n)
      | INPUT | OUTPUT => length (n_properties n)
      end
  end.

Definition removeEntry (fuel : nat) (self : NodeId) (name : string)
    (h : Heap) : option (Heap * bool) :=
  remove_link_loop fuel ENTRY self name (links_length h ENTRY self) 0 h.

Definition removeExit (fuel : nat) (self : NodeId) (name : string)
    (h : Heap) : option (Heap * bool) :=
  remove_link_loop fuel EXIT self name (links_length h EXIT self) 0 h.

(** The loop of [removeProperty].  Its test is
    [this.disconnectInput(name) === this.disconnectOutput(name) ===
     wcNode.CONNECT_RESULT.SUCCESS],
    which JavaScript reads from the left: the boolean of the first
    comparison is compared with the string. *)
Fixpoint removeProperty_loop (fuel : nat) (self : NodeId) (name : string)
    (steps i : nat) (h : Heap) : option (Heap * bool) :=
  match steps with
  | O => Some (h, false)
  | S steps' =>
      match name_at h INPUT self i with
      | None => Some (h, false)
      | Some nm =>
          if String.eqb nm name then
            match disconnectInput fuel self name None None h with
            | None => None
            | Some (h1, r1) =>
                match disconnectOutput fuel self name None None h1 with
                | None => None
                | Some (h2, r2) =>
                    if strict_eq
                         (VBool (strict_eq (result_value r1) (result_value r2)))
                         (result_value SUCCESS)
                    then Some (delete_at INPUT self i h2, true)
                    else removeProperty_loop fuel self name steps' (S i) h2
                end
            end
          else removeProperty_loop fuel self name steps' (S i) h
      end
  end.

Definition removeProperty (fuel : nat) (self : NodeId) (name : string)
    (h : Heap) : option (Heap * bool) :=
  removeProperty_loop fuel self name (links_length h INPUT self) 0 h.

(** ** Threads and timers *)

(** [setTimeout] and [setInterval]: the host hands out the next
    identifier. *)
Definition setTimeout (w : World) : World * nat :=
  let id := nextTimer (host w) in
  (with_host (fun hs => mkHost (timers hs ++ [id]) (S id)) w, id).

(** [clearTimeout] and [clearInterval], which share the identifiers. *)
Definition clearTimeout (id : nat) (hs : Host) : Host :=
  mkHost (List.filter (fun x => negb (Nat.eqb x id)) (timers hs))
    (nextTimer hs).

Definition thread_eqb (a b : Thread) : bool :=
  match a, b with
  | ThreadNumber x, ThreadNumber y => Nat.eqb x y
  | ThreadObject x, ThreadObject y => Nat.eqb x y
  | _, _ => false
  end.

(** [wcNode.beginThread] *)
Definition beginThread (self : NodeId) (id : Thread) (w : World) : World :=
  with_heap
    (alter
       (set_node_meta
          (fun m =>
             mkNodeMeta (nm_flash m) (nm_paused m) true (nm_threads m ++ [id])))
       self)
    w.

Fixpoint remove_thread (id : Thread) (l : list Thread) : list Thread :=
  match l with
  | [] => []
  | x :: l' => if thread_eqb x id then l' else x :: remove_thread id l'
  end.

(** [wcNode.finishThread] *)
Definition finishThread (self : NodeId) (id : Thread) (w : World) : World :=
  with_heap
    (alter
       (set_node_meta
          (fun m =>
             if existsb (fun x => thread_eqb x id) (nm_threads m) then
               let l := remove_thread id (nm_threads m) in
               mkNodeMeta (nm_flash m) (nm_paused m)
                 (match l with [] => false | _ => nm_awake m end) l
             else m))
       self)
    w.

(** The timers that the loop over [_meta.threads] in [wcNode.reset]
    clears. *)
Definition clear_threads (l : list Thread) (hs : Host) : Host :=
  foldl
    (fun hs' t =>
       match t with
       | ThreadNumber id => clearTimeout id (clearTimeout id hs')
       | ThreadObject _ => hs'
       end)
    hs l.

Definition reset_property (p : Property) : Property :=
  set_value (p_initialValue p) p.

(** What [wcNode.reset] does to the node itself. *)
Definition reset_node (n : Node) : Node :=
  set_node_meta
    (fun m => mkNodeMeta (nm_flash m) (nm_paused m) (nm_awake m) [])
    (set_properties (map reset_property) n).

(** [wcNode.reset] *)
Definition reset (self : NodeId) (w : World) : World :=
  match heap w !! self with
  | None => w
  | Some n =>
      with_heap (alter reset_node self)
        (with_host (clear_threads (nm_threads (n_meta n))) w)
  end.

(** ** Properties of the script *)

Definition sprop_named (name : string) (p : ScriptProperty) : bool :=
  String.eqb (sp_name p) name.

Definition set_sp_value (v : Value) (p : ScriptProperty) : ScriptProperty :=
  mkScriptProperty (sp_name p) v (sp_initialValue p) (sp_type p).

Definition set_sp_initialValue (v : Value) (p : ScriptProperty)
  : ScriptProperty :=
  mkScriptProperty (sp_name p) (sp_value p) v (sp_type p).

(** [__notifyNodes('onSharedPropertyChanged', ...)]: the hook is commented
    out in [wcNode] and no class of the script defines it, so that the
    [typeof self[func] === 'function'] test fails for every node. *)
Definition notify_onSharedPropertyChanged (name : string)
    (oldValue newValue : Value) (w : World) : World := w.

(** [wcPlay.property], with its result: the function has no [return]
    with a value. *)
Definition play_property (name : string) (value : Value) (w : World)
  : World * Value :=
  match find_first (sprop_named name) (properties (play w)) with
  | None => (w, VUndefined)
  | Some prop =>
      if negb (strict_eq value VUndefined)
         && negb (strict_eq value (sp_value prop)) then
        let oldValue := sp_value prop in
        let w1 :=
          with_play
            (fun p =>
               set_script_properties
                 (update_first (sprop_named name) (set_sp_value value)
                    (properties p))
                 p)
            w in
        (notify_onSharedPropertyChanged (sp_name prop) oldValue value w1,
         VUndefined)
      else (w, VUndefined)
  end.

(** [wcPlay.initialProperty] *)
Definition play_initialProperty (name : string) (value : Value) (w : World)
  : World * Value :=
  match find_first (sprop_named name) (properties (play w)) with
  | None => (w, VUndefined)
  | Some prop =>
      if negb (strict_eq value VUndefined)
         && negb (strict_eq value (sp_initialValue prop)) then
        let oldValue := sp_initialValue prop in
        let w1 :=
          with_play
            (fun p =>
               set_script_properties
                 (update_first (sprop_named name) (set_sp_initialValue value)
                    (properties p))
                 p)
            w in
        if strict_eq (sp_value prop) oldValue then
          let w2 :=
            with_play
              (fun p =>
                 set_script_properties
                   (update_first (sprop_named name) (set_sp_value value)
                      (properties p))
                   p)
              w1 in
          (notify_onSharedPropertyChanged (sp_name prop) oldValue value w2,
           VUndefined)
        else (w1, VUndefined)
      else (w, VUndefined)
  end.

(** ** Sequences of link operations *)

(** A call of one of the four connects or of one of the four disconnects;
    the optional arguments of a disconnect are absent or given. *)
Inductive LinkOp : Type :=
  | Connect (t : LINK_TYPE) (self : NodeId) (name : string)
      (targetNode : NodeId) (targetName : string)
  | Disconnect (t : LINK_TYPE) (self : NodeId) (name : string)
      (targetNode : option NodeId) (targetName : option string).

Definition run_op (fuel : nat) (op : LinkOp) (w : World)
  : option (World * CONNECT_RESULT) :=
  match op with
  | Connect t self name targetNode targetName =>
      Some (connect t self name targetNode targetName w)
  | Disconnect t self name targetNode targetName =>
      match disconnect fuel t self name targetNode targetName (heap w) with
      | None => None
      | Some (h, r) => Some (with_heap (fun _ => h) w, r)
      end
  end.

Fixpoint run_ops (fuel : nat) (ops : list LinkOp) (w : World)
  : option World :=
  match ops with
  | [] => Some w
  | op :: ops' =>
      match run_op fuel op w with
      | None => None
      | Some (w', _) => run_ops fuel ops' w'
      end
  end.

(** ** The handlers of the classes and the scheduler *)

Section Scheduler.

(** The number [parseFloat(a) op parseFloat(b)] that the Operation node
    computes for [op] among [add], [sub], [mul] and [div].  The
    floating-point arithmetic of the host is no part of the engine. *)
Variable operate : string -> Value -> Value -> Value.

(** [wcNodeEntry.triggerCondition] *)
Definition triggerCondition (c : NodeClass) : bool := true.

(** [wcNodeEntry.onTriggered] *)
Definition wcNodeEntry_onTriggered (self : NodeId) (c : NodeClass)
    (w : World) : World :=
  if triggerCondition c then fst (triggerExit self "out" w) else w.

Definition is_operation (name : string) : bool :=
  String.eqb name "add" || String.eqb name "sub"
  || String.eqb name "mul" || String.eqb name "div".

(** [onTriggered(name)], by the class of the node.  [wcNode.onTriggered]
    writes to the console and does nothing else. *)
Definition onTriggered (self : NodeId) (name : string) (w : World) : World :=
  match heap w !! self with
  | None => w
  | Some n =>
      match n_class n with
      | wcNode | wcNodeProcess | wcNodeStorage | wcNodeStorageToggle
      | wcNodeStorageNumber | wcNodeStorageString => w
      | wcNodeEntry | wcNodeEntryStart =>
          wcNodeEntry_onTriggered self (n_class n) w
      | wcNodeProcessDelay =>
          let w1 := fst (triggerExit self "out" w) in
          let (w2, id) := setTimeout w1 in
          beginThread self (ThreadNumber id) w2
      | wcNodeProcessConsoleLog | wcNodeProcessAlert =>
          fst (triggerExit self "out" w)
      | wcNodeProcessOperation =>
          let a := node_property n "valueA" in
          let b := node_property n "valueB" in
          let result :=
            if is_operation name then operate name a b else VUndefined in
          let w1 := fst (property self "result" result None w) in
          fst (triggerExit self "out" w1)
      end
  end.

(** [onStart()], by the class of the node. *)
Definition onStart (self : NodeId) (w : World) : World :=
  match heap w !! self with
  | None => w
  | Some n =>
      match n_class n with
      | wcNodeStorage | wcNodeStorageToggle | wcNodeStorageNumber
      | wcNodeStorageString =>
          fst (property self "value" (node_property n "value") (Some true) w)
      | wcNodeEntryStart => wcNodeEntry_onTriggered self (n_class n) w
      | _ => w
      end
  end.

(** What a tick did, in order: a property update that was applied, or an
    entry link whose handler ran, with the property updates that were
    waiting in the queue at that moment. *)
Inductive Event : Type :=
  | PropertyUpdated (item : PropertyItem)
  | EntryTriggered (item : ChainItem) (pending : list PropertyItem).

(** [node._meta.flash = true; node._meta.paused = false] *)
Definition wake (node : NodeId) (w : World) : World :=
  with_heap (alter (set_node_meta (flash_node false)) node) w.

(** The first [while (count)] loop of [wcPlay.update]; the result holds
    the value of [count] after the loop.  [shift()] on an empty array
    gives [undefined], whose [node] cannot be read: [None]. *)
Fixpoint update_properties (count : nat) (w : World)
  : option (World * nat * list Event) :=
  match count with
  | O => Some (w, O, [])
  | S count' =>
      match queuedProperties (play w) with
      | [] => None
      | item :: rest =>
          let w1 := with_play (set_queuedProperties rest) w in
          let w2 := wake (pi_node item) w1 in
          let w3 :=
            fst (property (pi_node item) (pi_name item) (pi_value item)
                   None w2) in
          match update_properties count' w3 with
          | None => None
          | Some (w4, c, evs) => Some (w4, c, PropertyUpdated item :: evs)
          end
      end
  end.

(** The second [while (count)] loop of [wcPlay.update]. *)
Fixpoint update_chain (count : nat) (w : World)
  : option (World * list Event) :=
  match count with
  | O => Some (w, [])
  | S count' =>
      match queuedChain (play w) with
      | [] => None
      | item :: rest =>
          let w1 := with_play (set_queuedChain rest) w in
          let w2 := wake (ci_node item) w1 in
          let w3 := onTriggered (ci_node item) (ci_name item) w2 in
          match update_chain count' w3 with
          | None => None
          | Some (w4, evs) =>
              Some (w4,
                    EntryTriggered item (queuedProperties (play w1)) :: evs)
          end
      end
  end.

(** [wcPlay.update]: one tick. *)
Definition update (w : World) : option (World * list Event) :=
  if isPaused (play w) then Some (w, [])
  else
    let count :=
      Nat.min (length (queuedProperties (play w)))
        (o_updateLimit (options (play w))) in
    match update_properties count w with
    | None => None
    | Some (w1, count, evs1) =>
        match
          match queuedProperties (play w1) with
          | [] =>
              let count :=
                Nat.min (length (queuedChain (play w1)))
                  (o_updateLimit (options (play w1)) - count) in
              update_chain count w1
          | _ :: _ => Some (w1, [])
          end
        with
        | None => None
        | Some (w2, evs2) =>
            Some (if isStepping (play w2)
                  then with_play (set_isPaused true) w2
                  else w2,
                  evs1 ++ evs2)
        end
    end.

(** The partitions in the order of [__notifyNodes] and of the resets in
    [start]. *)
Definition all_nodes (p : Play) : list NodeId :=
  storageNodes p ++ processNodes p ++ compositeNodes p ++ entryNodes p.

(** [__notifyNodes('onStart', [])] *)
Definition notify_onStart (w : World) : World :=
  foldl (fun w' id => onStart id w') w (all_nodes (play w)).

(** The first part of [wcPlay.start]: the engine is paused, the
    properties of the script and then the nodes, partition by partition,
    are reset. *)
Definition start_reset (w : World) : World :=
  let w1 := with_play (set_isPaused true) w in
  let w2 :=
    with_play
      (fun p =>
         set_script_properties
           (map (fun sp => set_sp_value (sp_initialValue sp) sp)
              (properties p))
           p)
      w1 in
  foldl (fun w' id => reset id w') w2 (all_nodes (play w2)).

(** The second part: the queues are emptied, the flags cleared and the
    interval of the ticks is set up.  The test [!this._updateId] reads a
    field that is never written (the interval goes to [_updateID]), so
    that it holds at every call. *)
Definition start_run (w3 : World) : World :=
  let w4 :=
    with_play (fun p => set_queuedProperties [] (set_queuedChain [] p)) w3 in
  let w5 :=
    with_play (fun p => set_isStepping false (set_isPaused false p)) w4 in
  let (w6, id) := setTimeout w5 in
  with_play (set_updateID id) w6.

(** [wcPlay.start]: the two parts, then the [onStart] of every node. *)
Definition start (w : World) : World :=
  notify_onStart (start_run (start_reset w)).

End Scheduler.

(** ** Building nodes *)

(** [wcNode.createEntry] *)
Definition createEntry (self : NodeId) (name : string) (h : Heap)
  : Heap * bool :=
  match h !! self with
  | None => (h, false)
  | Some n =>
      if existsb (link_named name) (n_entry n) then (h, false)
      else
        (alter (set_entry (fun l => l ++ [mkLink name [] meta0])) self h,
         true)
  end.

(** [wcNode.createExit] *)
Definition createExit (self : NodeId) (name : string) (h : Heap)
  : Heap * bool :=
  match h !! self with
  | None => (h, false)
  | Some n =>
      if existsb (link_named name) (n_exit n) then (h, false)
      else
        (alter (set_exit (fun l => l ++ [mkLink name [] meta0])) self h,
         true)
  end.

(** [wcNode.createProperty]: an absent initial value is [0]. *)
Definition createProperty (self : NodeId) (name : string) (type : string)
    (initialValue : Value) (h : Heap) : Heap * bool :=
  match h !! self with
  | None => (h, false)
  | Some n =>
      if existsb (prop_named name) (n_properties n) then (h, false)
      else
        let v :=
          if strict_eq initialValue VUndefined then VNum 0
          else initialValue in
        (alter
           (set_properties
              (fun l => l ++ [mkProperty name v v type [] [] meta0 meta0]))
           self h,
         true)
  end.

(** [wcPlay.__addNode]; there is no composite class in the script. *)
Definition addNode (node : NodeId) (c : NodeClass) (p : Play) : Play :=
  match kind_of c with
  | Some KEntry =>
      mkPlay (entryNodes p ++ [node]) (processNodes p) (compositeNodes p)
        (storageNodes p) (properties p) (queuedChain p) (queuedProperties p)
        (updateID p) (isPaused p) (isStepping p) (options p)
  | Some KProcess =>
      mkPlay (entryNodes p) (processNodes p ++ [node]) (compositeNodes p)
        (storageNodes p) (properties p) (queuedChain p) (queuedProperties p)
        (updateID p) (isPaused p) (isStepping p) (options p)
  | Some KStorage =>
      mkPlay (entryNodes p) (processNodes p) (compositeNodes p)
        (storageNodes p ++ [node]) (properties p) (queuedChain p)
        (queuedProperties p) (updateID p) (isPaused p) (isStepping p)
        (options p)
  | _ => p
  end.

(** The [init] of the classes above [wcNode.init], which has run. *)
Definition init_class (c : NodeClass) (self : NodeId) (h : Heap) : Heap :=
  match c with
  | wcNode | wcNodeStorage => h
  | wcNodeEntry | wcNodeEntryStart => fst (createExit self "out" h)
  | wcNodeProcess =>
      fst (createExit self "out" (fst (createEntry self "in" h)))
  | wcNodeProcessDelay =>
      let h1 := fst (createExit self "out" (fst (createEntry self "in" h))) in
      fst (createProperty self "milliseconds" "number" (VNum 1000)
             (fst (createExit self "finished" h1)))
  | wcNodeProcessConsoleLog =>
      let h1 := fst (createExit self "out" (fst (createEntry self "in" h))) in
      fst (createProperty self "message" "string" (VStr "Log message.") h1)
  | wcNodeProcessAlert =>
      let h1 := fst (createExit self "out" (fst (createEntry self "in" h))) in
      fst (createProperty self "message" "string" (VStr "Alert message.") h1)
  | wcNodeProcessOperation =>
      let h1 := fst (createExit self "out" (fst (createEntry self "in" h))) in
      let h2 :=
        match removeEntry 1 self "in" h1 with
        | Some (h', _) => h'
        | None => h1
        end in
      let h3 :=
        fst (createEntry self "div"
               (fst (createEntry self "mul"
                       (fst (createEntry self "sub"
                               (fst (createEntry self "add" h2))))))) in
      fst (createProperty self "result" "number" (VNum 0)
             (fst (createProperty self "valueB" "number" (VNum 0)
                     (fst (createProperty self "valueA" "number" (VNum 0)
                             h3)))))
  | wcNodeStorageToggle =>
      fst (createProperty self "value" "toggle" (VBool false) h)
  | wcNodeStorageNumber =>
      fst (createProperty self "value" "number" VUndefined h)
  | wcNodeStorageString =>
      fst (createProperty self "value" "string" (VStr EmptyString) h)
  end.

(** [new c(engine, pos)]: [wcNode.init] makes the object with its two
    default properties and registers it, then the class adds its own
    links and properties.  The result holds the address of the node. *)
Definition new_node (c : NodeClass) (w : World) : World * NodeId :=
  let self := length (heap w) in
  let n :=
    mkNode c [] [] [] (mkNodeMeta false false false []) false true in
  let h1 := heap w ++ [n] in
  let h2 :=
    fst (createProperty self "debug log" "toggle" (VBool false)
           (fst (createProperty self "enabled" "toggle" (VBool true) h1))) in
  (mkWorld (init_class c self h2) (addNode self c (play w)) (host w), self).

(** [new wcPlay(options)] on a host that has given out no timer yet. *)
Definition new_play (o : Options) : World :=
  mkWorld [] (mkPlay [] [] [] [] [] [] [] 0 false false o) (mkHost [] 1).

(** ** Worlds for the examples *)

(** The arithmetic of the Operation node on integers, where it is exact:
    a quotient is given when the division leaves no remainder.  The other
    cases yield numbers that [Value] does not hold; [VUndefined] stands
    for them here. *)
Definition operate_int (op : string) (a b : Value) : Value :=
  match a, b with
  | VNum x, VNum y =>
      if String.eqb op "add" then VNum (x + y)
      else if String.eqb op "sub" then VNum (x - y)
      else if String.eqb op "mul" then VNum (x * y)
      else if negb (Z.eqb y 0) && Z.eqb (Z.modulo x y) 0 then VNum (x / y)
      else VUndefined
  | _, _ => VUndefined
  end.

(** The options of the demo page, with a small [updateLimit]. *)
Definition demo_options (limit : nat) : Options :=
  mkOptions false 10 limit true.

(** A script with one property of its own and a Delay node. *)
Definition script_world : World :=
  let w0 := new_play (demo_options 100) in
  let w1 :=
    with_play
      (set_script_properties
         [mkScriptProperty "speed" (VNum 3) (VNum 3) "number"])
      w0 in
  fst (new_node wcNodeProcessDelay w1).


(** A Process node with a breakpoint, in an engine that is running. *)
Definition breakpoint_world : World :=
  let (w1, a) := new_node wcNodeProcess (new_play (demo_options 100)) in
  set_debugBreak a true w1.

(** An engine with [updateLimit] 2 and a Process node; one property
    update and two triggers of the entry [in] are waiting. *)
Definition busy_world : World :=
  let (w1, a) := new_node wcNodeProcess (new_play (demo_options 2)) in
  let w2 := triggerProperty a "debug log" (VBool true) w1 in
  let w3 := fst (triggerEntry a "in" w2) in
  fst (triggerEntry a "in" w3).

(** An Operation node whose [result] feeds the [message] of a Console Log
    node.  [valueA] is 1; the entry [add] of the first and the entry [in]
    of the second have been triggered, in this order. *)
Definition interleave_world : World :=
  let (w1, op) :=
    new_node wcNodeProcessOperation (new_play (demo_options 100)) in
  let (w2, log) := new_node wcNodeProcessConsoleLog w1 in
  let w3 := fst (connectOutput op "result" log "message" w2) in
  let w4 := fst (property op "valueA" (VNum 1) None w3) in
  let w5 := fst (triggerEntry op "add" w4) in
  fst (triggerEntry log "in" w5).

(** A Start node whose [out] is connected to the [in] of a Delay node that
    has run once: its timer is outstanding and its [milliseconds] has been
    changed. *)
Definition started_world : World :=
  let (w1, st) := new_node wcNodeEntryStart (new_play (demo_options 100)) in
  let (w2, d) := new_node wcNodeProcessDelay w1 in
  let w3 := fst (connectExit st "out" d "in" w2) in
  let w4 := fst (property d "milliseconds" (VNum 5) None w3) in
  onTriggered operate_int d "in" w4.

(** The same without the connection. *)
Definition unconnected_world : World :=
  let (w1, st) := new_node wcNodeEntryStart (new_play (demo_options 100)) in
  let (w2, d) := new_node wcNodeProcessDelay w1 in
  let w4 := fst (property d "milliseconds" (VNum 5) None w2) in
  onTriggered operate_int d "in" w4.

(** Two Process nodes, the second with an entry and an exit of empty
    name, connected three times. *)
Definition linked_world : World :=
  let (w1, a) := new_node wcNodeProcess (new_play (demo_options 100)) in
  let (w2, b) := new_node wcNodeProcess w1 in
  let w3 := with_heap (fun h => fst (createEntry b EmptyString h)) w2 in
  let w4 := with_heap (fun h => fst (createExit a EmptyString h)) w3 in
  let w5 := fst (connectExit a "out" b "in" w4) in
  let w6 := fst (connectExit a "out" b EmptyString w5) in
  fst (connectExit a EmptyString b EmptyString w6).

(** ** The properties that the theorems are about *)

(** The number of references that a heap holds. *)
Definition link_size (l : Link) : nat := length (l_links l).

Definition prop_size (p : Property) : nat :=
  length (p_inputs p) + length (p_outputs p).

Definition node_size (n : Node) : nat :=
  sum_list_with link_size (n_entry n) + sum_list_with link_size (n_exit n)
  + sum_list_with prop_size (n_properties n).

Definition heap_size (h : Heap) : nat := sum_list_with node_size h.

(** Link symmetry: when the link [x] of side [t] of node [a] holds the
    reference [r], the link that [r] names holds the reference back. *)
Definition symmetric (h : Heap) : Prop :=
  forall t a x r,
    r ∈ refs_of h t a x ->
    mkRef x a ∈ refs_of h (opposite t) (r_node r) (r_name r).

(** No array of references holds a pairing twice. *)
Definition unique_refs (h : Heap) : Prop :=
  forall t a x, NoDup (refs_of h t a x).

(** A reference whose counterpart is missing. *)
Definition dangling (h : Heap) (t : LINK_TYPE) (a : NodeId) (x : string)
    (r : Ref) : Prop :=
  r ∈ refs_of h t a x /\
  mkRef x a ∉ refs_of h (opposite t) (r_node r) (r_name r).

(** The arrays of one side of a node, with the names of their links. *)
Definition links_of (t : LINK_TYPE) (n : Node) : list (string * list Ref) :=
  match t with
  | ENTRY => map (fun l => (l_name l, l_links l)) (n_entry n)
  | EXIT => map (fun l => (l_name l, l_links l)) (n_exit n)
  | INPUT => map (fun p => (p_name p, p_inputs p)) (n_properties n)
  | OUTPUT => map (fun p => (p_name p, p_outputs p)) (n_properties n)
  end.

Fixpoint nodupb (l : list Ref) : bool :=
  match l with
  | [] => true
  | r :: l' => negb (has_ref (r_node r) (r_name r) l') && nodupb l'
  end.

(** The two properties above as a test that runs over every array of the
    heap. *)
Definition node_ok (h : Heap) (a : NodeId) (n : Node) : bool :=
  forallb
    (fun t =>
       forallb
         (fun xl =>
            nodupb (snd xl)
            && forallb
                 (fun r =>
                    has_ref a (fst xl)
                      (refs_of h (opposite t) (r_node r) (r_name r)))
                 (snd xl))
         (links_of t n))
    [ENTRY; EXIT; INPUT; OUTPUT].

Fixpoint nodes_ok (h : Heap) (a : NodeId) (l : list Node) : bool :=
  match l with
  | [] => true
  | n :: l' => node_ok h a n && nodes_ok h (S a) l'
  end.

Definition graph_ok (h : Heap) : bool := nodes_ok h 0 h.

(** [l'] is [l] without some of its elements, all of which satisfy [P]. *)
Inductive sub_drop {A : Type} (P : A -> Prop) : list A -> list A -> Prop :=
  | sub_drop_nil : sub_drop P [] []
  | sub_drop_keep a l l' : sub_drop P l l' -> sub_drop P (a :: l) (a :: l')
  | sub_drop_skip a l l' : P a -> sub_drop P l l' -> sub_drop P (a :: l) l'.

(** The references that a disconnect on node [A] with the node argument
    [tn] may remove: those between [A] and the node that [tn] allows. *)
Definition ok (tn : option NodeId) (b : NodeId) : Prop :=
  match tn with
  | None => True
  | Some c => b = c
  end.

Definition allowed (A : NodeId) (tn : option NodeId) (a : NodeId) (r : Ref)
  : Prop :=
  (a = A /\ ok tn (r_node r)) \/ (r_node r = A /\ ok tn a).

Definition shrinks (A : NodeId) (tn : option NodeId) (h h' : Heap) : Prop :=
  forall t a x, sub_drop (allowed A tn a) (refs_of h t a x) (refs_of h' t a x).

(** What a run of the disconnect loop from index [i] on ends in: with
    fuel enough it gives [h'], which holds fewer references and no
    dangling one that [h] had not; and when the call names a node, no
    reference that passes the filter is left in the array, provided those
    before [i] do not pass it. *)
Definition loop_result (h : Heap) (t : LINK_TYPE) (A : NodeId) (x : string)
    (tn : option NodeId) (tname : option string) (i : nat) (fuel : nat)
    (h' : Heap) : Prop :=
  (forall fuel', fuel <= fuel' ->
     disconnect_loop fuel' t A x tn tname i h = Some h') /\
  heap_size h' <= heap_size h /\
  shrinks A tn h h' /\
  (forall t0 a0 x0 r0, dangling h' t0 a0 x0 r0 -> dangling h t0 a0 x0 r0) /\
  (is_Some tn ->
   (forall j r, j < i -> refs_of h t A x !! j = Some r ->
      link_filter tn tname r = false) ->
   forall r, r ∈ refs_of h' t A x -> link_filter tn tname r = false).

(** A function on nodes that leaves every array of references as it is. *)
Definition keeps_links (f : Node -> Node) : Prop :=
  forall n t x, node_refs t (f n) x = node_refs t n x.

Definition same_links (w w' : World) : Prop :=
  forall t a x, refs_opt (heap w') t a x = refs_opt (heap w) t a x.

(** Items are only added to the queues, at their end. *)
Definition queues_grow (w w' : World) : Prop :=
  options (play w') = options (play w) /\
  (exists c, queuedChain (play w') = queuedChain (play w) ++ c) /\
  (exists p, queuedProperties (play w') = queuedProperties (play w) ++ p).

(** The same, with nothing added to the queue of entry links. *)
Definition properties_grow (w w' : World) : Prop :=
  options (play w') = options (play w) /\
  queuedChain (play w') = queuedChain (play w) /\
  (exists p, queuedProperties (play w') = queuedProperties (play w) ++ p).

(** A world without the marks that the editor shows. *)
Definition erase_link (l : Link) : Link :=
  mkLink (l_name l) (l_links l) meta0.

Definition erase_property (p : Property) : Property :=
  mkProperty (p_name p) (p_value p) (p_initialValue p) (p_type p)
    (p_inputs p) (p_outputs p) meta0 meta0.

Definition erase_node (n : Node) : Node :=
  mkNode (n_class n) (map erase_link (n_entry n))
    (map erase_link (n_exit n)) (map erase_property (n_properties n))
    (mkNodeMeta false false (nm_awake (n_meta n)) (nm_threads (n_meta n)))
    (n_break n) (n_parent n).

Definition erase_play (p : Play) : Play :=
  mkPlay (entryNodes p) (processNodes p) (compositeNodes p) (storageNodes p)
    (properties p) [] [] (updateID p) false (isStepping p) (options p).

(** [w'] differs from [w] at most in flash and pause marks, in the queues
    and in the pause flag of the engine. *)
Definition only_visual (w w' : World) : Prop :=
  map erase_node (heap w') = map erase_node (heap w) /\
  erase_play (play w') = erase_play (play w) /\
  host w' = host w.

(** Every property has its initial value and no thread is left. *)
Definition node_reset (n : Node) : Prop :=
  Forall (fun p => p_value p = p_initialValue p) (n_properties n) /\
  nm_threads (n_meta n) = [].

(** What [onStart] of a node finds to send to: the outputs of [value] of
    a Storage node, the links of [out] of a Start node. *)
Definition start_targets (h : Heap) (id : NodeId) : list Ref :=
  match h !! id with
  | None => []
  | Some n =>
      match n_class n with
      | wcNodeStorage | wcNodeStorageToggle | wcNodeStorageNumber
      | wcNodeStorageString => refs_of h OUTPUT id "value"
      | wcNodeEntryStart => refs_of h EXIT id "out"
      | _ => []
      end
  end.

(** No node of the engine has anything to send to at the start. *)
Definition quiet (w : World) : bool :=
  forallb
    (fun id => match start_targets (heap w) id with [] => true | _ => false end)
    (all_nodes (play w)).

(** The state of the loops of resets in [start] that began in [w0], with
    [done] the nodes whose turn has come. *)
Definition resetting (w0 : World) (done : list NodeId) (w : World) : Prop :=
  play w = play w0 /\
  nextTimer (host w) = nextTimer (host w0) /\
  same_links w0 w /\
  (forall j, n_class <$> heap w !! j = n_class <$> heap w0 !! j) /\
  (forall j n, heap w0 !! j = Some n -> j ∉ done ->
     exists n', heap w !! j = Some n' /\
       nm_threads (n_meta n') = nm_threads (n_meta n)) /\
  (forall j n', j ∈ done -> heap w !! j = Some n' -> node_reset n') /\
  (forall t, t ∈ timers (host w) ->
     t ∈ timers (host w0) /\
     forall j n, j ∈ done -> heap w0 !! j = Some n ->
       ThreadNumber t ∉ nm_threads (n_meta n)).

(** An array of references without the references to one link. *)
Definition without (r : Ref) (l : list Ref) : list Ref :=
  List.filter (fun r' => negb (ref_eqb r' r)) l.

(** [h'] is [h] without some references, each of which [P] allows in its
    array. *)
Definition drops (P : LINK_TYPE -> nat -> string -> Ref -> Prop)
    (h h' : list Node) : Prop :=
  forall t a x, sub_drop (P t a x) (refs_of h t a x) (refs_of h' t a x).

(** The references that involve the link [x] of side [t] of node [A]:
    those of its own array, and the references back to it. *)
Definition own_link (t : LINK_TYPE) (A : nat) (x : string)
    (t0 : LINK_TYPE) (a0 : nat) (x0 : string) (r : Ref) : Prop :=
  (t0, a0, x0) = (t, A, x) \/ (t0 = opposite t /\ r = mkRef x A).

(** The two references that make the pairing of the link [x] of [A] with
    the link [y] of [B]. *)
Definition one_pair (t : LINK_TYPE) (A : nat) (x : string) (B : nat)
    (y : string) (t0 : LINK_TYPE) (a0 : nat) (x0 : string) (r : Ref) : Prop :=
  ((t0, a0, x0) = (t, A, x) /\ r = mkRef y B) \/
  ((t0, a0, x0) = (opposite t, B, y) /\ r = mkRef x A).

(** [removeEntry] or [removeExit], by the side of the link. *)
Definition remove_link (fuel : nat) (t : LINK_TYPE) (self : nat)
    (name : string) (h : list Node) : option (list Node * bool) :=
  match t with
  | ENTRY => removeEntry fuel self name h
  | _ => removeExit fuel self name h
  end.

(** A node without its references. *)
Definition strip_link (l : Link) : Link := mkLink (l_name l) [] (l_meta l).

Definition strip_property (p : Property) : Property :=
  mkProperty (p_name p) (p_value p) (p_initialValue p) (p_type p) [] []
    (p_inputMeta p) (p_outputMeta p).

Definition strip_node (n : Node) : Node :=
  mkNode (n_class n) (map strip_link (n_entry n)) (map strip_link (n_exit n))
    (map strip_property (n_properties n)) (n_meta n) (n_break n) (n_parent n).

(** [h'] differs from [h] in arrays of references at most. *)
Definition same_nodes (h h' : list Node) : Prop :=
  map strip_node h' = map strip_node h.

(** The names of the links of one side of a node, in their order. *)
Definition link_names (t : LINK_TYPE) (n : Node) : list string :=
  match t with
  | ENTRY => map l_name (n_entry n)
  | EXIT => map l_name (n_exit n)
  | INPUT | OUTPUT => map p_name (n_properties n)
  end.

(** ** Destroying nodes *)

(** The first two loops of [wcNode.destroy], over the entry links
    ([t = ENTRY]) and over the exit links ([t = EXIT]), from index [i]
    on: the link of every index is disconnected from all its targets. *)
Fixpoint destroy_links (fuel : nat) (t : LINK_TYPE) (self : nat) (i : nat)
    (h : list Node) : option (list Node) :=
  match fuel with
  | O => None
  | S fuel' =>
      match name_at h t self i with
      | None => Some h
      | Some name =>
          match disconnect fuel' t self name None None h with
          | None => None
          | Some (h1, _) => destroy_links fuel' t self (S i) h1
          end
      end
  end.

(** The third loop, over the properties: the inputs and then the outputs
    of each are disconnected. *)
Fixpoint destroy_properties (fuel : nat) (self : nat) (i : nat)
    (h : list Node) : option (list Node) :=
  match fuel with
  | O => None
  | S fuel' =>
      match name_at h INPUT self i with
      | None => Some h
      | Some name =>
          match disconnectInput fuel' self name None None h with
          | None => None
          | Some (h1, _) =>
              match disconnectOutput fuel' self name None None h1 with
              | None => None
              | Some (h2, _) => destroy_properties fuel' self (S i) h2
              end
          end
      end
  end.

(** [array.indexOf(node)], with [None] for [-1]. *)
Fixpoint index_of (node : nat) (l : list nat) : option nat :=
  match l with
  | [] => None
  | a :: l' => if Nat.eqb a node then Some 0 else S <$> index_of node l'
  end.

(** [array.splice(array.indexOf(node), 1)]: a start of [-1] is the last
    index, so that the last element goes when the node is not found. *)
Definition splice_indexOf (node : nat) (l : list nat) : list nat :=
  match index_of node l with
  | Some i => delete i l
  | None => delete (length l - 1) l
  end.

(** The array of the engine that holds the nodes of a kind. *)
Definition partition_of (k : NODE_TYPE) (p : Play) : list nat :=
  match k with
  | KEntry => entryNodes p
  | KProcess => processNodes p
  | KComposite => compositeNodes p
  | KStorage => storageNodes p
  end.

Definition set_partition (k : NODE_TYPE) (l : list nat) (p : Play) : Play :=
  match k with
  | KEntry =>
      mkPlay l (processNodes p) (compositeNodes p) (storageNodes p)
        (properties p) (queuedChain p) (queuedProperties p) (updateID p)
        (isPaused p) (isStepping p) (options p)
  | KProcess =>
      mkPlay (entryNodes p) l (compositeNodes p) (storageNodes p)
        (properties p) (queuedChain p) (queuedProperties p) (updateID p)
        (isPaused p) (isStepping p) (options p)
  | KComposite =>
      mkPlay (entryNodes p) (processNodes p) l (storageNodes p)
        (properties p) (queuedChain p) (queuedProperties p) (updateID p)
        (isPaused p) (isStepping p) (options p)
  | KStorage =>
      mkPlay (entryNodes p) (processNodes p) (compositeNodes p) l
        (properties p) (queuedChain p) (queuedProperties p) (updateID p)
        (isPaused p) (isStepping p) (options p)
  end.

(** [wcPlay.__removeNode].  For a node that is neither an Entry, a Process
    nor a Storage node the last test, [node instanceof wcNodeComposite],
    names a class that the script does not define and cannot be
    evaluated: [None]. *)
Definition removeNode (node : nat) (c : NodeClass) (p : Play) : option Play :=
  match kind_of c with
  | Some k => Some (set_partition k (splice_indexOf node (partition_of k p)) p)
  | None => None
  end.

(** [wcNode.destroy] *)
Definition destroy (fuel : nat) (self : nat) (w : World) : option World :=
  match destroy_links fuel ENTRY self 0 (heap w) with
  | None => None
  | Some h1 =>
      match destroy_links fuel EXIT self 0 h1 with
      | None => None
      | Some h2 =>
          match destroy_properties fuel self 0 h2 with
          | None => None
          | Some h3 =>
              let w1 := reset self (with_heap (fun _ => h3) w) in
              match heap w1 !! self with
              | None => Some w1
              | Some n =>
                  if n_parent n then
                    match removeNode self (n_class n) (play w1) with
                    | None => None
                    | Some p => Some (with_play (fun _ => p) w1)
                    end
                  else Some w1
              end
          end
      end
  end.

(** One [while] loop of [wcPlay.clear]: the first node of the array is
    destroyed until the array is empty. *)
Fixpoint clear_partition (fuel : nat) (k : NODE_TYPE) (w : World)
  : option World :=
  match fuel with
  | O => None
  | S fuel' =>
      match partition_of k (play w) with
      | [] => Some w
      | node :: _ =>
          match destroy fuel' node w with
          | None => None
          | Some w1 => clear_partition fuel' k w1
          end
      end
  end.

(** [wcPlay.clear] *)
Definition clear (fuel : nat) (w : World) : option World :=
  let w0 :=
    with_play
      (fun p =>
         set_script_properties []
           (set_queuedProperties [] (set_queuedChain [] p)))
      w in
  match clear_partition fuel KStorage w0 with
  | None => None
  | Some w1 =>
      match clear_partition fuel KProcess w1 with
      | None => None
      | Some w2 =>
          match clear_partition fuel KComposite w2 with
          | None => None
          | Some w3 => clear_partition fuel KEntry w3
          end
      end
  end.


(** [h'] is [h] without some references from or to node [A]; nothing
    else of a node differs. *)
Definition unlinking (A : nat) (h h' : list Node) : Prop :=
  same_nodes h h' /\
  (forall t a x r, r ∈ refs_of h' t a x -> r ∈ refs_of h t a x) /\
  (forall t a x r,
     r ∈ refs_of h t a x -> a <> A -> r_node r <> A -> r ∈ refs_of h' t a x).

(** The arrays of the engine hold nodes of the heap that belong to it,
    each in the array of its kind. *)
Definition registered (w : World) : Prop :=
  forall k a, a ∈ partition_of k (play w) ->
    exists n, heap w !! a = Some n /\ kind_of (n_class n) = Some k /\
              n_parent n = true.

(** What the heap and the host are after the nodes of [l] have been
    destroyed: the graph is symmetric, no reference from or to a node of
    [l] is left and none is added, the references between other nodes
    stay, the other nodes are as they were (references apart), the nodes
    of [l] are reset, and the timers of their threads are cleared. *)
Definition destroyed (l : list nat) (w w' : World) : Prop :=
  symmetric (heap w') /\ unique_refs (heap w') /\
  length (heap w') = length (heap w) /\
  (forall t a x r, r ∈ refs_of (heap w') t a x ->
     r ∈ refs_of (heap w) t a x /\ (a ∉ l) /\ (r_node r ∉ l)) /\
  (forall t a x r, r ∈ refs_of (heap w) t a x -> a ∉ l -> r_node r ∉ l ->
     r ∈ refs_of (heap w') t a x) /\
  (forall b, b ∉ l ->
     strip_node <$> heap w' !! b = strip_node <$> heap w !! b) /\
  (forall b n, b ∈ l -> heap w !! b = Some n ->
     strip_node <$> heap w' !! b = Some (strip_node (reset_node n))) /\
  nextTimer (host w') = nextTimer (host w) /\
  (forall t, t ∈ timers (host w') <->
     t ∈ timers (host w) /\
     forall b n, b ∈ l -> heap w !! b = Some n ->
       ThreadNumber t ∉ nm_threads (n_meta n)).

#[global] Instance NODE_TYPE_eq_dec : EqDecision NODE_TYPE.
Proof. solve_decision. Defined.

(** [registered] as a test that runs over the four arrays. *)
Definition registeredb (w : World) : bool :=
  forallb
    (fun k =>
       forallb
         (fun a =>
            match heap w !! a with
            | Some n =>
                bool_decide (kind_of (n_class n) = Some k) && n_parent n
            | None => false
            end)
         (partition_of k (play w)))
    [KEntry; KProcess; KComposite; KStorage].

(** Whether the engine queues a trigger of the entry link [x] of a node:
    the node has the link, belongs to an engine and is enabled. *)
Definition node_takes_entry (n : Node) (x : string) : bool :=
  match find_first (link_named x) (n_entry n) with
  | Some _ => n_parent n && truthy (enabled n)
  | None => false
  end.

Definition takes_entry (w : World) (r : Ref) : bool :=
  match heap w !! r_node r with
  | Some n => node_takes_entry n (r_name r)
  | None => false
  end.

(** Whether the engine queues an update of a property of a node: the node
    belongs to an engine and is enabled; the property needs not exist. *)
Definition node_takes_property (n : Node) : bool :=
  n_parent n && truthy (enabled n).

Definition takes_property (w : World) (r : Ref) : bool :=
  match heap w !! r_node r with
  | Some n => node_takes_property n
  | None => false
  end.

(** The items that the queues get for a reference. *)
Definition chain_item (r : Ref) : ChainItem :=
  mkChainItem (r_node r) (r_name r).

Definition property_item (v : Value) (r : Ref) : PropertyItem :=
  mkPropertyItem (r_node r) (r_name r) v.

(** Whether [property] with a value sends the value on to the outputs:
    forced, or not silenced and changed. *)
Definition sends (forceOrSilent : option bool) (old v : Value) : bool :=
  match forceOrSilent with
  | Some b => b
  | None => negb (strict_eq old v)
  end.

(** The update that a new connection sends: the value of the output
    [x] of [a] for the input [y] of [b], when the engine queues it. *)
Definition connect_update (w : World) (a : NodeId) (x : string)
    (b : NodeId) (y : string) : list PropertyItem :=
  if takes_property w (mkRef y b)
  then [mkPropertyItem b y (value_of w a x)]
  else [].

(** A node without what a tick may change: the values of its properties,
    the marks of the editor, its threads and its awake flag. *)
Definition frame_property (p : Property) : Property :=
  mkProperty (p_name p) VUndefined (p_initialValue p) (p_type p)
    (p_inputs p) (p_outputs p) meta0 meta0.

Definition frame_node (n : Node) : Node :=
  mkNode (n_class n) (map erase_link (n_entry n)) (map erase_link (n_exit n))
    (map frame_property (n_properties n))
    (mkNodeMeta false false false []) (n_break n) (n_parent n).

(** [w'] has the nodes of [w] with their links, their initial values and
    their breakpoints, and the engine of [w] but for its queues and its
    pause flag; no timer of [w] has been cleared. *)
Definition tick_frame (w w' : World) : Prop :=
  map frame_node (heap w') = map frame_node (heap w) /\
  erase_play (play w') = erase_play (play w) /\
  nextTimer (host w) <= nextTimer (host w') /\
  (forall t, t ∈ timers (host w) -> t ∈ timers (host w')).

Definition is_storage (c : NodeClass) : bool :=
  match c with
  | wcNodeStorage | wcNodeStorageToggle | wcNodeStorageNumber
  | wcNodeStorageString => true
  | _ => false
  end.

(** The updates that [onStart] of a node queues, given the test of the
    targets: a Storage node sends the value of [value], when it has one,
    to the outputs of that property. *)
Definition node_start_updates (takes : Ref -> bool) (n : Node)
  : list PropertyItem :=
  if is_storage (n_class n) then
    match find_first (prop_named "value") (n_properties n) with
    | Some p =>
        if strict_eq (p_value p) VUndefined then []
        else map (property_item (p_value p)) (List.filter takes (p_outputs p))
    | None => []
    end
  else [].

Definition start_updates (w : World) (id : nat) : list PropertyItem :=
  match heap w !! id with
  | Some n => node_start_updates (takes_property w) n
  | None => []
  end.

(** The entries that it queues: a Start node triggers its exit [out]. *)
Definition node_start_entries (takes : Ref -> bool) (n : Node)
  : list ChainItem :=
  match n_class n with
  | wcNodeEntryStart =>
      match find_first (link_named "out") (n_exit n) with
      | Some l => map chain_item (List.filter takes (l_links l))
      | None => []
      end
  | _ => []
  end.

Definition start_entries (w : World) (id : nat) : list ChainItem :=
  match heap w !! id with
  | Some n => node_start_entries (takes_entry w) n
  | None => []
  end.

(** ** Well-formed scripts *)

(** The links of each side of a node have distinct names. *)
Definition names_distinct (h : list Node) : Prop :=
  forall a n t, h !! a = Some n -> NoDup (link_names t n).

(** The invariant of the heap: link symmetry, no doubled reference,
    distinct names. *)
Definition heap_ok (h : list Node) : Prop :=
  symmetric h /\ unique_refs h /\ names_distinct h.

(** Each node is of a class that the engine keeps in one of its arrays,
    and belongs to the engine. *)
Definition owned (h : list Node) : Prop :=
  forall a n, h !! a = Some n ->
    kind_of (n_class n) <> None /\ n_parent n = true.

(** The invariant of a script: that of the heap, and the arrays of the
    engine hold nodes of the heap, none of them twice, each in the array
    of its kind. *)
Definition well_formed (w : World) : Prop :=
  heap_ok (heap w) /\ owned (heap w) /\ registered w /\
  NoDup (all_nodes (play w)).

(** The class of a node and whether it belongs to an engine. *)
Definition kind_shape (n : Node) : NodeClass * bool := (n_class n, n_parent n).

(** [h'] has the nodes of [h], with their classes and engines. *)
Definition same_kinds (h h' : list Node) : Prop :=
  map kind_shape h' = map kind_shape h.

(** The arrays of references are the same. *)
Definition same_graph (h h' : list Node) : Prop :=
  forall t a x, refs_of h' t a x = refs_of h t a x.

(** The names of the links are the same. *)
Definition same_names (h h' : list Node) : Prop :=
  forall a t, link_names t <$> h' !! a = link_names t <$> h !! a.

(** [h'] keeps the invariant of the heap [h], and the kinds of its
    nodes. *)
Definition keeps_ok (h h' : list Node) : Prop :=
  heap_ok h -> heap_ok h' /\ same_kinds h h'.

(** ** Scripts as sequences of calls *)

(** The calls of the interface that build and run a script. *)
Inductive Call : Type :=
  | New (c : NodeClass)
  | CreateEntry (self : NodeId) (name : string)
  | CreateExit (self : NodeId) (name : string)
  | CreateProperty (self : NodeId) (name type : string) (initialValue : Value)
  | RemoveEntry (self : NodeId) (name : string)
  | RemoveExit (self : NodeId) (name : string)
  | RemoveProperty (self : NodeId) (name : string)
  | Relink (op : LinkOp)
  | SetProperty (self : NodeId) (name : string) (value : Value)
      (forceOrSilent : option bool)
  | SetInitialProperty (self : NodeId) (name : string) (value : Value)
  | TriggerEntry (self : NodeId) (name : string)
  | TriggerExit (self : NodeId) (name : string)
  | Start
  | Update
  | Destroy (self : NodeId)
  | Clear.

(** [new c(engine)] of a class that is none of the kinds of the engine
    reaches the test [node instanceof wcNodeComposite] of [__addNode],
    whose class is not defined: such a call is left out. *)
Definition valid_call (c : Call) : Prop :=
  match c with
  | New c => kind_of c <> None
  | _ => True
  end.

(** The world after a call that works on the heap. *)
Definition on_heap {B : Type} (r : option (list Node * B)) (w : World)
  : option World :=
  match r with
  | Some (h, _) => Some (with_heap (fun _ => h) w)
  | None => None
  end.

Section Calls.
Variable operate : string -> Value -> Value -> Value.

Definition run_call (fuel : nat) (c : Call) (w : World) : option World :=
  match c with
  | New c => Some (fst (new_node c w))
  | CreateEntry self name => on_heap (Some (createEntry self name (heap w))) w
  | CreateExit self name => on_heap (Some (createExit self name (heap w))) w
  | CreateProperty self name type v =>
      on_heap (Some (createProperty self name type v (heap w))) w
  | RemoveEntry self name => on_heap (removeEntry fuel self name (heap w)) w
  | RemoveExit self name => on_heap (removeExit fuel self name (heap w)) w
  | RemoveProperty self name =>
      on_heap (removeProperty fuel self name (heap w)) w
  | Relink op => fst <$> run_op fuel op w
  | SetProperty self name v fos => Some (fst (property self name v fos w))
  | SetInitialProperty self name v =>
      Some (fst (initialProperty self name v w))
  | TriggerEntry self name => Some (fst (triggerEntry self name w))
  | TriggerExit self name => Some (fst (triggerExit self name w))
  | Start => Some (start w)
  | Update => fst <$> update operate w
  | Destroy self => destroy fuel self w
  | Clear => clear fuel w
  end.

Fixpoint run_calls (fuel : nat) (cs : list Call) (w : World) : option World :=
  match cs with
  | [] => Some w
  | c :: cs' =>
      match run_call fuel c w with
      | None => None
      | Some w' => run_calls fuel cs' w'
      end
  end.

End Calls.

(** A script that is built, run, changed and cleared: a Start node that
    leads to a Delay node. *)
Definition demo_calls : list Call :=
  [ New wcNodeEntryStart; New wcNodeProcessDelay;
    Relink (Connect EXIT 0 "out" 1 "in");
    CreateEntry 1 "again"; CreateEntry 1 "again";
    SetInitialProperty 1 "milliseconds" (VNum 20);
    Start; Update; Update;
    Relink (Disconnect ENTRY 1 "in" None None);
    Relink (Connect ENTRY 1 "again" 0 "out");
    RemoveEntry 1 "again"; RemoveProperty 1 "milliseconds";
    Destroy 0; Destroy 0; New wcNodeStorageNumber; Clear ].

(** ** The handlers of the Delay node *)

(** The function that [wcNodeProcessDelay.onTriggered] hands to
    [setTimeout], at the moment the host runs it: the timer [id] has
    elapsed and is no longer one of the timers of the host. *)
Definition delay_elapsed (self : NodeId) (id : nat) (w : World) : World :=
  let w1 := with_host (clearTimeout id) w in
  let w2 := fst (triggerExit self "finished" w1) in
  finishThread self (ThreadNumber id) w2.

(** [_meta.threads] and [_meta.awake] of the node at an address. *)
Definition threads_of (w : World) (a : NodeId) : list Thread :=
  match heap w !! a with
  | Some n => nm_threads (n_meta n)
  | None => []
  end.

Definition awake_of (w : World) (a : NodeId) : bool :=
  match heap w !! a with
  | Some n => nm_awake (n_meta n)
  | None => false
  end.

(** The items that [triggerExit] adds to the queue of entry links. *)
Definition exit_items (w : World) (self : NodeId) (name : string)
  : list ChainItem :=
  map chain_item
    (List.filter (takes_entry w) (refs_of (heap w) EXIT self name)).

(** ** The arithmetic of the Operation node, where it is exact *)

(** An integer that a double holds and that [parseFloat] gives back as
    it is: [Number.isSafeInteger]. *)
Definition safe_integer (z : Z) : bool := (Z.abs z <? 2 ^ 53)%Z.

(** [a + b], [a - b], [a * b] and [a / b] of
    [wcNodeProcessOperation.onTriggered] for the entry [name], on the
    inputs where the arithmetic of doubles is that of the integers: both
    operands and the outcome are safe integers, and a quotient is taken
    by a divisor other than zero that leaves no remainder.  Elsewhere
    (fractions, infinities, [NaN], rounded sums) there is [None]: [Value]
    holds no such number.  The two zeros of the doubles, which [===] does
    not tell apart, are the one zero here. *)
Definition exact_outcome (name : string) (x y : Z) : option Z :=
  let r :=
    if String.eqb name "add" then Some (x + y)%Z
    else if String.eqb name "sub" then Some (x - y)%Z
    else if String.eqb name "mul" then Some (x * y)%Z
    else if String.eqb name "div" then
      if negb (Z.eqb y 0) && Z.eqb (Z.modulo x y) 0 then Some (x / y)%Z
      else None
    else None in
  match r with
  | Some z =>
      if safe_integer x && safe_integer y && safe_integer z then Some z
      else None
  | None => None
  end.


(** ** Creating and renaming the properties of the script *)

(** The keys of [wcPlay.PROPERTY_TYPE]; its values are these words in
    lower case. *)
Definition PROPERTY_TYPE_keys : list string :=
  ["DYNAMIC"; "TOGGLE"; "NUMBER"; "STRING"; "SELECT"].

Definition PROPERTY_TYPE_values : list string :=
  ["dynamic"; "toggle"; "number"; "string"; "select"].

(** [wcPlay.PROPERTY_TYPE.hasOwnProperty(type)] *)
Definition has_PROPERTY_TYPE (type : string) : bool :=
  existsb (String.eqb type) PROPERTY_TYPE_keys.

(** [wcPlay.createProperty] *)
Definition play_createProperty (name type : string) (initialValue : Value)
    (p : Play) : Play * bool :=
  if existsb (sprop_named name) (properties p) then (p, false)
  else
    let type := if has_PROPERTY_TYPE type then type else "string" in
    (set_script_properties
       (properties p ++ [mkScriptProperty name initialValue initialValue type])
       p,
     true).

Definition set_sp_name (name : string) (p : ScriptProperty) : ScriptProperty :=
  mkScriptProperty name (sp_value p) (sp_initialValue p) (sp_type p).

(** The loop of [wcPlay.renameProperty], which has no [break]: [None]
    when it returns [false] at a property called [newName], else the
    value of [prop] at its end, the index of the last property called
    [name]. *)
Fixpoint rename_scan (name newName : string) (l : list ScriptProperty)
    (i : nat) (prop : option nat) : option (option nat) :=
  match l with
  | [] => Some prop
  | q :: l' =>
      if sprop_named newName q then None
      else
        rename_scan name newName l' (S i)
          (if sprop_named name q then Some i else prop)
  end.

(** [__notifyNodes('onSharedPropertyRenamed', ...)]: the hook is
    commented out in [wcNode], like [onSharedPropertyChanged]. *)
Definition notify_onSharedPropertyRenamed (name newName : string)
    (w : World) : World := w.

(** [wcPlay.renameProperty], with its result: [false], or nothing when
    the property has been renamed. *)
Definition play_renameProperty (name newName : string) (w : World)
  : World * Value :=
  match rename_scan name newName (properties (play w)) 0 None with
  | None | Some None => (w, VBool false)
  | Some (Some i) =>
      (notify_onSharedPropertyRenamed name newName
         (with_play
            (fun p =>
               set_script_properties
                 (alter (set_sp_name newName) i (properties p)) p)
            w),
       VUndefined)
  end.

(** The names of the properties of the script. *)
Definition script_names (p : Play) : list string :=
  map sp_name (properties p).

(** What a renaming does to a property. *)
Definition renamed (name newName : string) (q : ScriptProperty)
  : ScriptProperty :=
  if sprop_named name q then set_sp_name newName q else q.


(** * Lemmas and theorems *)


(** * Lookup and update of the first match *)

Section FirstMatch.
Context {A B : Type} (P : A -> bool) (g : A -> A) (pi : A -> B).

Lemma find_first_update_first (l : list A) :
  (forall a, P (g a) = P a) ->
  find_first P (update_first P g l) = g <$> find_first P l.
Proof.
  intros Hg. induction l as [|a l IH]; simpl; [done|].
  destruct (P a) eqn:E; simpl.
  - by rewrite Hg, E.
  - by rewrite E.
Qed.

Lemma find_first_update_first_frame (Q : A -> bool) (l : list A) :
  (forall a, Q (g a) = Q a) -> (forall a, pi (g a) = pi a) ->
  pi <$> find_first Q (update_first P g l) = pi <$> find_first Q l.
Proof.
  intros HQ Hpi. induction l as [|a l IH]; simpl; [done|].
  destruct (P a) eqn:E; simpl.
  - rewrite HQ. destruct (Q a); simpl; [by rewrite Hpi|done].
  - destruct (Q a); simpl; done.
Qed.

Lemma find_first_update_first_other (Q : A -> bool) (l : list A) :
  (forall a, Q (g a) = Q a) -> (forall a, P a = true -> Q a = false) ->
  find_first Q (update_first P g l) = find_first Q l.
Proof.
  intros HQ Hd. induction l as [|a l IH]; simpl; [done|].
  destruct (P a) eqn:E; simpl.
  - rewrite HQ. by rewrite (Hd a E).
  - destruct (Q a); simpl; done.
Qed.

Lemma update_first_none (l : list A) :
  find_first P l = None -> update_first P g l = l.
Proof.
  induction l as [|a l IH]; simpl; [done|].
  destruct (P a); [done|]. intros H. by rewrite IH.
Qed.

Lemma find_first_Some (l : list A) a :
  find_first P l = Some a -> P a = true /\ a ∈ l.
Proof.
  induction l as [|b l IH]; simpl; [done|].
  destruct (P b) eqn:E.
  - intros [= ->]. split; [done|]. left.
  - intros H. destruct (IH H). split; [done|]. by right.
Qed.

End FirstMatch.

Lemma named_other x y (l : Link) :
  x <> y -> link_named x l = true -> link_named y l = false.
Proof.
  unfold link_named. intros Hne H%String.eqb_eq.
  apply String.eqb_neq. congruence.
Qed.

Lemma prop_named_other x y (p : Property) :
  x <> y -> prop_named x p = true -> prop_named y p = false.
Proof.
  unfold prop_named. intros Hne H%String.eqb_eq.
  apply String.eqb_neq. congruence.
Qed.

(** * The links of a slot after an update of a slot *)

Lemma node_refs_set_same t n x f l :
  node_refs t n x = Some l ->
  node_refs t (node_set_refs t x f n) x = Some (f l).
Proof.
  destruct t; simpl; intros H.
  all: rewrite find_first_update_first by done.
  all: destruct (find_first _ _); simpl in *; congruence.
Qed.

Lemma node_refs_set_other t t' n x x' f :
  t <> t' \/ x <> x' ->
  node_refs t' (node_set_refs t x f n) x' = node_refs t' n x'.
Proof.
  intros H.
  destruct (decide (x = x')) as [->|Hx].
  - destruct H as [H|H]; [|done].
    destruct t, t'; try done; simpl.
    all: by apply find_first_update_first_frame.
  - destruct t, t'; simpl; try done.
    all: f_equal; apply find_first_update_first_other; [done|].
    all: intros a; first [apply named_other | apply prop_named_other]; done.
Qed.

Lemma refs_opt_set_same h t a x f l :
  refs_opt h t a x = Some l ->
  refs_opt (set_refs h t a x f) t a x = Some (f l).
Proof.
  unfold refs_opt, set_refs. rewrite list_lookup_alter_eq.
  destruct (h !! a) as [n|]; simpl; [|done].
  apply node_refs_set_same.
Qed.

Lemma refs_opt_set_other h t a x f t' a' x' :
  (t, a, x) <> (t', a', x') ->
  refs_opt (set_refs h t a x f) t' a' x' = refs_opt h t' a' x'.
Proof.
  intros Hne. unfold refs_opt, set_refs.
  destruct (decide (a = a')) as [->|Ha].
  - rewrite list_lookup_alter_eq. destruct (h !! a') as [n|]; simpl; [|done].
    apply node_refs_set_other.
    destruct (decide (t = t')) as [->|]; [|by left].
    right. congruence.
  - by rewrite list_lookup_alter_ne.
Qed.

Lemma refs_of_set_same h t a x f l :
  refs_opt h t a x = Some l -> refs_of (set_refs h t a x f) t a x = f l.
Proof. intros H. unfold refs_of. by rewrite (refs_opt_set_same _ _ _ _ _ l). Qed.

Lemma refs_of_set_other h t a x f t' a' x' :
  (t, a, x) <> (t', a', x') ->
  refs_of (set_refs h t a x f) t' a' x' = refs_of h t' a' x'.
Proof. intros H. unfold refs_of. by rewrite refs_opt_set_other. Qed.

Lemma refs_of_lookup h t a x i r :
  refs_of h t a x !! i = Some r -> refs_opt h t a x = Some (refs_of h t a x).
Proof.
  unfold refs_of. destruct (refs_opt h t a x); simpl; [done|].
  by rewrite lookup_nil.
Qed.

(** * The number of references of a heap *)

Lemma sum_update_first {A} (P : A -> bool) (g : A -> A) (m : A -> nat) l a :
  find_first P l = Some a ->
  sum_list_with m (update_first P g l) + m a = sum_list_with m l + m (g a).
Proof.
  induction l as [|b l IH]; cbn; [done|].
  destruct (P b).
  - intros [= ->]. cbn. lia.
  - intros H. cbn. specialize (IH H). lia.
Qed.

Lemma sum_alter {A} (g : A -> A) (m : A -> nat) (l : list A) i a :
  l !! i = Some a ->
  sum_list_with m (alter g i l) + m a = sum_list_with m l + m (g a).
Proof.
  revert i. induction l as [|b l IH]; intros [|i]; cbn; try done.
  - intros [= ->]. lia.
  - intros H. specialize (IH _ H). lia.
Qed.

Lemma node_size_delete t n x i l :
  node_refs t n x = Some l -> i < length l ->
  S (node_size (node_set_refs t x (delete i) n)) = node_size n.
Proof.
  intros H Hi. unfold node_size.
  destruct t; simpl in *.
  all: destruct (find_first _ _) as [a|] eqn:E; simpl in H; [|done].
  all: injection H as <-.
  - pose proof (sum_update_first _ (set_links (delete i)) link_size _ _ E) as S1.
    unfold link_size at 2 4 in S1. simpl in S1.
    rewrite length_delete in S1 by (by apply lookup_lt_is_Some_2). lia.
  - pose proof (sum_update_first _ (set_links (delete i)) link_size _ _ E) as S1.
    unfold link_size at 2 4 in S1. simpl in S1.
    rewrite length_delete in S1 by (by apply lookup_lt_is_Some_2). lia.
  - pose proof (sum_update_first _ (set_inputs (delete i)) prop_size _ _ E) as S1.
    unfold prop_size at 2 4 in S1. simpl in S1.
    rewrite length_delete in S1 by (by apply lookup_lt_is_Some_2). lia.
  - pose proof (sum_update_first _ (set_outputs (delete i)) prop_size _ _ E) as S1.
    unfold prop_size at 2 4 in S1. simpl in S1.
    rewrite length_delete in S1 by (by apply lookup_lt_is_Some_2). lia.
Qed.

Lemma heap_size_delete h t a x i l :
  refs_opt h t a x = Some l -> i < length l ->
  S (heap_size (set_refs h t a x (delete i))) = heap_size h.
Proof.
  unfold refs_opt, set_refs, heap_size.
  destruct (h !! a) as [n|] eqn:E; [|done]. intros H Hi.
  pose proof (sum_alter (node_set_refs t x (delete i)) node_size _ _ _ E).
  pose proof (node_size_delete _ _ _ _ _ H Hi). lia.
Qed.



Section SubDrop.
Context {A : Type}.
Implicit Types (P Q : A -> Prop) (l : list A).

Lemma sub_drop_refl P l : sub_drop P l l.
Proof. induction l; constructor; done. Qed.

Lemma sub_drop_weaken P Q l l' :
  (forall a, P a -> Q a) -> sub_drop P l l' -> sub_drop Q l l'.
Proof. intros H. induction 1; constructor; auto. Qed.

Lemma sub_drop_trans P l1 l2 l3 :
  sub_drop P l1 l2 -> sub_drop P l2 l3 -> sub_drop P l1 l3.
Proof.
  intros H. revert l3. induction H; intros l3 H3.
  - done.
  - inversion H3; subst.
    + apply sub_drop_keep. auto.
    + apply sub_drop_skip; auto.
  - apply sub_drop_skip; auto.
Qed.

Lemma sub_drop_elem P l l' a : sub_drop P l l' -> a ∈ l' -> a ∈ l.
Proof.
  induction 1; [done| |].
  - intros [->|H']%elem_of_cons; [left|right; auto].
  - intros H'. right. auto.
Qed.

Lemma sub_drop_NoDup P l l' : sub_drop P l l' -> NoDup l -> NoDup l'.
Proof.
  induction 1; [done| |].
  - intros [Ha Hl]%NoDup_cons. apply NoDup_cons. split; [|auto].
    intros Ha'. apply Ha. by eapply sub_drop_elem.
  - intros [Ha Hl]%NoDup_cons. auto.
Qed.

Lemma sub_drop_delete P l i a :
  l !! i = Some a -> P a -> sub_drop P l (delete i l).
Proof.
  revert i. induction l as [|b l IH]; intros [|i]; cbn; try done.
  - intros [= ->] H. apply sub_drop_skip; [done|]. apply sub_drop_refl.
  - intros H1 H2. apply sub_drop_keep. eauto.
Qed.

Lemma sub_drop_prefix P l l' i :
  sub_drop P l l' ->
  (forall j a, j < i -> l !! j = Some a -> ~ P a) ->
  forall j, j < i -> l' !! j = l !! j.
Proof.
  intros H. revert i. induction H; intros i Hp j Hj.
  - done.
  - destruct j as [|j]; [done|]. cbn.
    destruct i as [|i]; [lia|].
    apply (IHsub_drop i); [|lia].
    intros j' a' Hj' Ha'. apply (Hp (S j') a'); [lia|done].
  - exfalso. apply (Hp 0 a); [lia|done|done].
Qed.

Lemma elem_of_delete_other l i a :
  a ∈ l -> a ∉ delete i l -> l !! i = Some a.
Proof.
  revert i. induction l as [|b l IH]; intros i; [by intros ?%elem_of_nil|].
  destruct i as [|i]; cbn.
  - intros [->|H]%elem_of_cons Hn; [done|done].
  - intros [->|H]%elem_of_cons Hn.
    + exfalso. apply Hn. left.
    + apply IH; [done|]. intros ?. apply Hn. by right.
Qed.

Lemma NoDup_delete_notin l i a :
  NoDup l -> l !! i = Some a -> a ∉ delete i l.
Proof.
  revert i. induction l as [|b l IH]; intros i Hnd; [done|].
  apply NoDup_cons in Hnd as [Hb Hnd].
  destruct i as [|i]; cbn.
  - by intros [= ->].
  - intros Hi [->|H]%elem_of_cons.
    + apply Hb. by eapply list_elem_of_lookup_2.
    + by eapply IH.
Qed.

End SubDrop.

(** * The filter of the disconnect loops *)

Lemma link_filter_ok tn tname r : link_filter tn tname r = true -> ok tn (r_node r).
Proof.
  unfold link_filter. destruct tn as [b|]; cbn; [|done].
  intros [H _]%andb_prop. by apply Nat.eqb_eq in H.
Qed.

Lemma link_filter_self A x : link_filter (Some A) (Some x) (mkRef x A) = true.
Proof.
  unfold link_filter. cbn. rewrite Nat.eqb_refl, String.eqb_refl.
  by rewrite orb_true_r.
Qed.

(** The filter either names one reference or goes by the node alone. *)
Lemma link_filter_cases B tname :
  (exists y, forall r, link_filter (Some B) tname r = true -> r = mkRef y B) \/
  (forall r, link_filter (Some B) tname r = Nat.eqb B (r_node r)).
Proof.
  destruct tname as [y|].
  - destruct (String.eqb y EmptyString) eqn:E.
    + right. intros r. unfold link_filter. rewrite E. cbn. by rewrite andb_true_r.
    + left. exists y. intros [n b]. unfold link_filter. rewrite E. cbn.
      intros [H1 H2]%andb_prop. apply Nat.eqb_eq in H1. apply String.eqb_eq in H2.
      by subst.
  - right. intros r. unfold link_filter. by rewrite andb_true_r.
Qed.

Lemma disconnect_loop_S fuel t self name tn tname i h :
  disconnect_loop (S fuel) t self name tn tname i h =
  match refs_of h t self name !! i with
  | None => Some h
  | Some targetLink =>
      if link_filter tn tname targetLink then
        let h1 := set_refs h t self name (delete i) in
        match
          match refs_opt h1 (opposite t) (r_node targetLink)
                  (r_name targetLink) with
          | None => Some h1
          | Some _ =>
              disconnect_loop fuel (opposite t) (r_node targetLink)
                (r_name targetLink) (Some self) (Some name) 0 h1
          end
        with
        | None => None
        | Some h2 => disconnect_loop fuel t self name tn tname i h2
        end
      else disconnect_loop fuel t self name tn tname (S i) h
  end.
Proof. reflexivity. Qed.

Lemma shrinks_refl A tn h : shrinks A tn h h.
Proof. intros t a x. apply sub_drop_refl. Qed.

Lemma shrinks_trans A tn h1 h2 h3 :
  shrinks A tn h1 h2 -> shrinks A tn h2 h3 -> shrinks A tn h1 h3.
Proof. intros H1 H2 t a x. eapply sub_drop_trans; eauto. Qed.

Lemma shrinks_unique A tn h h' : shrinks A tn h h' -> unique_refs h -> unique_refs h'.
Proof.
  intros H Hu t a x. eapply sub_drop_NoDup; [apply H|apply Hu].
Qed.

Lemma shrinks_delete A tn h t x i r :
  refs_of h t A x !! i = Some r -> ok tn (r_node r) ->
  shrinks A tn h (set_refs h t A x (delete i)).
Proof.
  intros Hr Hok t' a' x'.
  destruct (decide ((t, A, x) = (t', a', x'))) as [[= <- <- <-]|Hne].
  - rewrite (refs_of_set_same _ _ _ _ _ _ (refs_of_lookup _ _ _ _ _ _ Hr)).
    eapply sub_drop_delete; [done|]. left. done.
  - rewrite refs_of_set_other by done. apply sub_drop_refl.
Qed.

Lemma opposite_involutive t : opposite (opposite t) = t.
Proof. by destruct t. Qed.



Lemma allowed_nested A tn r a r' :
  ok tn (r_node r) -> allowed (r_node r) (Some A) a r' -> allowed A tn a r'.
Proof.
  intros Hok [[-> H]|[H ->]]; cbn in H.
  - right. done.
  - left. split; [done|]. by rewrite H.
Qed.

Lemma dangling_after_delete h t A x i r h2 :
  refs_of h t A x !! i = Some r ->
  let h1 := set_refs h t A x (delete i) in
  (forall t0 a0 x0 r0, dangling h2 t0 a0 x0 r0 -> dangling h1 t0 a0 x0 r0) ->
  mkRef x A ∉ refs_of h2 (opposite t) (r_node r) (r_name r) ->
  forall t0 a0 x0 r0, dangling h2 t0 a0 x0 r0 -> dangling h t0 a0 x0 r0.
Proof.
  intros Hr h1 Hd Hm t0 a0 x0 r0 H2.
  pose proof (refs_of_lookup _ _ _ _ _ _ Hr) as Hopt.
  destruct (Hd _ _ _ _ H2) as [Hin Hout]. destruct H2 as [Hin2 _].
  split.
  - destruct (decide ((t, A, x) = (t0, a0, x0))) as [[= <- <- <-]|Hne].
    + unfold h1 in Hin. rewrite (refs_of_set_same _ _ _ _ _ _ Hopt) in Hin.
      by eapply list_elem_of_delete_inv.
    + unfold h1 in Hin. by rewrite refs_of_set_other in Hin.
  - intros Hc.
    destruct (decide ((t, A, x) = (opposite t0, r_node r0, r_name r0)))
      as [[= Ht Ha Hx]|Hne].
    + unfold h1 in Hout. rewrite <- Ht, <- Ha, <- Hx in Hout, Hc.
      rewrite (refs_of_set_same _ _ _ _ _ _ Hopt) in Hout.
      pose proof (elem_of_delete_other _ _ _ Hc Hout) as Hi.
      rewrite Hr in Hi. injection Hi as ->. cbn in *.
      apply Hm. rewrite Ht, opposite_involutive.
      destruct r0 as [n0 b0]; cbn in *. by subst.
    + unfold h1 in Hout. by rewrite refs_of_set_other in Hout.
Qed.

Lemma disconnect_loop_spec N :
  forall h, heap_size h <= N -> unique_refs h ->
  forall t A x tn tname i,
  exists fuel h', loop_result h t A x tn tname i fuel h'.
Proof.
  induction N as [N IHN] using lt_wf_ind.
  intros h Hsz Hu t A x tn tname i.
  remember (length (refs_of h t A x) - i) as k eqn:Hk.
  revert i Hk. induction k as [k IHk] using lt_wf_ind. intros i Hk.
  destruct (refs_of h t A x !! i) as [r|] eqn:Hr.
  2: {
    exists 1, h. split; [|split; [done|split; [apply shrinks_refl|split; [done|]]]].
    - intros [|f] Hf; [lia|]. by rewrite disconnect_loop_S, Hr.
    - intros _ Hp r [j Hj]%list_elem_of_lookup_1.
      apply (Hp j r); [|done].
      apply lookup_ge_None in Hr. apply lookup_lt_Some in Hj. lia. }
  pose proof (refs_of_lookup _ _ _ _ _ _ Hr) as Hopt.
  pose proof (lookup_lt_Some _ _ _ Hr) as Hlt.
  destruct (link_filter tn tname r) eqn:Hf.
  2: {
    destruct (IHk (length (refs_of h t A x) - S i)) with (i := S i)
      as (fuel & h' & Hrun & Hsize & Hsh & Hd & Hclean); [lia|done|].
    exists (S fuel), h'. split; [|split; [done|split; [done|split; [done|]]]].
    - intros [|f] Hfu; [lia|]. rewrite disconnect_loop_S, Hr, Hf.
      apply Hrun. lia.
    - intros Htn Hp. apply Hclean; [done|].
      intros j r' Hj Hr'. destruct (decide (j = i)) as [->|].
      + rewrite Hr in Hr'. by injection Hr' as <-.
      + apply (Hp j); [lia|done]. }
  set (h1 := set_refs h t A x (delete i)).
  pose proof (heap_size_delete _ _ _ _ _ _ Hopt Hlt) as Hs1. fold h1 in Hs1.
  pose proof (link_filter_ok _ _ _ Hf) as Hok.
  pose proof (shrinks_delete A tn h t x i r Hr Hok) as Hsh1. fold h1 in Hsh1.
  pose proof (shrinks_unique _ _ _ _ Hsh1 Hu) as Hu1.
  assert (exists fuel1 h2,
    (forall fuel', fuel1 <= fuel' ->
       match refs_opt h1 (opposite t) (r_node r) (r_name r) with
       | None => Some h1
       | Some _ =>
           disconnect_loop fuel' (opposite t) (r_node r) (r_name r)
             (Some A) (Some x) 0 h1
       end = Some h2) /\
    heap_size h2 <= heap_size h1 /\
    shrinks (r_node r) (Some A) h1 h2 /\
    (forall t0 a0 x0 r0, dangling h2 t0 a0 x0 r0 -> dangling h1 t0 a0 x0 r0) /\
    mkRef x A ∉ refs_of h2 (opposite t) (r_node r) (r_name r))
    as (fuel1 & h2 & Hrun1 & Hs2 & Hsh2 & Hd2 & Hm2).
  { destruct (refs_opt h1 (opposite t) (r_node r) (r_name r)) as [l1|] eqn:Hn.
    - destruct (IHN (heap_size h1)) with (h := h1) (t := opposite t)
        (A := r_node r) (x := r_name r) (tn := Some A) (tname := Some x)
        (i := 0) as (fuel1 & h2 & Hrun1 & Hs2 & Hsh2 & Hd2 & Hc2);
        [lia|done|done|].
      exists fuel1, h2. split; [done|split; [done|split; [done|split; [done|]]]].
      intros Hin. specialize (Hc2 ltac:(done)).
      assert (Hff := Hc2 ltac:(intros; lia) _ Hin).
      by rewrite link_filter_self in Hff.
    - exists 0, h1. split; [done|split; [done|split; [apply shrinks_refl|split; [done|]]]].
      unfold refs_of. rewrite Hn. cbn. by intros ?%elem_of_nil. }
  pose proof (shrinks_unique _ _ _ _ Hsh2 Hu1) as Hu2.
  destruct (IHN (heap_size h1)) with (h := h2) (t := t) (A := A) (x := x)
    (tn := tn) (tname := tname) (i := i)
    as (fuel2 & h' & Hrun2 & Hs' & Hsh' & Hd' & Hc'); [lia|done|done|].
  exists (S (max fuel1 fuel2)), h'.
  split; [|split; [lia|split; [|split]]].
  - intros [|f] Hfu; [lia|]. rewrite disconnect_loop_S, Hr, Hf. cbn zeta.
    fold h1. rewrite Hrun1 by lia. apply Hrun2. lia.
  - eapply shrinks_trans; [apply Hsh1|]. eapply shrinks_trans; [|apply Hsh'].
    intros t0 a0 x0. eapply sub_drop_weaken; [|apply Hsh2].
    intros r'. by apply allowed_nested.
  - intros t0 a0 x0 r0 H'. apply Hd' in H'.
    by eapply (dangling_after_delete h t A x i r h2).
  - intros Htn Hp. apply Hc'; [done|].
    destruct Htn as [B ->].
    pose proof (Hok) as HB. cbn in HB.
    assert (Hl1 : refs_of h1 t A x = delete i (refs_of h t A x)).
    { unfold h1. by rewrite (refs_of_set_same _ _ _ _ _ _ Hopt). }
    destruct (link_filter_cases B tname) as [[y Hy]|Hloose].
    + intros j r' Hj Hr'. destruct (link_filter (Some B) tname r') eqn:Hf'; [|done].
      exfalso. apply Hy in Hf as Er. apply Hy in Hf' as Er'.
      assert (Hin1 : r' ∈ refs_of h1 t A x).
      { eapply sub_drop_elem; [apply Hsh2|]. by eapply list_elem_of_lookup_2. }
      rewrite Hl1 in Hin1. revert Hin1. rewrite Er', <- Er.
      apply NoDup_delete_notin; [apply Hu|done].
    + intros j r' Hj Hr'.
      assert (Hpre : refs_of h2 t A x !! j = refs_of h1 t A x !! j).
      { eapply (sub_drop_prefix (fun r0 => link_filter (Some B) tname r0 = true));
          [| |exact Hj].
        - eapply sub_drop_weaken; [|apply Hsh2].
          intros r0 [[Ea Hn]|[Hn _]]; cbn in Hn; rewrite Hloose.
          + apply Nat.eqb_eq. congruence.
          + apply Nat.eqb_eq. congruence.
        - intros j' a' Hj' Ha'. rewrite Hl1, list_lookup_delete_lt in Ha' by done.
          rewrite (Hp j' a') by done. done. }
      rewrite Hpre, Hl1, list_lookup_delete_lt in Hr' by done.
      by apply (Hp j).
Qed.



(** * Functions that leave the links alone *)

Lemma refs_opt_alter f a (h : list Node) t b x :
  keeps_links f -> refs_opt (alter f a h) t b x = refs_opt h t b x.
Proof.
  intros Hf. unfold refs_opt.
  destruct (decide (a = b)) as [->|Hne].
  - rewrite list_lookup_alter_eq. destruct (h !! b); cbn; [apply Hf|done].
  - by rewrite list_lookup_alter_ne.
Qed.

Lemma find_first_map {A} (P : A -> bool) (g : A -> A) l :
  (forall a, P (g a) = P a) ->
  find_first P (map g l) = g <$> find_first P l.
Proof.
  intros Hg. induction l as [|a l IH]; cbn; [done|].
  rewrite Hg. by destruct (P a).
Qed.

Lemma keeps_links_node_meta f : keeps_links (set_node_meta f).
Proof. intros n t x. by destruct t. Qed.

Lemma keeps_links_properties_map g :
  (forall p, p_name (g p) = p_name p) ->
  (forall p, p_inputs (g p) = p_inputs p) ->
  (forall p, p_outputs (g p) = p_outputs p) ->
  keeps_links (set_properties (map g)).
Proof.
  intros H1 H2 H3 n t x. destruct t; cbn; try done.
  all: rewrite find_first_map by (intros; unfold prop_named; by rewrite H1).
  all: destruct (find_first _ _); cbn; by rewrite ?H2, ?H3.
Qed.

Lemma keeps_links_properties_first x0 g :
  (forall p, p_name (g p) = p_name p) ->
  (forall p, p_inputs (g p) = p_inputs p) ->
  (forall p, p_outputs (g p) = p_outputs p) ->
  keeps_links (set_properties (update_first (prop_named x0) g)).
Proof.
  intros H1 H2 H3 n t x. destruct t; cbn; try done.
  all: apply find_first_update_first_frame; [|done].
  all: intros; unfold prop_named; by rewrite H1.
Qed.

Lemma keeps_links_entry_meta x0 f :
  keeps_links (set_entry (update_first (link_named x0) (set_link_meta f))).
Proof.
  intros n t x. destruct t; cbn; try done.
  by apply find_first_update_first_frame.
Qed.

Lemma keeps_links_exit_meta x0 f :
  keeps_links (set_exit (update_first (link_named x0) (set_link_meta f))).
Proof.
  intros n t x. destruct t; cbn; try done.
  by apply find_first_update_first_frame.
Qed.

Lemma same_links_refl w : same_links w w.
Proof. done. Qed.

Lemma same_links_trans w1 w2 w3 :
  same_links w1 w2 -> same_links w2 w3 -> same_links w1 w3.
Proof. intros H1 H2 t a x. by rewrite H2, H1. Qed.

Lemma same_links_with_play f w : same_links w (with_play f w).
Proof. done. Qed.

Lemma same_links_alter f a w :
  keeps_links f -> same_links w (with_heap (alter f a) w).
Proof. intros Hf t b x. cbn. by apply refs_opt_alter. Qed.

Lemma queueNodeProperty_same_links node name value w :
  same_links w (queueNodeProperty node name value w).
Proof.
  unfold queueNodeProperty. destruct (heap w !! node); [|done].
  destruct (truthy _); [|done].
  destruct (_ || _); [|done].
  intros t a x. cbn. apply refs_opt_alter, keeps_links_node_meta.
Qed.

Lemma queueNodeEntry_same_links node name w :
  same_links w (queueNodeEntry node name w).
Proof.
  unfold queueNodeEntry. destruct (heap w !! node); [|done].
  destruct (truthy _); [|done].
  destruct (_ || _); [|done].
  intros t a x. cbn. apply refs_opt_alter, keeps_links_node_meta.
Qed.

Lemma triggerProperty_same_links self name value w :
  same_links w (triggerProperty self name value w).
Proof.
  unfold triggerProperty. destruct (heap w !! self) as [n|]; [|done].
  eapply same_links_trans; [|apply same_links_alter].
  - destruct (n_parent n); [apply queueNodeProperty_same_links|done].
  - apply keeps_links_properties_map; intros p; by destruct (prop_named _ _).
Qed.

Lemma onConnect_same_links self c name t targetNode targetName w :
  same_links w (onConnect self c name t targetNode targetName w).
Proof.
  unfold onConnect. destruct c; [|done]. destruct t; try done.
  destruct (heap w !! self); [|done]. apply triggerProperty_same_links.
Qed.

(** * The invariant of the graph *)

Lemma has_ref_false node name l :
  has_ref node name l = false <-> mkRef name node ∉ l.
Proof.
  unfold has_ref. induction l as [|[y b] l IH]; cbn.
  - split; [intros _ H; by apply elem_of_nil in H|done].
  - rewrite orb_false_iff, IH, not_elem_of_cons. split.
    + intros [H1 H2]. split; [|done]. intros [= -> ->].
      by rewrite Nat.eqb_refl, String.eqb_refl in H1.
    + intros [H1 H2]. split; [|done].
      apply andb_false_iff.
      destruct (Nat.eqb_spec b node) as [->|]; [|by left].
      destruct (String.eqb_spec y name) as [->|]; [done|by right].
Qed.

Lemma symmetric_no_dangling h :
  symmetric h <-> forall t a x r, ~ dangling h t a x r.
Proof.
  split.
  - intros Hs t a x r [H1 H2]. by apply H2, Hs.
  - intros Hd t a x r Hin.
    destruct (decide (mkRef x a ∈ refs_of h (opposite t) (r_node r) (r_name r)))
      as [|Hn]; [done|].
    exfalso. by apply (Hd t a x r).
Qed.

Lemma opposite_ne t : t <> opposite t.
Proof. by destruct t. Qed.

(** A successful connect keeps the invariant. *)
Lemma connect_pushes_invariant h t A x B y mine theirs :
  symmetric h -> unique_refs h ->
  refs_opt h t A x = Some mine ->
  refs_opt h (opposite t) B y = Some theirs ->
  has_ref B y mine = false -> has_ref A x theirs = false ->
  let h2 :=
    set_refs (set_refs h t A x (fun l => l ++ [mkRef y B]))
      (opposite t) B y (fun l => l ++ [mkRef x A]) in
  symmetric h2 /\ unique_refs h2 /\
  refs_of h2 t A x = mine ++ [mkRef y B] /\
  refs_of h2 (opposite t) B y = theirs ++ [mkRef x A].
Proof.
  intros Hs Hu Hm Ht Hnm Hnt h2.
  assert (Hne : (t, A, x) <> (opposite t, B, y)).
  { intros [= H _ _]. by apply (opposite_ne t). }
  assert (Ht1 : refs_opt (set_refs h t A x (fun l => l ++ [mkRef y B]))
                  (opposite t) B y = Some theirs).
  { by rewrite refs_opt_set_other. }
  assert (E1 : refs_of h2 t A x = mine ++ [mkRef y B]).
  { unfold h2. rewrite refs_of_set_other by done.
    by rewrite (refs_of_set_same _ _ _ _ _ mine). }
  assert (E2 : refs_of h2 (opposite t) B y = theirs ++ [mkRef x A]).
  { unfold h2. by rewrite (refs_of_set_same _ _ _ _ _ theirs). }
  assert (E3 : forall t0 a0 x0, (t, A, x) <> (t0, a0, x0) ->
             (opposite t, B, y) <> (t0, a0, x0) ->
             refs_of h2 t0 a0 x0 = refs_of h t0 a0 x0).
  { intros t0 a0 x0 H1 H2. unfold h2. by rewrite !refs_of_set_other. }
  assert (Hmine : refs_of h t A x = mine) by (unfold refs_of; by rewrite Hm).
  assert (Htheirs : refs_of h (opposite t) B y = theirs)
    by (unfold refs_of; by rewrite Ht).
  assert (Hmono : forall t0 a0 x0 r,
             r ∈ refs_of h t0 a0 x0 -> r ∈ refs_of h2 t0 a0 x0).
  { intros t0 a0 x0 r Hr.
    destruct (decide ((t, A, x) = (t0, a0, x0))) as [[= <- <- <-]|H1].
    { rewrite E1, <- Hmine. apply elem_of_app. by left. }
    destruct (decide ((opposite t, B, y) = (t0, a0, x0))) as [[= <- <- <-]|H2].
    { rewrite E2, <- Htheirs. apply elem_of_app. by left. }
    by rewrite E3. }
  split; [|split; [|done]].
  - intros t0 a0 x0 r Hr.
    destruct (decide ((t, A, x) = (t0, a0, x0))) as [[= <- <- <-]|H1].
    { rewrite E1 in Hr. apply elem_of_app in Hr as [Hr|Hr].
      - apply Hmono, Hs. by rewrite Hmine.
      - apply list_elem_of_singleton in Hr as ->. cbn.
        rewrite E2. apply elem_of_app. right. by apply list_elem_of_singleton. }
    destruct (decide ((opposite t, B, y) = (t0, a0, x0))) as [[= <- <- <-]|H2].
    { rewrite E2 in Hr. apply elem_of_app in Hr as [Hr|Hr].
      - apply Hmono, Hs. by rewrite Htheirs.
      - apply list_elem_of_singleton in Hr as ->. cbn.
        rewrite opposite_involutive, E1. apply elem_of_app. right.
        by apply list_elem_of_singleton. }
    rewrite E3 in Hr by done. by apply Hmono, Hs.
  - intros t0 a0 x0.
    destruct (decide ((t, A, x) = (t0, a0, x0))) as [[= <- <- <-]|H1].
    { rewrite E1. apply NoDup_app. split; [rewrite <- Hmine; apply Hu|].
      split; [|apply NoDup_singleton].
      intros r Hr ->%list_elem_of_singleton. by apply has_ref_false in Hnm. }
    destruct (decide ((opposite t, B, y) = (t0, a0, x0))) as [[= <- <- <-]|H2].
    { rewrite E2. apply NoDup_app. split; [rewrite <- Htheirs; apply Hu|].
      split; [|apply NoDup_singleton].
      intros r Hr ->%list_elem_of_singleton. by apply has_ref_false in Hnt. }
    rewrite E3 by done. apply Hu.
Qed.

Lemma same_links_refs_of w w' t a x :
  same_links w w' -> refs_of (heap w') t a x = refs_of (heap w) t a x.
Proof. intros H. unfold refs_of. by rewrite H. Qed.

Lemma same_links_invariant w w' :
  same_links w w' ->
  symmetric (heap w) /\ unique_refs (heap w) ->
  symmetric (heap w') /\ unique_refs (heap w').
Proof.
  intros H [Hs Hu]. split.
  - intros t a x r. rewrite !(same_links_refs_of _ _ _ _ _ H). apply Hs.
  - intros t a x. rewrite (same_links_refs_of _ _ _ _ _ H). apply Hu.
Qed.

Lemma connect_invariant t self name targetNode targetName w :
  symmetric (heap w) /\ unique_refs (heap w) ->
  symmetric (heap (fst (connect t self name targetNode targetName w))) /\
  unique_refs (heap (fst (connect t self name targetNode targetName w))).
Proof.
  intros [Hs Hu]. unfold connect.
  destruct (heap w !! targetNode); [|done].
  destruct (refs_opt (heap w) t self name) as [mine|] eqn:Hm; [|done].
  destruct (refs_opt (heap w) (opposite t) targetNode targetName)
    as [theirs|] eqn:Ht; [|done].
  destruct (has_ref targetNode targetName mine) eqn:H1; [done|].
  destruct (has_ref self name theirs) eqn:H2; [done|]. cbn [fst].
  eapply same_links_invariant.
  { eapply same_links_trans; apply onConnect_same_links. }
  cbn.
  destruct (connect_pushes_invariant _ _ _ _ _ _ _ _ Hs Hu Hm Ht H1 H2)
    as (? & ? & _). done.
Qed.

Lemma disconnect_invariant t self name targetNode targetName h :
  symmetric h -> unique_refs h ->
  exists fuel h' r,
    (forall fuel', fuel <= fuel' ->
       disconnect fuel' t self name targetNode targetName h = Some (h', r)) /\
    symmetric h' /\ unique_refs h'.
Proof.
  intros Hs Hu. unfold disconnect.
  destruct (refs_opt h t self name) eqn:E.
  - destruct (disconnect_loop_spec (heap_size h) h ltac:(done) Hu t self name
                targetNode targetName 0)
      as (fuel & h' & Hrun & _ & Hsh & Hd & _).
    exists fuel, h', SUCCESS. split; [|split].
    + intros fuel' Hf. by rewrite Hrun.
    + apply symmetric_no_dangling. intros t0 a0 x0 r0 H%Hd.
      by eapply symmetric_no_dangling.
    + by eapply shrinks_unique.
  - exists 0, h, NOT_FOUND. done.
Qed.

(** Every sequence of connects and disconnects runs to its end, given
    fuel enough, and ends in a symmetric graph. *)
Lemma run_ops_invariant ops : forall w,
  symmetric (heap w) -> unique_refs (heap w) ->
  exists fuel w',
    (forall fuel', fuel <= fuel' -> run_ops fuel' ops w = Some w') /\
    symmetric (heap w') /\ unique_refs (heap w').
Proof.
  induction ops as [|op ops IH]; intros w Hs Hu.
  - exists 0, w. done.
  - destruct op as [t self name tn tname|t self name tn tname].
    + destruct (connect_invariant t self name tn tname w) as [Hs1 Hu1]; [done|].
      destruct (IH _ Hs1 Hu1) as (fuel & w' & Hrun & Hs' & Hu').
      exists fuel, w'. split; [|done]. intros fuel' Hf. cbn.
      destruct (connect t self name tn tname w) as [w1 r1]. by apply Hrun.
    + destruct (disconnect_invariant t self name tn tname (heap w) Hs Hu)
        as (fuel1 & h1 & r & Hrun1 & Hs1 & Hu1).
      destruct (IH (with_heap (fun _ => h1) w) Hs1 Hu1)
        as (fuel2 & w' & Hrun2 & Hs' & Hu').
      exists (max fuel1 fuel2), w'. split; [|done]. intros fuel' Hf. cbn.
      rewrite Hrun1 by lia. apply Hrun2. lia.
Qed.



(** * What the handlers do to the two queues *)

Lemma properties_grow_queues_grow w w' :
  properties_grow w w' -> queues_grow w w'.
Proof.
  intros (H1 & H2 & H3). split; [done|split; [|done]].
  exists []. by rewrite app_nil_r.
Qed.

Lemma queues_grow_refl w : queues_grow w w.
Proof. split; [done|split]; exists []; by rewrite app_nil_r. Qed.

Lemma queues_grow_trans w1 w2 w3 :
  queues_grow w1 w2 -> queues_grow w2 w3 -> queues_grow w1 w3.
Proof.
  intros (O1 & [c1 C1] & [p1 P1]) (O2 & [c2 C2] & [p2 P2]).
  split; [congruence|split].
  - exists (c1 ++ c2). by rewrite C2, C1, app_assoc.
  - exists (p1 ++ p2). by rewrite P2, P1, app_assoc.
Qed.

Lemma properties_grow_refl w : properties_grow w w.
Proof. split; [done|split; [done|]]; exists []; by rewrite app_nil_r. Qed.

Lemma properties_grow_trans w1 w2 w3 :
  properties_grow w1 w2 -> properties_grow w2 w3 -> properties_grow w1 w3.
Proof.
  intros (O1 & C1 & [p1 P1]) (O2 & C2 & [p2 P2]).
  split; [congruence|split; [congruence|]].
  exists (p1 ++ p2). by rewrite P2, P1, app_assoc.
Qed.

Lemma properties_grow_same_play w w' :
  play w' = play w -> properties_grow w w'.
Proof.
  intros H. unfold properties_grow. rewrite H.
  split; [done|split; [done|]]. exists []. by rewrite app_nil_r.
Qed.

Lemma queues_grow_same_play w w' : play w' = play w -> queues_grow w w'.
Proof.
  intros H. unfold queues_grow. rewrite H.
  split; [done|split]; exists []; by rewrite app_nil_r.
Qed.

Lemma properties_grow_with_heap f w : properties_grow w (with_heap f w).
Proof. by apply properties_grow_same_play. Qed.

Lemma foldl_properties_grow {A} (f : World -> A -> World) l :
  (forall w a, properties_grow w (f w a)) ->
  forall w, properties_grow w (foldl f w l).
Proof.
  intros Hf. induction l as [|a l IH]; intros w; cbn.
  - apply properties_grow_refl.
  - eapply properties_grow_trans; [apply Hf|apply IH].
Qed.

Lemma foldl_queues_grow {A} (f : World -> A -> World) l :
  (forall w a, queues_grow w (f w a)) ->
  forall w, queues_grow w (foldl f w l).
Proof.
  intros Hf. induction l as [|a l IH]; intros w; cbn.
  - apply queues_grow_refl.
  - eapply queues_grow_trans; [apply Hf|apply IH].
Qed.

Lemma queueNodeProperty_grows node name value w :
  properties_grow w (queueNodeProperty node name value w).
Proof.
  unfold queueNodeProperty.
  destruct (heap w !! node); [|apply properties_grow_refl].
  destruct (truthy _); [|apply properties_grow_refl].
  destruct (_ || _); (split; [done|split; [done|]]); by eexists.
Qed.

Lemma queueNodeEntry_grows node name w :
  queues_grow w (queueNodeEntry node name w).
Proof.
  unfold queueNodeEntry.
  destruct (heap w !! node); [|apply queues_grow_refl].
  destruct (truthy _); [|apply queues_grow_refl].
  destruct (_ || _); (split; [done|split]); cbn.
  all: first [by eexists | exists []; by rewrite app_nil_r].
Qed.

Lemma triggerProperty_grows self name value w :
  properties_grow w (triggerProperty self name value w).
Proof.
  unfold triggerProperty.
  destruct (heap w !! self) as [n|]; [|apply properties_grow_refl].
  eapply properties_grow_trans; [|apply properties_grow_with_heap].
  destruct (n_parent n);
    [apply queueNodeProperty_grows|apply properties_grow_refl].
Qed.

Lemma property_grows self name value fos w :
  properties_grow w (fst (property self name value fos w)).
Proof.
  unfold property.
  destruct (heap w !! self) as [n|]; [|apply properties_grow_refl].
  destruct (find_first _ _) as [prop|]; [|apply properties_grow_refl].
  destruct (strict_eq value VUndefined); [apply properties_grow_refl|].
  cbn zeta. destruct (_ || _); cbn [fst];
    [|apply properties_grow_with_heap].
  eapply properties_grow_trans; [apply properties_grow_with_heap|].
  eapply properties_grow_trans; [apply properties_grow_with_heap|].
  destruct fos as [[|]|]; try apply properties_grow_refl.
  all: apply foldl_properties_grow; intros; apply triggerProperty_grows.
Qed.

Lemma triggerEntry_grows self name w :
  queues_grow w (fst (triggerEntry self name w)).
Proof.
  unfold triggerEntry.
  destruct (heap w !! self) as [n|]; [|apply queues_grow_refl].
  destruct (find_first _ _) as [l|]; [|apply queues_grow_refl]. cbn [fst].
  destruct (n_parent n); [|by apply queues_grow_same_play].
  eapply queues_grow_trans; [|apply queueNodeEntry_grows].
  by apply queues_grow_same_play.
Qed.

Lemma triggerExit_link_grows self name w r :
  queues_grow w (triggerExit_link self name w r).
Proof.
  unfold triggerExit_link.
  eapply queues_grow_trans; [apply triggerEntry_grows|].
  destruct (heap _ !! r_node r); [|apply queues_grow_refl].
  destruct (heap _ !! self); [|apply queues_grow_refl].
  destruct (_ || _); by apply queues_grow_same_play.
Qed.

Lemma triggerExit_grows self name w :
  queues_grow w (fst (triggerExit self name w)).
Proof.
  unfold triggerExit.
  destruct (heap w !! self) as [n|]; [|apply queues_grow_refl].
  destruct (find_first _ _) as [l|]; [|apply queues_grow_refl]. cbn [fst].
  eapply queues_grow_trans; [|apply foldl_queues_grow, triggerExit_link_grows].
  by apply queues_grow_same_play.
Qed.

Section SchedulerFacts.
Variable operate : string -> Value -> Value -> Value.

Lemma onTriggered_grows self name w :
  queues_grow w (onTriggered operate self name w).
Proof.
  unfold onTriggered.
  destruct (heap w !! self) as [n|]; [|apply queues_grow_refl].
  destruct (n_class n); try apply queues_grow_refl.
  - apply triggerExit_grows.
  - apply triggerExit_grows.
  - unfold setTimeout. cbn.
    eapply queues_grow_trans; [apply triggerExit_grows|].
    by apply queues_grow_same_play.
  - apply triggerExit_grows.
  - apply triggerExit_grows.
  - eapply queues_grow_trans; [|apply triggerExit_grows].
    apply properties_grow_queues_grow, property_grows.
Qed.

(** The first loop applies the first [count] updates of the queue, in
    their order, and leaves [count] at zero. *)
Lemma update_properties_spec count : forall w,
  count <= length (queuedProperties (play w)) ->
  exists w1 p,
    update_properties count w
      = Some (w1, 0,
              map PropertyUpdated (take count (queuedProperties (play w)))) /\
    options (play w1) = options (play w) /\
    queuedChain (play w1) = queuedChain (play w) /\
    queuedProperties (play w1)
      = drop count (queuedProperties (play w)) ++ p.
Proof.
  induction count as [|count IH]; intros w Hc.
  - exists w, []. cbn. rewrite drop_0, app_nil_r. done.
  - cbn [update_properties].
    destruct (queuedProperties (play w)) as [|item rest] eqn:E; [cbn in Hc; lia|].
    set (w2 := wake (pi_node item) (with_play (set_queuedProperties rest) w)).
    destruct (property_grows (pi_node item) (pi_name item) (pi_value item)
                None w2) as (O3 & C3 & [p1 P3]).
    set (w3 := fst (property (pi_node item) (pi_name item) (pi_value item)
                      None w2)) in *.
    cbn in O3, C3, P3.
    destruct (IH w3) as (w4 & p2 & R4 & O4 & C4 & P4).
    { rewrite P3, length_app. cbn in Hc. lia. }
    exists w4, (p1 ++ p2). rewrite R4.
    rewrite P3 in *. cbn in Hc.
    rewrite take_app_le by lia. rewrite drop_app_le in P4 by lia.
    cbn. rewrite P4, app_assoc. split; [done|].
    split; [congruence|]. split; [congruence|done].
Qed.

(** The second loop runs the handlers of the first [count] entries of the
    queue, in their order; the first of them sees the queue of property
    updates as the loop found it. *)
Lemma update_chain_spec count : forall w,
  count <= length (queuedChain (play w)) ->
  exists w2 evs,
    update_chain operate count w = Some (w2, evs) /\
    Forall2 (fun ev it => exists pending, ev = EntryTriggered it pending)
      evs (take count (queuedChain (play w))) /\
    (forall it pending rest,
       evs = EntryTriggered it pending :: rest ->
       pending = queuedProperties (play w)).
Proof.
  induction count as [|count IH]; intros w Hc.
  - exists w, []. cbn. split; [done|]. split; [constructor|done].
  - cbn [update_chain].
    destruct (queuedChain (play w)) as [|item rest] eqn:E; [cbn in Hc; lia|].
    set (w2 := wake (ci_node item) (with_play (set_queuedChain rest) w)).
    destruct (onTriggered_grows (ci_node item) (ci_name item) w2)
      as (O3 & [c C3] & _).
    set (w3 := onTriggered operate (ci_node item) (ci_name item) w2) in *.
    cbn in O3, C3.
    destruct (IH w3) as (w4 & evs & R4 & F4 & _).
    { rewrite C3, length_app. cbn in Hc. lia. }
    eexists w4, _. rewrite R4. split; [done|]. split.
    + cbn. constructor; [by eexists|].
      rewrite C3, take_app_le in F4 by (cbn in Hc; lia). done.
    + intros it pending rest' [= _ <- _]. done.
Qed.

(** One tick, in full. *)
Lemma update_spec w :
  exists w' ps cs,
    update operate w = Some (w', map PropertyUpdated ps ++ cs) /\
    ps = take (length ps) (queuedProperties (play w)) /\
    length ps <= o_updateLimit (options (play w)) /\
    Forall2 (fun ev it => exists pending, ev = EntryTriggered it pending)
      cs (take (length cs) (queuedChain (play w))) /\
    length cs <= o_updateLimit (options (play w)) /\
    (cs <> [] ->
     ps = queuedProperties (play w) /\
     exists it rest, cs = EntryTriggered it [] :: rest).
Proof.
  unfold update. destruct (isPaused (play w)).
  { exists w, [], []. cbn. split; [done|]. split; [done|].
    split; [lia|]. split; [constructor|]. split; [lia|done]. }
  set (count := Nat.min _ _).
  destruct (update_properties_spec count w) as (w1 & p & R1 & O1 & C1 & P1);
    [unfold count; lia|].
  rewrite R1.
  set (ps := take count (queuedProperties (play w))).
  assert (Hps : length ps = count).
  { unfold ps. rewrite length_take. unfold count. lia. }
  destruct (queuedProperties (play w1)) as [|x q] eqn:E1.
  - rewrite Nat.sub_0_r.
    set (count2 := Nat.min _ _).
    destruct (update_chain_spec count2 w1) as (w2 & cs & R2 & F2 & H2);
      [unfold count2; lia|].
    rewrite R2.
    assert (Hcs : length cs = count2).
    { apply Forall2_length in F2. rewrite F2, length_take. unfold count2. lia. }
    eexists _, ps, cs. split; [done|].
    split; [by rewrite Hps|]. split; [unfold count in Hps; lia|].
    split; [by rewrite Hcs, <- C1|].
    split; [rewrite Hcs, <- O1; unfold count2; lia|].
    intros Hne. symmetry in P1. apply app_eq_nil in P1 as [P1 _].
    split.
    + unfold ps. apply take_ge.
      assert (length (drop count (queuedProperties (play w))) = 0)
        by (by rewrite P1).
      rewrite length_drop in H. lia.
    + destruct cs as [|ev cs']; [done|].
      inversion F2 as [|? ? ? ? [pending ->] _]; subst.
      exists y, cs'. by rewrite (H2 _ _ _ eq_refl), E1.
  - eexists _, ps, []. split; [done|].
    split; [by rewrite Hps|]. split; [unfold count in Hps; lia|].
    split; [constructor|]. split; [cbn; lia|done].
Qed.

End SchedulerFacts.



(** * What is left of a world without the marks of the editor *)

Lemma only_visual_refl w : only_visual w w.
Proof. done. Qed.

Lemma only_visual_trans w1 w2 w3 :
  only_visual w1 w2 -> only_visual w2 w3 -> only_visual w1 w3.
Proof. intros (A1 & B1 & C1) (A2 & B2 & C2). split; [|split]; congruence. Qed.

Lemma map_update_first {A B} (P : A -> bool) (g : A -> A) (e : A -> B) l :
  (forall a, e (g a) = e a) -> map e (update_first P g l) = map e l.
Proof.
  intros H. induction l as [|a l IH]; cbn; [done|].
  destruct (P a); cbn; [by rewrite H|by rewrite IH].
Qed.

Lemma map_alter_same {A B} (f : A -> A) (e : A -> B) i (l : list A) :
  (forall a, l !! i = Some a -> e (f a) = e a) -> map e (alter f i l) = map e l.
Proof.
  revert i. induction l as [|b l IH]; intros [|i] H; cbn; try done.
  - by rewrite H.
  - rewrite IH; [done|]. intros a Ha. by apply H.
Qed.

Lemma only_visual_alter f a w :
  (forall n, heap w !! a = Some n -> erase_node (f n) = erase_node n) ->
  only_visual w (with_heap (alter f a) w).
Proof. intros H. split; [|done]. cbn. by apply map_alter_same. Qed.

Lemma only_visual_queue f w :
  erase_play (f (play w)) = erase_play (play w) ->
  only_visual w (with_play f w).
Proof. done. Qed.

Lemma erase_flash b n : erase_node (set_node_meta (flash_node b) n) = erase_node n.
Proof. done. Qed.

Lemma erase_entry_meta x f n :
  erase_node (set_entry (update_first (link_named x) (set_link_meta f)) n)
  = erase_node n.
Proof. unfold erase_node. cbn. by rewrite map_update_first. Qed.

Lemma erase_exit_meta x f n :
  erase_node (set_exit (update_first (link_named x) (set_link_meta f)) n)
  = erase_node n.
Proof. unfold erase_node. cbn. by rewrite map_update_first. Qed.

Lemma erase_outputMeta x f n :
  erase_node (set_properties (update_first (prop_named x) (set_outputMeta f)) n)
  = erase_node n.
Proof. unfold erase_node. cbn. by rewrite map_update_first. Qed.

Lemma erase_inputMeta_map x f n :
  erase_node
    (set_properties
       (map (fun p => if prop_named x p then set_inputMeta f p else p)) n)
  = erase_node n.
Proof.
  unfold erase_node. cbn. f_equal. rewrite map_map. apply map_ext.
  intros p. by destruct (prop_named x p).
Qed.

Lemma queueNodeEntry_only_visual node name w :
  only_visual w (queueNodeEntry node name w).
Proof.
  unfold queueNodeEntry. destruct (heap w !! node); [|done].
  destruct (truthy _); [|done].
  destruct (_ || _); [|done].
  split; [|done]. cbn. apply map_alter_same. intros. apply erase_flash.
Qed.

Lemma queueNodeProperty_only_visual node name value w :
  only_visual w (queueNodeProperty node name value w).
Proof.
  unfold queueNodeProperty. destruct (heap w !! node); [|done].
  destruct (truthy _); [|done].
  destruct (_ || _); [|done].
  split; [|done]. cbn. apply map_alter_same. intros. apply erase_flash.
Qed.

Lemma triggerEntry_only_visual self name w :
  only_visual w (fst (triggerEntry self name w)).
Proof.
  unfold triggerEntry. destruct (heap w !! self) as [n|]; [|done].
  destruct (find_first _ _); [|done]. cbn [fst].
  eapply only_visual_trans.
  { apply only_visual_alter. intros. apply erase_entry_meta. }
  destruct (n_parent n); [apply queueNodeEntry_only_visual|done].
Qed.

Lemma triggerExit_link_only_visual self name w r :
  only_visual w (triggerExit_link self name w r).
Proof.
  unfold triggerExit_link.
  eapply only_visual_trans; [apply triggerEntry_only_visual|].
  destruct (heap _ !! r_node r); [|done].
  destruct (heap _ !! self); [|done].
  destruct (_ || _); [|done].
  apply only_visual_alter. intros. apply erase_exit_meta.
Qed.

Lemma foldl_only_visual {A} (f : World -> A -> World) l :
  (forall w a, only_visual w (f w a)) ->
  forall w, only_visual w (foldl f w l).
Proof.
  intros Hf. induction l as [|a l IH]; intros w; cbn; [done|].
  eapply only_visual_trans; [apply Hf|apply IH].
Qed.

Lemma triggerExit_only_visual self name w :
  only_visual w (fst (triggerExit self name w)).
Proof.
  unfold triggerExit. destruct (heap w !! self) as [n|]; [|done].
  destruct (find_first _ _); [|done]. cbn [fst].
  eapply only_visual_trans.
  { apply only_visual_alter. intros. apply erase_exit_meta. }
  apply foldl_only_visual. intros. apply triggerExit_link_only_visual.
Qed.

Lemma triggerProperty_only_visual self name value w :
  only_visual w (triggerProperty self name value w).
Proof.
  unfold triggerProperty. destruct (heap w !! self) as [n|]; [|done].
  eapply only_visual_trans; [|apply only_visual_alter].
  - destruct (n_parent n); [apply queueNodeProperty_only_visual|done].
  - intros. apply erase_inputMeta_map.
Qed.

Lemma erase_set_same_value x n :
  erase_node
    (set_properties
       (update_first (prop_named x) (set_value (node_property n x))) n)
  = erase_node n.
Proof.
  unfold erase_node, node_property. cbn. f_equal.
  induction (n_properties n) as [|p l IH]; cbn; [done|].
  destruct (prop_named x p); cbn; [by destruct p|].
  by rewrite IH.
Qed.

Lemma node_property_outputMeta x y f n :
  node_property
    (set_properties (update_first (prop_named x) (set_outputMeta f)) n) y
  = node_property n y.
Proof.
  unfold node_property. cbn.
  pose proof (find_first_update_first_frame (prop_named x) (set_outputMeta f)
                p_value (prop_named y) (n_properties n)) as H.
  destruct (find_first (prop_named y) (update_first _ _ _)),
    (find_first (prop_named y) (n_properties n)); cbn in H.
  all: try (by injection (H ltac:(done) ltac:(done))).
  all: by specialize (H ltac:(done) ltac:(done)).
Qed.

(** Writing to a property the value that it has marks links and queues
    updates, and changes nothing else. *)
Lemma property_same_value_only_visual self name fos w n :
  heap w !! self = Some n ->
  only_visual w (fst (property self name (node_property n name) fos w)).
Proof.
  intros Hn. unfold property. rewrite Hn.
  destruct (find_first _ _) as [prop|] eqn:Hp; [|done].
  destruct (strict_eq _ VUndefined); [done|]. cbn zeta.
  assert (V1 : only_visual w
            (with_heap
               (alter
                  (set_properties
                     (update_first (prop_named name)
                        (set_outputMeta
                           (mark (debugBreak w n || engine_stepping w n)))))
                  self) w)).
  { apply only_visual_alter. intros. apply erase_outputMeta. }
  unfold onPropertyChanging. cbn [truthy].
  assert (Hv : p_value prop = node_property n name).
  { unfold node_property. by rewrite Hp. }
  rewrite Hv.
  match goal with
  | |- context [if ?c then ?v else ?v] =>
      replace (if c then v else v) with v by (by destruct c)
  end.
  destruct (is_true fos || _); cbn [fst]; [|done].
  eapply only_visual_trans;
    [|destruct fos as [[|]|];
      [apply foldl_only_visual; intros; apply triggerProperty_only_visual
      |apply only_visual_refl
      |apply foldl_only_visual; intros; apply triggerProperty_only_visual]].
  eapply only_visual_trans; [exact V1|].
  apply only_visual_alter. cbn. rewrite list_lookup_alter_eq, Hn. cbn.
  intros n1 [= <-].
  rewrite <- (node_property_outputMeta name name
                (mark (debugBreak w n || engine_stepping w n)) n).
  apply erase_set_same_value.
Qed.

Lemma onStart_only_visual id w : only_visual w (onStart id w).
Proof.
  unfold onStart. destruct (heap w !! id) as [n|] eqn:Hn; [|done].
  destruct (n_class n); try done.
  all: first [by apply property_same_value_only_visual
             | apply triggerExit_only_visual].
Qed.

Lemma notify_onStart_only_visual w : only_visual w (notify_onStart w).
Proof. apply foldl_only_visual. intros. apply onStart_only_visual. Qed.



(** * Resetting *)

Lemma clearTimeout_timers id hs t :
  t ∈ timers (clearTimeout id hs) <-> t ∈ timers hs /\ t <> id.
Proof.
  unfold clearTimeout. cbn. rewrite !list_elem_of_In, filter_In.
  rewrite negb_true_iff, Nat.eqb_neq. done.
Qed.

Lemma clear_threads_timers l : forall hs t,
  t ∈ timers (clear_threads l hs) <->
  t ∈ timers hs /\ ThreadNumber t ∉ l.
Proof.
  unfold clear_threads.
  induction l as [|x l IH]; intros hs t; cbn.
  - split; [intros H; split; [done|by intros ?%elem_of_nil]|by intros [? _]].
  - rewrite IH, not_elem_of_cons. destruct x as [id|id].
    + rewrite !clearTimeout_timers. split.
      * intros [[[H1 H2] _] H3]. split; [done|]. split; [congruence|done].
      * intros [H1 [H2 H3]]. split; [|done].
        split; [split; [done|]|]; congruence.
    + split; [intros [H1 H2]|intros [H1 [_ H2]]]; done.
Qed.

Lemma clear_threads_next l : forall hs,
  nextTimer (clear_threads l hs) = nextTimer hs.
Proof.
  unfold clear_threads. induction l as [|x l IH]; intros hs; cbn; [done|].
  rewrite IH. by destruct x.
Qed.

Lemma reset_node_reset n : node_reset (reset_node n).
Proof.
  split; [|done]. cbn. apply Forall_forall. intros p Hp.
  apply list_elem_of_fmap in Hp as [q [-> _]]. done.
Qed.

Lemma alter_None {A} (f : A -> A) i (l : list A) :
  l !! i = None -> alter f i l = l.
Proof.
  revert i. induction l as [|a l IH]; intros [|i]; cbn; try done.
  intros H. by rewrite IH.
Qed.

Lemma reset_play id w : play (reset id w) = play w.
Proof. unfold reset. by destruct (heap w !! id). Qed.

Lemma reset_heap id w :
  heap (reset id w) = alter reset_node id (heap w).
Proof.
  unfold reset. destruct (heap w !! id) eqn:E; [done|].
  symmetry. by apply alter_None.
Qed.

Lemma reset_host id w :
  host (reset id w) =
  match heap w !! id with
  | Some n => clear_threads (nm_threads (n_meta n)) (host w)
  | None => host w
  end.
Proof. unfold reset. by destruct (heap w !! id). Qed.

Lemma keeps_links_reset_node : keeps_links reset_node.
Proof.
  intros n t x. unfold reset_node.
  rewrite keeps_links_node_meta.
  apply keeps_links_properties_map; by intros [].
Qed.

Lemma reset_same_links id w : same_links w (reset id w).
Proof.
  intros t a x. rewrite reset_heap. apply refs_opt_alter, keeps_links_reset_node.
Qed.

Lemma reset_class id w j :
  n_class <$> heap (reset id w) !! j = n_class <$> heap w !! j.
Proof.
  rewrite reset_heap. destruct (decide (id = j)) as [->|].
  - rewrite list_lookup_alter_eq. by destruct (heap w !! j).
  - by rewrite list_lookup_alter_ne.
Qed.

Lemma resetting_step w0 done w id :
  resetting w0 done w -> resetting w0 (done ++ [id]) (reset id w).
Proof.
  intros (P & N & L & C & T & R & H).
  split; [by rewrite reset_play|]. split.
  { rewrite reset_host. destruct (heap w !! id); [|done].
    by rewrite clear_threads_next. }
  split; [eapply same_links_trans; [exact L|apply reset_same_links]|].
  split; [intros j; by rewrite reset_class|].
  split; [|split].
  - intros j n Hj Hnd. rewrite reset_heap.
    assert (id <> j) by (intros ->; apply Hnd, elem_of_app; right; left).
    rewrite list_lookup_alter_ne by done.
    apply T; [done|]. intros Hd. apply Hnd, elem_of_app. by left.
  - intros j n' [Hj|Hj]%elem_of_app; [|apply list_elem_of_singleton in Hj].
    + rewrite reset_heap. destruct (decide (id = j)) as [->|Hne].
      * rewrite list_lookup_alter_eq. destruct (heap w !! j); [|done].
        intros [= <-]. apply reset_node_reset.
      * rewrite list_lookup_alter_ne by done. by apply R.
    + subst j. rewrite reset_heap, list_lookup_alter_eq.
      destruct (heap w !! id); [|done]. intros [= <-]. apply reset_node_reset.
  - intros t Ht. rewrite reset_host in Ht.
    assert (Ht' : t ∈ timers (host w)).
    { destruct (heap w !! id); [|done].
      by apply clear_threads_timers in Ht as [? _]. }
    destruct (H t Ht') as [H1 H2]. split; [done|].
    intros j n [Hj|Hj]%elem_of_app Hn; [by eapply H2|].
    apply list_elem_of_singleton in Hj.
    subst j. destruct (decide (id ∈ done)) as [Hd|Hd]; [by eapply H2|].
    destruct (T _ _ Hn Hd) as (n' & Hn' & <-).
    rewrite Hn' in Ht. by apply clear_threads_timers in Ht as [_ ?].
Qed.

Lemma resetting_all w0 ids : forall done w,
  resetting w0 done w ->
  resetting w0 (done ++ ids) (foldl (fun w' id => reset id w') w ids).
Proof.
  induction ids as [|id ids IH]; intros done w H; cbn.
  - by rewrite app_nil_r.
  - replace (done ++ id :: ids) with ((done ++ [id]) ++ ids)
      by (by rewrite <- app_assoc).
    apply IH. by apply resetting_step.
Qed.


Lemma erase_lookup (h h' : list Node) a n' :
  map erase_node h' = map erase_node h ->
  h' !! a = Some n' ->
  exists n, h !! a = Some n /\ erase_node n = erase_node n'.
Proof.
  intros E Hn'.
  assert (H : map erase_node h !! a = Some (erase_node n')).
  { rewrite <- E. change (map erase_node h') with (erase_node <$> h').
    by rewrite list_lookup_fmap, Hn'. }
  change (map erase_node h) with (erase_node <$> h) in H.
  rewrite list_lookup_fmap in H.
  destruct (h !! a) as [n|]; [|done].
  exists n. split; [reflexivity|]. cbn in H. congruence.
Qed.

Lemma node_refs_erase t n x : node_refs t (erase_node n) x = node_refs t n x.
Proof.
  destruct t; cbn.
  all: rewrite find_first_map by done.
  all: by destruct (find_first _ _).
Qed.

Lemma node_reset_erase n n' :
  erase_node n = erase_node n' -> node_reset n -> node_reset n'.
Proof.
  intros E [Hv Ht].
  assert (Ep : map erase_property (n_properties n)
               = map erase_property (n_properties n')).
  { change (n_properties (erase_node n) = n_properties (erase_node n')).
    by rewrite E. }
  assert (Et : nm_threads (n_meta n) = nm_threads (n_meta n')).
  { change (nm_threads (n_meta (erase_node n))
            = nm_threads (n_meta (erase_node n'))). by rewrite E. }
  split; [|congruence].
  clear -Ep Hv. revert Ep Hv.
  generalize (n_properties n) (n_properties n').
  induction l as [|p l IH]; intros [|p' l']; cbn; try done.
  intros [= E1 E2 E3 E4 E5 E6 Ep] [Hp Hl]%Forall_cons.
  constructor; [congruence|]. by apply IH.
Qed.

Lemma only_visual_refs_of w w' t a x :
  only_visual w w' -> refs_of (heap w') t a x = refs_of (heap w) t a x.
Proof.
  intros (E & _ & _). unfold refs_of, refs_opt.
  destruct (heap w' !! a) as [n'|] eqn:Hn'.
  - destruct (erase_lookup _ _ _ _ E Hn') as (n & -> & En).
    by rewrite <- (node_refs_erase t n'), <- En, node_refs_erase.
  - destruct (heap w !! a) as [n|] eqn:Hn; [|done].
    symmetry in E. destruct (erase_lookup _ _ _ _ E Hn) as (? & ? & _).
    congruence.
Qed.

Lemma only_visual_class w w' a :
  only_visual w w' -> n_class <$> heap w' !! a = n_class <$> heap w !! a.
Proof.
  intros (E & _ & _).
  destruct (heap w' !! a) as [n'|] eqn:Hn'.
  - destruct (erase_lookup _ _ _ _ E Hn') as (n & -> & En). cbn. f_equal.
    change (n_class (erase_node n') = n_class (erase_node n)). by rewrite En.
  - destruct (heap w !! a) as [n|] eqn:Hn; [|done].
    symmetry in E. destruct (erase_lookup _ _ _ _ E Hn) as (? & ? & _).
    congruence.
Qed.

Lemma start_targets_ext (h h' : list Node) id :
  n_class <$> h' !! id = n_class <$> h !! id ->
  (forall t x, refs_of h' t id x = refs_of h t id x) ->
  start_targets h' id = start_targets h id.
Proof.
  intros Hc Hr. unfold start_targets.
  destruct (h' !! id) as [n'|], (h !! id) as [n|]; cbn in Hc; try done.
  injection Hc as ->. by rewrite !Hr.
Qed.

(** A node that has nobody to send to starts without queueing. *)
Lemma onStart_quiet id w :
  start_targets (heap w) id = [] -> play (onStart id w) = play w.
Proof.
  unfold start_targets, onStart.
  destruct (heap w !! id) as [n|] eqn:Hn; [|done].
  assert (S1 : refs_of (heap w) OUTPUT id "value" = [] ->
               play (fst (property id "value" (node_property n "value")
                            (Some true) w)) = play w).
  { intros Hs. unfold property. rewrite Hn.
    unfold refs_of, refs_opt in Hs. rewrite Hn in Hs. cbn in Hs.
    destruct (find_first _ _) as [prop|]; [|done]. cbn in Hs. rewrite Hs.
    destruct (strict_eq _ VUndefined); [done|]. cbn zeta.
    by destruct (_ || _). }
  destruct (n_class n) eqn:Ec; try done.
  intros He.
  unfold wcNodeEntry_onTriggered, triggerCondition, triggerExit.
  rewrite Hn.
  unfold refs_of, refs_opt in He. rewrite Hn in He. cbn in He.
  destruct (find_first _ _) as [l|]; [|done]. cbn in He. by rewrite He.
Qed.

Lemma notify_quiet w7 ids : forall w,
  only_visual w7 w -> play w = play w7 ->
  (forall id, id ∈ ids -> start_targets (heap w7) id = []) ->
  play (foldl (fun w' id => onStart id w') w ids) = play w7.
Proof.
  induction ids as [|id ids IH]; intros w V P Q; cbn; [done|].
  assert (P1 : play (onStart id w) = play w).
  { apply onStart_quiet.
    rewrite (start_targets_ext (heap w7) (heap w) id).
    - apply Q. left.
    - by apply only_visual_class.
    - intros t x. by apply only_visual_refs_of. }
  apply IH.
  - eapply only_visual_trans; [exact V|apply onStart_only_visual].
  - congruence.
  - intros id' Hid. apply Q. by right.
Qed.

Lemma resetting_init w : resetting w [] w.
Proof.
  split; [done|]. split; [done|]. split; [done|]. split; [done|].
  split; [|split].
  - intros j n Hn _. by exists n.
  - by intros j n' ?%elem_of_nil.
  - intros t Ht. split; [done|]. by intros j n ?%elem_of_nil.
Qed.



(** * The test of the invariant *)

Lemma has_ref_true node name l :
  has_ref node name l = true <-> mkRef name node ∈ l.
Proof.
  destruct (has_ref node name l) eqn:E.
  - split; [intros _|done].
    destruct (decide (mkRef name node ∈ l)) as [|Hn]; [done|].
    apply has_ref_false in Hn. congruence.
  - split; [done|]. intros H. by apply has_ref_false in E.
Qed.

Lemma nodupb_NoDup l : nodupb l = true -> NoDup l.
Proof.
  induction l as [|[y b] l IH]; cbn; [constructor|].
  intros [H1 H2]%andb_prop. apply negb_true_iff, has_ref_false in H1.
  constructor; auto.
Qed.

Lemma nodes_ok_lookup h : forall l a0,
  nodes_ok h a0 l = true ->
  forall i n, l !! i = Some n -> node_ok h (a0 + i) n = true.
Proof.
  induction l as [|m l IH]; intros a0 H i n Hi; [done|].
  cbn in H. apply andb_prop in H as [H1 H2].
  destruct i as [|i]; cbn in Hi.
  - injection Hi as <-. by rewrite Nat.add_0_r.
  - rewrite <- Nat.add_succ_comm. by apply IH.
Qed.

Lemma node_refs_links_of t n x refs :
  node_refs t n x = Some refs -> In (x, refs) (links_of t n).
Proof.
  destruct t; cbn.
  all: destruct (find_first _ _) as [l0|] eqn:E; cbn; [|done].
  all: intros [= <-]; apply find_first_Some in E as [E1 E2].
  all: apply String.eqb_eq in E1; subst x.
  all: apply in_map_iff; exists l0; split; [done|by apply list_elem_of_In].
Qed.

Lemma graph_ok_sound h : graph_ok h = true -> symmetric h /\ unique_refs h.
Proof.
  intros Hok.
  assert (Hslot : forall t a x refs,
            refs_opt h t a x = Some refs ->
            NoDup refs /\
            forall r, r ∈ refs ->
              mkRef x a ∈ refs_of h (opposite t) (r_node r) (r_name r)).
  { intros t a x refs Hr. unfold refs_opt in Hr.
    destruct (h !! a) as [n|] eqn:Hn; [|done].
    pose proof (nodes_ok_lookup h h 0 Hok a n Hn) as Hnode.
    change (0 + a) with a in Hnode. unfold node_ok in Hnode. rewrite forallb_forall in Hnode.
    assert (Ht : In t [ENTRY; EXIT; INPUT; OUTPUT])
      by (destruct t; cbn; tauto).
    specialize (Hnode t Ht). rewrite forallb_forall in Hnode.
    specialize (Hnode _ (node_refs_links_of _ _ _ _ Hr)). cbn in Hnode.
    apply andb_prop in Hnode as [H1 H2]. split; [by apply nodupb_NoDup|].
    intros r Hin. rewrite forallb_forall in H2.
    apply has_ref_true, H2. by apply list_elem_of_In. }
  split.
  - intros t a x r Hin. unfold refs_of in Hin.
    destruct (refs_opt h t a x) as [refs|] eqn:E; cbn in Hin;
      [|by apply elem_of_nil in Hin].
    by apply (Hslot t a x refs E).
  - intros t a x. unfold refs_of.
    destruct (refs_opt h t a x) as [refs|] eqn:E; cbn; [|constructor].
    by apply (Hslot t a x refs E).
Qed.

(** * Connecting twice *)

Lemma pairings_none node name l :
  has_ref node name l = false -> pairings node name l = 0.
Proof.
  unfold pairings, has_ref. induction l as [|r l IH]; cbn; [done|].
  intros [H1 H2]%orb_false_iff. rewrite H1. auto.
Qed.

Lemma pairings_snoc node name l :
  pairings node name (l ++ [mkRef name node]) = S (pairings node name l).
Proof.
  unfold pairings. rewrite List.filter_app, length_app. cbn.
  rewrite Nat.eqb_refl, String.eqb_refl. cbn. lia.
Qed.

Lemma has_ref_snoc node name l :
  has_ref node name (l ++ [mkRef name node]) = true.
Proof.
  unfold has_ref. rewrite existsb_app. cbn.
  rewrite Nat.eqb_refl, String.eqb_refl. by rewrite orb_true_r.
Qed.

Lemma connect_pushes_refs h t A x B y mine theirs :
  refs_opt h t A x = Some mine ->
  refs_opt h (opposite t) B y = Some theirs ->
  let h2 :=
    set_refs (set_refs h t A x (fun l => l ++ [mkRef y B]))
      (opposite t) B y (fun l => l ++ [mkRef x A]) in
  refs_opt h2 t A x = Some (mine ++ [mkRef y B]) /\
  refs_opt h2 (opposite t) B y = Some (theirs ++ [mkRef x A]).
Proof.
  intros Hm Ht h2.
  assert (Hne : (t, A, x) <> (opposite t, B, y)).
  { intros [= H _ _]. by apply (opposite_ne t). }
  split.
  - unfold h2. rewrite refs_opt_set_other by done.
    apply (refs_opt_set_same _ _ _ _ (fun l => l ++ [mkRef y B]) mine Hm).
  - unfold h2.
    apply (refs_opt_set_same _ _ _ _ (fun l => l ++ [mkRef x A]) theirs).
    by rewrite refs_opt_set_other.
Qed.

(** * The three parts of [start] *)

Lemma start_reset_resetting w :
  exists w2,
    heap w2 = heap w /\ host w2 = host w /\
    all_nodes (play w2) = all_nodes (play w) /\
    properties (play w2)
      = map (fun sp => set_sp_value (sp_initialValue sp) sp)
          (properties (play w)) /\
    resetting w2 (all_nodes (play w)) (start_reset w).
Proof.
  eexists. split; [|split; [|split; [|split]]];
    [| | | |apply (resetting_all _ _ [] _ (resetting_init _))]; reflexivity.
Qed.

Lemma start_run_facts w3 :
  heap (start_run w3) = heap w3 /\
  timers (host (start_run w3)) = timers (host w3) ++ [nextTimer (host w3)] /\
  updateID (play (start_run w3)) = nextTimer (host w3) /\
  properties (play (start_run w3)) = properties (play w3) /\
  all_nodes (play (start_run w3)) = all_nodes (play w3) /\
  queuedChain (play (start_run w3)) = [] /\
  queuedProperties (play (start_run w3)) = [].
Proof. repeat split. Qed.

Lemma only_visual_play_fields w w' :
  only_visual w w' ->
  properties (play w') = properties (play w) /\
  updateID (play w') = updateID (play w) /\
  all_nodes (play w') = all_nodes (play w).
Proof.
  intros (_ & E & _). unfold erase_play in E.
  injection E as E1 E2 E3 E4 E5 E6 E7 E8. unfold all_nodes.
  split; [done|]. split; [done|]. congruence.
Qed.

Lemma quiet_targets w id :
  quiet w = true -> id ∈ all_nodes (play w) ->
  start_targets (heap w) id = [].
Proof.
  unfold quiet. rewrite forallb_forall. intros Q Hid.
  apply list_elem_of_In in Hid. specialize (Q id Hid).
  by destruct (start_targets (heap w) id).
Qed.

(** C9, amended.  After [start()] every property of the script and every
    property of every node of the engine has its initial value; every
    such node has an empty list of threads, and the timers that are still
    outstanding are the interval that [start] itself has set up and
    timers that were no numeric thread of a node of the engine.  The
    queues are emptied before the [onStart] hooks run: they are empty
    after [start()] when no Storage node has an output of [value]
    connected and no Start node has its [out] connected, and hold what
    the hooks have queued otherwise. *)
Theorem start_resets_state (w : World) :
  Forall (fun sp => sp_value sp = sp_initialValue sp)
    (properties (play (start w))) /\
  (forall id n', id ∈ all_nodes (play w) -> heap (start w) !! id = Some n' ->
     Forall (fun p => p_value p = p_initialValue p) (n_properties n') /\
     nm_threads (n_meta n') = []) /\
  (forall t, t ∈ timers (host (start w)) ->
     t = updateID (play (start w)) \/
     (t ∈ timers (host w) /\
      forall id n, id ∈ all_nodes (play w) -> heap w !! id = Some n ->
        ThreadNumber t ∉ nm_threads (n_meta n))) /\
  (quiet w = true ->
   queuedChain (play (start w)) = [] /\
   queuedProperties (play (start w)) = []).
Proof.
  unfold start.
  destruct (start_reset_resetting w)
    as (w2 & Hh2 & Hs2 & Ha2 & Hp2 & P3 & N3 & L3 & C3 & T3 & R3 & H3).
  generalize dependent (start_reset w). intros w3 P3 N3 L3 C3 T3 R3 H3.
  destruct (start_run_facts w3) as (F1 & F2 & F3 & F4 & F5 & F6 & F7).
  generalize dependent (start_run w3). intros w7 F1 F2 F3 F4 F5 F6 F7.
  pose proof (notify_onStart_only_visual w7) as V.
  pose proof (notify_quiet w7 (all_nodes (play w7)) w7 (only_visual_refl w7)
                eq_refl) as NQ.
  fold (notify_onStart w7) in NQ.
  generalize dependent (notify_onStart w7). intros w' V NQ.
  destruct (only_visual_play_fields _ _ V) as (V1 & V2 & V3).
  pose proof V as (VE & _ & VH).
  split; [|split; [|split]].
  - rewrite V1, F4, P3, Hp2. apply Forall_forall.
    intros sp Hsp. apply list_elem_of_fmap in Hsp as [q [-> _]]. done.
  - intros id n' Hid Hn'.
    destruct (erase_lookup _ _ _ _ VE Hn') as (n3 & Hn3 & En).
    apply (node_reset_erase n3 n' En). rewrite F1 in Hn3.
    by apply (R3 id).
  - intros t Ht. rewrite VH, F2 in Ht.
    apply elem_of_app in Ht as [Ht|Ht].
    + right. destruct (H3 t Ht) as [H1 H2]. rewrite Hs2 in H1.
      split; [done|]. intros id n Hid Hn. apply (H2 id n); [done|].
      by rewrite Hh2.
    + left. apply list_elem_of_singleton in Ht. by rewrite V2, F3.
  - intros Q. rewrite NQ; [done|].
    intros id Hid. rewrite F5, P3, Ha2 in Hid. rewrite F1.
    rewrite (start_targets_ext (heap w) (heap w3) id).
    + by apply quiet_targets.
    + rewrite C3. by rewrite Hh2.
    + intros t x. rewrite (same_links_refs_of w2 w3) by done.
      by rewrite Hh2.
Qed.

(** * Link symmetry *)

(** C3.  Link symmetry, together with the absence of doubled references,
    is an invariant: from a graph that has it, every sequence of the four
    connects and the four disconnects, filtered or not, runs to its end
    (given fuel enough) and ends in a graph that has it. *)
Theorem link_symmetry_invariant (ops : list LinkOp) (w : World) :
  symmetric (heap w) -> unique_refs (heap w) ->
  exists fuel w',
    (forall fuel', fuel <= fuel' -> run_ops fuel' ops w = Some w') /\
    symmetric (heap w') /\ unique_refs (heap w').
Proof. apply run_ops_invariant. Qed.

Lemma link_symmetry_invariant_witness :
  exists fuel w',
    (forall fuel', fuel <= fuel' ->
       run_ops fuel'
         [Disconnect ENTRY 1 EmptyString (Some 0) None;
          Connect INPUT 1 "enabled" 0 "enabled";
          Connect EXIT 1 "out" 1 "in";
          Disconnect EXIT 0 "out" None (Some "in");
          Disconnect OUTPUT 0 "enabled" None None]
         linked_world = Some w') /\
    symmetric (heap w') /\ unique_refs (heap w').
Proof.
  destruct (graph_ok_sound (heap linked_world)) as [Hs Hu];
    [vm_compute; reflexivity|].
  exact (link_symmetry_invariant _ linked_world Hs Hu).
Defined.

(** * Connecting twice *)

(** C4.  When one of the two named ends is missing, [connectEntry]
    answers [NOT_FOUND] and changes nothing.  When both exist and are not
    yet paired, the first call answers [SUCCESS] and the second
    [ALREADY_CONNECTED] without a change, and each of the two arrays then
    holds the pairing once. *)
Theorem connectEntry_twice (w : World) (self : nat) (name : string)
    (targetNode : nat) (targetName : string) :
  (refs_opt (heap w) ENTRY self name = None \/
   refs_opt (heap w) EXIT targetNode targetName = None ->
   connectEntry self name targetNode targetName w = (w, NOT_FOUND)) /\
  (forall mine theirs,
     refs_opt (heap w) ENTRY self name = Some mine ->
     refs_opt (heap w) EXIT targetNode targetName = Some theirs ->
     has_ref targetNode targetName mine = false ->
     has_ref self name theirs = false ->
     exists w1,
       connectEntry self name targetNode targetName w = (w1, SUCCESS) /\
       connectEntry self name targetNode targetName w1
         = (w1, ALREADY_CONNECTED) /\
       refs_of (heap w1) ENTRY self name
         = mine ++ [mkRef targetName targetNode] /\
       refs_of (heap w1) EXIT targetNode targetName
         = theirs ++ [mkRef name self] /\
       pairings targetNode targetName (refs_of (heap w1) ENTRY self name) = 1 /\
       pairings self name (refs_of (heap w1) EXIT targetNode targetName) = 1).
Proof.
  split.
  - intros H. unfold connectEntry, connect.
    destruct (heap w !! targetNode); [|done].
    destruct (refs_opt (heap w) ENTRY self name); [|done].
    destruct H as [H|H]; [done|]. cbn [opposite]. by rewrite H.
  - intros mine theirs Hm Ht H1 H2.
    assert (Hn : is_Some (heap w !! targetNode)).
    { unfold refs_opt in Ht. by destruct (heap w !! targetNode). }
    destruct Hn as [tn Hn].
    destruct (connect_pushes_refs (heap w) ENTRY self name targetNode
                targetName mine theirs Hm Ht) as [E1 E2].
    cbn [opposite] in E1, E2.
    exists (with_heap
              (fun h => set_refs h EXIT targetNode targetName
                          (fun l => l ++ [mkRef name self]))
              (with_heap
                 (fun h => set_refs h ENTRY self name
                             (fun l => l ++ [mkRef targetName targetNode]))
                 w)).
    cbn [heap with_heap].
    split.
    { unfold connectEntry, connect. rewrite Hn, Hm. cbn [opposite].
      rewrite Ht, H1, H2. reflexivity. }
    split; [|split; [|split; [|split]]].
    + unfold connectEntry, connect. cbn [heap with_heap opposite].
      assert (Hn' : is_Some
                (set_refs (set_refs (heap w) ENTRY self name
                             (fun l => l ++ [mkRef targetName targetNode]))
                   EXIT targetNode targetName
                   (fun l => l ++ [mkRef name self]) !! targetNode)).
      { unfold set_refs. apply lookup_lt_is_Some.
        rewrite !length_alter. by eapply lookup_lt_Some. }
      destruct Hn' as [tn' ->]. rewrite E1, E2, has_ref_snoc. reflexivity.
    + unfold refs_of. by rewrite E1.
    + unfold refs_of. by rewrite E2.
    + replace (refs_of _ ENTRY self name)
        with (mine ++ [mkRef targetName targetNode])
        by (unfold refs_of; by rewrite E1).
      by rewrite pairings_snoc, pairings_none.
    + replace (refs_of _ EXIT targetNode targetName)
        with (theirs ++ [mkRef name self])
        by (unfold refs_of; by rewrite E2).
      by rewrite pairings_snoc, pairings_none.
Qed.

Lemma connectEntry_twice_witness :
  connectEntry 0 "nowhere" 1 "out" linked_world = (linked_world, NOT_FOUND) /\
  exists w1,
    connectEntry 0 "in" 1 "out" linked_world = (w1, SUCCESS) /\
    connectEntry 0 "in" 1 "out" w1 = (w1, ALREADY_CONNECTED) /\
    pairings 1 "out" (refs_of (heap w1) ENTRY 0 "in") = 1 /\
    pairings 0 "in" (refs_of (heap w1) EXIT 1 "out") = 1.
Proof.
  split.
  - apply (connectEntry_twice linked_world 0 "nowhere" 1 "out").
    left. reflexivity.
  - destruct (connectEntry_twice linked_world 0 "in" 1 "out") as [_ H].
    destruct (H [] []) as (w1 & H1 & H2 & _ & _ & H5 & H6);
      [reflexivity|reflexivity|reflexivity|reflexivity|].
    exists w1. split; [exact H1|]. split; [exact H2|].
    split; [exact H5|exact H6].
Defined.

(** * The scheduler: budget and order of a tick *)

(** C1, at the failing input.  With [updateLimit] 2, one property update
    and two entry triggers in the queues, one tick applies the update and
    runs both handlers: three items, one more than the limit.  The budget
    of the second loop is [updateLimit - count] with [count] the counter
    that the first loop has just run down to zero. *)
Theorem update_exceeds_updateLimit :
  o_updateLimit (options (play busy_world)) = 2 /\
  length (queuedProperties (play busy_world)) = 1 /\
  length (queuedChain (play busy_world)) = 2 /\
  snd <$> update operate_int busy_world
    = Some [PropertyUpdated (mkPropertyItem 0 "debug log" (VBool true));
            EntryTriggered (mkChainItem 0 "in") [];
            EntryTriggered (mkChainItem 0 "in") []].
Proof. vm_compute. done. Qed.

(** C2 as stated fails: in one tick the handler of the Operation node
    queues an update of [message], and the handler of the Console Log
    node runs next, in the same tick, while that update waits and
    [message] still has its old value. *)
Lemma update_runs_entry_with_pending_update :
  exists w',
    update operate_int interleave_world
      = Some (w',
              [PropertyUpdated (mkPropertyItem 1 "message" (VNum 0));
               EntryTriggered (mkChainItem 0 "add") [];
               EntryTriggered (mkChainItem 1 "in")
                 [mkPropertyItem 1 "message" (VNum 1)]]) /\
    value_of w' 0 "result" = VNum 1 /\
    value_of w' 1 "message" = VNum 0 /\
    queuedProperties (play w') = [mkPropertyItem 1 "message" (VNum 1)].
Proof. eexists. vm_compute. done. Qed.

Section Tick.
Variable operate : string -> Value -> Value -> Value.

(** C2, amended.  A tick always ends.  It applies property updates
    first, the oldest first, at most [updateLimit] of them, and then runs
    entry handlers, the oldest first, at most [updateLimit] of them; it
    runs an entry handler only when the first loop has left the queue of
    property updates empty, so that every update that was queued when the
    tick began has been applied before the first handler runs, which
    finds no update waiting.  The updates that a handler queues wait for
    a later tick. *)
Theorem update_properties_then_entries (w : World) :
  exists w' ps cs,
    update operate w = Some (w', map PropertyUpdated ps ++ cs) /\
    ps = take (length ps) (queuedProperties (play w)) /\
    length ps <= o_updateLimit (options (play w)) /\
    Forall2 (fun ev it => exists pending, ev = EntryTriggered it pending)
      cs (take (length cs) (queuedChain (play w))) /\
    length cs <= o_updateLimit (options (play w)) /\
    (cs <> [] ->
     ps = queuedProperties (play w) /\
     exists it rest, cs = EntryTriggered it [] :: rest).
Proof. apply update_spec. Qed.

End Tick.

Lemma update_properties_then_entries_witness :
  exists w' ps cs,
    update operate_int interleave_world
      = Some (w', map PropertyUpdated ps ++ cs) /\
    length ps <= 100 /\ length cs <= 100.
Proof.
  destruct (update_properties_then_entries operate_int interleave_world)
    as (w' & ps & cs & H1 & _ & H3 & _ & H5 & _).
  exists w', ps, cs. split; [exact H1|]. split; [exact H3|exact H5].
Defined.

(** * Restart *)

(** C9 as stated fails: a Start node whose [out] is connected fires in
    its [onStart], after the queues have been emptied, so that the entry
    of the connected node is in the queue when [start()] returns. *)
Lemma start_leaves_queued_entry :
  queuedChain (play (start started_world)) = [mkChainItem 1 "in"] /\
  value_of (start started_world) 1 "milliseconds" = VNum 1000 /\
  timers (host started_world) = [1] /\
  timers (host (start started_world)) = [2].
Proof. vm_compute. done. Qed.

Lemma start_resets_state_witness :
  (exists n',
     heap (start unconnected_world) !! 1 = Some n' /\
     Forall (fun p => p_value p = p_initialValue p) (n_properties n') /\
     nm_threads (n_meta n') = []) /\
  queuedChain (play (start unconnected_world)) = [] /\
  queuedProperties (play (start unconnected_world)) = [].
Proof.
  destruct (start_resets_state unconnected_world) as (_ & H2 & _ & H4).
  split.
  - eexists. split; [vm_compute; reflexivity|].
    apply (H2 1); [|vm_compute; reflexivity].
    apply list_elem_of_In. vm_compute. auto.
  - apply H4. vm_compute. reflexivity.
Defined.

(** * Breakpoints and disabled nodes *)

(** C5 as stated fails: triggering an entry of a node with a breakpoint,
    in an engine that runs, sets the pause flag of the engine. *)
Lemma triggerEntry_sets_engine_paused :
  isPaused (play breakpoint_world) = false /\
  isStepping (play breakpoint_world) = false /\
  isPaused (play (fst (triggerEntry 0 "in" breakpoint_world))) = true.
Proof. vm_compute. done. Qed.

Lemma enabled_set_entry f n : enabled (set_entry f n) = enabled n.
Proof. done. Qed.

Lemma debugBreak_set_entry w f g n :
  debugBreak (with_heap g w) (set_entry f n) = debugBreak w n.
Proof. done. Qed.

(** C5, amended.  Triggering an existing entry of an enabled node of the
    engine queues the entry.  When the node breaks (its breakpoint is set
    and the engine debugs) or the engine is stepping, the entry link and
    the node are marked paused and the pause flag of the engine is set as
    well, by [queueNodeEntry]; otherwise the pause flag keeps its
    value. *)
Theorem triggerEntry_break_pauses_engine (w : World) (self : nat) (n : Node)
    (name : string) (l : Link) :
  heap w !! self = Some n ->
  find_first (link_named name) (n_entry n) = Some l ->
  n_parent n = true ->
  truthy (enabled n) = true ->
  let w' := fst (triggerEntry self name w) in
  queuedChain (play w') = queuedChain (play w) ++ [mkChainItem self (l_name l)] /\
  (debugBreak w n || isStepping (play w) = true ->
   isPaused (play w') = true /\
   exists n' l',
     heap w' !! self = Some n' /\
     find_first (link_named name) (n_entry n') = Some l' /\
     m_paused (l_meta l') = true /\
     nm_paused (n_meta n') = true) /\
  (debugBreak w n || isStepping (play w) = false ->
   isPaused (play w') = isPaused (play w)).
Proof.
  intros Hn Hl Hp He w'. unfold w', triggerEntry. rewrite Hn, Hl, Hp.
  cbn [fst]. unfold queueNodeEntry. cbn [heap with_heap].
  rewrite list_lookup_alter_eq, Hn. cbn [fmap option_fmap option_map].
  rewrite enabled_set_entry, He.
  unfold engine_stepping. rewrite Hp. cbn [andb].
  rewrite debugBreak_set_entry. cbn [play with_heap isStepping].
  destruct (debugBreak w n || isStepping (play w)) eqn:Hc.
  - split; [done|]. split; [|done]. intros _. split; [done|].
    cbn [heap with_heap with_play].
    rewrite list_lookup_alter_eq, list_lookup_alter_eq, Hn. cbn.
    eexists _, _. split; [done|]. cbn [n_entry set_node_meta set_entry].
    rewrite find_first_update_first, Hl by done. cbn. done.
  - split; [done|]. split; [done|]. done.
Qed.

Lemma triggerEntry_break_pauses_engine_witness :
  queuedChain (play (fst (triggerEntry 0 "in" breakpoint_world)))
    = [mkChainItem 0 "in"] /\
  isPaused (play (fst (triggerEntry 0 "in" breakpoint_world))) = true.
Proof.
  destruct (triggerEntry_break_pauses_engine breakpoint_world 0
              (default (mkNode wcNode [] [] [] (mkNodeMeta false false false [])
                          false false)
                 (heap breakpoint_world !! 0))
              "in" (mkLink "in" [] meta0))
    as (H1 & H2 & _); [reflexivity|reflexivity|reflexivity|reflexivity|].
  split; [exact H1|]. apply H2. reflexivity.
Defined.


(** * Removing a property *)

Lemma removeProperty_loop_false fuel self name steps :
  forall i h h' b,
    removeProperty_loop fuel self name steps i h = Some (h', b) -> b = false.
Proof.
  induction steps as [|steps IH]; intros i h h' b; cbn.
  - by intros [= _ <-].
  - destruct (name_at h INPUT self i) as [nm|]; [|by intros [= _ <-]].
    destruct (String.eqb nm name); [|apply IH].
    destruct (disconnectInput _ _ _ _ _ _) as [[h1 r1]|]; [|done].
    destruct (disconnectOutput _ _ _ _ _ _) as [[h2 r2]|]; [|done].
    cbn. apply IH.
Qed.

(** Whatever [removeProperty] returns, it is [false]. *)
Lemma removeProperty_returns_false fuel self name h h' b :
  removeProperty fuel self name h = Some (h', b) -> b = false.
Proof. apply removeProperty_loop_false. Qed.

(** C7, at the failing input.  On a Delay node that has no connection,
    [removeProperty('milliseconds')] returns [false] and leaves the
    property where it is, while [removeEntry('in')] on the same node
    removes the link and returns [true]. *)
Theorem removeProperty_keeps_unlinked_property :
  let h := heap script_world in
  removeProperty 2 0 "milliseconds" h = Some (h, false) /\
  removeEntry 2 0 "in" h = Some (delete_at ENTRY 0 0 h, true).
Proof. vm_compute. done. Qed.

(** * Initial values *)

(** [wcPlay.initialProperty] with a new value moves the live value when
    it was equal to the old initial value, and only then. *)
Lemma play_initialProperty_coupled w name value prop :
  find_first (sprop_named name) (properties (play w)) = Some prop ->
  strict_eq value VUndefined = false ->
  strict_eq value (sp_initialValue prop) = false ->
  exists prop',
    find_first (sprop_named name)
      (properties (play (fst (play_initialProperty name value w))))
      = Some prop' /\
    sp_initialValue prop' = value /\
    sp_value prop' =
      if strict_eq (sp_value prop) (sp_initialValue prop) then value
      else sp_value prop.
Proof.
  intros Hp H1 H2. unfold play_initialProperty. rewrite Hp, H1, H2. cbn.
  destruct (strict_eq (sp_value prop) (sp_initialValue prop)); cbn.
  - rewrite !find_first_update_first, Hp by done. eexists. done.
  - rewrite !find_first_update_first, Hp by done. eexists. done.
Qed.

(** [wcNode.initialValue] changes no live value. *)
Lemma initialValue_keeps_values self name value w a x :
  value_of (fst (initialValue self name value w)) a x = value_of w a x.
Proof.
  unfold initialValue, value_of. cbn.
  destruct (decide (self = a)) as [->|Hne].
  - rewrite list_lookup_alter_eq. destruct (heap w !! a) as [n|]; cbn; [|done].
    unfold node_property. cbn.
    induction (n_properties n) as [|p l IH]; cbn; [done|].
    destruct (prop_named name p); cbn; destruct (prop_named x p) eqn:E; cbn.
    all: unfold prop_named in *; cbn; rewrite ?E; done.
  - by rewrite list_lookup_alter_ne.
Qed.

(** C8, at the failing input.  [milliseconds] of a fresh Delay node has
    the live value 1000, equal to its initial value; after
    [initialValue('milliseconds', 5)] the initial value is 5 and the live
    value still 1000. *)
Theorem initialValue_does_not_move_value :
  let w := script_world in
  let w' := fst (initialValue 0 "milliseconds" (VNum 5) w) in
  value_of w 0 "milliseconds" = VNum 1000 /\
  initial_of w 0 "milliseconds" = VNum 1000 /\
  value_of w' 0 "milliseconds" = VNum 1000 /\
  initial_of w' 0 "milliseconds" = VNum 5.
Proof. vm_compute. done. Qed.

(** [wcNode.initialProperty] of the built script does move it. *)
Example initialProperty_moves_value :
  let w' := fst (initialProperty 0 "milliseconds" (VNum 5) script_world) in
  value_of w' 0 "milliseconds" = VNum 5 /\
  initial_of w' 0 "milliseconds" = VNum 5.
Proof. vm_compute. done. Qed.

(** * The getter of the script *)

(** C10.  [wcPlay.property] returns [undefined], with or without a value
    and whether the property exists or not, and without a value it
    changes nothing; the getter of a node returns the value of the
    property that it finds. *)
Theorem play_property_returns_undefined (w : World) (name : string) :
  play_property name VUndefined w = (w, VUndefined) /\
  (forall value, snd (play_property name value w) = VUndefined) /\
  (forall self n prop name' fos,
     heap w !! self = Some n ->
     find_first (prop_named name') (n_properties n) = Some prop ->
     property self name' VUndefined fos w = (w, p_value prop)).
Proof.
  split; [|split].
  - unfold play_property. by destruct (find_first _ _).
  - intros value. unfold play_property. destruct (find_first _ _); [|done].
    by destruct (_ && _).
  - intros self n prop name' fos Hn Hp. unfold property. by rewrite Hn, Hp.
Qed.

Lemma play_property_returns_undefined_witness :
  play_property "speed" VUndefined script_world = (script_world, VUndefined) /\
  property 0 "milliseconds" VUndefined None script_world
    = (script_world, VNum 1000).
Proof.
  destruct (play_property_returns_undefined script_world "speed")
    as (H1 & _ & H3).
  split; [exact H1|].
  eapply (H3 0 _ (mkProperty "milliseconds" (VNum 1000) (VNum 1000) "number"
                    [] [] meta0 meta0)); reflexivity.
Defined.

(** * Connecting from the other end *)

Lemma update_first_comm {A} (P Q : A -> bool) (f g : A -> A) l :
  (forall a, P (g a) = P a) -> (forall a, Q (f a) = Q a) ->
  (forall a, f (g a) = g (f a)) ->
  update_first P f (update_first Q g l) = update_first Q g (update_first P f l).
Proof.
  intros HP HQ Hc. induction l as [|a l IH]; cbn; [done|].
  destruct (P a) eqn:EP, (Q a) eqn:EQ; cbn.
  - by rewrite HP, EP, HQ, EQ, Hc.
  - by rewrite EP, HQ, EQ.
  - by rewrite HP, EP, EQ.
  - by rewrite EP, EQ, IH.
Qed.

Lemma node_set_refs_comm t x y f g n :
  node_set_refs (opposite t) y g (node_set_refs t x f n)
  = node_set_refs t x f (node_set_refs (opposite t) y g n).
Proof.
  destruct t; cbn; unfold set_entry, set_exit, set_properties; cbn; try done.
  all: f_equal; by apply update_first_comm.
Qed.

Lemma set_refs_comm h t a x f b y g :
  set_refs (set_refs h t a x f) (opposite t) b y g
  = set_refs (set_refs h (opposite t) b y g) t a x f.
Proof.
  unfold set_refs. destruct (decide (b = a)) as [->|Hne].
  - rewrite !list_alter_alter_eq. apply list_alter_ext; [|done].
    intros n _. cbn. apply node_set_refs_comm.
  - by apply list_alter_alter_ne.
Qed.

Lemma connect_mirror t a x b y w :
  connect (opposite t) b y a x w = connect t a x b y w.
Proof.
  unfold connect. rewrite opposite_involutive.
  destruct (heap w !! a) as [na|] eqn:Ea, (heap w !! b) as [nb|] eqn:Eb.
  2: { unfold refs_opt. by rewrite Eb. }
  2: { unfold refs_opt. by rewrite Ea. }
  2: done.
  destruct (refs_opt (heap w) t a x) as [la|] eqn:Ha,
           (refs_opt (heap w) (opposite t) b y) as [lb|] eqn:Hb; try done.
  destruct (has_ref a x lb), (has_ref b y la); try done.
  f_equal. unfold with_heap. cbn [heap play host].
  rewrite <- set_refs_comm.
  destruct t; cbn [opposite onConnect]; reflexivity.
Qed.

(** * What a disconnect removes *)

Lemma ref_eqb_eq a b : ref_eqb a b = true <-> a = b.
Proof.
  unfold ref_eqb. rewrite andb_true_iff, Nat.eqb_eq, String.eqb_eq.
  destruct a, b; cbn. split; [by intros [-> ->]|by intros [= -> ->]].
Qed.

Lemma without_notin r l : r ∉ without r l.
Proof.
  unfold without. intros H%list_elem_of_In%filter_In.
  destruct H as [_ H]. apply negb_true_iff in H.
  assert (ref_eqb r r = true) by (by apply ref_eqb_eq). congruence.
Qed.

Lemma without_id r l : r ∉ l -> without r l = l.
Proof.
  unfold without. induction l as [|a l IH]; cbn; [done|].
  intros [Hne Hl]%not_elem_of_cons.
  destruct (ref_eqb a r) eqn:E; cbn.
  - apply ref_eqb_eq in E. congruence.
  - by rewrite IH.
Qed.

Lemma without_snoc r l : r ∉ l -> without r (l ++ [r]) = l.
Proof.
  intros H. unfold without. rewrite List.filter_app. cbn.
  assert (ref_eqb r r = true) as -> by (by apply ref_eqb_eq). cbn.
  rewrite app_nil_r. by apply without_id.
Qed.

Lemma sub_drop_without r l l' :
  sub_drop (fun a => a = r) l l' -> r ∉ l' -> l' = without r l.
Proof.
  induction 1 as [|a l l' H IH|a l l' -> H IH]; intros Hn.
  - done.
  - apply not_elem_of_cons in Hn as [Hne Hn]. unfold without. cbn.
    destruct (ref_eqb a r) eqn:E; cbn.
    + apply ref_eqb_eq in E. congruence.
    + f_equal. by apply IH.
  - unfold without. cbn.
    assert (ref_eqb r r = true) as -> by (by apply ref_eqb_eq). cbn.
    by apply IH.
Qed.

Lemma sub_drop_same {A} (l l' : list A) :
  sub_drop (fun _ => False) l l' -> l' = l.
Proof. induction 1; [done|by f_equal|done]. Qed.

Lemma drops_refl P h : drops P h h.
Proof. intros t a x. apply sub_drop_refl. Qed.

Lemma drops_trans P h1 h2 h3 : drops P h1 h2 -> drops P h2 h3 -> drops P h1 h3.
Proof. intros H1 H2 t a x. eapply sub_drop_trans; eauto. Qed.

Lemma drops_weaken (P Q : LINK_TYPE -> nat -> string -> Ref -> Prop) h h' :
  (forall t a x r, P t a x r -> Q t a x r) -> drops P h h' -> drops Q h h'.
Proof. intros H D t a x. eapply sub_drop_weaken; [|apply D]. apply H. Qed.

Lemma drops_delete (P : LINK_TYPE -> nat -> string -> Ref -> Prop) h t A x i r :
  refs_of h t A x !! i = Some r -> P t A x r ->
  drops P h (set_refs h t A x (delete i)).
Proof.
  intros Hr HP t' a' x'.
  destruct (decide ((t, A, x) = (t', a', x'))) as [[= <- <- <-]|Hne].
  - rewrite (refs_of_set_same _ _ _ _ _ _ (refs_of_lookup _ _ _ _ _ _ Hr)).
    by eapply sub_drop_delete.
  - rewrite refs_of_set_other by done. apply sub_drop_refl.
Qed.

Lemma link_filter_exact B y r :
  y <> EmptyString -> link_filter (Some B) (Some y) r = true -> r = mkRef y B.
Proof.
  intros Hy. unfold link_filter. apply String.eqb_neq in Hy. rewrite Hy. cbn.
  intros [H1 H2]%andb_prop. apply Nat.eqb_eq in H1. apply String.eqb_eq in H2.
  destruct r; cbn in *. by subst.
Qed.

(** A disconnect on a link of non-empty name removes references of that
    link and references back to it, whatever its filter. *)
Lemma disconnect_loop_own t A x :
  x <> EmptyString ->
  forall fuel i h h',
    (forall tn tname,
       disconnect_loop fuel t A x tn tname i h = Some h' ->
       drops (own_link t A x) h h') /\
    (forall B y,
       disconnect_loop fuel (opposite t) B y (Some A) (Some x) i h = Some h' ->
       drops (own_link t A x) h h').
Proof.
  intros Hx. induction fuel as [|fuel IH]; intros i h h'; [done|].
  split.
  - intros tn tname. rewrite disconnect_loop_S.
    destruct (refs_of h t A x !! i) as [r|] eqn:Hr.
    2: { intros [= <-]. apply drops_refl. }
    destruct (link_filter tn tname r).
    2: { apply (proj1 (IH (S i) h h')). }
    cbn zeta. set (h1 := set_refs h t A x (delete i)).
    assert (D1 : drops (own_link t A x) h h1).
    { eapply drops_delete; [done|]. by left. }
    destruct (refs_opt h1 (opposite t) (r_node r) (r_name r)).
    + destruct (disconnect_loop fuel (opposite t) (r_node r) (r_name r)
                  (Some A) (Some x) 0 h1) as [h2|] eqn:E2; [|done].
      intros E3. eapply drops_trans; [exact D1|].
      eapply drops_trans; [exact (proj2 (IH 0 h1 h2) _ _ E2)|].
      exact (proj1 (IH i h2 h') _ _ E3).
    + intros E3. eapply drops_trans; [exact D1|].
      exact (proj1 (IH i h1 h') _ _ E3).
  - intros B y. rewrite disconnect_loop_S.
    destruct (refs_of h (opposite t) B y !! i) as [r|] eqn:Hr.
    2: { intros [= <-]. apply drops_refl. }
    destruct (link_filter (Some A) (Some x) r) eqn:Hf.
    2: { apply (proj2 (IH (S i) h h')). }
    apply link_filter_exact in Hf as ->; [|done].
    cbn zeta. cbn [r_node r_name]. rewrite opposite_involutive.
    set (h1 := set_refs h (opposite t) B y (delete i)).
    assert (D1 : drops (own_link t A x) h h1).
    { eapply drops_delete; [done|]. by right. }
    destruct (refs_opt h1 t A x).
    + destruct (disconnect_loop fuel t A x (Some B) (Some y) 0 h1)
        as [h2|] eqn:E2; [|done].
      intros E3. eapply drops_trans; [exact D1|].
      eapply drops_trans; [exact (proj1 (IH 0 h1 h2) _ _ E2)|].
      exact (proj2 (IH i h2 h') _ _ E3).
    + intros E3. eapply drops_trans; [exact D1|].
      exact (proj2 (IH i h1 h') _ _ E3).
Qed.

Lemma one_pair_sym t A x B y t0 a0 x0 r :
  one_pair (opposite t) B y A x t0 a0 x0 r -> one_pair t A x B y t0 a0 x0 r.
Proof.
  unfold one_pair. rewrite opposite_involutive. tauto.
Qed.

(** A disconnect of one pairing of links of non-empty names removes the
    two references of the pairing. *)
Lemma disconnect_loop_pair fuel : forall t A x B y i h h',
  x <> EmptyString -> y <> EmptyString ->
  disconnect_loop fuel t A x (Some B) (Some y) i h = Some h' ->
  drops (one_pair t A x B y) h h'.
Proof.
  induction fuel as [|fuel IH]; intros t A x B y i h h' Hx Hy; [done|].
  rewrite disconnect_loop_S.
  destruct (refs_of h t A x !! i) as [r|] eqn:Hr.
  2: { intros [= <-]. apply drops_refl. }
  destruct (link_filter (Some B) (Some y) r) eqn:Hf.
  2: { by apply IH. }
  apply link_filter_exact in Hf as ->; [|done].
  cbn zeta. cbn [r_node r_name].
  set (h1 := set_refs h t A x (delete i)).
  assert (D1 : drops (one_pair t A x B y) h h1).
  { eapply drops_delete; [done|]. by left. }
  destruct (refs_opt h1 (opposite t) B y).
  + destruct (disconnect_loop fuel (opposite t) B y (Some A) (Some x) 0 h1)
      as [h2|] eqn:E2; [|done].
    intros E3. eapply drops_trans; [exact D1|].
    eapply drops_trans.
    * eapply drops_weaken; [|by eapply (IH (opposite t) B y A x)].
      intros ????. apply one_pair_sym.
    * by eapply IH.
  + intros E3. eapply drops_trans; [exact D1|]. by eapply IH.
Qed.

(** A disconnect without a filter leaves the array empty. *)
Lemma disconnect_loop_all fuel : forall t A x h h',
  disconnect_loop fuel t A x None None 0 h = Some h' ->
  refs_of h' t A x = [].
Proof.
  induction fuel as [|fuel IH]; intros t A x h h'; [done|].
  rewrite disconnect_loop_S.
  destruct (refs_of h t A x !! 0) as [r|] eqn:Hr.
  2: { intros [= <-]. by destruct (refs_of h t A x). }
  cbn [link_filter andb]. cbn zeta.
  destruct (match refs_opt _ _ _ _ with None => _ | Some _ => _ end) as [h2|];
    [|done].
  apply IH.
Qed.

Lemma sub_drop_kept {A} (P : A -> Prop) l l' a :
  sub_drop P l l' -> a ∈ l -> ~ P a -> a ∈ l'.
Proof.
  induction 1 as [|b l l' H IH|b l l' Hb H IH]; [done| |].
  - intros [->|Ha]%elem_of_cons Hn; [left|right; auto].
  - intros [->|Ha]%elem_of_cons Hn; [done|auto].
Qed.

(** A disconnect on a link that exists runs to its end and keeps the
    invariant of the graph. *)
Lemma disconnect_runs t A x tn tname h :
  symmetric h -> unique_refs h -> is_Some (refs_opt h t A x) ->
  exists fuel h',
    (forall fuel', fuel <= fuel' ->
       disconnect fuel' t A x tn tname h = Some (h', SUCCESS)) /\
    disconnect_loop fuel t A x tn tname 0 h = Some h' /\
    symmetric h' /\ unique_refs h' /\
    (is_Some tn ->
     forall r, r ∈ refs_of h' t A x -> link_filter tn tname r = false).
Proof.
  intros Hs Hu [l Hl].
  destruct (disconnect_loop_spec (heap_size h) h ltac:(done) Hu t A x
              tn tname 0)
    as (fuel & h' & Hrun & _ & Hsh & Hd & Hclean).
  exists fuel, h'. split; [|split; [|split; [|split]]].
  - intros fuel' Hf. unfold disconnect. by rewrite Hl, Hrun.
  - by apply Hrun.
  - apply symmetric_no_dangling. intros t0 a0 x0 r0 H%Hd.
    by eapply symmetric_no_dangling.
  - by eapply shrinks_unique.
  - intros Htn. apply Hclean; [done|]. intros; lia.
Qed.

Lemma one_pair_own t A x B y t0 a0 x0 r :
  one_pair t A x B y t0 a0 x0 r ->
  ((t0, a0, x0) = (t, A, x) -> r = mkRef y B) /\
  ((t0, a0, x0) = (opposite t, B, y) -> r = mkRef x A) /\
  ((t0, a0, x0) = (t, A, x) \/ (t0, a0, x0) = (opposite t, B, y)).
Proof.
  intros [[E ->]|[E ->]]; (split; [|split]); try tauto.
  - rewrite E. intros [= H _ _]. by apply opposite_ne in H.
  - rewrite E. intros [= H _ _]. symmetry in H. by apply opposite_ne in H.
Qed.

(** The disconnect of one pairing, in full. *)
Lemma disconnect_pair_spec t A x B y h :
  symmetric h -> unique_refs h ->
  x <> EmptyString -> y <> EmptyString ->
  is_Some (refs_opt h t A x) ->
  exists fuel h',
    (forall fuel', fuel <= fuel' ->
       disconnect fuel' t A x (Some B) (Some y) h = Some (h', SUCCESS)) /\
    symmetric h' /\ unique_refs h' /\
    refs_of h' t A x = without (mkRef y B) (refs_of h t A x) /\
    refs_of h' (opposite t) B y
      = without (mkRef x A) (refs_of h (opposite t) B y) /\
    (forall t0 a0 x0,
       (t0, a0, x0) <> (t, A, x) -> (t0, a0, x0) <> (opposite t, B, y) ->
       refs_of h' t0 a0 x0 = refs_of h t0 a0 x0).
Proof.
  intros Hs Hu Hx Hy Hl.
  destruct (disconnect_runs t A x (Some B) (Some y) h Hs Hu Hl)
    as (fuel & h' & Hrun & Hloop & Hs' & Hu' & Hclean).
  pose proof (disconnect_loop_pair _ _ _ _ _ _ _ _ _ Hx Hy Hloop) as D.
  assert (N1 : mkRef y B ∉ refs_of h' t A x).
  { intros Hin. apply Hclean in Hin; [|done].
    by rewrite link_filter_self in Hin. }
  assert (N2 : mkRef x A ∉ refs_of h' (opposite t) B y).
  { intros Hin. apply Hs' in Hin. cbn in Hin.
    by rewrite opposite_involutive in Hin. }
  exists fuel, h'. split; [done|]. split; [done|]. split; [done|].
  split; [|split].
  - apply sub_drop_without; [|done].
    eapply sub_drop_weaken; [|apply D].
    intros r Hr. by apply one_pair_own in Hr as [Hr _]; apply Hr.
  - apply sub_drop_without; [|done].
    eapply sub_drop_weaken; [|apply D].
    intros r Hr. by apply one_pair_own in Hr as (_ & Hr & _); apply Hr.
  - intros t0 a0 x0 H1 H2. apply sub_drop_same.
    eapply sub_drop_weaken; [|apply D].
    intros r Hr. apply one_pair_own in Hr as (_ & _ & [Hr|Hr]); done.
Qed.

(** The disconnect of every pairing of a link, in full. *)
Lemma disconnect_all_spec t A x h :
  symmetric h -> unique_refs h -> is_Some (refs_opt h t A x) ->
  exists fuel h',
    (forall fuel', fuel <= fuel' ->
       disconnect fuel' t A x None None h = Some (h', SUCCESS)) /\
    symmetric h' /\ unique_refs h' /\
    refs_of h' t A x = [] /\
    (forall b y, mkRef x A ∉ refs_of h' (opposite t) b y) /\
    (forall t0 a0 x0 r,
       r ∈ refs_of h' t0 a0 x0 -> r ∈ refs_of h t0 a0 x0) /\
    (forall t0 a0 x0 r,
       r ∈ refs_of h t0 a0 x0 -> a0 <> A -> r_node r <> A ->
       r ∈ refs_of h' t0 a0 x0) /\
    (x <> EmptyString ->
     (forall b y,
        refs_of h' (opposite t) b y
          = without (mkRef x A) (refs_of h (opposite t) b y)) /\
     (forall t0 a0 x0,
        t0 <> opposite t -> (t0, a0, x0) <> (t, A, x) ->
        refs_of h' t0 a0 x0 = refs_of h t0 a0 x0)).
Proof.
  intros Hs Hu Hl.
  destruct (disconnect_loop_spec (heap_size h) h ltac:(done) Hu t A x
              None None 0)
    as (fuel & h' & Hrun & _ & Hsh & Hd & _).
  assert (Hs' : symmetric h').
  { apply symmetric_no_dangling. intros t0 a0 x0 r0 H%Hd.
    by eapply symmetric_no_dangling. }
  pose proof (disconnect_loop_all _ _ _ _ _ _ (Hrun fuel ltac:(done))) as E.
  assert (N : forall b y, mkRef x A ∉ refs_of h' (opposite t) b y).
  { intros b y Hin. apply Hs' in Hin. cbn in Hin.
    rewrite opposite_involutive, E in Hin. by apply elem_of_nil in Hin. }
  exists fuel, h'. split; [|split; [done|split; [|split; [done|split; [done|]]]]].
  - intros fuel' Hf. unfold disconnect. destruct Hl as [l ->]. by rewrite Hrun.
  - by eapply shrinks_unique.
  - split; [|split].
    + intros t0 a0 x0 r. apply sub_drop_elem with (P := allowed A None a0).
      apply Hsh.
    + intros t0 a0 x0 r Hin Ha Hr.
      eapply sub_drop_kept; [apply Hsh|done|].
      intros [[? _]|[? _]]; done.
    + intros Hx.
      pose proof (proj1 (disconnect_loop_own t A x Hx fuel 0 h h') _ _
                    (Hrun fuel ltac:(done))) as D.
      split.
      * intros b y. apply sub_drop_without; [|done].
        eapply sub_drop_weaken; [|apply D].
        intros r [[= Ht _ _]|[_ Hr]]; [|done].
        symmetry in Ht. by apply opposite_ne in Ht.
      * intros t0 a0 x0 H1 H2. apply sub_drop_same.
        eapply sub_drop_weaken; [|apply D].
        intros r [Hr|[Hr _]]; done.
Qed.

(** A disconnect on a link of non-empty name, whatever its filter, leaves
    every other array as it is, but for references back to the link. *)
Lemma disconnect_frame_spec t A x tn tname h :
  unique_refs h -> x <> EmptyString ->
  exists fuel h' res,
    (forall fuel', fuel <= fuel' ->
       disconnect fuel' t A x tn tname h = Some (h', res)) /\
    (forall t0 a0 x0,
       t0 <> opposite t -> (t0, a0, x0) <> (t, A, x) ->
       refs_of h' t0 a0 x0 = refs_of h t0 a0 x0) /\
    (forall b y r,
       r ∈ refs_of h (opposite t) b y -> r <> mkRef x A ->
       r ∈ refs_of h' (opposite t) b y) /\
    (forall t0 a0 x0 r, r ∈ refs_of h' t0 a0 x0 -> r ∈ refs_of h t0 a0 x0).
Proof.
  intros Hu Hx. unfold disconnect.
  destruct (refs_opt h t A x) as [l|] eqn:Hl.
  2: { exists 0, h, NOT_FOUND. done. }
  destruct (disconnect_loop_spec (heap_size h) h ltac:(done) Hu t A x
              tn tname 0)
    as (fuel & h' & Hrun & _ & Hsh & _ & _).
  pose proof (proj1 (disconnect_loop_own t A x Hx fuel 0 h h') _ _
                (Hrun fuel ltac:(done))) as D.
  exists fuel, h', SUCCESS. split; [|split; [|split]].
  - intros fuel' Hf. by rewrite Hrun.
  - intros t0 a0 x0 H1 H2. apply sub_drop_same.
    eapply sub_drop_weaken; [|apply D].
    intros r [Hr|[Hr _]]; done.
  - intros b y r Hin Hne. eapply sub_drop_kept; [apply D|done|].
    intros [[= Ht _ _]|[_ Hr]]; [|done].
    symmetry in Ht. by apply opposite_ne in Ht.
  - intros t0 a0 x0 r. apply sub_drop_elem with (P := own_link t A x t0 a0 x0).
    apply D.
Qed.

(** What a successful connect leaves. *)
Lemma connect_success t A x B y w w1 :
  connect t A x B y w = (w1, SUCCESS) ->
  exists mine theirs,
    refs_opt (heap w) t A x = Some mine /\
    refs_opt (heap w) (opposite t) B y = Some theirs /\
    (mkRef y B ∉ mine) /\ (mkRef x A ∉ theirs) /\
    refs_opt (heap w1) t A x = Some (mine ++ [mkRef y B]) /\
    refs_opt (heap w1) (opposite t) B y = Some (theirs ++ [mkRef x A]) /\
    (forall t0 a0 x0,
       (t0, a0, x0) <> (t, A, x) -> (t0, a0, x0) <> (opposite t, B, y) ->
       refs_opt (heap w1) t0 a0 x0 = refs_opt (heap w) t0 a0 x0).
Proof.
  unfold connect. destruct (heap w !! B); [|done].
  destruct (refs_opt (heap w) t A x) as [mine|] eqn:Hm; [|done].
  destruct (refs_opt (heap w) (opposite t) B y) as [theirs|] eqn:Ht; [|done].
  destruct (has_ref B y mine) eqn:H1; [done|].
  destruct (has_ref A x theirs) eqn:H2; [done|].
  cbn zeta. intros H. apply (f_equal fst) in H. cbn [fst] in H. subst w1.
  exists mine, theirs.
  split; [done|]. split; [done|].
  split; [by apply has_ref_false|]. split; [by apply has_ref_false|].
  destruct (connect_pushes_refs (heap w) t A x B y mine theirs Hm Ht)
    as [E1 E2].
  assert (SL : forall t0 a0 x0 w2,
            refs_opt (heap (onConnect B true y (opposite t) A x
                              (onConnect A true x t B y w2))) t0 a0 x0
            = refs_opt (heap w2) t0 a0 x0).
  { intros. rewrite onConnect_same_links. apply onConnect_same_links. }
  rewrite !SL. cbn [heap with_heap].
  split; [done|]. split; [done|].
  intros t0 a0 x0 N1 N2. rewrite SL. cbn [heap with_heap].
  rewrite refs_opt_set_other by done. by rewrite refs_opt_set_other.
Qed.

(** * The link protocol, call by call *)

(** X2.  In a symmetric graph, a disconnect that names the target node
    and the target link, both links having a non-empty name, answers
    [SUCCESS] and removes the two references of that pairing and nothing
    else: every other array of references is left as it was.  On a link
    that the node does not have it answers [NOT_FOUND] and changes
    nothing. *)
Theorem disconnect_removes_one_pairing (t : LINK_TYPE) (A : nat) (x : string)
    (B : nat) (y : string) (h : list Node) :
  symmetric h -> unique_refs h ->
  x <> EmptyString -> y <> EmptyString ->
  (refs_opt h t A x = None ->
   forall fuel, disconnect fuel t A x (Some B) (Some y) h = Some (h, NOT_FOUND)) /\
  (is_Some (refs_opt h t A x) ->
   exists fuel h',
     (forall fuel', fuel <= fuel' ->
        disconnect fuel' t A x (Some B) (Some y) h = Some (h', SUCCESS)) /\
     symmetric h' /\ unique_refs h' /\
     refs_of h' t A x = without (mkRef y B) (refs_of h t A x) /\
     refs_of h' (opposite t) B y
       = without (mkRef x A) (refs_of h (opposite t) B y) /\
     (forall t0 a0 x0,
        (t0, a0, x0) <> (t, A, x) -> (t0, a0, x0) <> (opposite t, B, y) ->
        refs_of h' t0 a0 x0 = refs_of h t0 a0 x0)).
Proof.
  intros Hs Hu Hx Hy. split.
  - intros Hn fuel. unfold disconnect. by rewrite Hn.
  - by apply disconnect_pair_spec.
Qed.

Lemma disconnect_removes_one_pairing_witness :
  exists fuel h',
    (forall fuel', fuel <= fuel' ->
       disconnectExit fuel' 0 "out" (Some 1) (Some "in") (heap linked_world)
         = Some (h', SUCCESS)) /\
    refs_of h' EXIT 0 "out" = [mkRef EmptyString 1] /\
    refs_of h' ENTRY 1 "in" = [].
Proof.
  destruct (graph_ok_sound (heap linked_world)) as [Hs Hu];
    [vm_compute; reflexivity|].
  destruct (disconnect_removes_one_pairing EXIT 0 "out" 1 "in"
              (heap linked_world) Hs Hu ltac:(discriminate) ltac:(discriminate))
    as [_ H].
  destruct H as (fuel & h' & Hrun & _ & _ & E1 & E2 & _);
    [by eexists|].
  exists fuel, h'. split; [exact Hrun|]. split; [exact E1|exact E2].
Defined.

(** X3.  In a symmetric graph, a disconnect without a filter answers
    [SUCCESS], leaves the array of the link empty and leaves no reference
    to the link anywhere; the graph is symmetric again, no reference is
    added, and the references between two other nodes stay.  When the
    name of the link is not empty, every array of the other side is the
    one it was without the reference to the link, and all others are as
    they were. *)
Theorem disconnect_all_isolates_link (t : LINK_TYPE) (A : nat) (x : string)
    (h : list Node) :
  symmetric h -> unique_refs h -> is_Some (refs_opt h t A x) ->
  exists fuel h',
    (forall fuel', fuel <= fuel' ->
       disconnect fuel' t A x None None h = Some (h', SUCCESS)) /\
    symmetric h' /\ unique_refs h' /\
    refs_of h' t A x = [] /\
    (forall b y, mkRef x A ∉ refs_of h' (opposite t) b y) /\
    (forall t0 a0 x0 r,
       r ∈ refs_of h' t0 a0 x0 -> r ∈ refs_of h t0 a0 x0) /\
    (forall t0 a0 x0 r,
       r ∈ refs_of h t0 a0 x0 -> a0 <> A -> r_node r <> A ->
       r ∈ refs_of h' t0 a0 x0) /\
    (x <> EmptyString ->
     (forall b y,
        refs_of h' (opposite t) b y
          = without (mkRef x A) (refs_of h (opposite t) b y)) /\
     (forall t0 a0 x0,
        t0 <> opposite t -> (t0, a0, x0) <> (t, A, x) ->
        refs_of h' t0 a0 x0 = refs_of h t0 a0 x0)).
Proof. apply disconnect_all_spec. Qed.

Lemma disconnect_all_isolates_link_witness :
  exists fuel h',
    (forall fuel', fuel <= fuel' ->
       disconnectExit fuel' 0 "out" None None (heap linked_world)
         = Some (h', SUCCESS)) /\
    refs_of h' EXIT 0 "out" = [] /\
    refs_of h' ENTRY 1 "in" = [] /\
    refs_of h' ENTRY 1 EmptyString = [mkRef EmptyString 0] /\
    refs_of h' EXIT 0 EmptyString = [mkRef EmptyString 1].
Proof.
  destruct (graph_ok_sound (heap linked_world)) as [Hs Hu];
    [vm_compute; reflexivity|].
  destruct (disconnect_all_isolates_link EXIT 0 "out" (heap linked_world)
              Hs Hu ltac:(by eexists))
    as (fuel & h' & Hrun & _ & _ & E & _ & _ & _ & Hx).
  destruct (Hx ltac:(discriminate)) as [E1 E2].
  exists fuel, h'. split; [exact Hrun|]. split; [exact E|].
  split; [exact (E1 1 "in")|]. split; [exact (E1 1 EmptyString)|].
  apply (E2 EXIT 0 EmptyString); discriminate.
Defined.

(** X4.  A disconnect on a link of non-empty name, with any filter, runs
    to its end and touches the link alone: the arrays of its own side and
    of the two sides that cannot be paired with it are as they were
    (its own array apart), the arrays of the opposite side keep every
    reference but the one back to the link, and no reference is added. *)
Theorem disconnect_touches_one_link (t : LINK_TYPE) (A : nat) (x : string)
    (tn : option nat) (tname : option string) (h : list Node) :
  unique_refs h -> x <> EmptyString ->
  exists fuel h' res,
    (forall fuel', fuel <= fuel' ->
       disconnect fuel' t A x tn tname h = Some (h', res)) /\
    (forall t0 a0 x0,
       t0 <> opposite t -> (t0, a0, x0) <> (t, A, x) ->
       refs_of h' t0 a0 x0 = refs_of h t0 a0 x0) /\
    (forall b y r,
       r ∈ refs_of h (opposite t) b y -> r <> mkRef x A ->
       r ∈ refs_of h' (opposite t) b y) /\
    (forall t0 a0 x0 r, r ∈ refs_of h' t0 a0 x0 -> r ∈ refs_of h t0 a0 x0).
Proof. apply disconnect_frame_spec. Qed.

Lemma disconnect_touches_one_link_witness :
  exists fuel h' res,
    (forall fuel', fuel <= fuel' ->
       disconnectExit fuel' 0 "out" (Some 1) None (heap linked_world)
         = Some (h', res)) /\
    refs_of h' EXIT 0 EmptyString = [mkRef EmptyString 1] /\
    mkRef EmptyString 0 ∈ refs_of h' ENTRY 1 EmptyString.
Proof.
  destruct (graph_ok_sound (heap linked_world)) as [_ Hu];
    [vm_compute; reflexivity|].
  destruct (disconnect_touches_one_link EXIT 0 "out" (Some 1) None
              (heap linked_world) Hu ltac:(discriminate))
    as (fuel & h' & res & Hrun & E1 & E2 & _).
  exists fuel, h', res. split; [exact Hrun|]. split.
  - apply (E1 EXIT 0 EmptyString); discriminate.
  - apply E2; [|discriminate]. vm_compute. apply list_elem_of_In. right. by left.
Defined.

(** X5.  A connection that has been made can be undone from either end:
    in a symmetric graph, after a connect that answered [SUCCESS] between
    two links of non-empty names, the disconnect of that pairing, called
    on the one node or on the other, answers [SUCCESS] and gives every
    array of references of the graph the content it had before the
    connect. *)
Theorem connect_then_disconnect (t : LINK_TYPE) (A : nat) (x : string)
    (B : nat) (y : string) (w w1 : World) :
  symmetric (heap w) -> unique_refs (heap w) ->
  x <> EmptyString -> y <> EmptyString ->
  connect t A x B y w = (w1, SUCCESS) ->
  (exists fuel h',
     (forall fuel', fuel <= fuel' ->
        disconnect fuel' t A x (Some B) (Some y) (heap w1)
          = Some (h', SUCCESS)) /\
     forall t0 a0 x0, refs_of h' t0 a0 x0 = refs_of (heap w) t0 a0 x0) /\
  (exists fuel h',
     (forall fuel', fuel <= fuel' ->
        disconnect fuel' (opposite t) B y (Some A) (Some x) (heap w1)
          = Some (h', SUCCESS)) /\
     forall t0 a0 x0, refs_of h' t0 a0 x0 = refs_of (heap w) t0 a0 x0).
Proof.
  intros Hs Hu Hx Hy Hc.
  destruct (connect_invariant t A x B y w (conj Hs Hu)) as [Hs1 Hu1].
  rewrite Hc in Hs1, Hu1. cbn [fst] in Hs1, Hu1.
  destruct (connect_success _ _ _ _ _ _ _ Hc)
    as (mine & theirs & Hm & Ht & N1 & N2 & E1 & E2 & E3).
  assert (R : forall h',
    refs_of h' t A x = without (mkRef y B) (refs_of (heap w1) t A x) ->
    refs_of h' (opposite t) B y
      = without (mkRef x A) (refs_of (heap w1) (opposite t) B y) ->
    (forall t0 a0 x0,
       (t0, a0, x0) <> (t, A, x) -> (t0, a0, x0) <> (opposite t, B, y) ->
       refs_of h' t0 a0 x0 = refs_of (heap w1) t0 a0 x0) ->
    forall t0 a0 x0, refs_of h' t0 a0 x0 = refs_of (heap w) t0 a0 x0).
  { intros h' F1 F2 F3 t0 a0 x0.
    destruct (decide ((t0, a0, x0) = (t, A, x))) as [[= -> -> ->]|D1].
    { rewrite F1. unfold refs_of. rewrite E1, Hm. cbn.
      by apply without_snoc. }
    destruct (decide ((t0, a0, x0) = (opposite t, B, y))) as [[= -> -> ->]|D2].
    { rewrite F2. unfold refs_of. rewrite E2, Ht. cbn.
      by apply without_snoc. }
    rewrite F3 by done. unfold refs_of. by rewrite E3. }
  split.
  - destruct (disconnect_pair_spec t A x B y (heap w1) Hs1 Hu1 Hx Hy)
      as (fuel & h' & Hrun & _ & _ & F1 & F2 & F3); [by rewrite E1|].
    exists fuel, h'. split; [done|]. by apply R.
  - destruct (disconnect_pair_spec (opposite t) B y A x (heap w1) Hs1 Hu1 Hy Hx)
      as (fuel & h' & Hrun & _ & _ & F1 & F2 & F3); [by rewrite E2|].
    rewrite opposite_involutive in F2, F3.
    exists fuel, h'. split; [done|]. apply R; [done|done|].
    intros t0 a0 x0 D1 D2. by apply F3.
Qed.

Lemma connect_then_disconnect_witness :
  exists fuel h',
    (forall fuel', fuel <= fuel' ->
       disconnectEntry fuel' 1 "in" (Some 0) (Some "out")
         (heap (fst (connectExit 0 "out" 1 "in" unconnected_world)))
         = Some (h', SUCCESS)) /\
    forall t0 a0 x0,
      refs_of h' t0 a0 x0 = refs_of (heap unconnected_world) t0 a0 x0.
Proof.
  destruct (graph_ok_sound (heap unconnected_world)) as [Hs Hu];
    [vm_compute; reflexivity|].
  exact (proj2
           (connect_then_disconnect EXIT 0 "out" 1 "in" unconnected_world
              (fst (connectExit 0 "out" 1 "in" unconnected_world))
              Hs Hu ltac:(discriminate) ltac:(discriminate)
              ltac:(vm_compute; reflexivity))).
Defined.

(** * What a disconnect leaves of a node *)

Lemma strip_node_set_refs t x f n :
  strip_node (node_set_refs t x f n) = strip_node n.
Proof.
  destruct n. destruct t; cbn; unfold strip_node; cbn; f_equal.
  all: by apply map_update_first.
Qed.

Lemma same_nodes_refl h : same_nodes h h.
Proof. done. Qed.

Lemma same_nodes_trans h1 h2 h3 :
  same_nodes h1 h2 -> same_nodes h2 h3 -> same_nodes h1 h3.
Proof. unfold same_nodes. congruence. Qed.

Lemma same_nodes_set_refs h t a x f : same_nodes h (set_refs h t a x f).
Proof.
  unfold same_nodes, set_refs. apply map_alter_same.
  intros n _. apply strip_node_set_refs.
Qed.

Lemma disconnect_loop_same_nodes fuel : forall t A x tn tname i h h',
  disconnect_loop fuel t A x tn tname i h = Some h' -> same_nodes h h'.
Proof.
  induction fuel as [|fuel IH]; intros t A x tn tname i h h'; [done|].
  rewrite disconnect_loop_S.
  destruct (refs_of h t A x !! i) as [r|].
  2: { by intros [= <-]. }
  destruct (link_filter tn tname r); [|apply IH].
  cbn zeta.
  pose proof (same_nodes_set_refs h t A x (delete i)) as S1.
  destruct (refs_opt _ (opposite t) (r_node r) (r_name r)).
  - destruct (disconnect_loop fuel (opposite t) _ _ _ _ 0 _) as [h2|] eqn:E2;
      [|done].
    intros E3. eapply same_nodes_trans; [exact S1|].
    eapply same_nodes_trans; [by eapply IH|by eapply IH].
  - intros E3. eapply same_nodes_trans; [exact S1|by eapply IH].
Qed.

Lemma disconnect_same_nodes fuel t A x tn tname h h' r :
  disconnect fuel t A x tn tname h = Some (h', r) -> same_nodes h h'.
Proof.
  unfold disconnect. destruct (refs_opt h t A x); [|by intros [= <- _]].
  destruct (disconnect_loop _ _ _ _ _ _ _ _) as [h1|] eqn:E; [|done].
  intros [= <- _]. by eapply disconnect_loop_same_nodes.
Qed.

Lemma same_nodes_lookup h h' a :
  same_nodes h h' -> strip_node <$> h' !! a = strip_node <$> h !! a.
Proof.
  unfold same_nodes. intros E. rewrite <- !list_lookup_fmap.
  change (strip_node <$> h') with (map strip_node h').
  change (strip_node <$> h) with (map strip_node h). by rewrite E.
Qed.

Lemma link_names_strip t n : link_names t (strip_node n) = link_names t n.
Proof.
  destruct t; cbn; rewrite map_map; done.
Qed.

Lemma same_nodes_names h h' a t :
  same_nodes h h' -> link_names t <$> h' !! a = link_names t <$> h !! a.
Proof.
  intros E%(same_nodes_lookup _ _ a).
  destruct (h' !! a) as [n'|], (h !! a) as [n|]; cbn -[strip_node] in *;
    try done.
  assert (E' : strip_node n' = strip_node n) by congruence.
  f_equal. by rewrite <- (link_names_strip t n'), E', link_names_strip.
Qed.

Lemma name_at_names h t a i :
  name_at h t a i = (link_names t <$> h !! a) ≫= (fun l => l !! i).
Proof.
  unfold name_at. destruct (h !! a) as [n|]; cbn; [|done].
  destruct t; cbn; by rewrite <- list_lookup_fmap.
Qed.

Lemma same_nodes_name_at h h' t a i :
  same_nodes h h' -> name_at h' t a i = name_at h t a i.
Proof. intros E. by rewrite !name_at_names, (same_nodes_names h h'). Qed.

Lemma find_first_names {A} (nm : A -> string) (l : list A) x :
  is_Some (find_first (fun a => String.eqb (nm a) x) l) <-> x ∈ map nm l.
Proof.
  induction l as [|a l IH]; cbn.
  - split; [by intros [? ?]|by intros ?%elem_of_nil].
  - destruct (String.eqb_spec (nm a) x) as [->|Hne].
    + split; [intros _; left|by eexists].
    + rewrite IH. split; [by right|].
      by intros [?|?]%elem_of_cons.
Qed.

Lemma refs_opt_names h t a x n :
  h !! a = Some n -> is_Some (refs_opt h t a x) <-> x ∈ link_names t n.
Proof.
  intros Hn. unfold refs_opt. rewrite Hn.
  destruct t; cbn; rewrite fmap_is_Some; apply find_first_names.
Qed.

(** * Removing an entry or an exit link *)

Lemma find_first_delete_other {A} (P : A -> bool) (l : list A) k a :
  l !! k = Some a -> P a = false -> find_first P (delete k l) = find_first P l.
Proof.
  revert k. induction l as [|b l IH]; intros [|k]; cbn; try done.
  - by intros [= ->] ->.
  - intros Hk Ha. destruct (P b); [done|]. by eapply IH.
Qed.

Lemma find_first_delete_unique {A} (nm : A -> string) (l : list A) k a :
  NoDup (map nm l) -> l !! k = Some a ->
  find_first (fun b => String.eqb (nm b) (nm a)) (delete k l) = None.
Proof.
  revert k. induction l as [|b l IH]; intros [|k]; cbn; try done.
  - intros [Hb Hl]%NoDup_cons [= ->].
    destruct (find_first _ l) eqn:E; [|done].
    exfalso. apply Hb. apply find_first_names. by rewrite E.
  - intros [Hb Hl]%NoDup_cons Hk.
    destruct (String.eqb_spec (nm b) (nm a)) as [E|_]; [|by eapply IH].
    exfalso. apply Hb. rewrite E. apply list_elem_of_fmap.
    exists a. split; [done|]. by eapply list_elem_of_lookup_2.
Qed.

Lemma remove_link_loop_absent fuel t A name h n :
  h !! A = Some n ->
  forall steps i,
    (forall j, i <= j -> link_names t n !! j <> Some name) ->
    remove_link_loop fuel t A name steps i h = Some (h, false).
Proof.
  intros Hn. induction steps as [|steps IH]; intros i Hi; [done|].
  cbn [remove_link_loop]. rewrite name_at_names, Hn. cbn.
  destruct (link_names t n !! i) as [nm|] eqn:E; [|done].
  destruct (String.eqb_spec nm name) as [->|_].
  - exfalso. by apply (Hi i).
  - apply IH. intros j Hj. apply Hi. lia.
Qed.

Lemma remove_link_loop_found fuel t A name h n k :
  h !! A = Some n ->
  link_names t n !! k = Some name ->
  (forall j, j < k -> link_names t n !! j <> Some name) ->
  forall steps i, i <= k -> k - i < steps ->
    remove_link_loop fuel t A name steps i h =
    match disconnect fuel t A name None None h with
    | None => None
    | Some (h1, r) =>
        if strict_eq (result_value r) (result_value SUCCESS) then
          Some (delete_at t A k h1, true)
        else remove_link_loop fuel t A name (steps - S (k - i)) (S k) h1
    end.
Proof.
  intros Hn Hk Hlt. induction steps as [|steps IH]; intros i Hi Hs; [lia|].
  cbn [remove_link_loop]. rewrite name_at_names, Hn. cbn.
  destruct (decide (i = k)) as [->|Hne].
  - rewrite Hk, String.eqb_refl. rewrite Nat.sub_diag. cbn.
    by rewrite Nat.sub_0_r.
  - destruct (link_names t n !! i) as [nm|] eqn:E.
    2: { apply lookup_ge_None in E. apply lookup_lt_Some in Hk. lia. }
    destruct (String.eqb_spec nm name) as [->|_].
    { exfalso. apply (Hlt i); [lia|done]. }
    rewrite IH by lia. destruct (disconnect _ _ _ _ _ _ _) as [[h1 r]|]; [|done].
    destruct (strict_eq _ _); [done|]. f_equal. lia.
Qed.

Lemma first_index (l : list string) x :
  x ∈ l -> exists k, l !! k = Some x /\ forall j, j < k -> l !! j <> Some x.
Proof.
  induction l as [|a l IH]; [by intros ?%elem_of_nil|].
  destruct (decide (a = x)) as [->|Hne].
  - intros _. exists 0. split; [done|]. intros; lia.
  - intros [?|Hin]%elem_of_cons; [congruence|].
    destruct (IH Hin) as (k & Hk & Hlt). exists (S k). split; [done|].
    intros [|j] Hj; cbn; [congruence|]. apply Hlt. lia.
Qed.

Lemma links_length_names h t A n :
  h !! A = Some n -> links_length h t A = length (link_names t n).
Proof.
  intros Hn. unfold links_length. rewrite Hn.
  destruct t; cbn; by rewrite length_map.
Qed.

(** The arrays of references after the link of index [k] of an entry or
    exit side has been spliced out. *)
Lemma refs_opt_delete_at t A k h n x0 t0 a0 :
  t = ENTRY \/ t = EXIT ->
  h !! A = Some n -> link_names t n !! k = Some x0 ->
  forall x, (t0, a0, x) <> (t, A, x0) ->
    refs_opt (delete_at t A k h) t0 a0 x = refs_opt h t0 a0 x.
Proof.
  intros Ht Hn Hk x Hne. unfold refs_opt, delete_at.
  destruct (decide (a0 = A)) as [->|Ha].
  2: { by rewrite list_lookup_alter_ne. }
  rewrite list_lookup_alter_eq, Hn. cbn.
  destruct Ht as [-> | ->]; destruct t0; cbn; try done.
  all: cbn in Hk; rewrite list_lookup_fmap in Hk.
  - destruct (n_entry n !! k) as [l|] eqn:El; [|done]. cbn in Hk.
    f_equal. apply (find_first_delete_other _ _ _ l El).
    apply String.eqb_neq. injection Hk as Hk. congruence.
  - destruct (n_exit n !! k) as [l|] eqn:El; [|done]. cbn in Hk.
    f_equal. apply (find_first_delete_other _ _ _ l El).
    apply String.eqb_neq. injection Hk as Hk. congruence.
Qed.

Lemma refs_opt_delete_at_gone t A k h n x0 :
  t = ENTRY \/ t = EXIT ->
  h !! A = Some n -> link_names t n !! k = Some x0 ->
  NoDup (link_names t n) ->
  refs_opt (delete_at t A k h) t A x0 = None.
Proof.
  intros Ht Hn Hk Hnd. unfold refs_opt, delete_at.
  rewrite list_lookup_alter_eq, Hn. cbn.
  destruct Ht as [-> | ->]; cbn in *; rewrite list_lookup_fmap in Hk.
  - destruct (n_entry n !! k) as [l|] eqn:El; [|done]. injection Hk as <-.
    unfold link_named. by rewrite (find_first_delete_unique l_name _ _ l).
  - destruct (n_exit n !! k) as [l|] eqn:El; [|done]. injection Hk as <-.
    unfold link_named. by rewrite (find_first_delete_unique l_name _ _ l).
Qed.

(** The removal of a link, in full, with the heap that it builds. *)
Lemma remove_link_build t A name h n :
  t = ENTRY \/ t = EXIT ->
  symmetric h -> unique_refs h ->
  h !! A = Some n -> NoDup (link_names t n) ->
  name ∈ link_names t n ->
  exists fuel h',
    (forall fuel', fuel <= fuel' ->
       remove_link_loop fuel' t A name (links_length h t A) 0 h
         = Some (h', true)) /\
    (exists h1 k,
       same_nodes h h1 /\ link_names t n !! k = Some name /\
       h' = delete_at t A k h1) /\
    symmetric h' /\ unique_refs h' /\
    refs_opt h' t A name = None /\
    (forall b y, mkRef name A ∉ refs_of h' (opposite t) b y) /\
    (forall t0 a0 x0 r,
       r ∈ refs_of h' t0 a0 x0 -> r ∈ refs_of h t0 a0 x0) /\
    (forall t0 a0 x0 r,
       r ∈ refs_of h t0 a0 x0 -> a0 <> A -> r_node r <> A ->
       r ∈ refs_of h' t0 a0 x0) /\
    (name <> EmptyString ->
     (forall b y,
        refs_of h' (opposite t) b y
          = without (mkRef name A) (refs_of h (opposite t) b y)) /\
     (forall t0 a0 x0,
        t0 <> opposite t -> (t0, a0, x0) <> (t, A, name) ->
        refs_opt h' t0 a0 x0 = refs_opt h t0 a0 x0)).
Proof.
  intros Ht Hs Hu Hn Hnd Hin.
  destruct (first_index _ _ Hin) as (k & Hk & Hlt).
  assert (Hl : is_Some (refs_opt h t A name)) by (by eapply refs_opt_names).
  destruct (disconnect_all_spec t A name h Hs Hu Hl)
    as (fuel & h1 & Hrun & Hs1 & Hu1 & E1 & N1 & Sub1 & Kept1 & Ex1).
  pose proof (disconnect_same_nodes _ _ _ _ _ _ _ _ _ (Hrun fuel ltac:(done)))
    as SN.
  assert (Hn1 : exists n1, h1 !! A = Some n1 /\ link_names t n1 = link_names t n).
  { pose proof (same_nodes_names h h1 A t SN) as E. rewrite Hn in E.
    destruct (h1 !! A) as [n1|]; [|done]. exists n1. split; [done|].
    cbn in E. congruence. }
  destruct Hn1 as (n1 & Hn1 & Enames).
  set (h' := delete_at t A k h1).
  assert (Gone : refs_opt h' t A name = None).
  { apply (refs_opt_delete_at_gone t A k h1 n1); [done|done|congruence|congruence]. }
  assert (Same : forall t0 a0 x0, (t0, a0, x0) <> (t, A, name) ->
            refs_opt h' t0 a0 x0 = refs_opt h1 t0 a0 x0).
  { intros t0 a0 x0 Hne.
    apply (refs_opt_delete_at t A k h1 n1 name); [done|done|congruence|done]. }
  assert (Same' : forall t0 a0 x0, refs_of h' t0 a0 x0 = refs_of h1 t0 a0 x0).
  { intros t0 a0 x0.
    destruct (decide ((t0, a0, x0) = (t, A, name))) as [[= -> -> ->]|Hne].
    - rewrite E1. unfold refs_of. by rewrite Gone.
    - unfold refs_of. by rewrite Same. }
  exists fuel, h'.
  split; [|split; [by exists h1, k|split; [|split; [|split; [done|split; [|split; [|split]]]]]]].
  - intros fuel' Hf.
    rewrite (remove_link_loop_found fuel' t A name h n k Hn Hk Hlt).
    + by rewrite Hrun.
    + lia.
    + rewrite (links_length_names h t A n Hn).
      apply lookup_lt_Some in Hk. lia.
  - intros t0 a0 x0 r. rewrite !Same'. apply Hs1.
  - intros t0 a0 x0. rewrite Same'. apply Hu1.
  - intros b y. rewrite Same'. apply N1.
  - intros t0 a0 x0 r. rewrite Same'. apply Sub1.
  - intros t0 a0 x0 r. rewrite Same'. apply Kept1.
  - intros Hx. destruct (Ex1 Hx) as [F1 F2]. split.
    + intros b y. rewrite Same'. apply F1.
    + intros t0 a0 x0 D1 D2. rewrite Same by done.
      pose proof (same_nodes_names h h1 a0 t0 SN) as En.
      unfold refs_opt.
      destruct (h1 !! a0) as [m1|] eqn:Em1, (h !! a0) as [m|] eqn:Em;
        cbn in En; try done.
      assert (Hr : refs_of h1 t0 a0 x0 = refs_of h t0 a0 x0).
      { by apply (proj2 (Ex1 Hx)). }
      unfold refs_of, refs_opt in Hr. rewrite Em1, Em in Hr.
      assert (Hsome : is_Some (node_refs t0 m1 x0) <-> is_Some (node_refs t0 m x0)).
      { pose proof (refs_opt_names h1 t0 a0 x0 m1 Em1) as R1.
        pose proof (refs_opt_names h t0 a0 x0 m Em) as R2.
        unfold refs_opt in R1, R2. rewrite Em1 in R1. rewrite Em in R2.
        rewrite R1, R2. injection En as ->. done. }
      destruct (node_refs t0 m1 x0) as [l1|], (node_refs t0 m x0) as [l|];
        cbn in *; try congruence.
      * destruct Hsome as [H _]. by destruct H.
      * destruct Hsome as [_ H]. by destruct H.
Qed.

Lemma remove_link_spec t A name h n :
  t = ENTRY \/ t = EXIT ->
  symmetric h -> unique_refs h ->
  h !! A = Some n -> NoDup (link_names t n) ->
  name ∈ link_names t n ->
  exists fuel h',
    (forall fuel', fuel <= fuel' ->
       remove_link_loop fuel' t A name (links_length h t A) 0 h
         = Some (h', true)) /\
    symmetric h' /\ unique_refs h' /\
    refs_opt h' t A name = None /\
    (forall b y, mkRef name A ∉ refs_of h' (opposite t) b y) /\
    (forall t0 a0 x0 r,
       r ∈ refs_of h' t0 a0 x0 -> r ∈ refs_of h t0 a0 x0) /\
    (forall t0 a0 x0 r,
       r ∈ refs_of h t0 a0 x0 -> a0 <> A -> r_node r <> A ->
       r ∈ refs_of h' t0 a0 x0) /\
    (name <> EmptyString ->
     (forall b y,
        refs_of h' (opposite t) b y
          = without (mkRef name A) (refs_of h (opposite t) b y)) /\
     (forall t0 a0 x0,
        t0 <> opposite t -> (t0, a0, x0) <> (t, A, name) ->
        refs_opt h' t0 a0 x0 = refs_opt h t0 a0 x0)).
Proof.
  intros Ht Hs Hu Hn Hnd Hin.
  destruct (remove_link_build t A name h n Ht Hs Hu Hn Hnd Hin)
    as (fuel & h' & Hrun & _ & Rest).
  by exists fuel, h'.
Qed.

(** * Destroying a node *)

Lemma name_at_node h t a i n :
  h !! a = Some n -> name_at h t a i = link_names t n !! i.
Proof. intros Hn. by rewrite name_at_names, Hn. Qed.

Lemma unlinking_refl A h : unlinking A h h.
Proof. done. Qed.

Lemma unlinking_trans A h1 h2 h3 :
  unlinking A h1 h2 -> unlinking A h2 h3 -> unlinking A h1 h3.
Proof.
  intros (S1 & I1 & K1) (S2 & I2 & K2). split; [|split].
  - by eapply same_nodes_trans.
  - intros t a x r H. by apply I1, I2.
  - intros t a x r H Ha Hr. apply K2; [|done|done]. by apply K1.
Qed.

Lemma same_nodes_node h h' a n :
  same_nodes h h' -> h !! a = Some n ->
  exists n', h' !! a = Some n' /\ strip_node n' = strip_node n.
Proof.
  intros E%(same_nodes_lookup _ _ a) Hn. rewrite Hn in E.
  destruct (h' !! a) as [n'|]; [|done]. exists n'. split; [done|].
  cbn -[strip_node] in E. congruence.
Qed.

Lemma strip_names t n n' :
  strip_node n' = strip_node n -> link_names t n' = link_names t n.
Proof.
  intros E. by rewrite <- (link_names_strip t n'), E, link_names_strip.
Qed.

Lemma empty_no_elem {A} (l : list A) : (forall a, a ∉ l) -> l = [].
Proof.
  destruct l as [|a l]; [done|]. intros H. exfalso. apply (H a). left.
Qed.

(** One round: the disconnect of every pairing of a link of the node. *)
Lemma disconnect_all_step t A x h n :
  symmetric h -> unique_refs h -> h !! A = Some n -> x ∈ link_names t n ->
  exists fuel h1,
    (forall fuel', fuel <= fuel' ->
       disconnect fuel' t A x None None h = Some (h1, SUCCESS)) /\
    symmetric h1 /\ unique_refs h1 /\ unlinking A h h1 /\
    refs_of h1 t A x = [].
Proof.
  intros Hs Hu Hn Hx.
  assert (Hl : is_Some (refs_opt h t A x)) by (by eapply refs_opt_names).
  destruct (disconnect_all_spec t A x h Hs Hu Hl)
    as (fuel & h1 & Hrun & Hs1 & Hu1 & E1 & _ & Sub1 & Kept1 & _).
  exists fuel, h1. split; [done|]. split; [done|]. split; [done|].
  split; [|done]. split; [|done].
  by eapply disconnect_same_nodes, (Hrun fuel).
Qed.

Lemma destroy_links_spec t A : forall m i h n,
  symmetric h -> unique_refs h -> h !! A = Some n ->
  length (link_names t n) - i <= m ->
  exists fuel h',
    (forall fuel', fuel <= fuel' -> destroy_links fuel' t A i h = Some h') /\
    symmetric h' /\ unique_refs h' /\ unlinking A h h' /\
    (forall j x, i <= j -> link_names t n !! j = Some x ->
       refs_of h' t A x = []).
Proof.
  induction m as [|m IH]; intros i h n Hs Hu Hn Hm.
  - exists 1, h. split; [|split; [done|split; [done|split; [done|]]]].
    + intros [|f] Hf; [lia|]. cbn [destroy_links destroy_properties].
      rewrite (name_at_node _ _ _ _ _ Hn).
      rewrite (proj2 (lookup_ge_None _ _)); [done|lia].
    + intros j x Hj Hx. apply lookup_lt_Some in Hx. lia.
  - destruct (link_names t n !! i) as [x|] eqn:Ex.
    2: { exists 1, h. split; [|split; [done|split; [done|split; [done|]]]].
         - intros [|f] Hf; [lia|]. cbn [destroy_links destroy_properties].
           by rewrite (name_at_node _ _ _ _ _ Hn), Ex.
         - intros j y Hj Hy. apply lookup_ge_None in Ex.
           apply lookup_lt_Some in Hy. lia. }
    destruct (disconnect_all_step t A x h n Hs Hu Hn)
      as (fuel1 & h1 & Hrun1 & Hs1 & Hu1 & U1 & E1).
    { by eapply list_elem_of_lookup_2. }
    destruct (same_nodes_node h h1 A n (proj1 U1) Hn) as (n1 & Hn1 & En1).
    pose proof (strip_names t _ _ En1) as Enames.
    destruct (IH (S i) h1 n1 Hs1 Hu1 Hn1) as (fuel2 & h' & Hrun2 & Hs' & Hu' & U2 & E2).
    { rewrite Enames. lia. }
    exists (S (max fuel1 fuel2)), h'.
    split; [|split; [done|split; [done|split]]].
    + intros [|f] Hf; [lia|]. cbn [destroy_links].
      rewrite (name_at_node _ _ _ _ _ Hn), Ex.
      rewrite Hrun1 by lia. apply Hrun2. lia.
    + by eapply unlinking_trans.
    + intros j y Hj Hy. destruct (decide (j = i)) as [->|Hne].
      * rewrite Ex in Hy. injection Hy as <-.
        apply empty_no_elem. intros r Hr.
        apply (proj1 (proj2 U2)) in Hr. rewrite E1 in Hr.
        by apply elem_of_nil in Hr.
      * apply (E2 j); [lia|]. by rewrite Enames.
Qed.

Lemma destroy_properties_spec A : forall m i h n,
  symmetric h -> unique_refs h -> h !! A = Some n ->
  length (link_names INPUT n) - i <= m ->
  exists fuel h',
    (forall fuel', fuel <= fuel' -> destroy_properties fuel' A i h = Some h') /\
    symmetric h' /\ unique_refs h' /\ unlinking A h h' /\
    (forall j x, i <= j -> link_names INPUT n !! j = Some x ->
       refs_of h' INPUT A x = [] /\ refs_of h' OUTPUT A x = []).
Proof.
  induction m as [|m IH]; intros i h n Hs Hu Hn Hm.
  - exists 1, h. split; [|split; [done|split; [done|split; [done|]]]].
    + intros [|f] Hf; [lia|]. cbn [destroy_links destroy_properties].
      rewrite (name_at_node _ _ _ _ _ Hn).
      rewrite (proj2 (lookup_ge_None _ _)); [done|lia].
    + intros j x Hj Hx. apply lookup_lt_Some in Hx. lia.
  - destruct (link_names INPUT n !! i) as [x|] eqn:Ex.
    2: { exists 1, h. split; [|split; [done|split; [done|split; [done|]]]].
         - intros [|f] Hf; [lia|]. cbn [destroy_links destroy_properties].
           by rewrite (name_at_node _ _ _ _ _ Hn), Ex.
         - intros j y Hj Hy. apply lookup_ge_None in Ex.
           apply lookup_lt_Some in Hy. lia. }
    destruct (disconnect_all_step INPUT A x h n Hs Hu Hn)
      as (fuel1 & h1 & Hrun1 & Hs1 & Hu1 & U1 & E1).
    { by eapply list_elem_of_lookup_2. }
    destruct (same_nodes_node h h1 A n (proj1 U1) Hn) as (n1 & Hn1 & En1).
    destruct (disconnect_all_step OUTPUT A x h1 n1 Hs1 Hu1 Hn1)
      as (fuel2 & h2 & Hrun2 & Hs2 & Hu2 & U2 & E2).
    { change (link_names OUTPUT n1) with (link_names INPUT n1).
      rewrite (strip_names INPUT _ _ En1). by eapply list_elem_of_lookup_2. }
    destruct (same_nodes_node h1 h2 A n1 (proj1 U2) Hn1) as (n2 & Hn2 & En2).
    assert (Enames : link_names INPUT n2 = link_names INPUT n).
    { by rewrite (strip_names INPUT _ _ En2), (strip_names INPUT _ _ En1). }
    destruct (IH (S i) h2 n2 Hs2 Hu2 Hn2)
      as (fuel3 & h' & Hrun3 & Hs' & Hu' & U3 & E3).
    { rewrite Enames. lia. }
    exists (S (max fuel1 (max fuel2 fuel3))), h'.
    split; [|split; [done|split; [done|split]]].
    + intros [|f] Hf; [lia|]. cbn [destroy_properties].
      rewrite (name_at_node _ _ _ _ _ Hn), Ex.
      unfold disconnectInput, disconnectOutput.
      rewrite Hrun1 by lia. rewrite Hrun2 by lia. apply Hrun3. lia.
    + eapply unlinking_trans; [exact U1|]. by eapply unlinking_trans.
    + intros j y Hj Hy. destruct (decide (j = i)) as [->|Hne].
      * rewrite Ex in Hy. injection Hy as <-. split.
        -- apply empty_no_elem. intros r Hr.
           apply (proj1 (proj2 U3)), (proj1 (proj2 U2)) in Hr.
           rewrite E1 in Hr. by apply elem_of_nil in Hr.
        -- apply empty_no_elem. intros r Hr.
           apply (proj1 (proj2 U3)) in Hr.
           rewrite E2 in Hr. by apply elem_of_nil in Hr.
      * apply (E3 j); [lia|]. by rewrite Enames.
Qed.

Lemma strip_reset_node n :
  strip_node (reset_node n) = reset_node (strip_node n).
Proof.
  destruct n. unfold strip_node, reset_node, set_node_meta, set_properties.
  cbn. f_equal. rewrite !map_map. apply map_ext. by intros [].
Qed.

Lemma strip_reset_node_eq n n' :
  strip_node n' = strip_node n ->
  strip_node (reset_node n') = strip_node (reset_node n).
Proof. intros E. by rewrite !strip_reset_node, E. Qed.

Lemma strip_fields n n' :
  strip_node n' = strip_node n ->
  n_class n' = n_class n /\ n_parent n' = n_parent n /\
  n_meta n' = n_meta n /\ n_break n' = n_break n.
Proof. destruct n, n'. unfold strip_node. cbn. by intros [= -> _ _ _ -> -> ->]. Qed.

Lemma refs_of_alter f a (h : list Node) t b x :
  keeps_links f -> refs_of (alter f a h) t b x = refs_of h t b x.
Proof. intros Hf. unfold refs_of. by rewrite refs_opt_alter. Qed.

Lemma partition_of_set k l p : partition_of k (set_partition k l p) = l.
Proof. by destruct k. Qed.

Lemma partition_of_set_other k k' l p :
  k' <> k -> partition_of k' (set_partition k l p) = partition_of k' p.
Proof. by destruct k, k'. Qed.

(** [destroy], in full. *)
Lemma destroy_spec A w n k :
  symmetric (heap w) -> unique_refs (heap w) ->
  heap w !! A = Some n -> kind_of (n_class n) = Some k -> n_parent n = true ->
  exists fuel w',
    (forall fuel', fuel <= fuel' -> destroy fuel' A w = Some w') /\
    symmetric (heap w') /\ unique_refs (heap w') /\
    (forall t x, refs_of (heap w') t A x = []) /\
    (forall t a x r, r ∈ refs_of (heap w') t a x ->
       r_node r <> A /\ r ∈ refs_of (heap w) t a x) /\
    (forall t a x r, r ∈ refs_of (heap w) t a x -> a <> A -> r_node r <> A ->
       r ∈ refs_of (heap w') t a x) /\
    (forall b, b <> A ->
       strip_node <$> heap w' !! b = strip_node <$> heap w !! b) /\
    strip_node <$> heap w' !! A = Some (strip_node (reset_node n)) /\
    host w' = clear_threads (nm_threads (n_meta n)) (host w) /\
    play w'
      = set_partition k (splice_indexOf A (partition_of k (play w))) (play w).
Proof.
  intros Hs Hu Hn Hk Hp.
  destruct (destroy_links_spec ENTRY A _ 0 (heap w) n Hs Hu Hn (le_n _))
    as (fuel1 & h1 & Hrun1 & Hs1 & Hu1 & U1 & E1).
  destruct (same_nodes_node _ _ _ _ (proj1 U1) Hn) as (n1 & Hn1 & En1).
  destruct (destroy_links_spec EXIT A _ 0 h1 n1 Hs1 Hu1 Hn1 (le_n _))
    as (fuel2 & h2 & Hrun2 & Hs2 & Hu2 & U2 & E2).
  destruct (same_nodes_node _ _ _ _ (proj1 U2) Hn1) as (n2 & Hn2 & En2).
  destruct (destroy_properties_spec A _ 0 h2 n2 Hs2 Hu2 Hn2 (le_n _))
    as (fuel3 & h3 & Hrun3 & Hs3 & Hu3 & U3 & E3).
  destruct (same_nodes_node _ _ _ _ (proj1 U3) Hn2) as (n3 & Hn3 & En3).
  assert (En : strip_node n3 = strip_node n) by congruence.
  destruct (strip_fields _ _ En) as (Ec & Epar & Em & _).
  assert (U : unlinking A (heap w) h3).
  { eapply unlinking_trans; [exact U1|]. by eapply unlinking_trans. }
  assert (Empty : forall t x, refs_of h3 t A x = []).
  { intros t x. apply empty_no_elem. intros r Hr.
    assert (Hx : x ∈ link_names t n).
    { rewrite <- (strip_names t _ _ En).
      apply (refs_opt_names h3 t A x n3 Hn3).
      unfold refs_of in Hr. destruct (refs_opt h3 t A x); [done|].
      by apply elem_of_nil in Hr. }
    apply list_elem_of_lookup_1 in Hx as [j Hj].
    destruct t.
    - apply (proj1 (proj2 U3)), (proj1 (proj2 U2)) in Hr.
      rewrite (E1 j x) in Hr; [by apply elem_of_nil in Hr|lia|done].
    - apply (proj1 (proj2 U3)) in Hr.
      rewrite (E2 j x) in Hr; [by apply elem_of_nil in Hr|lia|].
      by rewrite (strip_names EXIT _ _ En1).
    - rewrite (proj1 (E3 j x ltac:(lia) ltac:(
        by rewrite (strip_names INPUT _ _ En2), (strip_names INPUT _ _ En1))))
        in Hr. by apply elem_of_nil in Hr.
    - rewrite (proj2 (E3 j x ltac:(lia) ltac:(
        by rewrite (strip_names INPUT _ _ En2), (strip_names INPUT _ _ En1))))
        in Hr. by apply elem_of_nil in Hr. }
  set (w1 := reset A (with_heap (fun _ => h3) w)).
  assert (Hh1 : heap w1 = alter reset_node A h3).
  { unfold w1. by rewrite reset_heap. }
  assert (Hn1' : heap w1 !! A = Some (reset_node n3)).
  { by rewrite Hh1, list_lookup_alter_eq, Hn3. }
  assert (R : forall t a x, refs_of (heap w1) t a x = refs_of h3 t a x).
  { intros. rewrite Hh1. apply refs_of_alter, keeps_links_reset_node. }
  set (p := set_partition k (splice_indexOf A (partition_of k (play w)))
              (play w)).
  exists (max fuel1 (max fuel2 fuel3)), (with_play (fun _ => p) w1).
  split; [|split; [|split; [|split; [|split; [|split; [|split; [|split; [|split]]]]]]]].
  - intros fuel' Hf. unfold destroy.
    rewrite Hrun1 by lia. rewrite Hrun2 by lia. rewrite Hrun3 by lia.
    cbn zeta. fold w1. rewrite Hn1'. cbn [n_parent reset_node set_node_meta
      set_properties n_class].
    rewrite Epar, Hp. unfold removeNode. rewrite Ec, Hk.
    unfold w1 at 1 2. by rewrite reset_play.
  - intros t a x r. cbn [heap with_play]. rewrite !R. apply Hs3.
  - intros t a x. cbn [heap with_play]. rewrite R. apply Hu3.
  - intros t x. cbn [heap with_play]. by rewrite R.
  - intros t a x r. cbn [heap with_play]. rewrite R. intros Hr. split.
    + intros HA. apply Hs3 in Hr. rewrite HA, Empty in Hr.
      by apply elem_of_nil in Hr.
    + by apply (proj1 (proj2 U)).
  - intros t a x r Hr Ha Hnr. cbn [heap with_play]. rewrite R.
    by apply (proj2 (proj2 U)).
  - intros b Hb. cbn [heap with_play]. rewrite Hh1.
    rewrite list_lookup_alter_ne by done.
    apply same_nodes_lookup, U.
  - cbn [heap with_play]. rewrite Hn1'. cbn -[strip_node reset_node].
    f_equal. by apply strip_reset_node_eq.
  - cbn [host with_play]. unfold w1. rewrite reset_host. cbn [heap with_heap].
    by rewrite Hn3, Em.
  - done.
Qed.

(** * What [splice] with [indexOf] removes *)

Lemma index_of_Some node l i :
  index_of node l = Some i -> l !! i = Some node /\ node ∉ take i l.
Proof.
  revert i. induction l as [|a l IH]; intros i; [done|]. cbn.
  destruct (Nat.eqb_spec a node) as [->|Hne].
  - intros [= <-]. split; [done|]. cbn. by intros ?%elem_of_nil.
  - destruct (index_of node l) as [j|]; [|done]. intros [= <-].
    destruct (IH j eq_refl) as [H1 H2]. split; [done|]. cbn.
    by intros [?|?]%elem_of_cons.
Qed.

Lemma index_of_None node l : index_of node l = None <-> node ∉ l.
Proof.
  induction l as [|a l IH]; cbn.
  - split; [by intros _ ?%elem_of_nil|done].
  - destruct (Nat.eqb_spec a node) as [->|Hne].
    + split; [done|]. intros H. exfalso. apply H. left.
    + rewrite not_elem_of_cons. destruct (index_of node l); cbn.
      * split; [done|]. intros [_ H]. by apply IH in H.
      * split; [intros _; split; [congruence|by apply IH]|done].
Qed.

Lemma splice_indexOf_head node l : splice_indexOf node (node :: l) = l.
Proof. unfold splice_indexOf. cbn. by rewrite Nat.eqb_refl. Qed.

Lemma splice_indexOf_elem node l b :
  b ∈ splice_indexOf node l -> b ∈ l.
Proof.
  unfold splice_indexOf.
  destruct (index_of node l); apply list_elem_of_delete_inv.
Qed.

Lemma elem_of_delete_NoDup (l : list nat) i a b :
  NoDup l -> l !! i = Some a -> b ∈ delete i l <-> b ∈ l /\ b <> a.
Proof.
  revert i. induction l as [|c l IH]; intros i Hnd; [done|].
  apply NoDup_cons in Hnd as [Hc Hnd].
  destruct i as [|i]; cbn.
  - intros [= ->]. rewrite elem_of_cons. split.
    + intros H. split; [by right|]. by intros ->.
    + intros [[?|?] ?]; done.
  - intros Hi. rewrite !elem_of_cons, (IH i Hnd Hi). split.
    + intros [->|[? ?]]; [|by split; [right|]].
      split; [by left|]. intros ->. apply Hc. by eapply list_elem_of_lookup_2.
    + intros [[->|?] ?]; [by left|by right].
Qed.

Lemma splice_indexOf_in node l :
  NoDup l -> node ∈ l ->
  NoDup (splice_indexOf node l) /\
  forall b, b ∈ splice_indexOf node l <-> b ∈ l /\ b <> node.
Proof.
  intros Hnd Hin. unfold splice_indexOf.
  destruct (index_of node l) as [i|] eqn:E.
  - apply index_of_Some in E as [Hi _]. split.
    + eapply sublist_NoDup; [done|apply sublist_delete].
    + intros b. by apply elem_of_delete_NoDup.
  - by apply index_of_None in E.
Qed.

Lemma delete_last {A} (l : list A) :
  delete (length l - 1) l = take (length l - 1) l.
Proof.
  induction l as [|a [|b l] IH]; [done|done|].
  cbn [length] in *. replace (S (S (length l)) - 1) with (S (length l)) by lia.
  replace (S (length l) - 1) with (length l) in IH by lia.
  cbn [take]. rewrite <- IH. done.
Qed.

Lemma splice_indexOf_absent node l :
  node ∉ l -> splice_indexOf node l = take (length l - 1) l.
Proof.
  intros H%index_of_None. unfold splice_indexOf. rewrite H. apply delete_last.
Qed.

(** * Clearing the engine *)

Lemma reset_node_idem n : reset_node (reset_node n) = reset_node n.
Proof.
  destruct n. unfold reset_node, set_node_meta, set_properties. cbn. f_equal.
  rewrite map_map. apply map_ext. by intros [].
Qed.

Lemma strip_threads n n' :
  strip_node n' = strip_node n ->
  nm_threads (n_meta n') = nm_threads (n_meta n).
Proof. intros E. by destruct (strip_fields _ _ E) as (_ & _ & -> & _). Qed.

Lemma destroyed_nil w :
  symmetric (heap w) -> unique_refs (heap w) -> destroyed [] w w.
Proof.
  intros Hs Hu. split; [done|]. split; [done|]. split; [done|].
  split; [|split; [done|split; [done|split; [|split; [done|]]]]].
  - intros t a x r H. split; [done|]. split; by intros ?%elem_of_nil.
  - by intros b n ?%elem_of_nil.
  - intros t. split; [|by intros [? _]]. intros H. split; [done|].
    by intros b n ?%elem_of_nil.
Qed.

Lemma destroyed_ext l w w' v v' :
  heap v = heap w -> host v = host w -> heap v' = heap w' -> host v' = host w' ->
  destroyed l w w' -> destroyed l v v'.
Proof. unfold destroyed. by intros -> -> -> ->. Qed.

Lemma destroyed_one A w w' n :
  heap w !! A = Some n ->
  symmetric (heap w') -> unique_refs (heap w') ->
  (forall t a x r, r ∈ refs_of (heap w') t a x ->
     r_node r <> A /\ r ∈ refs_of (heap w) t a x) ->
  (forall t x, refs_of (heap w') t A x = []) ->
  (forall t a x r, r ∈ refs_of (heap w) t a x -> a <> A -> r_node r <> A ->
     r ∈ refs_of (heap w') t a x) ->
  (forall b, b <> A ->
     strip_node <$> heap w' !! b = strip_node <$> heap w !! b) ->
  strip_node <$> heap w' !! A = Some (strip_node (reset_node n)) ->
  host w' = clear_threads (nm_threads (n_meta n)) (host w) ->
  destroyed [A] w w'.
Proof.
  intros Hn Hs Hu Sub Empty Kept Others Self Hh.
  split; [done|]. split; [done|].
  split; [|split; [|split; [|split; [|split; [|split]]]]].
  - apply Nat.le_antisymm.
    + destruct (decide (length (heap w') <= length (heap w))) as [|Hl]; [done|].
      assert (Hb : length (heap w) < length (heap w')) by lia.
      apply lookup_lt_is_Some in Hb as [m Hm].
      assert (Hne : length (heap w) <> A).
      { intros <-. apply lookup_lt_Some in Hn. lia. }
      pose proof (Others _ Hne) as E. rewrite Hm in E.
      rewrite (proj2 (lookup_ge_None _ _)) in E; [done|lia].
    + destruct (decide (length (heap w) <= length (heap w'))) as [|Hl]; [done|].
      assert (Hb : length (heap w') < length (heap w)) by lia.
      apply lookup_lt_is_Some in Hb as [m Hm].
      destruct (decide (length (heap w') = A)) as [EA|Hne].
      * rewrite <- EA in Self.
        rewrite (proj2 (lookup_ge_None _ _)) in Self; [done|lia].
      * pose proof (Others _ Hne) as E. rewrite Hm in E.
        rewrite (proj2 (lookup_ge_None _ _)) in E; [done|lia].
  - intros t a x r Hr. destruct (Sub _ _ _ _ Hr) as [H1 H2].
    split; [done|]. rewrite !list_elem_of_singleton. split; [|done].
    intros ->. rewrite Empty in Hr. by apply elem_of_nil in Hr.
  - intros t a x r Hr Ha Hb. rewrite list_elem_of_singleton in Ha, Hb.
    by apply Kept.
  - intros b Hb. rewrite list_elem_of_singleton in Hb. by apply Others.
  - intros b m ->%list_elem_of_singleton Hm. congruence.
  - rewrite Hh. apply clear_threads_next.
  - intros t. rewrite Hh, clear_threads_timers. split.
    + intros [H1 H2]. split; [done|].
      intros b m ->%list_elem_of_singleton Hm. congruence.
    + intros [H1 H2]. split; [done|]. apply (H2 A); [|done].
      by apply list_elem_of_singleton.
Qed.

Lemma destroyed_app l1 l2 w w1 w2 :
  destroyed l1 w w1 -> destroyed l2 w1 w2 -> destroyed (l1 ++ l2) w w2.
Proof.
  intros (_ & _ & L1 & Sub1 & Kept1 & Oth1 & Self1 & N1 & T1)
         (Hs & Hu & L2 & Sub2 & Kept2 & Oth2 & Self2 & N2 & T2).
  assert (Node1 : forall b n, heap w !! b = Some n ->
            exists n1, heap w1 !! b = Some n1 /\
              strip_node n1 =
                strip_node (if decide (b ∈ l1) then reset_node n else n)).
  { intros b n Hb. destruct (decide (b ∈ l1)) as [Hin|Hout].
    - pose proof (Self1 b n Hin Hb) as E.
      destruct (heap w1 !! b) as [n1|]; [|done]. exists n1. split; [done|].
      cbn -[strip_node] in E. congruence.
    - pose proof (Oth1 b Hout) as E. rewrite Hb in E.
      destruct (heap w1 !! b) as [n1|]; [|done]. exists n1. split; [done|].
      cbn -[strip_node] in E. congruence. }
  split; [done|]. split; [done|]. split; [congruence|].
  split; [|split; [|split; [|split; [|split]]]].
  - intros t a x r Hr. destruct (Sub2 _ _ _ _ Hr) as (H1 & H2 & H3).
    destruct (Sub1 _ _ _ _ H1) as (H4 & H5 & H6).
    split; [done|]. rewrite !elem_of_app. tauto.
  - intros t a x r Hr Ha Hb. rewrite elem_of_app in Ha, Hb.
    apply Kept2; [|tauto|tauto]. apply Kept1; tauto.
  - intros b Hb. rewrite elem_of_app in Hb.
    rewrite Oth2 by tauto. apply Oth1. tauto.
  - intros b n Hb Hn. destruct (Node1 b n Hn) as (n1 & Hn1 & En1).
    destruct (decide (b ∈ l2)) as [Hin2|Hout2].
    + rewrite (Self2 b n1 Hin2 Hn1). f_equal.
      rewrite (strip_reset_node_eq _ _ En1).
      destruct (decide (b ∈ l1)); [by rewrite reset_node_idem|done].
    + rewrite Oth2 by done. rewrite Hn1. cbn -[strip_node]. f_equal.
      rewrite En1. apply elem_of_app in Hb as [Hb|Hb]; [|done].
      by rewrite decide_True.
  - congruence.
  - intros t. rewrite T2, T1. split.
    + intros [[H1 H2] H3]. split; [done|].
      intros b n [Hb|Hb]%elem_of_app Hn; [by eapply H2|].
      destruct (Node1 b n Hn) as (n1 & Hn1 & En1).
      destruct (decide (b ∈ l1)) as [Hin|Hout]; [by eapply H2|].
      rewrite <- (strip_threads _ _ En1). by eapply H3.
    + intros [H1 H2]. split; [split; [done|]|].
      * intros b n Hb. apply H2, elem_of_app. by left.
      * intros b n1 Hb Hn1.
        destruct (heap w !! b) as [n|] eqn:Hn.
        -- destruct (Node1 b n Hn) as (n1' & Hn1' & En1).
           assert (n1' = n1) as -> by congruence.
           rewrite (strip_threads _ _ En1).
           destruct (decide (b ∈ l1)); [by intros ?%elem_of_nil|].
           apply (H2 b); [|done]. apply elem_of_app. by right.
        -- exfalso. apply lookup_ge_None in Hn.
           apply lookup_lt_Some in Hn1. lia.
Qed.

Lemma registeredb_sound w : registeredb w = true -> registered w.
Proof.
  unfold registeredb. rewrite forallb_forall. intros H k a Ha.
  assert (Hk : In k [KEntry; KProcess; KComposite; KStorage]).
  { destruct k; cbn; tauto. }
  specialize (H k Hk). rewrite forallb_forall in H.
  apply list_elem_of_In in Ha. specialize (H a Ha).
  destruct (heap w !! a) as [n|]; [|done]. exists n. split; [done|].
  apply andb_prop in H as [H1 H2]. by apply bool_decide_eq_true in H1.
Qed.

Lemma destroyed_node l w w' b n :
  destroyed l w w' -> heap w !! b = Some n ->
  exists n', heap w' !! b = Some n' /\
    n_class n' = n_class n /\ n_parent n' = n_parent n.
Proof.
  intros (_ & _ & _ & _ & _ & Oth & Self & _) Hn.
  destruct (decide (b ∈ l)) as [Hin|Hout].
  - pose proof (Self b n Hin Hn) as E.
    destruct (heap w' !! b) as [n'|]; [|done]. exists n'. split; [done|].
    cbn -[strip_node] in E.
    assert (E' : strip_node n' = strip_node (reset_node n)) by congruence.
    destruct (strip_fields _ _ E') as (-> & -> & _). done.
  - pose proof (Oth b Hout) as E. rewrite Hn in E.
    destruct (heap w' !! b) as [n'|]; [|done]. exists n'. split; [done|].
    cbn -[strip_node] in E.
    assert (E' : strip_node n' = strip_node n) by congruence.
    destruct (strip_fields _ _ E') as (-> & -> & _). done.
Qed.

Lemma registered_destroyed l w w' :
  registered w -> destroyed l w w' ->
  (forall k a, a ∈ partition_of k (play w') -> a ∈ partition_of k (play w)) ->
  registered w'.
Proof.
  intros R D Hsub k a Ha. destruct (R k a (Hsub k a Ha)) as (n & Hn & Hk & Hp).
  destruct (destroyed_node _ _ _ _ _ D Hn) as (n' & Hn' & Ec & Ep).
  exists n'. split; [done|]. by rewrite Ec, Ep.
Qed.

Lemma set_partition_idle k p : partition_of k p = [] -> set_partition k [] p = p.
Proof. destruct k, p; cbn; by intros ->. Qed.

Lemma set_partition_twice k l l' p :
  set_partition k l (set_partition k l' p) = set_partition k l p.
Proof. by destruct k. Qed.

Lemma partition_of_set_elem k k' l p a :
  (forall b, b ∈ l -> b ∈ partition_of k p) ->
  a ∈ partition_of k' (set_partition k l p) -> a ∈ partition_of k' p.
Proof.
  intros H. destruct (decide (k' = k)) as [->|Hne].
  - rewrite partition_of_set. apply H.
  - by rewrite partition_of_set_other.
Qed.

(** [destroy] with its effect as a relation, for a node of the engine. *)
Lemma destroy_destroyed A w n k :
  symmetric (heap w) -> unique_refs (heap w) ->
  heap w !! A = Some n -> kind_of (n_class n) = Some k -> n_parent n = true ->
  exists fuel w',
    (forall fuel', fuel <= fuel' -> destroy fuel' A w = Some w') /\
    play w'
      = set_partition k (splice_indexOf A (partition_of k (play w))) (play w) /\
    destroyed [A] w w'.
Proof.
  intros Hs Hu Hn Hk Hp.
  destruct (destroy_spec A w n k Hs Hu Hn Hk Hp)
    as (fuel & w' & Hrun & Hs' & Hu' & Empty & Sub & Kept & Oth & Self & Hh & Hpl).
  exists fuel, w'. split; [done|]. split; [done|].
  by eapply destroyed_one.
Qed.

Lemma clear_partition_spec k : forall m w,
  length (partition_of k (play w)) <= m ->
  symmetric (heap w) -> unique_refs (heap w) -> registered w ->
  exists fuel w',
    (forall fuel', fuel <= fuel' -> clear_partition fuel' k w = Some w') /\
    play w' = set_partition k [] (play w) /\
    registered w' /\
    destroyed (partition_of k (play w)) w w'.
Proof.
  induction m as [|m IH]; intros w Hm Hs Hu R.
  - destruct (partition_of k (play w)) as [|a l] eqn:E; [|cbn in Hm; lia].
    exists 1, w. split; [|split; [|split; [done|]]].
    + intros [|f] Hf; [lia|]. cbn. by rewrite E.
    + by rewrite set_partition_idle.
    + by apply destroyed_nil.
  - destruct (partition_of k (play w)) as [|a l] eqn:E.
    { exists 1, w. split; [|split; [|split; [done|]]].
      + intros [|f] Hf; [lia|]. cbn. by rewrite E.
      + by rewrite set_partition_idle.
      + by apply destroyed_nil. }
    destruct (R k a) as (n & Hn & Hk & Hp); [rewrite E; left|].
    destruct (destroy_destroyed a w n k Hs Hu Hn Hk Hp)
      as (fuel1 & w1 & Hrun1 & Hpl1 & D1).
    rewrite E, splice_indexOf_head in Hpl1.
    assert (R1 : registered w1).
    { eapply registered_destroyed; [exact R|exact D1|].
      intros k' b. rewrite Hpl1. apply partition_of_set_elem.
      intros c Hc. rewrite E. by right. }
    assert (E1 : partition_of k (play w1) = l).
    { by rewrite Hpl1, partition_of_set. }
    destruct (IH w1) as (fuel2 & w' & Hrun2 & Hpl2 & R2 & D2).
    { rewrite E1. cbn in Hm. lia. }
    { apply D1. }
    { apply D1. }
    { done. }
    exists (S (max fuel1 fuel2)), w'. split; [|split; [|split; [done|]]].
    + intros [|f] Hf; [lia|]. cbn. rewrite E.
      rewrite Hrun1 by lia. apply Hrun2. lia.
    + by rewrite Hpl2, Hpl1, set_partition_twice.
    + rewrite E1 in D2. by apply (destroyed_app [a] l w w1 w').
Qed.

Lemma clear_spec w :
  symmetric (heap w) -> unique_refs (heap w) -> registered w ->
  exists fuel w',
    (forall fuel', fuel <= fuel' -> clear fuel' w = Some w') /\
    play w'
      = mkPlay [] [] [] [] [] [] [] (updateID (play w)) (isPaused (play w))
          (isStepping (play w)) (options (play w)) /\
    destroyed (all_nodes (play w)) w w'.
Proof.
  intros Hs Hu R.
  set (w0 := with_play
               (fun p => set_script_properties []
                           (set_queuedProperties [] (set_queuedChain [] p)))
               w).
  assert (R0 : registered w0).
  { intros k a Ha. apply (R k a). by destruct k. }
  destruct (clear_partition_spec KStorage _ w0 (le_n _) Hs Hu R0)
    as (f1 & w1 & Hrun1 & P1 & R1 & D1).
  destruct (clear_partition_spec KProcess _ w1 (le_n _)
              (proj1 D1) (proj1 (proj2 D1)) R1)
    as (f2 & w2 & Hrun2 & P2 & R2 & D2).
  destruct (clear_partition_spec KComposite _ w2 (le_n _)
              (proj1 D2) (proj1 (proj2 D2)) R2)
    as (f3 & w3 & Hrun3 & P3 & R3 & D3).
  destruct (clear_partition_spec KEntry _ w3 (le_n _)
              (proj1 D3) (proj1 (proj2 D3)) R3)
    as (f4 & w4 & Hrun4 & P4 & R4 & D4).
  exists (max (max f1 f2) (max f3 f4)), w4. split; [|split].
  - intros fuel' Hf. unfold clear. fold w0.
    rewrite Hrun1 by lia. rewrite Hrun2 by lia. rewrite Hrun3 by lia.
    apply Hrun4. lia.
  - rewrite P4, P3, P2, P1. reflexivity.
  - rewrite P3, P2, P1 in D4. rewrite P2, P1 in D3. rewrite P1 in D2.
    cbn in D1, D2, D3, D4. unfold all_nodes.
    eapply (destroyed_ext _ w0 w4); [done|done|done|done|].
    eapply destroyed_app; [exact D1|].
    eapply destroyed_app; [exact D2|].
    eapply destroyed_app; [exact D3|exact D4].
Qed.

(** * Removing links, destroying nodes, clearing the engine *)

(** X6.  [removeEntry] and [removeExit].  For a name that the node has
    no link of, the answer is [false] and nothing changes.  For a link
    that exists, in a symmetric graph and on a node whose links of that
    side have distinct names, the call runs to its end with [true]: the
    link is gone, no array holds a reference to it any more, the graph is
    symmetric, no reference is added and the references between other
    nodes stay; when the name is not empty, every array of the opposite
    side is the one it was without the reference to the link, and every
    other link is there with the references it had. *)
Theorem remove_link_removes (t : LINK_TYPE) (A : nat) (name : string)
    (h : list Node) (n : Node) :
  t = ENTRY \/ t = EXIT -> h !! A = Some n ->
  (name ∉ link_names t n ->
   forall fuel, remove_link fuel t A name h = Some (h, false)) /\
  (symmetric h -> unique_refs h -> NoDup (link_names t n) ->
   name ∈ link_names t n ->
   exists fuel h',
     (forall fuel', fuel <= fuel' ->
        remove_link fuel' t A name h = Some (h', true)) /\
     symmetric h' /\ unique_refs h' /\
     refs_opt h' t A name = None /\
     (forall b y, mkRef name A ∉ refs_of h' (opposite t) b y) /\
     (forall t0 a0 x0 r,
        r ∈ refs_of h' t0 a0 x0 -> r ∈ refs_of h t0 a0 x0) /\
     (forall t0 a0 x0 r,
        r ∈ refs_of h t0 a0 x0 -> a0 <> A -> r_node r <> A ->
        r ∈ refs_of h' t0 a0 x0) /\
     (name <> EmptyString ->
      (forall b y,
         refs_of h' (opposite t) b y
           = without (mkRef name A) (refs_of h (opposite t) b y)) /\
      (forall t0 a0 x0,
         t0 <> opposite t -> (t0, a0, x0) <> (t, A, name) ->
         refs_opt h' t0 a0 x0 = refs_opt h t0 a0 x0))).
Proof.
  intros Ht Hn.
  assert (E : forall fuel,
            remove_link fuel t A name h
            = remove_link_loop fuel t A name (links_length h t A) 0 h).
  { intros fuel. by destruct Ht as [-> | ->]. }
  split.
  - intros Hout fuel. rewrite E.
    apply (remove_link_loop_absent fuel t A name h n Hn).
    intros j _ Hj. apply Hout. by eapply list_elem_of_lookup_2.
  - intros Hs Hu Hnd Hin.
    destruct (remove_link_spec t A name h n Ht Hs Hu Hn Hnd Hin)
      as (fuel & h' & Hrun & H').
    exists fuel, h'. split; [|exact H'].
    intros fuel' Hf. rewrite E. by apply Hrun.
Qed.

Lemma remove_link_removes_witness :
  exists fuel h',
    (forall fuel', fuel <= fuel' ->
       removeEntry fuel' 1 "in" (heap linked_world) = Some (h', true)) /\
    refs_opt h' ENTRY 1 "in" = None /\
    refs_of h' EXIT 0 "out" = [mkRef EmptyString 1].
Proof.
  destruct (graph_ok_sound (heap linked_world)) as [Hs Hu];
    [vm_compute; reflexivity|].
  destruct (heap linked_world !! 1) as [n|] eqn:En;
    [|exact (False_rect _ ltac:(vm_compute in En; discriminate))].
  destruct (remove_link_removes ENTRY 1 "in" (heap linked_world) n
              (or_introl eq_refl) En) as [_ H].
  assert (Hn : n = default n (heap linked_world !! 1)) by (by rewrite En).
  destruct H as (fuel & h' & Hrun & _ & _ & G & _ & _ & _ & Hx);
    [done|done| | |].
  - rewrite Hn. vm_compute. repeat constructor; cbn; intros H;
      repeat (apply elem_of_cons in H as [H|H]; [discriminate|]);
      by apply elem_of_nil in H.
  - rewrite Hn. vm_compute. left.
  - exists fuel, h'. split; [exact Hrun|]. split; [exact G|].
    destruct (Hx ltac:(discriminate)) as [F _]. exact (F 0 "out").
Defined.

(** X7.  [destroy] on a node of the engine, in a symmetric graph, runs to
    its end.  Afterwards no array holds a reference from or to the node,
    the graph is symmetric, no reference is added and the references
    between other nodes stay; the other nodes are as they were, their
    references apart; the node is reset and the timers of its threads are
    cleared.  The array of the engine for the kind of the node has gone
    through [splice(indexOf(node), 1)]: it has lost the node, or, when it
    did not hold the node, its last element. *)
Theorem destroy_unlinks_node (A : nat) (w : World) (n : Node)
    (k : NODE_TYPE) :
  symmetric (heap w) -> unique_refs (heap w) ->
  heap w !! A = Some n -> kind_of (n_class n) = Some k -> n_parent n = true ->
  exists fuel w',
    (forall fuel', fuel <= fuel' -> destroy fuel' A w = Some w') /\
    destroyed [A] w w' /\
    play w'
      = set_partition k (splice_indexOf A (partition_of k (play w))) (play w) /\
    (A ∈ partition_of k (play w) -> NoDup (partition_of k (play w)) ->
     forall b, b ∈ partition_of k (play w') <->
               b ∈ partition_of k (play w) /\ b <> A) /\
    (A ∉ partition_of k (play w) ->
     partition_of k (play w')
       = take (length (partition_of k (play w)) - 1)
           (partition_of k (play w))).
Proof.
  intros Hs Hu Hn Hk Hp.
  destruct (destroy_destroyed A w n k Hs Hu Hn Hk Hp)
    as (fuel & w' & Hrun & Hpl & D).
  exists fuel, w'. split; [done|]. split; [done|]. split; [done|].
  rewrite Hpl, partition_of_set. split.
  - intros Hin Hnd. by apply splice_indexOf_in.
  - apply splice_indexOf_absent.
Qed.

Lemma destroy_unlinks_node_witness :
  exists fuel w',
    (forall fuel', fuel <= fuel' -> destroy fuel' 1 started_world = Some w') /\
    destroyed [1] started_world w' /\
    processNodes (play w') = [] /\ entryNodes (play w') = [0].
Proof.
  destruct (graph_ok_sound (heap started_world)) as [Hs Hu];
    [vm_compute; reflexivity|].
  destruct (heap started_world !! 1) as [n|] eqn:En;
    [|exact (False_rect _ ltac:(vm_compute in En; discriminate))].
  assert (Hn : n = default n (heap started_world !! 1)) by (by rewrite En).
  destruct (destroy_unlinks_node 1 started_world n KProcess Hs Hu En)
    as (fuel & w' & Hrun & D & Hpl & _).
  - rewrite Hn. vm_compute. reflexivity.
  - rewrite Hn. vm_compute. reflexivity.
  - exists fuel, w'. split; [exact Hrun|]. split; [exact D|].
    rewrite Hpl. split; reflexivity.
Defined.

(** X8.  [clear], in a symmetric graph whose engine arrays hold nodes of
    their kind that belong to the engine, runs to its end: each [while]
    loop stops because [destroy] takes the first node out of the array.
    The four arrays, the two queues and the properties of the script are
    empty; the pause and step flags, the options and the identifier of
    the tick interval are as they were.  Every node that the engine held
    is destroyed in the sense above: none has a reference left, each is
    reset, and the timers of their threads are cleared; the interval of
    the ticks is not. *)
Theorem clear_empties_engine (w : World) :
  symmetric (heap w) -> unique_refs (heap w) -> registered w ->
  exists fuel w',
    (forall fuel', fuel <= fuel' -> clear fuel' w = Some w') /\
    play w'
      = mkPlay [] [] [] [] [] [] [] (updateID (play w)) (isPaused (play w))
          (isStepping (play w)) (options (play w)) /\
    destroyed (all_nodes (play w)) w w'.
Proof. apply clear_spec. Qed.

Lemma clear_empties_engine_witness :
  exists fuel w',
    (forall fuel', fuel <= fuel' -> clear fuel' started_world = Some w') /\
    all_nodes (play w') = [] /\
    destroyed [1; 0] started_world w'.
Proof.
  destruct (graph_ok_sound (heap started_world)) as [Hs Hu];
    [vm_compute; reflexivity|].
  destruct (clear_empties_engine started_world Hs Hu)
    as (fuel & w' & Hrun & Hpl & D).
  - apply registeredb_sound. vm_compute. reflexivity.
  - exists fuel, w'. split; [exact Hrun|]. split; [by rewrite Hpl|exact D].
Defined.

(** * What a trigger queues *)

Lemma only_visual_node {B} (f : Node -> B) w w' a :
  (forall n, f (erase_node n) = f n) ->
  only_visual w w' -> f <$> heap w' !! a = f <$> heap w !! a.
Proof.
  intros Hf (E & _ & _).
  destruct (heap w' !! a) as [n'|] eqn:Hn'.
  - destruct (erase_lookup _ _ _ _ E Hn') as (n & -> & En). cbn. f_equal.
    by rewrite <- (Hf n'), <- En, Hf.
  - destruct (heap w !! a) as [n|] eqn:Hn; [|done].
    symmetry in E. destruct (erase_lookup _ _ _ _ E Hn) as (? & ? & _).
    congruence.
Qed.

Lemma node_property_erase n x :
  node_property (erase_node n) x = node_property n x.
Proof.
  unfold node_property. cbn.
  rewrite find_first_map by done. by destruct (find_first _ _).
Qed.

Lemma node_takes_entry_erase x n :
  node_takes_entry (erase_node n) x = node_takes_entry n x.
Proof.
  unfold node_takes_entry, enabled. rewrite node_property_erase. cbn.
  rewrite find_first_map by done. by destruct (find_first _ _).
Qed.

Lemma node_takes_property_erase n :
  node_takes_property (erase_node n) = node_takes_property n.
Proof.
  unfold node_takes_property, enabled. by rewrite node_property_erase.
Qed.

Lemma takes_entry_only_visual w w' r :
  only_visual w w' -> takes_entry w' r = takes_entry w r.
Proof.
  intros H. unfold takes_entry.
  pose proof (only_visual_node (fun n => node_takes_entry n (r_name r))
                w w' (r_node r) (node_takes_entry_erase _) H) as E.
  by destruct (heap w' !! r_node r), (heap w !! r_node r);
    cbn in E; try congruence.
Qed.

Lemma takes_property_only_visual w w' r :
  only_visual w w' -> takes_property w' r = takes_property w r.
Proof.
  intros H. unfold takes_property.
  pose proof (only_visual_node node_takes_property
                w w' (r_node r) node_takes_property_erase H) as E.
  by destruct (heap w' !! r_node r), (heap w !! r_node r);
    cbn in E; try congruence.
Qed.

Lemma queueNodeEntry_queues a x w n :
  heap w !! a = Some n ->
  queuedChain (play (queueNodeEntry a x w))
    = queuedChain (play w)
      ++ (if truthy (enabled n) then [mkChainItem a x] else []) /\
  queuedProperties (play (queueNodeEntry a x w)) = queuedProperties (play w).
Proof.
  intros Hn. unfold queueNodeEntry. rewrite Hn.
  destruct (truthy (enabled n)); [|by rewrite app_nil_r].
  by destruct (_ || _).
Qed.

Lemma queueNodeProperty_queues a x v w n :
  heap w !! a = Some n ->
  queuedProperties (play (queueNodeProperty a x v w))
    = queuedProperties (play w)
      ++ (if truthy (enabled n) then [mkPropertyItem a x v] else []) /\
  queuedChain (play (queueNodeProperty a x v w)) = queuedChain (play w).
Proof.
  intros Hn. unfold queueNodeProperty. rewrite Hn.
  destruct (truthy (enabled n)); [|by rewrite app_nil_r].
  by destruct (_ || _).
Qed.

Lemma link_named_eq x (l : Link) : link_named x l = true -> l_name l = x.
Proof. unfold link_named. by intros ?%String.eqb_eq. Qed.

Lemma triggerEntry_queues a x w :
  queuedChain (play (fst (triggerEntry a x w)))
    = queuedChain (play w)
      ++ (if takes_entry w (mkRef x a) then [mkChainItem a x] else []) /\
  queuedProperties (play (fst (triggerEntry a x w)))
    = queuedProperties (play w).
Proof.
  unfold triggerEntry, takes_entry, node_takes_entry. cbn [r_node r_name].
  destruct (heap w !! a) as [n|] eqn:Hn; [|by rewrite app_nil_r].
  destruct (find_first _ _) as [l|] eqn:Hl; [|by rewrite app_nil_r].
  cbn [fst]. apply find_first_Some in Hl as [Hl _].
  apply link_named_eq in Hl as ->.
  destruct (n_parent n); [|by rewrite app_nil_r].
  match goal with
  | |- context [queueNodeEntry a x ?w1] =>
      destruct (queueNodeEntry_queues a x w1
                  (set_entry
                     (update_first (link_named x)
                        (set_link_meta
                           (mark (debugBreak w n || engine_stepping w n)))) n))
        as [E1 E2]
  end.
  { cbn. by rewrite list_lookup_alter_eq, Hn. }
  rewrite E1, E2. by rewrite enabled_set_entry.
Qed.

Lemma triggerExit_link_queues self name w r :
  queuedChain (play (triggerExit_link self name w r))
    = queuedChain (play w)
      ++ (if takes_entry w r then [chain_item r] else []) /\
  queuedProperties (play (triggerExit_link self name w r))
    = queuedProperties (play w).
Proof.
  unfold triggerExit_link.
  destruct (triggerEntry_queues (r_node r) (r_name r) w) as [E1 E2].
  assert (Er : mkRef (r_name r) (r_node r) = r) by (by destruct r).
  rewrite Er in E1.
  destruct (heap _ !! r_node r); [|done].
  destruct (heap _ !! self); [|done].
  by destruct (_ || _).
Qed.

Lemma triggerExit_fold self name w0 l : forall w,
  only_visual w0 w ->
  queuedChain (play (foldl (triggerExit_link self name) w l))
    = queuedChain (play w) ++ map chain_item (List.filter (takes_entry w0) l) /\
  queuedProperties (play (foldl (triggerExit_link self name) w l))
    = queuedProperties (play w).
Proof.
  induction l as [|r l IH]; intros w Hv; cbn [foldl List.filter map].
  - by rewrite app_nil_r.
  - destruct (IH (triggerExit_link self name w r)) as [E1 E2].
    { eapply only_visual_trans; [exact Hv|].
      apply triggerExit_link_only_visual. }
    destruct (triggerExit_link_queues self name w r) as [F1 F2].
    rewrite E1, E2, F1, F2. rewrite (takes_entry_only_visual w0 w) by done.
    split; [|done]. destruct (takes_entry w0 r); cbn.
    + by rewrite <- app_assoc.
    + by rewrite app_nil_r.
Qed.

Lemma triggerExit_spec self name w links :
  refs_opt (heap w) EXIT self name = Some links ->
  snd (triggerExit self name w) = true /\
  queuedChain (play (fst (triggerExit self name w)))
    = queuedChain (play w)
      ++ map chain_item (List.filter (takes_entry w) links) /\
  queuedProperties (play (fst (triggerExit self name w)))
    = queuedProperties (play w).
Proof.
  unfold refs_opt, triggerExit. destruct (heap w !! self) as [n|]; [|done].
  cbn [node_refs]. destruct (find_first _ _) as [l|]; [|done].
  intros [= <-]. cbn [fst snd]. split; [done|].
  match goal with
  | |- context [foldl _ ?w1 _] =>
      destruct (triggerExit_fold self name w (l_links l) w1) as [E1 E2]
  end.
  { apply only_visual_alter. intros. apply erase_exit_meta. }
  by rewrite E1, E2.
Qed.

(** * What [property] with a value does *)

Lemma strict_eq_true a b : strict_eq a b = true <-> a = b.
Proof.
  destruct a, b; cbn; try (split; [done|congruence]); try done.
  - rewrite Bool.eqb_true_iff. split; congruence.
  - rewrite Z.eqb_eq. split; congruence.
  - rewrite String.eqb_eq. split; congruence.
Qed.

Lemma value_of_only_visual w w' a x :
  only_visual w w' -> value_of w' a x = value_of w a x.
Proof.
  intros H. unfold value_of.
  pose proof (only_visual_node (fun n => node_property n x) w w' a
                (fun n => node_property_erase n x) H) as E.
  by destruct (heap w' !! a), (heap w !! a); cbn in E; try congruence.
Qed.

Lemma triggerProperty_queues a x v w :
  queuedProperties (play (triggerProperty a x v w))
    = queuedProperties (play w)
      ++ (if takes_property w (mkRef x a) then [mkPropertyItem a x v] else []) /\
  queuedChain (play (triggerProperty a x v w)) = queuedChain (play w).
Proof.
  unfold triggerProperty, takes_property, node_takes_property.
  cbn [r_node r_name].
  destruct (heap w !! a) as [n|] eqn:Hn; [|by rewrite app_nil_r].
  cbn [play with_heap].
  destruct (n_parent n); [|by rewrite app_nil_r].
  apply (queueNodeProperty_queues a x v w n Hn).
Qed.

Lemma triggerProperty_fold v w0 l : forall w,
  only_visual w0 w ->
  queuedProperties
    (play (foldl (fun w' r => triggerProperty (r_node r) (r_name r) v w') w l))
    = queuedProperties (play w)
      ++ map (property_item v) (List.filter (takes_property w0) l) /\
  queuedChain
    (play (foldl (fun w' r => triggerProperty (r_node r) (r_name r) v w') w l))
    = queuedChain (play w).
Proof.
  induction l as [|r l IH]; intros w Hv; cbn [foldl List.filter map].
  - by rewrite app_nil_r.
  - destruct (IH (triggerProperty (r_node r) (r_name r) v w)) as [E1 E2].
    { eapply only_visual_trans; [exact Hv|].
      apply triggerProperty_only_visual. }
    destruct (triggerProperty_queues (r_node r) (r_name r) v w) as [F1 F2].
    assert (Er : mkRef (r_name r) (r_node r) = r) by (by destruct r).
    rewrite Er in F1.
    rewrite E1, E2, F1, F2. rewrite (takes_property_only_visual w0 w) by done.
    split; [|done]. destruct (takes_property w0 r); cbn.
    + by rewrite <- app_assoc.
    + by rewrite app_nil_r.
Qed.

Lemma node_property_first x g n p :
  (forall q, prop_named x (g q) = prop_named x q) ->
  find_first (prop_named x) (n_properties n) = Some p ->
  node_property (set_properties (update_first (prop_named x) g) n) x
  = p_value (g p).
Proof.
  intros Hg Hp. unfold node_property. cbn.
  by rewrite find_first_update_first, Hp.
Qed.

Lemma node_property_other x y g n :
  (forall q, p_name (g q) = p_name q) ->
  x <> y ->
  node_property (set_properties (update_first (prop_named x) g) n) y
  = node_property n y.
Proof.
  intros Hg Hne. unfold node_property. cbn.
  rewrite find_first_update_first_other; [done| |].
  - intros q. unfold prop_named. by rewrite Hg.
  - intros q. by apply prop_named_other.
Qed.

Lemma value_of_alter_first w a x g b y :
  (forall q, p_name (g q) = p_name q) ->
  (b, y) <> (a, x) ->
  value_of
    (with_heap (alter (set_properties (update_first (prop_named x) g)) a) w)
    b y
  = value_of w b y.
Proof.
  intros Hg Hne. unfold value_of. cbn.
  destruct (decide (a = b)) as [->|Hab].
  - rewrite list_lookup_alter_eq. destruct (heap w !! b); cbn; [|done].
    apply node_property_other; [done|congruence].
  - by rewrite list_lookup_alter_ne.
Qed.

(** [property] with a value, in full. *)
Lemma property_set_spec self name v fos w n p :
  heap w !! self = Some n ->
  find_first (prop_named name) (n_properties n) = Some p ->
  v <> VUndefined ->
  snd (property self name v fos w) = v /\
  value_of (fst (property self name v fos w)) self name = v /\
  (forall a x, (a, x) <> (self, name) ->
     value_of (fst (property self name v fos w)) a x = value_of w a x) /\
  queuedChain (play (fst (property self name v fos w)))
    = queuedChain (play w) /\
  queuedProperties (play (fst (property self name v fos w)))
    = queuedProperties (play w)
      ++ (if sends fos (p_value p) v then
            map (property_item v)
              (List.filter
                 (takes_property (fst (property self name v fos w)))
                 (p_outputs p))
          else []).
Proof.
  intros Hn Hp Hv. unfold property. rewrite Hn, Hp.
  assert (Hu : strict_eq v VUndefined = false).
  { destruct (strict_eq v VUndefined) eqn:E; [|done].
    by apply strict_eq_true in E. }
  rewrite Hu. cbn zeta. unfold onPropertyChanging. cbn [truthy].
  match goal with
  | |- context [if ?c then v else v] =>
      replace (if c then v else v) with v by (by destruct c)
  end.
  set (m := mark (debugBreak w n || engine_stepping w n)).
  set (w1 := with_heap
               (alter (set_properties
                         (update_first (prop_named name) (set_outputMeta m)))
                  self) w).
  assert (V1 : value_of w1 self name = p_value p).
  { unfold value_of, w1. cbn. rewrite list_lookup_alter_eq, Hn. cbn.
    by rewrite (node_property_first name (set_outputMeta m) n p). }
  assert (O1 : forall a x, (a, x) <> (self, name) ->
            value_of w1 a x = value_of w a x).
  { intros a x Hne. by apply value_of_alter_first. }
  destruct (is_true fos || negb (strict_eq (p_value p) v)) eqn:Ec.
  - set (w2 := with_heap
                 (alter (set_properties
                           (update_first (prop_named name) (set_value v)))
                    self) w1).
    assert (V2 : value_of w2 self name = v).
    { unfold value_of, w2, w1. cbn. rewrite !list_lookup_alter_eq, Hn. cbn.
      rewrite (node_property_first name (set_value v) _ (set_outputMeta m p));
        [done|done|].
      cbn. by rewrite find_first_update_first, Hp. }
    assert (O2 : forall a x, (a, x) <> (self, name) ->
              value_of w2 a x = value_of w a x).
    { intros a x Hne. unfold w2. rewrite value_of_alter_first by done.
      by apply O1. }
    cbn [fst snd]. split; [done|].
    destruct fos as [[|]|]; cbn [sends].
    + destruct (triggerProperty_fold v w2 (p_outputs p) w2 (only_visual_refl _))
        as [E1 E2].
      set (w3 := foldl _ w2 (p_outputs p)) in *.
      assert (Hv3 : only_visual w2 w3).
      { apply foldl_only_visual. intros. apply triggerProperty_only_visual. }
      split; [by rewrite (value_of_only_visual w2 w3)|].
      split; [intros a x Hne; rewrite (value_of_only_visual w2 w3) by done;
              by apply O2|].
      split; [by rewrite E2|]. rewrite E1. do 2 f_equal.
      apply filter_ext. intros r. symmetry. by apply takes_property_only_visual.
    + split; [done|]. split; [done|]. split; [done|]. by rewrite app_nil_r.
    + cbn in Ec. rewrite Ec.
      destruct (triggerProperty_fold v w2 (p_outputs p) w2 (only_visual_refl _))
        as [E1 E2].
      set (w3 := foldl _ w2 (p_outputs p)) in *.
      assert (Hv3 : only_visual w2 w3).
      { apply foldl_only_visual. intros. apply triggerProperty_only_visual. }
      split; [by rewrite (value_of_only_visual w2 w3)|].
      split; [intros a x Hne; rewrite (value_of_only_visual w2 w3) by done;
              by apply O2|].
      split; [by rewrite E2|]. rewrite E1. do 2 f_equal.
      apply filter_ext. intros r. symmetry. by apply takes_property_only_visual.
  - apply orb_false_iff in Ec as [Ef Ec]. apply negb_false_iff in Ec.
    assert (Eold : p_value p = v) by (by apply strict_eq_true).
    cbn [fst snd]. split; [done|]. split; [congruence|]. split; [done|].
    split; [done|].
    assert (sends fos (p_value p) v = false) as ->.
    { destruct fos as [[|]|]; cbn in *; [done|done|by rewrite Ec]. }
    by rewrite app_nil_r.
Qed.

(** * Triggers and property writes, call by call *)

(** X9.  [triggerExit] answers [false] and changes nothing when the node
    has no exit link of that name.  Otherwise it answers [true] and the
    queue of entry links gets, in the order of the links of the exit, one
    item for each target whose node has the entry link, belongs to the
    engine and is enabled; the queue of property updates is as it was.
    No handler runs: but for marks of the editor, the queues and the
    pause flag, the state is the one before the call. *)
Theorem triggerExit_queues_each_target (self : nat) (name : string)
    (w : World) :
  (refs_opt (heap w) EXIT self name = None ->
   triggerExit self name w = (w, false)) /\
  (forall links, refs_opt (heap w) EXIT self name = Some links ->
     snd (triggerExit self name w) = true /\
     queuedChain (play (fst (triggerExit self name w)))
       = queuedChain (play w)
         ++ map chain_item (List.filter (takes_entry w) links) /\
     queuedProperties (play (fst (triggerExit self name w)))
       = queuedProperties (play w) /\
     only_visual w (fst (triggerExit self name w))).
Proof.
  split.
  - unfold refs_opt, triggerExit. destruct (heap w !! self) as [n|]; [|done].
    cbn [node_refs]. by destruct (find_first _ _).
  - intros links Hl.
    destruct (triggerExit_spec self name w links Hl) as (H1 & H2 & H3).
    split; [done|]. split; [done|]. split; [done|].
    apply triggerExit_only_visual.
Qed.

Lemma triggerExit_queues_each_target_witness :
  triggerExit 1 "nowhere" started_world = (started_world, false) /\
  queuedChain (play (fst (triggerExit 0 "out" started_world)))
    = queuedChain (play started_world) ++ [mkChainItem 1 "in"].
Proof.
  split.
  - apply (triggerExit_queues_each_target 1 "nowhere" started_world).
    vm_compute. reflexivity.
  - destruct (triggerExit_queues_each_target 0 "out" started_world) as [_ H].
    destruct (H [mkRef "in" 1]) as (_ & H2 & _); [vm_compute; reflexivity|].
    exact H2.
Defined.

(** X10.  [property] with a value other than [undefined], on a property
    that the node has, returns that value and leaves it as the value of
    the property; no other property of any node changes its value, and
    the queue of entry links is as it was.  The value is sent on when the
    call is forced, or is not silenced and changes the value: the queue
    of property updates then gets, in the order of the outputs of the
    property, one update with the value for each output whose node
    belongs to the engine and is enabled once the value is written.
    Otherwise the queue is as it was. *)
Theorem property_sends_to_outputs (self : nat) (name : string) (v : Value)
    (forceOrSilent : option bool) (w : World) (n : Node) (p : Property) :
  heap w !! self = Some n ->
  find_first (prop_named name) (n_properties n) = Some p ->
  v <> VUndefined ->
  snd (property self name v forceOrSilent w) = v /\
  value_of (fst (property self name v forceOrSilent w)) self name = v /\
  (forall a x, (a, x) <> (self, name) ->
     value_of (fst (property self name v forceOrSilent w)) a x
       = value_of w a x) /\
  queuedChain (play (fst (property self name v forceOrSilent w)))
    = queuedChain (play w) /\
  queuedProperties (play (fst (property self name v forceOrSilent w)))
    = queuedProperties (play w)
      ++ (if sends forceOrSilent (p_value p) v then
            map (property_item v)
              (List.filter
                 (takes_property (fst (property self name v forceOrSilent w)))
                 (p_outputs p))
          else []).
Proof. apply property_set_spec. Qed.

Lemma property_sends_to_outputs_witness :
  snd (property 0 "result" (VNum 5) None interleave_world) = VNum 5 /\
  value_of (fst (property 0 "result" (VNum 5) None interleave_world))
    0 "result" = VNum 5 /\
  queuedProperties
    (play (fst (property 0 "result" (VNum 5) None interleave_world)))
    = queuedProperties (play interleave_world)
      ++ [mkPropertyItem 1 "message" (VNum 5)].
Proof.
  pose (n := default (mkNode wcNode [] [] [] (mkNodeMeta false false false [])
                        false false)
               (heap interleave_world !! 0)).
  pose (p := default (mkProperty EmptyString VUndefined VUndefined EmptyString
                        [] [] meta0 meta0)
               (find_first (prop_named "result") (n_properties n))).
  destruct (property_sends_to_outputs 0 "result" (VNum 5) None
              interleave_world n p)
    as (H1 & H2 & _ & _ & H5);
    [vm_compute; reflexivity|vm_compute; reflexivity|discriminate|].
  split; [exact H1|]. split; [exact H2|]. exact H5.
Defined.

(** * What a connect queues *)

Lemma node_property_strip n x :
  node_property (strip_node n) x = node_property n x.
Proof.
  unfold node_property. cbn. rewrite find_first_map by done.
  by destruct (find_first _ _).
Qed.

Lemma same_nodes_value_of w w' a x :
  same_nodes (heap w) (heap w') -> value_of w' a x = value_of w a x.
Proof.
  intros E%(same_nodes_lookup _ _ a). unfold value_of.
  destruct (heap w' !! a) as [n'|], (heap w !! a) as [n|];
    cbn -[strip_node] in E; try done.
  assert (E' : strip_node n' = strip_node n) by congruence.
  by rewrite <- (node_property_strip n'), E', node_property_strip.
Qed.

Lemma same_nodes_takes_property w w' r :
  same_nodes (heap w) (heap w') -> takes_property w' r = takes_property w r.
Proof.
  intros E. pose proof (same_nodes_value_of w w' (r_node r) "enabled" E) as V.
  apply (same_nodes_lookup _ _ (r_node r)) in E.
  unfold value_of in V. unfold takes_property.
  destruct (heap w' !! r_node r) as [n'|], (heap w !! r_node r) as [n|];
    cbn -[strip_node] in E; try done.
  assert (E' : strip_node n' = strip_node n) by congruence.
  unfold node_takes_property, enabled. rewrite V. f_equal.
  change (n_parent n') with (n_parent (strip_node n')). by rewrite E'.
Qed.

(** [onConnect] of an output sends its value; of any other link it
    does nothing. *)
Lemma onConnect_queues self name t target targetName w :
  is_Some (heap w !! self) ->
  queuedChain (play (onConnect self true name t target targetName w))
    = queuedChain (play w) /\
  queuedProperties (play (onConnect self true name t target targetName w))
    = queuedProperties (play w)
      ++ match t with
         | OUTPUT => connect_update w self name target targetName
         | _ => []
         end.
Proof.
  intros [n Hn]. unfold onConnect, connect_update.
  destruct t; try (by rewrite app_nil_r).
  rewrite Hn.
  destruct (triggerProperty_queues target targetName (node_property n name) w)
    as [Q1 Q2].
  rewrite Q1, Q2. split; [done|]. unfold value_of. by rewrite Hn.
Qed.

Lemma connect_unchanged t a x b y w :
  snd (connect t a x b y w) <> SUCCESS -> fst (connect t a x b y w) = w.
Proof.
  unfold connect. destruct (heap w !! b); [|done].
  destruct (refs_opt (heap w) t a x); [|done].
  destruct (refs_opt (heap w) (opposite t) b y); [|done].
  destruct (has_ref b y _); [done|]. by destruct (has_ref a x _).
Qed.

(** A connect that succeeds queues the value of the output for the
    input, whichever end it is called on, and nothing else. *)
Lemma connect_queues t a x b y w :
  snd (connect t a x b y w) = SUCCESS ->
  queuedChain (play (fst (connect t a x b y w))) = queuedChain (play w) /\
  queuedProperties (play (fst (connect t a x b y w)))
    = queuedProperties (play w)
      ++ match t with
         | OUTPUT => connect_update w a x b y
         | INPUT => connect_update w b y a x
         | _ => []
         end.
Proof.
  unfold connect. destruct (heap w !! b) as [nb|] eqn:Hb; [|done].
  destruct (refs_opt (heap w) t a x) as [mine|] eqn:Hm; [|done].
  destruct (refs_opt (heap w) (opposite t) b y) as [theirs|]; [|done].
  destruct (has_ref b y mine); [done|].
  destruct (has_ref a x theirs); [done|]. cbn [fst snd]. intros _.
  assert (is_Some (heap w !! a)) as [na Ha].
  { unfold refs_opt in Hm. by destruct (heap w !! a). }
  set (w2 := with_heap _ (with_heap _ w)).
  assert (SN : same_nodes (heap w) (heap w2)).
  { unfold w2. cbn. eapply same_nodes_trans; apply same_nodes_set_refs. }
  assert (L : forall c, is_Some (heap w !! c) -> is_Some (heap w2 !! c)).
  { intros c [n Hn]. apply (same_nodes_lookup _ _ c) in SN. rewrite Hn in SN.
    by destruct (heap w2 !! c). }
  assert (CU : forall a0 x0 b0 y0,
            connect_update w2 a0 x0 b0 y0 = connect_update w a0 x0 b0 y0).
  { intros. unfold connect_update.
    by rewrite (same_nodes_takes_property w w2),
      (same_nodes_value_of w w2) by done. }
  set (w3 := onConnect a true x t b y w2).
  destruct (onConnect_queues a x t b y w2 (L a (mk_is_Some _ _ Ha)))
    as [C3 P3]. fold w3 in C3, P3.
  assert (H3 : is_Some (heap w3 !! b)).
  { assert (only_visual w2 w3) as (E & _).
    { unfold w3, onConnect. destruct t; try apply only_visual_refl.
      destruct (heap w2 !! a); [|apply only_visual_refl].
      apply triggerProperty_only_visual. }
    destruct (L b (mk_is_Some _ _ Hb)) as [n2 Hn2].
    apply (f_equal (fun l => l !! b)) in E.
    change (map erase_node ?h) with (erase_node <$> h) in E.
    rewrite !list_lookup_fmap, Hn2 in E. by destruct (heap w3 !! b). }
  destruct (onConnect_queues b y (opposite t) a x w3 H3) as [C4 P4].
  rewrite C4, P4, C3, P3. change (play w2) with (play w).
  split; [done|]. rewrite <- app_assoc. f_equal.
  destruct t; cbn [opposite]; rewrite ?app_nil_r, ?app_nil_l; try done.
  all: apply CU.
Qed.

(** X1.  A connection can be made from either end: [connectExit] called
    on the node of the exit link and [connectEntry] called on the node of
    the entry link give the same answer and leave the same state, and so
    do [connectOutput] and [connectInput].  When the connection of an
    output with an input succeeds, from whichever end it is made, the
    value that the output property has at that moment is sent to the
    input: one update with that value is added to the queue of property
    updates if the node of the input belongs to the engine and is
    enabled, and none otherwise; the queue of entry links is as it was.
    A connection of an entry with an exit adds nothing to the queues, and
    a connect that does not answer [SUCCESS] changes nothing. *)
Theorem connect_from_either_end (a b : nat) (x y : string) (w : World) :
  (connectExit b y a x w = connectEntry a x b y w /\
   connectEntry b y a x w = connectExit a x b y w /\
   connectOutput b y a x w = connectInput a x b y w /\
   connectInput b y a x w = connectOutput a x b y w) /\
  (snd (connectOutput a x b y w) = SUCCESS ->
   queuedProperties (play (fst (connectOutput a x b y w)))
     = queuedProperties (play w) ++ connect_update w a x b y /\
   queuedProperties (play (fst (connectInput b y a x w)))
     = queuedProperties (play w) ++ connect_update w a x b y /\
   queuedChain (play (fst (connectOutput a x b y w))) = queuedChain (play w)) /\
  (snd (connectExit a x b y w) = SUCCESS ->
   queuedProperties (play (fst (connectExit a x b y w)))
     = queuedProperties (play w) /\
   queuedChain (play (fst (connectExit a x b y w))) = queuedChain (play w)) /\
  (forall t, snd (connect t a x b y w) <> SUCCESS ->
     fst (connect t a x b y w) = w).
Proof.
  split.
  { split; [apply (connect_mirror ENTRY)|].
    split; [apply (connect_mirror EXIT)|].
    split; [apply (connect_mirror INPUT)|apply (connect_mirror OUTPUT)]. }
  split.
  { intros Hs. destruct (connect_queues OUTPUT a x b y w Hs) as [C P].
    change (connectInput b y a x w)
      with (connect (opposite OUTPUT) b y a x w).
    rewrite (connect_mirror OUTPUT a x b y w). done. }
  split.
  { intros Hs. destruct (connect_queues EXIT a x b y w Hs) as [C P].
    rewrite app_nil_r in P. done. }
  intros t. apply connect_unchanged.
Qed.

Lemma connect_from_either_end_witness :
  queuedProperties
    (play (fst (connectOutput 1 "milliseconds" 0 "debug log"
                  unconnected_world)))
    = queuedProperties (play unconnected_world)
      ++ [mkPropertyItem 0 "debug log" (VNum 5)] /\
  queuedProperties
    (play (fst (connectInput 0 "debug log" 1 "milliseconds"
                  unconnected_world)))
    = queuedProperties (play unconnected_world)
      ++ [mkPropertyItem 0 "debug log" (VNum 5)] /\
  fst (connectOutput 1 "nothing" 0 "debug log" unconnected_world)
    = unconnected_world.
Proof.
  destruct (connect_from_either_end 1 0 "milliseconds" "debug log"
              unconnected_world) as (_ & H2 & _).
  destruct H2 as (P1 & P2 & _); [vm_compute; reflexivity|].
  destruct (connect_from_either_end 1 0 "nothing" "debug log"
              unconnected_world) as (_ & _ & _ & H4).
  split; [exact P1|]. split; [exact P2|].
  apply (H4 OUTPUT). vm_compute. discriminate.
Defined.

(** * What a tick leaves as it is *)

Lemma tick_frame_refl w : tick_frame w w.
Proof. done. Qed.

Lemma tick_frame_trans w1 w2 w3 :
  tick_frame w1 w2 -> tick_frame w2 w3 -> tick_frame w1 w3.
Proof.
  intros (A1 & B1 & C1 & D1) (A2 & B2 & C2 & D2).
  split; [congruence|]. split; [congruence|]. split; [lia|auto].
Qed.

Lemma frame_erase n : frame_node (erase_node n) = frame_node n.
Proof.
  destruct n. unfold frame_node, erase_node. cbn. f_equal.
  - rewrite map_map. apply map_ext. by intros [].
  - rewrite map_map. apply map_ext. by intros [].
  - rewrite map_map. apply map_ext. by intros [].
Qed.

Lemma only_visual_tick_frame w w' : only_visual w w' -> tick_frame w w'.
Proof.
  intros (E1 & E2 & E3). split; [|split; [done|rewrite E3; done]].
  rewrite <- (map_ext _ _ frame_erase), <- (map_ext _ _ frame_erase (heap w)).
  rewrite <- !(map_map erase_node frame_node). by rewrite E1.
Qed.

Lemma tick_frame_alter f a w :
  (forall n, frame_node (f n) = frame_node n) ->
  tick_frame w (with_heap (alter f a) w).
Proof.
  intros H. split; [|done]. cbn. apply map_alter_same. intros. apply H.
Qed.

Lemma tick_frame_queue f w :
  erase_play (f (play w)) = erase_play (play w) ->
  tick_frame w (with_play f w).
Proof. done. Qed.

Lemma frame_set_value x v n :
  frame_node (set_properties (update_first (prop_named x) (set_value v)) n)
  = frame_node n.
Proof.
  destruct n. unfold frame_node. cbn. f_equal. by apply map_update_first.
Qed.

Lemma frame_outputMeta x f n :
  frame_node (set_properties (update_first (prop_named x) (set_outputMeta f)) n)
  = frame_node n.
Proof.
  destruct n. unfold frame_node. cbn. f_equal. by apply map_update_first.
Qed.

Lemma foldl_tick_frame {A} (f : World -> A -> World) l :
  (forall w a, tick_frame w (f w a)) ->
  forall w, tick_frame w (foldl f w l).
Proof.
  intros Hf. induction l as [|a l IH]; intros w; cbn; [done|].
  eapply tick_frame_trans; [apply Hf|apply IH].
Qed.

Lemma property_tick_frame self name v fos w :
  tick_frame w (fst (property self name v fos w)).
Proof.
  unfold property. destruct (heap w !! self) as [n|]; [|done].
  destruct (find_first _ _) as [p|]; [|done].
  destruct (strict_eq v VUndefined); [done|]. cbn zeta.
  destruct (_ || _); cbn [fst].
  - eapply tick_frame_trans; [apply tick_frame_alter, frame_outputMeta|].
    eapply tick_frame_trans; [apply tick_frame_alter, frame_set_value|].
    destruct fos as [[|]|]; [|done|].
    all: apply foldl_tick_frame; intros;
      apply only_visual_tick_frame, triggerProperty_only_visual.
  - apply tick_frame_alter, frame_outputMeta.
Qed.

Section TickFrame.
Variable operate : string -> Value -> Value -> Value.

Lemma onTriggered_tick_frame self name w :
  tick_frame w (onTriggered operate self name w).
Proof.
  unfold onTriggered. destruct (heap w !! self) as [n|]; [|done].
  destruct (n_class n); try done.
  - apply only_visual_tick_frame, triggerExit_only_visual.
  - apply only_visual_tick_frame, triggerExit_only_visual.
  - eapply tick_frame_trans;
      [apply only_visual_tick_frame, triggerExit_only_visual|].
    unfold setTimeout. cbn.
    split; [|split; [done|split]]; cbn.
    + by apply map_alter_same.
    + lia.
    + intros t Ht. apply elem_of_app. by left.
  - apply only_visual_tick_frame, triggerExit_only_visual.
  - apply only_visual_tick_frame, triggerExit_only_visual.
  - eapply tick_frame_trans; [apply property_tick_frame|].
    apply only_visual_tick_frame, triggerExit_only_visual.
Qed.

Lemma update_properties_tick_frame count : forall w w' c evs,
  update_properties count w = Some (w', c, evs) -> tick_frame w w'.
Proof.
  induction count as [|count IH]; intros w w' c evs; cbn.
  - by intros [= <- _ _].
  - destruct (queuedProperties (play w)) as [|item rest]; [done|].
    destruct (update_properties count _) as [[[w4 c4] evs4]|] eqn:E; [|done].
    intros [= <- _ _]. apply IH in E.
    eapply tick_frame_trans; [|exact E].
    eapply tick_frame_trans; [|apply property_tick_frame].
    unfold wake.
    eapply tick_frame_trans; [|by apply tick_frame_alter].
    by apply tick_frame_queue.
Qed.

Lemma update_chain_tick_frame count : forall w w' evs,
  update_chain operate count w = Some (w', evs) -> tick_frame w w'.
Proof.
  induction count as [|count IH]; intros w w' evs; cbn.
  - by intros [= <- _].
  - destruct (queuedChain (play w)) as [|item rest]; [done|].
    destruct (update_chain operate count _) as [[w4 evs4]|] eqn:E; [|done].
    intros [= <- _]. apply IH in E.
    eapply tick_frame_trans; [|exact E].
    eapply tick_frame_trans; [|apply onTriggered_tick_frame].
    unfold wake.
    eapply tick_frame_trans; [|by apply tick_frame_alter].
    by apply tick_frame_queue.
Qed.

Lemma update_tick_frame w w' evs :
  update operate w = Some (w', evs) -> tick_frame w w'.
Proof.
  unfold update. destruct (isPaused (play w)); [by intros [= <- _]|].
  destruct (update_properties _ w) as [[[w1 c1] evs1]|] eqn:E1; [|done].
  apply update_properties_tick_frame in E1.
  destruct (queuedProperties (play w1)).
  - destruct (update_chain operate _ w1) as [[w2 evs2]|] eqn:E2; [|done].
    apply update_chain_tick_frame in E2. intros [= <- _].
    eapply tick_frame_trans; [exact E1|].
    eapply tick_frame_trans; [exact E2|].
    destruct (isStepping (play w2)); [by apply tick_frame_queue|done].
  - intros [= <- _]. eapply tick_frame_trans; [exact E1|].
    destruct (isStepping (play w1)); [by apply tick_frame_queue|done].
Qed.

(** The second loop, with what it leaves in the queues. *)
Lemma update_chain_queues count : forall w,
  count <= length (queuedChain (play w)) ->
  exists w2 evs c p,
    update_chain operate count w = Some (w2, evs) /\
    length evs = count /\
    queuedChain (play w2) = drop count (queuedChain (play w)) ++ c /\
    queuedProperties (play w2) = queuedProperties (play w) ++ p.
Proof.
  induction count as [|count IH]; intros w Hc.
  - exists w, [], [], []. cbn. by rewrite drop_0, !app_nil_r.
  - cbn [update_chain].
    destruct (queuedChain (play w)) as [|item rest] eqn:E; [cbn in Hc; lia|].
    set (w2 := wake (ci_node item) (with_play (set_queuedChain rest) w)).
    destruct (onTriggered_grows operate (ci_node item) (ci_name item) w2)
      as (_ & [c C3] & [p P3]).
    set (w3 := onTriggered operate (ci_node item) (ci_name item) w2) in *.
    cbn in C3, P3.
    destruct (IH w3) as (w4 & evs & c4 & p4 & R4 & L4 & C4 & P4).
    { rewrite C3, length_app. cbn in Hc. lia. }
    exists w4, (EntryTriggered item (queuedProperties (play w)) :: evs),
      (c ++ c4), (p ++ p4).
    rewrite R4. split; [done|]. split; [cbn; lia|].
    rewrite C4, P4, C3, P3. cbn in Hc.
    rewrite drop_app_le by lia. cbn. by rewrite !app_assoc.
Qed.

(** One tick, with what it leaves in the queues. *)
Lemma update_queues w :
  isPaused (play w) = false ->
  exists w' evs np nc addp1 addp2 addc,
    update operate w = Some (w', evs) /\
    length evs = np + nc /\
    np = Nat.min (length (queuedProperties (play w)))
           (o_updateLimit (options (play w))) /\
    nc = (match drop np (queuedProperties (play w)) ++ addp1 with
          | [] => Nat.min (length (queuedChain (play w)))
                    (o_updateLimit (options (play w)))
          | _ :: _ => 0
          end) /\
    (nc = 0 -> addp2 = [] /\ addc = []) /\
    queuedProperties (play w')
      = drop np (queuedProperties (play w)) ++ addp1 ++ addp2 /\
    queuedChain (play w') = drop nc (queuedChain (play w)) ++ addc.
Proof.
  intros Hp. unfold update. rewrite Hp.
  set (np := Nat.min _ _).
  destruct (update_properties_spec np w) as (w1 & p1 & R1 & O1 & C1 & P1);
    [unfold np; lia|].
  rewrite R1.
  destruct (queuedProperties (play w1)) as [|x q] eqn:E1.
  - rewrite Nat.sub_0_r, C1, O1.
    set (nc := Nat.min _ _).
    destruct (update_chain_queues nc w1) as (w2 & evs & c & p & R2 & L2 & C2 & P2);
      [rewrite C1; unfold nc; lia|].
    rewrite R2.
    eexists _, _, np, nc, p1, p, (if decide (nc = 0) then [] else c).
    split; [reflexivity|].
    split; [rewrite length_app, length_map, length_take, L2; unfold np; lia|].
    split; [done|]. rewrite <- P1. split; [done|].
    assert (H0 : nc = 0 -> p = [] /\ c = []).
    { intros Hn. rewrite Hn in R2. cbn in R2. injection R2 as <- <-.
      rewrite Hn, drop_0 in C2.
      split.
      - apply (f_equal length) in P2. rewrite length_app in P2.
        destruct p; [done|cbn in P2; lia].
      - apply (f_equal length) in C2. rewrite length_app in C2.
        destruct c; [done|cbn in C2; lia]. }
    split.
    { intros Hn. destruct (H0 Hn) as [-> _]. by rewrite decide_True. }
    split.
    + replace (queuedProperties
                 (play (if isStepping (play w2)
                        then with_play (set_isPaused true) w2 else w2)))
        with (queuedProperties (play w2)) by (by destruct (isStepping _)).
      rewrite P2, E1, app_assoc, <- P1. done.
    + replace (queuedChain
                 (play (if isStepping (play w2)
                        then with_play (set_isPaused true) w2 else w2)))
        with (queuedChain (play w2)) by (by destruct (isStepping _)).
      rewrite C2, C1. destruct (decide (nc = 0)) as [Hn|]; [|done].
      by destruct (H0 Hn) as [_ ->].
  - eexists _, _, np, 0, p1, [], [].
    split; [reflexivity|].
    split; [rewrite app_nil_r, length_map, length_take; unfold np; lia|].
    split; [done|]. rewrite <- P1. split; [done|]. split; [done|].
    split.
    + replace (queuedProperties
                 (play (if isStepping (play w1)
                        then with_play (set_isPaused true) w1 else w1)))
        with (queuedProperties (play w1)) by (by destruct (isStepping _)).
      rewrite E1, app_nil_r. done.
    + replace (queuedChain
                 (play (if isStepping (play w1)
                        then with_play (set_isPaused true) w1 else w1)))
        with (queuedChain (play w1)) by (by destruct (isStepping _)).
      by rewrite C1, drop_0, app_nil_r.
Qed.

End TickFrame.

Lemma node_refs_frame t n x : node_refs t (frame_node n) x = node_refs t n x.
Proof.
  destruct t; cbn.
  all: rewrite find_first_map by done.
  all: by destruct (find_first _ _).
Qed.

Lemma frame_lookup (h h' : list Node) a :
  map frame_node h' = map frame_node h ->
  frame_node <$> h' !! a = frame_node <$> h !! a.
Proof.
  intros E. rewrite <- !list_lookup_fmap.
  change (frame_node <$> h') with (map frame_node h').
  change (frame_node <$> h) with (map frame_node h). by rewrite E.
Qed.

Lemma tick_frame_refs w w' t a x :
  tick_frame w w' -> refs_opt (heap w') t a x = refs_opt (heap w) t a x.
Proof.
  intros (E & _). apply (frame_lookup _ _ a) in E. unfold refs_opt.
  destruct (heap w' !! a) as [n'|], (heap w !! a) as [n|];
    cbn -[frame_node] in E; try done.
  assert (E' : frame_node n' = frame_node n) by congruence.
  by rewrite <- (node_refs_frame t n'), E', node_refs_frame.
Qed.

Lemma tick_frame_stepping w w' :
  tick_frame w w' -> isStepping (play w') = isStepping (play w).
Proof.
  intros (_ & E & _). unfold erase_play in E. by injection E.
Qed.

Section TickTheorems.
Variable operate : string -> Value -> Value -> Value.

(** * The scheduler: what a tick leaves and what it takes *)

(** X11.  A tick runs to its end and leaves the structure of the script
    as it is: the nodes keep their classes, their links and the
    references of these, their initial values and their breakpoints; the
    engine keeps its four arrays, its properties, its options, its step
    flag and the identifier of its interval; no timer is cleared.  On a
    paused engine the tick changes nothing at all, and in step mode it
    leaves the engine paused. *)
Theorem update_leaves_structure (w : World) :
  exists w' evs,
    update operate w = Some (w', evs) /\
    tick_frame w w' /\
    (forall t a x, refs_opt (heap w') t a x = refs_opt (heap w) t a x) /\
    (isPaused (play w) = true -> w' = w /\ evs = []) /\
    (isStepping (play w) = true -> isPaused (play w') = true).
Proof.
  destruct (update_spec operate w) as (w' & ps & cs & Hrun & _).
  exists w', (map PropertyUpdated ps ++ cs). split; [done|].
  pose proof (update_tick_frame operate _ _ _ Hrun) as F.
  split; [done|]. split; [intros; by apply tick_frame_refs|].
  split.
  - intros Hp. unfold update in Hrun. rewrite Hp in Hrun.
    by injection Hrun as <- <-.
  - intros Hst. unfold update in Hrun.
    destruct (isPaused (play w)) eqn:Hp; [by injection Hrun as <- _|].
    destruct (update_properties _ w) as [[[w1 c1] evs1]|] eqn:E1; [|done].
    apply update_properties_tick_frame in E1.
    destruct (queuedProperties (play w1)).
    + destruct (update_chain operate _ w1) as [[w2 evs2]|] eqn:E2; [|done].
      apply update_chain_tick_frame in E2.
      rewrite (tick_frame_stepping w1 w2), (tick_frame_stepping w w1), Hst
        in Hrun by done.
      by injection Hrun as <- _.
    + rewrite (tick_frame_stepping w w1), Hst in Hrun by done.
      by injection Hrun as <- _.
Qed.

(** X12.  A tick of a running engine takes items from the front of the
    two queues and appends what the handlers queue; nothing that waits is
    lost or reordered.  It applies the first [np] property updates, [np]
    being the length of the queue or the limit, whichever is less.  When
    no update is waiting after that, it runs the first [nc] entries, [nc]
    being the length of that queue or the limit again; when an update is
    waiting, it runs no entry.  Each queue is then what was left of it,
    followed by the items queued in the meantime. *)
Theorem update_takes_from_the_front (w : World) :
  isPaused (play w) = false ->
  exists w' evs np nc addp1 addp2 addc,
    update operate w = Some (w', evs) /\
    length evs = np + nc /\
    np = Nat.min (length (queuedProperties (play w)))
           (o_updateLimit (options (play w))) /\
    nc = (match drop np (queuedProperties (play w)) ++ addp1 with
          | [] => Nat.min (length (queuedChain (play w)))
                    (o_updateLimit (options (play w)))
          | _ :: _ => 0
          end) /\
    (nc = 0 -> addp2 = [] /\ addc = []) /\
    queuedProperties (play w')
      = drop np (queuedProperties (play w)) ++ addp1 ++ addp2 /\
    queuedChain (play w') = drop nc (queuedChain (play w)) ++ addc.
Proof. apply update_queues. Qed.

End TickTheorems.

Lemma update_leaves_structure_witness :
  exists w' evs,
    update operate_int interleave_world = Some (w', evs) /\
    tick_frame interleave_world w' /\
    refs_opt (heap w') OUTPUT 0 "result" = Some [mkRef "message" 1].
Proof.
  destruct (update_leaves_structure operate_int interleave_world)
    as (w' & evs & Hrun & F & R & _).
  exists w', evs. split; [exact Hrun|]. split; [exact F|].
  exact (R OUTPUT 0 "result").
Defined.

Lemma update_takes_from_the_front_witness :
  exists w' evs nc addp1 addp2 addc,
    update operate_int busy_world = Some (w', evs) /\
    length evs = 1 + nc /\
    nc = (match addp1 with [] => 2 | _ :: _ => 0 end) /\
    queuedProperties (play w') = addp1 ++ addp2 /\
    queuedChain (play w') = drop nc (queuedChain (play busy_world)) ++ addc.
Proof.
  destruct (update_takes_from_the_front operate_int busy_world)
    as (w' & evs & np & nc & addp1 & addp2 & addc
        & Hrun & L & Hnp & Hnc & H0 & P & C);
    [reflexivity|].
  assert (E : np = 1) by (rewrite Hnp; reflexivity).
  rewrite E in L, Hnc, P.
  exists w', evs, nc, addp1, addp2, addc.
  split; [exact Hrun|]. split; [exact L|]. split; [exact Hnc|].
  split; [exact P|exact C].
Defined.

(** * What [start] queues *)

Lemma node_start_updates_erase takes n :
  node_start_updates takes (erase_node n) = node_start_updates takes n.
Proof.
  unfold node_start_updates. cbn. rewrite find_first_map by done.
  by destruct (find_first _ _).
Qed.

Lemma node_start_entries_erase takes n :
  node_start_entries takes (erase_node n) = node_start_entries takes n.
Proof.
  unfold node_start_entries. cbn. rewrite find_first_map by done.
  by destruct (find_first _ _).
Qed.

Lemma node_start_updates_ext f g n :
  (forall r, f r = g r) -> node_start_updates f n = node_start_updates g n.
Proof.
  intros H. unfold node_start_updates.
  destruct (is_storage _); [|done]. destruct (find_first _ _); [|done].
  destruct (strict_eq _ _); [done|]. f_equal. by apply filter_ext.
Qed.

Lemma node_start_entries_ext f g n :
  (forall r, f r = g r) -> node_start_entries f n = node_start_entries g n.
Proof.
  intros H. unfold node_start_entries.
  destruct (n_class n); try done. destruct (find_first _ _); [|done].
  f_equal. by apply filter_ext.
Qed.

Lemma start_updates_only_visual w w' id :
  only_visual w w' -> start_updates w' id = start_updates w id.
Proof.
  intros H. unfold start_updates.
  pose proof (only_visual_node (node_start_updates (takes_property w))
                w w' id (node_start_updates_erase _) H) as E.
  destruct (heap w' !! id) as [n'|], (heap w !! id) as [n|];
    cbn in E; try done.
  injection E as <-. apply node_start_updates_ext.
  intros r. by apply takes_property_only_visual.
Qed.

Lemma start_entries_only_visual w w' id :
  only_visual w w' -> start_entries w' id = start_entries w id.
Proof.
  intros H. unfold start_entries.
  pose proof (only_visual_node (node_start_entries (takes_entry w))
                w w' id (node_start_entries_erase _) H) as E.
  destruct (heap w' !! id) as [n'|], (heap w !! id) as [n|];
    cbn in E; try done.
  injection E as <-. apply node_start_entries_ext.
  intros r. by apply takes_entry_only_visual.
Qed.

Lemma storage_start_queues id w n :
  heap w !! id = Some n ->
  queuedProperties
    (play (fst (property id "value" (node_property n "value") (Some true) w)))
    = queuedProperties (play w)
      ++ (match find_first (prop_named "value") (n_properties n) with
          | Some p =>
              if strict_eq (p_value p) VUndefined then []
              else map (property_item (p_value p))
                     (List.filter (takes_property w) (p_outputs p))
          | None => []
          end) /\
  queuedChain
    (play (fst (property id "value" (node_property n "value") (Some true) w)))
    = queuedChain (play w).
Proof.
  intros Hn.
  pose proof (property_same_value_only_visual id "value" (Some true) w n Hn)
    as Hv.
  unfold node_property in *.
  destruct (find_first (prop_named "value") (n_properties n)) as [p|] eqn:Hp.
  2: { unfold property. rewrite Hn, Hp. cbn. by rewrite app_nil_r. }
  destruct (strict_eq (p_value p) VUndefined) eqn:Hu.
  { unfold property. rewrite Hn, Hp, Hu. cbn. by rewrite app_nil_r. }
  destruct (property_set_spec id "value" (p_value p) (Some true) w n p Hn Hp)
    as (_ & _ & _ & C & P).
  { intros E. rewrite E in Hu. done. }
  split; [|done]. rewrite P. cbn [sends]. do 2 f_equal.
  apply filter_ext. intros r. by apply takes_property_only_visual.
Qed.

Lemma onStart_queues id w :
  queuedProperties (play (onStart id w))
    = queuedProperties (play w) ++ start_updates w id /\
  queuedChain (play (onStart id w))
    = queuedChain (play w) ++ start_entries w id.
Proof.
  unfold onStart, start_updates, start_entries, node_start_updates,
    node_start_entries.
  destruct (heap w !! id) as [n|] eqn:Hn; [|by rewrite !app_nil_r].
  destruct (n_class n) eqn:Hc; cbn [is_storage];
    try (by rewrite !app_nil_r).
  all: try (destruct (storage_start_queues id w n Hn) as [E1 E2];
            rewrite E1, E2; by rewrite app_nil_r).
  unfold wcNodeEntry_onTriggered, triggerCondition.
  destruct (find_first (link_named "out") (n_exit n)) as [l|] eqn:Hl.
  - destruct (triggerExit_spec id "out" w (l_links l)) as (_ & E1 & E2).
    { unfold refs_opt. rewrite Hn. cbn. by rewrite Hl. }
    rewrite E1, E2. by rewrite app_nil_r.
  - unfold triggerExit. rewrite Hn, Hl. cbn. by rewrite !app_nil_r.
Qed.

Lemma notify_onStart_fold w0 ids : forall w,
  only_visual w0 w ->
  queuedProperties (play (foldl (fun w' id => onStart id w') w ids))
    = queuedProperties (play w) ++ flat_map (start_updates w0) ids /\
  queuedChain (play (foldl (fun w' id => onStart id w') w ids))
    = queuedChain (play w) ++ flat_map (start_entries w0) ids.
Proof.
  induction ids as [|id ids IH]; intros w Hv; cbn [foldl flat_map].
  - by rewrite !app_nil_r.
  - destruct (IH (onStart id w)) as [E1 E2].
    { eapply only_visual_trans; [exact Hv|apply onStart_only_visual]. }
    destruct (onStart_queues id w) as [F1 F2].
    rewrite E1, E2, F1, F2.
    rewrite (start_updates_only_visual w0 w), (start_entries_only_visual w0 w)
      by done.
    by rewrite <- !app_assoc.
Qed.

Lemma start_queues_spec w :
  queuedProperties (play (start w))
    = flat_map (start_updates (start_reset w)) (all_nodes (play w)) /\
  queuedChain (play (start w))
    = flat_map (start_entries (start_reset w)) (all_nodes (play w)).
Proof.
  unfold start, notify_onStart.
  destruct (start_reset_resetting w) as (w2 & _ & _ & A2 & _ & R).
  destruct R as (P3 & _).
  destruct (start_run_facts (start_reset w)) as (H7 & _ & _ & _ & A7 & C7 & Q7).
  assert (Hall : all_nodes (play (start_run (start_reset w)))
                 = all_nodes (play w)).
  { rewrite A7, P3. exact A2. }
  rewrite Hall.
  destruct (notify_onStart_fold (start_run (start_reset w))
              (all_nodes (play w)) (start_run (start_reset w))
              (only_visual_refl _)) as [E1 E2].
  rewrite E1, E2, C7, Q7. cbn [app].
  assert (U : forall id, start_updates (start_run (start_reset w)) id
                         = start_updates (start_reset w) id).
  { intros id. unfold start_updates, takes_property. by rewrite H7. }
  assert (E : forall id, start_entries (start_run (start_reset w)) id
                         = start_entries (start_reset w) id).
  { intros id. unfold start_entries, takes_entry. by rewrite H7. }
  split.
  - apply flat_map_ext. intros. apply U.
  - apply flat_map_ext. intros. apply E.
Qed.

(** X13.  What [start] leaves in the queues.  With the nodes of the
    engine taken in the order of the notification (Storage, Process,
    Composite, Entry) and the state taken after the resets, the queue of
    property updates holds, for each Storage node whose [value] is not
    [undefined], one update with that value for each output of [value]
    whose node belongs to the engine and is enabled; the queue of entry
    links holds, for each Start node, one item for each link of its exit
    [out] whose node has the entry, belongs to the engine and is enabled.
    Nothing else is queued. *)
Theorem start_queues_broadcasts (w : World) :
  queuedProperties (play (start w))
    = flat_map (start_updates (start_reset w)) (all_nodes (play w)) /\
  queuedChain (play (start w))
    = flat_map (start_entries (start_reset w)) (all_nodes (play w)).
Proof. apply start_queues_spec. Qed.

(** * The invariant of a script *)

Lemma same_kinds_refl h : same_kinds h h.
Proof. done. Qed.

Lemma same_kinds_trans h1 h2 h3 :
  same_kinds h1 h2 -> same_kinds h2 h3 -> same_kinds h1 h3.
Proof. unfold same_kinds. congruence. Qed.

Lemma same_kinds_lookup h h' a :
  same_kinds h h' -> kind_shape <$> h' !! a = kind_shape <$> h !! a.
Proof.
  unfold same_kinds. intros E. rewrite <- !list_lookup_fmap.
  change (kind_shape <$> h') with (map kind_shape h').
  change (kind_shape <$> h) with (map kind_shape h). by rewrite E.
Qed.

Lemma same_kinds_length h h' : same_kinds h h' -> length h' = length h.
Proof.
  intros E%(f_equal length). by rewrite !length_map in E.
Qed.

Lemma same_kinds_alter f a h :
  (forall n, kind_shape (f n) = kind_shape n) -> same_kinds h (alter f a h).
Proof. intros H. apply map_alter_same. intros. apply H. Qed.

Lemma same_kinds_via {B} (e : Node -> B) (g : B -> NodeClass * bool) h h' :
  (forall n, g (e n) = kind_shape n) ->
  map e h' = map e h -> same_kinds h h'.
Proof.
  intros Hg E. unfold same_kinds.
  rewrite <- (map_ext _ _ Hg h'), <- (map_ext _ _ Hg h).
  rewrite <- !(map_map e g). by rewrite E.
Qed.

Lemma same_nodes_kinds h h' : same_nodes h h' -> same_kinds h h'.
Proof. apply (same_kinds_via strip_node kind_shape). by intros []. Qed.

Lemma same_names_refl h : same_names h h.
Proof. done. Qed.

Lemma same_names_trans h1 h2 h3 :
  same_names h1 h2 -> same_names h2 h3 -> same_names h1 h3.
Proof. intros H1 H2 a t. by rewrite H2, H1. Qed.

Lemma same_names_alter f a h :
  (forall n t, link_names t (f n) = link_names t n) ->
  same_names h (alter f a h).
Proof.
  intros H b t. destruct (decide (a = b)) as [->|Hne].
  - rewrite list_lookup_alter_eq. destruct (h !! b); cbn; [|done].
    by rewrite H.
  - by rewrite list_lookup_alter_ne.
Qed.

Lemma same_names_via {B} (e : Node -> B) (g : LINK_TYPE -> B -> list string)
    (h h' : list Node) :
  (forall n t, g t (e n) = link_names t n) ->
  map e h' = map e h -> same_names h h'.
Proof.
  intros Hg E a t.
  assert (E' : e <$> h' !! a = e <$> h !! a).
  { rewrite <- !list_lookup_fmap.
    change (e <$> h') with (map e h'). change (e <$> h) with (map e h).
    by rewrite E. }
  destruct (h' !! a) as [n'|], (h !! a) as [n|]; cbn in *; try done.
  f_equal. rewrite <- (Hg n' t), <- (Hg n t). congruence.
Qed.

Lemma same_nodes_same_names h h' : same_nodes h h' -> same_names h h'.
Proof. intros H a t. by apply same_nodes_names. Qed.

Lemma names_distinct_same h h' :
  same_names h h' -> names_distinct h -> names_distinct h'.
Proof.
  intros E Hn a n' t Ha. specialize (E a t). rewrite Ha in E.
  destruct (h !! a) as [n|] eqn:Hh; [|done]. cbn in E.
  injection E as ->. by eapply Hn.
Qed.

Lemma same_graph_refl h : same_graph h h.
Proof. done. Qed.

Lemma same_graph_trans h1 h2 h3 :
  same_graph h1 h2 -> same_graph h2 h3 -> same_graph h1 h3.
Proof. intros H1 H2 t a x. by rewrite H2, H1. Qed.

Lemma same_graph_invariant h h' :
  same_graph h h' -> symmetric h /\ unique_refs h ->
  symmetric h' /\ unique_refs h'.
Proof.
  intros E [Hs Hu]. split.
  - intros t a x r. rewrite !E. apply Hs.
  - intros t a x. rewrite E. apply Hu.
Qed.

Lemma same_links_graph w w' : same_links w w' -> same_graph (heap w) (heap w').
Proof. intros H t a x. by apply same_links_refs_of. Qed.

Lemma heap_ok_same h h' :
  same_graph h h' -> same_names h h' -> heap_ok h -> heap_ok h'.
Proof.
  intros G N (Hs & Hu & Hn).
  destruct (same_graph_invariant h h' G (conj Hs Hu)) as [Hs' Hu'].
  split; [done|]. split; [done|]. by eapply names_distinct_same.
Qed.

Lemma registered_same w w' :
  same_kinds (heap w) (heap w') ->
  (forall k, partition_of k (play w') = partition_of k (play w)) ->
  registered w -> registered w'.
Proof.
  intros K P R k a Ha. rewrite P in Ha.
  destruct (R k a Ha) as (n & Hn & Hk & Hp).
  pose proof (same_kinds_lookup _ _ a K) as E. rewrite Hn in E.
  destruct (heap w' !! a) as [n'|]; [|done]. exists n'. split; [done|].
  cbn in E. injection E as Ec Ep. by rewrite Ec, Ep.
Qed.

Lemma owned_same h h' : same_kinds h h' -> owned h -> owned h'.
Proof.
  intros K O a n' Hn'.
  pose proof (same_kinds_lookup _ _ a K) as E. rewrite Hn' in E.
  destruct (h !! a) as [n|] eqn:Hn; [|done].
  cbn in E. injection E as Ec Ep. rewrite Ec, Ep. by eapply O.
Qed.

Lemma all_nodes_partitions p p' :
  (forall k, partition_of k p' = partition_of k p) ->
  all_nodes p' = all_nodes p.
Proof.
  intros H. unfold all_nodes.
  pose proof (H KStorage) as H1. pose proof (H KProcess) as H2.
  pose proof (H KComposite) as H3. pose proof (H KEntry) as H4.
  cbn in H1, H2, H3, H4. congruence.
Qed.

(** What keeps the graph, the names, the kinds and the arrays keeps the
    invariant. *)
Lemma well_formed_same w w' :
  same_graph (heap w) (heap w') -> same_names (heap w) (heap w') ->
  same_kinds (heap w) (heap w') ->
  (forall k, partition_of k (play w') = partition_of k (play w)) ->
  well_formed w -> well_formed w'.
Proof.
  intros G N K P (H & O & R & D). split; [by eapply heap_ok_same|].
  split; [by eapply owned_same|].
  split; [by eapply registered_same|].
  by rewrite (all_nodes_partitions _ _ P).
Qed.

Lemma erase_play_partitions p p' :
  erase_play p' = erase_play p ->
  forall k, partition_of k p' = partition_of k p.
Proof.
  unfold erase_play. intros E k. injection E as E1 E2 E3 E4 _.
  by destruct k.
Qed.

Lemma link_names_frame t n : link_names t (frame_node n) = link_names t n.
Proof. destruct t; cbn; rewrite map_map; done. Qed.

Lemma tick_frame_well_formed w w' :
  tick_frame w w' -> well_formed w -> well_formed w'.
Proof.
  intros F. pose proof F as (E1 & E2 & _).
  apply well_formed_same.
  - intros t a x. unfold refs_of. by rewrite (tick_frame_refs w w').
  - apply (same_names_via frame_node link_names); [|done].
    intros. apply link_names_frame.
  - apply (same_kinds_via frame_node kind_shape); [by intros []|done].
  - by apply erase_play_partitions.
Qed.

(** * Creating links and properties *)

Lemma find_first_snoc {A} (P : A -> bool) l a :
  find_first P (l ++ [a])
  = match find_first P l with
    | Some b => Some b
    | None => if P a then Some a else None
    end.
Proof.
  induction l as [|b l IH]; cbn; [done|]. by destruct (P b).
Qed.

Lemma existsb_find_first {A} (P : A -> bool) l :
  existsb P l = false -> find_first P l = None.
Proof.
  induction l as [|a l IH]; cbn; [done|].
  destruct (P a); [done|]. apply IH.
Qed.

Lemma existsb_names {A} (nm : A -> string) l x :
  existsb (fun a => String.eqb (nm a) x) l = false -> x ∉ map nm l.
Proof.
  intros H Hin. apply find_first_names in Hin as [a Ha].
  by rewrite (existsb_find_first _ _ H) in Ha.
Qed.

Lemma NoDup_snoc {A} (l : list A) a : NoDup l -> a ∉ l -> NoDup (l ++ [a]).
Proof.
  intros Hl Ha. apply NoDup_app. split; [done|]. split.
  - intros b Hb ->%list_elem_of_singleton. done.
  - apply NoDup_singleton.
Qed.

(** A function on a node that adds a link without references. *)
Lemma heap_ok_add_link f a h :
  (forall n t x,
     default [] (node_refs t (f n) x) = default [] (node_refs t n x)) ->
  (forall n t, NoDup (link_names t n) -> h !! a = Some n ->
     NoDup (link_names t (f n))) ->
  heap_ok h -> heap_ok (alter f a h).
Proof.
  intros Hr Hn (Hs & Hu & Hd).
  assert (G : same_graph h (alter f a h)).
  { intros t b x. unfold refs_of, refs_opt.
    destruct (decide (a = b)) as [->|Hne].
    - rewrite list_lookup_alter_eq. destruct (h !! b); cbn; [apply Hr|done].
    - by rewrite list_lookup_alter_ne. }
  destruct (same_graph_invariant _ _ G (conj Hs Hu)) as [Hs' Hu'].
  split; [done|]. split; [done|].
  intros b n' t Hb. destruct (decide (a = b)) as [->|Hne].
  - rewrite list_lookup_alter_eq in Hb.
    destruct (h !! b) as [n|] eqn:Hh; [|done]. injection Hb as <-.
    apply Hn; [by eapply Hd|done].
  - rewrite list_lookup_alter_ne in Hb by done. by eapply Hd.
Qed.

Lemma createEntry_heap_ok a name h :
  heap_ok h -> heap_ok (fst (createEntry a name h)).
Proof.
  intros H. unfold createEntry. destruct (h !! a) as [n|] eqn:Hn; [|done].
  destruct (existsb _ _) eqn:E; [done|]. cbn [fst].
  apply heap_ok_add_link; [| |done].
  - intros m t x. destruct t; cbn; try done.
    rewrite find_first_snoc. destruct (find_first _ (n_entry m)); [done|].
    cbn. by match goal with |- context [if ?c then _ else _] => destruct c end.
  - intros m t Hm Hm'. assert (m = n) as -> by congruence.
    destruct t; cbn in *; try done.
    rewrite map_app. apply NoDup_snoc; [done|]. by apply existsb_names.
Qed.

Lemma createExit_heap_ok a name h :
  heap_ok h -> heap_ok (fst (createExit a name h)).
Proof.
  intros H. unfold createExit. destruct (h !! a) as [n|] eqn:Hn; [|done].
  destruct (existsb _ _) eqn:E; [done|]. cbn [fst].
  apply heap_ok_add_link; [| |done].
  - intros m t x. destruct t; cbn; try done.
    rewrite find_first_snoc. destruct (find_first _ (n_exit m)); [done|].
    cbn. by match goal with |- context [if ?c then _ else _] => destruct c end.
  - intros m t Hm Hm'. assert (m = n) as -> by congruence.
    destruct t; cbn in *; try done.
    rewrite map_app. apply NoDup_snoc; [done|]. by apply existsb_names.
Qed.

Lemma createProperty_heap_ok a name type v h :
  heap_ok h -> heap_ok (fst (createProperty a name type v h)).
Proof.
  intros H. unfold createProperty. destruct (h !! a) as [n|] eqn:Hn; [|done].
  destruct (existsb _ _) eqn:E; [done|]. cbn [fst].
  apply heap_ok_add_link; [| |done].
  - intros m t x. destruct t; cbn; try done.
    all: rewrite find_first_snoc;
      destruct (find_first _ (n_properties m)); [done|];
      cbn; by match goal with |- context [if ?c then _ else _] => destruct c end.
  - intros m t Hm Hm'. assert (m = n) as -> by congruence.
    destruct t; cbn in *; try done.
    all: rewrite map_app; apply NoDup_snoc; [done|]; by apply existsb_names.
Qed.

Lemma createEntry_kinds a name h :
  same_kinds h (fst (createEntry a name h)).
Proof.
  unfold createEntry. destruct (h !! a); [|done].
  destruct (existsb _ _); [done|]. by apply same_kinds_alter.
Qed.

Lemma createExit_kinds a name h :
  same_kinds h (fst (createExit a name h)).
Proof.
  unfold createExit. destruct (h !! a); [|done].
  destruct (existsb _ _); [done|]. by apply same_kinds_alter.
Qed.

Lemma createProperty_kinds a name type v h :
  same_kinds h (fst (createProperty a name type v h)).
Proof.
  unfold createProperty. destruct (h !! a); [|done].
  destruct (existsb _ _); [done|]. by apply same_kinds_alter.
Qed.

(** * More fuel gives the same result *)

Lemma disconnect_loop_mono fuel : forall t A x tn tname i h h' fuel',
  disconnect_loop fuel t A x tn tname i h = Some h' -> fuel <= fuel' ->
  disconnect_loop fuel' t A x tn tname i h = Some h'.
Proof.
  induction fuel as [|fuel IH]; intros t A x tn tname i h h' fuel'; [done|].
  destruct fuel' as [|fuel']; [lia|]. intros H Hf.
  rewrite disconnect_loop_S in *.
  destruct (refs_of h t A x !! i) as [r|]; [|done].
  destruct (link_filter tn tname r); [|apply (IH _ _ _ _ _ _ _ _ _ H); lia].
  cbn zeta in *.
  destruct (refs_opt _ (opposite t) (r_node r) (r_name r)).
  - destruct (disconnect_loop fuel (opposite t) _ _ _ _ 0 _) as [h2|] eqn:E2;
      [|done].
    rewrite (IH _ _ _ _ _ _ _ _ fuel' E2) by lia.
    apply (IH _ _ _ _ _ _ _ _ _ H). lia.
  - apply (IH _ _ _ _ _ _ _ _ _ H). lia.
Qed.

Lemma disconnect_mono fuel fuel' t A x tn tname h res :
  disconnect fuel t A x tn tname h = Some res -> fuel <= fuel' ->
  disconnect fuel' t A x tn tname h = Some res.
Proof.
  unfold disconnect. destruct (refs_opt h t A x); [|done].
  destruct (disconnect_loop fuel _ _ _ _ _ _ _) as [h'|] eqn:E; [|done].
  intros [= <-] Hf. by rewrite (disconnect_loop_mono _ _ _ _ _ _ _ _ _ _ E Hf).
Qed.

Lemma remove_link_loop_mono fuel fuel' t A name steps : forall i h res,
  remove_link_loop fuel t A name steps i h = Some res -> fuel <= fuel' ->
  remove_link_loop fuel' t A name steps i h = Some res.
Proof.
  induction steps as [|steps IH]; intros i h res; [done|]. cbn.
  destruct (name_at h t A i) as [nm|]; [|done].
  destruct (String.eqb nm name); [|apply IH].
  destruct (disconnect fuel _ _ _ _ _ _) as [[h1 r]|] eqn:E; [|done].
  intros H Hf. rewrite (disconnect_mono _ _ _ _ _ _ _ _ _ E Hf).
  destruct (strict_eq _ _); [done|]. by apply IH.
Qed.

(** * Removing keeps the invariant *)

Lemma link_names_delete_at t A k h n t0 :
  t = ENTRY \/ t = EXIT -> h !! A = Some n ->
  exists n', delete_at t A k h !! A = Some n' /\
    kind_shape n' = kind_shape n /\
    link_names t0 n' = if decide (t0 = t) then delete k (link_names t0 n)
                       else link_names t0 n.
Proof.
  intros Ht Hn. unfold delete_at. rewrite list_lookup_alter_eq, Hn. cbn.
  eexists. split; [reflexivity|]. split; [by destruct Ht as [-> | ->]|].
  destruct Ht as [-> | ->]; destruct t0; cbn; try done.
  all: by rewrite <- list_fmap_delete.
Qed.

Lemma delete_at_kinds t A k h : same_kinds h (delete_at t A k h).
Proof. unfold delete_at. apply same_kinds_alter. by destruct t. Qed.

Lemma NoDup_delete {A} (l : list A) k : NoDup l -> NoDup (delete k l).
Proof. intros H. eapply sublist_NoDup; [done|apply sublist_delete]. Qed.

Lemma names_distinct_delete_at t A k h :
  t = ENTRY \/ t = EXIT -> names_distinct h ->
  names_distinct (delete_at t A k h).
Proof.
  intros Ht Hd b n' t0 Hb. destruct (decide (b = A)) as [->|Hne].
  - destruct (h !! A) as [n|] eqn:Hn.
    + destruct (link_names_delete_at t A k h n t0 Ht Hn) as (m & Hm & _ & E).
      assert (m = n') as -> by congruence. rewrite E.
      destruct (decide (t0 = t)); [apply NoDup_delete|]; by eapply Hd.
    + unfold delete_at in Hb. by rewrite list_lookup_alter_eq, Hn in Hb.
  - unfold delete_at in Hb. rewrite list_lookup_alter_ne in Hb by done.
    by eapply Hd.
Qed.

(** [removeEntry] and [removeExit], with any fuel that suffices. *)
Lemma remove_link_heap_ok fuel t A name h h' b :
  t = ENTRY \/ t = EXIT -> heap_ok h ->
  remove_link_loop fuel t A name (links_length h t A) 0 h = Some (h', b) ->
  heap_ok h' /\ same_kinds h h'.
Proof.
  intros Ht (Hs & Hu & Hd) Hrun.
  destruct (h !! A) as [n|] eqn:Hn.
  2: { unfold links_length in Hrun. rewrite Hn in Hrun. cbn in Hrun.
       by injection Hrun as <- _. }
  destruct (decide (name ∈ link_names t n)) as [Hin|Hout].
  - destruct (remove_link_build t A name h n Ht Hs Hu Hn (Hd _ _ _ Hn) Hin)
      as (fuel0 & h0 & Hrun0 & (h1 & k & SN & Hk & ->) & Hs' & Hu' & _).
    pose proof (remove_link_loop_mono _ (max fuel fuel0) _ _ _ _ _ _ _ Hrun
                  ltac:(lia)) as R1.
    rewrite Hrun0 in R1 by lia. injection R1 as <- _.
    split; [split; [done|split; [done|]]|].
    + apply names_distinct_delete_at; [done|].
      eapply names_distinct_same; [|exact Hd]. by apply same_nodes_same_names.
    + eapply same_kinds_trans; [by apply same_nodes_kinds|].
      apply delete_at_kinds.
  - rewrite (remove_link_loop_absent fuel t A name h n Hn) in Hrun.
    + by injection Hrun as <- _.
    + intros j _ Hj. apply Hout. by eapply list_elem_of_lookup_2.
Qed.

(** [removeEntry] and [removeExit] run to their end. *)
Lemma remove_link_runs t A name h :
  t = ENTRY \/ t = EXIT -> heap_ok h ->
  exists fuel h' b,
    forall fuel', fuel <= fuel' ->
      remove_link_loop fuel' t A name (links_length h t A) 0 h = Some (h', b).
Proof.
  intros Ht (Hs & Hu & Hd).
  destruct (h !! A) as [n|] eqn:Hn.
  2: { exists 0, h, false. intros fuel' _. unfold links_length.
       by rewrite Hn. }
  destruct (decide (name ∈ link_names t n)) as [Hin|Hout].
  - destruct (remove_link_build t A name h n Ht Hs Hu Hn (Hd _ _ _ Hn) Hin)
      as (fuel0 & h0 & Hrun0 & _).
    by exists fuel0, h0, true.
  - exists 0, h, false. intros fuel' _.
    apply (remove_link_loop_absent fuel' t A name h n Hn).
    intros j _ Hj. apply Hout. by eapply list_elem_of_lookup_2.
Qed.

(** [removeProperty]: the inputs and the outputs of the properties of
    that name are disconnected. *)
Lemma removeProperty_loop_runs A name steps : forall i h,
  heap_ok h ->
  exists fuel h' b,
    (forall fuel', fuel <= fuel' ->
       removeProperty_loop fuel' A name steps i h = Some (h', b)) /\
    heap_ok h' /\ same_kinds h h'.
Proof.
  induction steps as [|steps IH]; intros i h Hok.
  { exists 0, h, false. done. }
  destruct (name_at h INPUT A i) as [nm|] eqn:En.
  2: { exists 0, h, false. split; [|done]. intros fuel' _. cbn. by rewrite En. }
  destruct (String.eqb nm name) eqn:Enm.
  2: { destruct (IH (S i) h Hok) as (fuel & h' & b & Hrun & H').
       exists fuel, h', b. split; [|done]. intros fuel' Hf. cbn.
       rewrite En, Enm. by apply Hrun. }
  destruct Hok as (Hs & Hu & Hd).
  destruct (disconnect_invariant INPUT A name None None h Hs Hu)
    as (fuel1 & h1 & r1 & Hrun1 & Hs1 & Hu1).
  pose proof (disconnect_same_nodes _ _ _ _ _ _ _ _ _ (Hrun1 fuel1 ltac:(done)))
    as SN1.
  destruct (disconnect_invariant OUTPUT A name None None h1 Hs1 Hu1)
    as (fuel2 & h2 & r2 & Hrun2 & Hs2 & Hu2).
  pose proof (disconnect_same_nodes _ _ _ _ _ _ _ _ _ (Hrun2 fuel2 ltac:(done)))
    as SN2.
  assert (SN : same_nodes h h2) by (by eapply same_nodes_trans).
  assert (Hok2 : heap_ok h2).
  { split; [done|]. split; [done|].
    eapply names_distinct_same; [|exact Hd]. by apply same_nodes_same_names. }
  destruct (IH (S i) h2 Hok2) as (fuel3 & h' & b & Hrun3 & Hok' & K3).
  exists (max fuel1 (max fuel2 fuel3)), h', b. split; [|split; [done|]].
  - intros fuel' Hf. cbn. rewrite En, Enm.
    unfold disconnectInput, disconnectOutput.
    rewrite Hrun1 by lia. rewrite Hrun2 by lia.
    apply Hrun3. lia.
  - eapply same_kinds_trans; [by apply same_nodes_kinds|done].
Qed.

(** * Calls that keep the invariant of a script *)

Lemma well_formed_step w w' :
  symmetric (heap w') -> unique_refs (heap w') ->
  same_names (heap w) (heap w') -> same_kinds (heap w) (heap w') ->
  (forall k, partition_of k (play w') = partition_of k (play w)) ->
  well_formed w -> well_formed w'.
Proof.
  intros Hs Hu N K P ((_ & _ & Hd) & O & R & D).
  split; [|split; [by eapply owned_same|split; [by eapply registered_same|]]].
  - split; [done|]. split; [done|]. by eapply names_distinct_same.
  - by rewrite (all_nodes_partitions _ _ P).
Qed.

Lemma well_formed_heap w h :
  heap_ok h -> same_kinds (heap w) h ->
  well_formed w -> well_formed (with_heap (fun _ => h) w).
Proof.
  intros Hok K (_ & O & R & D).
  split; [done|]. split; [by eapply owned_same|].
  split; [|done]. by eapply (registered_same w).
Qed.

Lemma well_formed_alter f a w :
  keeps_links f -> (forall n t, link_names t (f n) = link_names t n) ->
  (forall n, kind_shape (f n) = kind_shape n) ->
  well_formed w -> well_formed (with_heap (alter f a) w).
Proof.
  intros L N K. apply well_formed_same; [| | |done].
  - apply same_links_graph. by apply same_links_alter.
  - by apply same_names_alter.
  - by apply same_kinds_alter.
Qed.

Lemma well_formed_play w w' :
  heap w' = heap w ->
  (forall k, partition_of k (play w') = partition_of k (play w)) ->
  well_formed w -> well_formed w'.
Proof.
  intros E P. apply well_formed_same; [| | |done]; by rewrite E.
Qed.

Lemma only_visual_well_formed w w' :
  only_visual w w' -> well_formed w -> well_formed w'.
Proof. intros V. by apply tick_frame_well_formed, only_visual_tick_frame. Qed.

(** [wcNode.property] *)
Lemma property_well_formed self name v fos w :
  well_formed w -> well_formed (fst (property self name v fos w)).
Proof. apply tick_frame_well_formed, property_tick_frame. Qed.

(** [wcNode.triggerEntry] and [wcNode.triggerExit] *)
Lemma triggerEntry_well_formed self name w :
  well_formed w -> well_formed (fst (triggerEntry self name w)).
Proof. apply only_visual_well_formed, triggerEntry_only_visual. Qed.

Lemma triggerExit_well_formed self name w :
  well_formed w -> well_formed (fst (triggerExit self name w)).
Proof. apply only_visual_well_formed, triggerExit_only_visual. Qed.

Lemma link_names_properties_first t P g n :
  (forall p, p_name (g p) = p_name p) ->
  link_names t (set_properties (update_first P g) n) = link_names t n.
Proof.
  intros H. destruct t; cbn; try done; by apply map_update_first.
Qed.

(** [wcNode.initialProperty] *)
Lemma initialProperty_well_formed self name v w :
  well_formed w -> well_formed (fst (initialProperty self name v w)).
Proof.
  intros Hw. unfold initialProperty.
  destruct (heap w !! self) as [n|]; [|done].
  destruct (find_first _ _) as [prop|]; [|done].
  destruct (strict_eq v VUndefined); [done|]. cbn [fst].
  apply well_formed_alter.
  - by apply keeps_links_properties_first.
  - intros n0 t. by apply link_names_properties_first.
  - done.
  - destruct (strict_eq _ _); [by apply property_well_formed|done].
Qed.

(** [wcNode.reset] *)
Lemma reset_well_formed id w : well_formed w -> well_formed (reset id w).
Proof.
  apply well_formed_same.
  - apply same_links_graph, reset_same_links.
  - rewrite reset_heap. apply same_names_alter.
    intros n []; cbn; try done; rewrite map_map; by apply map_ext.
  - rewrite reset_heap. by apply same_kinds_alter.
  - by rewrite reset_play.
Qed.

Lemma foldl_well_formed {A} (f : World -> A -> World) l :
  (forall w a, well_formed w -> well_formed (f w a)) ->
  forall w, well_formed w -> well_formed (foldl f w l).
Proof.
  intros Hf. induction l as [|a l IH]; intros w Hw; cbn; [done|].
  by apply IH, Hf.
Qed.

Section TickInvariant.
Variable operate : string -> Value -> Value -> Value.

(** [wcPlay.update] *)
Lemma update_well_formed w :
  well_formed w ->
  exists w' evs, update operate w = Some (w', evs) /\ well_formed w'.
Proof.
  intros Hw. destruct (update_spec operate w) as (w' & ps & cs & E & _).
  exists w', (map PropertyUpdated ps ++ cs). split; [done|].
  eapply tick_frame_well_formed; [|done]. by eapply update_tick_frame.
Qed.

(** [wcPlay.start] *)
Lemma start_well_formed w : well_formed w -> well_formed (start w).
Proof.
  intros Hw. unfold start.
  apply (only_visual_well_formed _ _ (notify_onStart_only_visual _)).
  unfold start_run. cbn.
  eapply well_formed_play; [reflexivity|by intros []|].
  unfold start_reset.
  apply foldl_well_formed; [intros; by apply reset_well_formed|].
  eapply well_formed_play; [| |exact Hw]; [done|by intros []].
Qed.

End TickInvariant.

(** * Connecting and disconnecting keep the invariant *)

Lemma tick_frame_names w w' :
  tick_frame w w' -> same_names (heap w) (heap w').
Proof.
  intros (E & _). apply (same_names_via frame_node link_names); [|done].
  intros. apply link_names_frame.
Qed.

Lemma tick_frame_kinds w w' :
  tick_frame w w' -> same_kinds (heap w) (heap w').
Proof.
  intros (E & _). by apply (same_kinds_via frame_node kind_shape); [intros []|].
Qed.

Lemma onConnect_tick_frame self c name t targetNode targetName w :
  tick_frame w (onConnect self c name t targetNode targetName w).
Proof.
  apply only_visual_tick_frame. unfold onConnect.
  destruct c; [|apply only_visual_refl].
  destruct t; try apply only_visual_refl.
  destruct (heap w !! self); [|apply only_visual_refl].
  apply triggerProperty_only_visual.
Qed.

Lemma connect_well_formed t a x b y w :
  well_formed w -> well_formed (fst (connect t a x b y w)).
Proof.
  intros Hw. pose proof Hw as ((Hs & Hu & Hd) & _).
  destruct (connect_invariant t a x b y w (conj Hs Hu)) as [Hs' Hu'].
  revert Hs' Hu'. unfold connect.
  destruct (heap w !! b); [|done].
  destruct (refs_opt (heap w) t a x) as [mine|]; [|done].
  destruct (refs_opt (heap w) (opposite t) b y) as [theirs|]; [|done].
  destruct (has_ref b y mine); [done|].
  destruct (has_ref a x theirs); [done|]. cbn [fst]. intros Hs' Hu'.
  set (w2 := with_heap _ (with_heap _ w)) in *.
  set (w3 := onConnect a true x t b y w2) in *.
  pose proof (onConnect_tick_frame a true x t b y w2) as F3. fold w3 in F3.
  pose proof (onConnect_tick_frame b true y (opposite t) a x w3) as F4.
  pose proof (tick_frame_trans _ _ _ F3 F4) as F.
  assert (SN : same_nodes (heap w) (heap w2)).
  { unfold w2. cbn. eapply same_nodes_trans; apply same_nodes_set_refs. }
  apply (well_formed_step w); [done|done| | | |done].
  - eapply same_names_trans; [by apply same_nodes_same_names|].
    by apply tick_frame_names.
  - eapply same_kinds_trans; [by apply same_nodes_kinds|].
    by apply tick_frame_kinds.
  - intros k. destruct F as (_ & E & _).
    by rewrite (erase_play_partitions _ _ E k).
Qed.

Lemma disconnect_well_formed t a x tn tname w :
  well_formed w ->
  exists fuel h' r,
    (forall fuel', fuel <= fuel' ->
       disconnect fuel' t a x tn tname (heap w) = Some (h', r)) /\
    well_formed (with_heap (fun _ => h') w).
Proof.
  intros Hw. pose proof Hw as ((Hs & Hu & Hd) & _).
  destruct (disconnect_invariant t a x tn tname (heap w) Hs Hu)
    as (fuel & h' & r & Hrun & Hs' & Hu').
  pose proof (disconnect_same_nodes _ _ _ _ _ _ _ _ _ (Hrun fuel ltac:(done)))
    as SN.
  exists fuel, h', r. split; [done|].
  apply (well_formed_step w); [done|done| | |done|done].
  - by apply same_nodes_same_names.
  - by apply same_nodes_kinds.
Qed.

(** * Removing links and properties *)

Lemma remove_link_well_formed t a name w :
  t = ENTRY \/ t = EXIT -> well_formed w ->
  exists fuel h' b,
    (forall fuel', fuel <= fuel' ->
       remove_link fuel' t a name (heap w) = Some (h', b)) /\
    well_formed (with_heap (fun _ => h') w).
Proof.
  intros Ht Hw. pose proof Hw as (Hok & _).
  destruct (remove_link_runs t a name (heap w) Ht Hok)
    as (fuel & h' & b & Hrun).
  destruct (remove_link_heap_ok fuel t a name (heap w) h' b Ht Hok
              (Hrun fuel ltac:(done))) as [Hok' K].
  exists fuel, h', b. split.
  - intros fuel' Hf. unfold remove_link, removeEntry, removeExit.
    destruct Ht as [-> | ->]; by apply Hrun.
  - by apply well_formed_heap.
Qed.

Lemma removeProperty_well_formed a name w :
  well_formed w ->
  exists fuel h' b,
    (forall fuel', fuel <= fuel' ->
       removeProperty fuel' a name (heap w) = Some (h', b)) /\
    well_formed (with_heap (fun _ => h') w).
Proof.
  intros Hw. pose proof Hw as (Hok & _).
  destruct (removeProperty_loop_runs a name (links_length (heap w) INPUT a) 0
              (heap w) Hok) as (fuel & h' & b & Hrun & Hok' & K).
  exists fuel, h', b. split; [done|]. by apply well_formed_heap.
Qed.

(** * Destroying *)

Lemma link_names_reset_node t n : link_names t (reset_node n) = link_names t n.
Proof. destruct t; cbn; try done; rewrite map_map; by apply map_ext. Qed.

Lemma destroyed_lookup l w w' a :
  destroyed l w w' ->
  (forall t, link_names t <$> heap w' !! a = link_names t <$> heap w !! a) /\
  kind_shape <$> heap w' !! a = kind_shape <$> heap w !! a.
Proof.
  intros (_ & _ & Len & _ & _ & Oth & Mem & _).
  destruct (decide (a ∈ l)) as [Hin|Hout].
  - destruct (heap w !! a) as [n|] eqn:Hn.
    + pose proof (Mem a n Hin Hn) as E.
      destruct (heap w' !! a) as [n'|]; [|done]. cbn -[strip_node] in E.
      assert (E' : strip_node n' = strip_node (reset_node n)) by congruence.
      split.
      * intros t. cbn. f_equal.
        by rewrite (strip_names t _ _ E'), link_names_reset_node.
      * cbn. f_equal. destruct (strip_fields _ _ E') as (Ec & Ep & _).
        unfold kind_shape. by rewrite Ec, Ep.
    + apply lookup_ge_None in Hn. rewrite <- Len in Hn.
      apply lookup_ge_None in Hn. by rewrite Hn.
  - pose proof (Oth a Hout) as E.
    destruct (heap w' !! a) as [n'|], (heap w !! a) as [n|];
      cbn -[strip_node] in E; try done.
    assert (E' : strip_node n' = strip_node n) by congruence. split.
    + intros t. cbn. f_equal. by apply strip_names.
    + cbn. f_equal. destruct (strip_fields _ _ E') as (Ec & Ep & _).
      unfold kind_shape. by rewrite Ec, Ep.
Qed.

Lemma destroyed_names l w w' :
  destroyed l w w' -> same_names (heap w) (heap w').
Proof. intros D a t. by apply (destroyed_lookup l w w' a D). Qed.

Lemma destroyed_kinds l w w' :
  destroyed l w w' -> same_kinds (heap w) (heap w').
Proof.
  intros D. unfold same_kinds. apply list_eq. intros a.
  change (map kind_shape ?h) with (kind_shape <$> h).
  rewrite !list_lookup_fmap. by apply (destroyed_lookup l w w' a D).
Qed.

Lemma all_nodes_set_sublist k l p :
  l `sublist_of` partition_of k p ->
  all_nodes (set_partition k l p) `sublist_of` all_nodes p.
Proof.
  intros H. unfold all_nodes. destruct k; cbn in *;
    repeat (apply sublist_app; [try done|try done]).
Qed.

Lemma destroyed_well_formed l w w' :
  destroyed l w w' ->
  (forall k a, a ∈ partition_of k (play w') -> a ∈ partition_of k (play w)) ->
  NoDup (all_nodes (play w')) ->
  well_formed w -> well_formed w'.
Proof.
  intros D Sub ND ((_ & _ & Hd) & O & R & _).
  pose proof D as (Hs & Hu & _).
  split; [split; [done|split; [done|]]|].
  { eapply names_distinct_same; [|exact Hd]. by eapply destroyed_names. }
  split; [eapply owned_same; [by eapply destroyed_kinds|done]|].
  split; [by eapply registered_destroyed|done].
Qed.

Lemma splice_indexOf_sublist node l : splice_indexOf node l `sublist_of` l.
Proof. unfold splice_indexOf. destruct (index_of node l); apply sublist_delete. Qed.

(** [wcNode.destroy] *)
Lemma destroy_well_formed A w :
  well_formed w ->
  exists fuel w',
    (forall fuel', fuel <= fuel' -> destroy fuel' A w = Some w') /\
    well_formed w'.
Proof.
  intros Hw. pose proof Hw as ((Hs & Hu & Hd) & O & R & ND).
  destruct (heap w !! A) as [n|] eqn:Hn.
  - destruct (O A n Hn) as [Hk Hp].
    destruct (kind_of (n_class n)) as [k|] eqn:Ek; [|done].
    destruct (destroy_destroyed A w n k Hs Hu Hn Ek Hp)
      as (fuel & w' & Hrun & Hpl & D).
    exists fuel, w'. split; [done|].
    apply (destroyed_well_formed [A] w w' D); [| |done].
    + intros k' a. rewrite Hpl. apply partition_of_set_elem.
      intros b. apply splice_indexOf_elem.
    + rewrite Hpl. eapply sublist_NoDup; [exact ND|].
      apply all_nodes_set_sublist, splice_indexOf_sublist.
  - exists 1, w. split; [|done]. intros [|fuel'] Hf; [lia|].
    unfold destroy. cbn [destroy_links destroy_properties].
    unfold name_at. rewrite Hn. cbn. rewrite Hn. cbn. rewrite Hn. cbn.
    unfold reset, with_heap. cbn. rewrite Hn. cbn. rewrite Hn. by destruct w.
Qed.

(** [wcPlay.clear] *)
Lemma clear_well_formed w :
  well_formed w ->
  exists fuel w',
    (forall fuel', fuel <= fuel' -> clear fuel' w = Some w') /\
    well_formed w'.
Proof.
  intros Hw. pose proof Hw as ((Hs & Hu & Hd) & O & R & ND).
  destruct (clear_spec w Hs Hu R) as (fuel & w' & Hrun & Hpl & D).
  exists fuel, w'. split; [done|].
  apply (destroyed_well_formed _ w w' D); [| |done].
  - intros k a. rewrite Hpl. destruct k; cbn; by intros ?%elem_of_nil.
  - rewrite Hpl. cbn. constructor.
Qed.

(** * A new node *)

Lemma keeps_ok_refl h : keeps_ok h h.
Proof. done. Qed.

Lemma keeps_ok_trans h1 h2 h3 :
  keeps_ok h1 h2 -> keeps_ok h2 h3 -> keeps_ok h1 h3.
Proof.
  intros A1 A2 H1. destruct (A1 H1) as [H2 K1]. destruct (A2 H2) as [H3 K2].
  split; [done|by eapply same_kinds_trans].
Qed.

Lemma createEntry_keeps_ok a name h : keeps_ok h (fst (createEntry a name h)).
Proof. split; [by apply createEntry_heap_ok|apply createEntry_kinds]. Qed.

Lemma createExit_keeps_ok a name h : keeps_ok h (fst (createExit a name h)).
Proof. split; [by apply createExit_heap_ok|apply createExit_kinds]. Qed.

Lemma createProperty_keeps_ok a name type v h :
  keeps_ok h (fst (createProperty a name type v h)).
Proof.
  split; [by apply createProperty_heap_ok|apply createProperty_kinds].
Qed.

Lemma removeEntry_keeps_ok fuel a name h :
  keeps_ok h match removeEntry fuel a name h with
             | Some (h', _) => h'
             | None => h
             end.
Proof.
  intros Hok. destruct (removeEntry fuel a name h) as [[h' b]|] eqn:E; [|done].
  eapply (remove_link_heap_ok fuel ENTRY); [by left|done|exact E].
Qed.

Lemma init_class_keeps_ok c self h : keeps_ok h (init_class c self h).
Proof.
  destruct c; cbn -[removeEntry createEntry createExit createProperty];
    repeat first
      [ apply keeps_ok_refl
      | eapply keeps_ok_trans; [|apply createEntry_keeps_ok]
      | eapply keeps_ok_trans; [|apply createExit_keeps_ok]
      | eapply keeps_ok_trans; [|apply createProperty_keeps_ok]
      | eapply keeps_ok_trans; [|apply removeEntry_keeps_ok] ].
Qed.

Lemma refs_opt_snoc h n0 t a x :
  (forall t x, node_refs t n0 x = None) ->
  refs_opt (h ++ [n0]) t a x = refs_opt h t a x.
Proof.
  intros H0. unfold refs_opt.
  destruct (decide (a < length h)) as [Hlt|Hge].
  - by rewrite lookup_app_l.
  - rewrite (proj2 (lookup_ge_None h a)) by lia.
    destruct ((h ++ [n0]) !! a) as [n|] eqn:E; [|done].
    rewrite lookup_app_r in E by lia.
    destruct (a - length h); [|done]. injection E as <-. apply H0.
Qed.

Lemma heap_ok_snoc h n0 :
  (forall t x, node_refs t n0 x = None) ->
  (forall t, link_names t n0 = []) ->
  heap_ok h -> heap_ok (h ++ [n0]).
Proof.
  intros H0 N0 (Hs & Hu & Hd).
  assert (G : same_graph h (h ++ [n0])).
  { intros t a x. unfold refs_of. by rewrite refs_opt_snoc. }
  destruct (same_graph_invariant _ _ G (conj Hs Hu)) as [Hs' Hu'].
  split; [done|]. split; [done|]. intros a n t Hn.
  destruct (decide (a < length h)) as [Hlt|Hge].
  - rewrite lookup_app_l in Hn by done. by eapply Hd.
  - rewrite lookup_app_r in Hn by lia.
    destruct (a - length h); [|done]. injection Hn as <-. rewrite N0.
    constructor.
Qed.

Lemma partition_addNode a k self c p :
  a ∈ partition_of k (addNode self c p) ->
  a ∈ partition_of k p \/ (a = self /\ kind_of c = Some k).
Proof.
  unfold addNode. destruct (kind_of c) as [[]|] eqn:Ek, k; cbn;
    rewrite ?elem_of_app, ?list_elem_of_singleton; tauto.
Qed.

Lemma all_nodes_addNode self c p k :
  kind_of c = Some k -> k <> KComposite ->
  all_nodes (addNode self c p) ≡ₚ self :: all_nodes p.
Proof.
  intros Ek Hk. unfold addNode, all_nodes. rewrite Ek.
  destruct k; cbn; [| |done|].
  all: rewrite <- ?app_assoc; cbn; rewrite <- !Permutation_middle.
  all: by rewrite ?app_nil_r.
Qed.

Lemma kind_of_not_composite c : kind_of c <> Some KComposite.
Proof. by destruct c. Qed.

Lemma registered_fresh w a :
  registered w -> a ∈ all_nodes (play w) -> a < length (heap w).
Proof.
  intros R Ha. unfold all_nodes in Ha. rewrite !elem_of_app in Ha.
  assert (exists k, a ∈ partition_of k (play w)) as [k Hk].
  { destruct Ha as [?|[?|[?|?]]];
      [by exists KStorage|by exists KProcess|by exists KComposite
      |by exists KEntry]. }
  destruct (R k a Hk) as (n & Hn & _). by eapply lookup_lt_Some.
Qed.

(** [new c(engine)] *)
Lemma new_node_well_formed c w :
  kind_of c <> None -> well_formed w -> well_formed (fst (new_node c w)).
Proof.
  intros Hc (Hok & O & R & ND). unfold new_node. cbn [fst].
  set (self := length (heap w)).
  set (n0 := mkNode c [] [] [] (mkNodeMeta false false false []) false true).
  set (h1 := heap w ++ [n0]).
  set (h3 := init_class c self _).
  assert (Hok1 : heap_ok h1).
  { apply heap_ok_snoc; [by intros []|by intros []|done]. }
  assert (K : keeps_ok h1 h3).
  { unfold h3. eapply keeps_ok_trans; [|apply init_class_keeps_ok].
    eapply keeps_ok_trans; apply createProperty_keeps_ok. }
  destruct (K Hok1) as [Hok3 K3].
  assert (L : forall a n, h1 !! a = Some n ->
            exists n', h3 !! a = Some n' /\ kind_shape n' = kind_shape n).
  { intros a n Hn. pose proof (same_kinds_lookup _ _ a K3) as E.
    rewrite Hn in E. destruct (h3 !! a) as [n'|]; [|done].
    exists n'. split; [done|]. cbn in E. congruence. }
  assert (O1 : owned h1).
  { intros a n Hn. destruct (decide (a < length (heap w))) as [Hlt|Hge].
    - unfold h1 in Hn. rewrite lookup_app_l in Hn by done. by eapply O.
    - unfold h1 in Hn. rewrite lookup_app_r in Hn by lia.
      destruct (a - length (heap w)); [|done]. by injection Hn as <-. }
  split; [done|]. split; [by eapply owned_same|]. split.
  - intros k a Ha. cbn in Ha. apply partition_addNode in Ha.
    destruct Ha as [Ha|[-> Ek]].
    + destruct (R k a Ha) as (n & Hn & Hk & Hp).
      destruct (L a n) as (n' & Hn' & E).
      { unfold h1. rewrite lookup_app_l; [done|]. by eapply lookup_lt_Some. }
      exists n'. split; [done|]. injection E as Ec Ep. by rewrite Ec, Ep.
    + destruct (L self n0) as (n' & Hn' & E).
      { unfold h1, self. by rewrite list_lookup_middle. }
      exists n'. split; [done|]. injection E as Ec Ep. by rewrite Ec, Ep.
  - cbn. destruct (kind_of c) as [k|] eqn:Ek; [|done].
    rewrite (all_nodes_addNode self c _ k Ek).
    + constructor; [|done]. intros Hin.
      pose proof (registered_fresh w self R Hin). unfold self in *. lia.
    + intros ->. by apply (kind_of_not_composite c).
Qed.

Lemma new_play_well_formed o : well_formed (new_play o).
Proof.
  split; [split; [|split]|split; [|split]].
  - intros t a x r Hr. by apply elem_of_nil in Hr.
  - intros t a x. constructor.
  - by intros a n t Hn.
  - by intros a n Hn.
  - intros k a Ha. destruct k; by apply elem_of_nil in Ha.
  - constructor.
Qed.

(** * Every call keeps the invariant *)

Section CallFacts.
Variable operate : string -> Value -> Value -> Value.

Lemma run_call_well_formed c w :
  valid_call c -> well_formed w ->
  exists fuel w',
    (forall fuel', fuel <= fuel' -> run_call operate fuel' c w = Some w') /\
    well_formed w'.
Proof.
  intros Hv Hw. destruct c as [c|a x|a x|a x ty v|a x|a x|a x|op|a x v fos
    |a x v|a x|a x| | |a|]; cbn [run_call on_heap].
  - exists 0, (fst (new_node c w)). split; [done|].
    by apply new_node_well_formed.
  - exists 0, (with_heap (fun _ => fst (createEntry a x (heap w))) w).
    split; [by destruct (createEntry a x (heap w))|].
    destruct (createEntry_keeps_ok a x (heap w) (proj1 Hw)) as [H1 K1].
    by apply well_formed_heap.
  - exists 0, (with_heap (fun _ => fst (createExit a x (heap w))) w).
    split; [by destruct (createExit a x (heap w))|].
    destruct (createExit_keeps_ok a x (heap w) (proj1 Hw)) as [H1 K1].
    by apply well_formed_heap.
  - exists 0, (with_heap (fun _ => fst (createProperty a x ty v (heap w))) w).
    split; [by destruct (createProperty a x ty v (heap w))|].
    destruct (createProperty_keeps_ok a x ty v (heap w) (proj1 Hw)) as [H1 K1].
    by apply well_formed_heap.
  - destruct (remove_link_well_formed ENTRY a x w ltac:(by left) Hw)
      as (fuel & h' & b & Hrun & Hw').
    exists fuel, (with_heap (fun _ => h') w). split; [|done].
    intros fuel' Hf. pose proof (Hrun fuel' Hf) as E.
    change (removeEntry fuel' a x (heap w) = Some (h', b)) in E.
    by rewrite E.
  - destruct (remove_link_well_formed EXIT a x w ltac:(by right) Hw)
      as (fuel & h' & b & Hrun & Hw').
    exists fuel, (with_heap (fun _ => h') w). split; [|done].
    intros fuel' Hf. pose proof (Hrun fuel' Hf) as E.
    change (removeExit fuel' a x (heap w) = Some (h', b)) in E.
    by rewrite E.
  - destruct (removeProperty_well_formed a x w Hw)
      as (fuel & h' & b & Hrun & Hw').
    exists fuel, (with_heap (fun _ => h') w). split; [|done].
    intros fuel' Hf. by rewrite (Hrun fuel' Hf).
  - destruct op as [t a x b y|t a x tn tname]; cbn [run_op].
    + exists 0, (fst (connect t a x b y w)). split; [done|].
      by apply connect_well_formed.
    + destruct (disconnect_well_formed t a x tn tname w Hw)
        as (fuel & h' & r & Hrun & Hw').
      exists fuel, (with_heap (fun _ => h') w). split; [|done].
      intros fuel' Hf. by rewrite (Hrun fuel' Hf).
  - eexists 0, _. split; [done|]. by apply property_well_formed.
  - eexists 0, _. split; [done|]. by apply initialProperty_well_formed.
  - eexists 0, _. split; [done|]. by apply triggerEntry_well_formed.
  - eexists 0, _. split; [done|]. by apply triggerExit_well_formed.
  - eexists 0, _. split; [done|]. by apply start_well_formed.
  - destruct (update_well_formed operate w Hw) as (w' & evs & E & Hw').
    exists 0, w'. split; [|done]. intros fuel' _. by rewrite E.
  - by apply destroy_well_formed.
  - by apply clear_well_formed.
Qed.

Lemma run_calls_well_formed cs : forall w,
  Forall valid_call cs -> well_formed w ->
  exists fuel w',
    (forall fuel', fuel <= fuel' -> run_calls operate fuel' cs w = Some w') /\
    well_formed w'.
Proof.
  induction cs as [|c cs IH]; intros w Hv Hw.
  { by exists 0, w. }
  apply Forall_cons in Hv as [Hc Hcs].
  destruct (run_call_well_formed c w Hc Hw) as (f1 & w1 & Hrun1 & Hw1).
  destruct (IH w1 Hcs Hw1) as (f2 & w2 & Hrun2 & Hw2).
  exists (max f1 f2), w2. split; [|done].
  intros fuel' Hf. cbn. rewrite Hrun1 by lia. apply Hrun2. lia.
Qed.

End CallFacts.

Section Scripts.
Variable operate : string -> Value -> Value -> Value.

(** X14. Whatever sequence of calls builds and runs a script, each call
    returns and the script stays well formed: links are symmetric, no
    array of references holds a pairing twice, the links of one side of a
    node have distinct names, every node belongs to the engine, and the
    arrays of the engine hold nodes of their kind, none of them twice.
    The calls are [new] of a class that the engine knows, [createEntry],
    [createExit], [createProperty], [removeEntry], [removeExit],
    [removeProperty], the connects and disconnects, [property],
    [initialProperty], [triggerEntry], [triggerExit], [start], [update],
    [destroy] and [clear]. *)
Theorem calls_keep_script_well_formed (cs : list Call) (w : World) :
  well_formed w -> Forall valid_call cs ->
  exists fuel w',
    (forall fuel', fuel <= fuel' -> run_calls operate fuel' cs w = Some w') /\
    well_formed w'.
Proof. intros Hw Hv. by apply run_calls_well_formed. Qed.

End Scripts.

Lemma calls_keep_script_well_formed_witness :
  well_formed (new_play (demo_options 8)) /\
  Forall valid_call demo_calls /\
  exists fuel w',
    (forall fuel', fuel <= fuel' ->
       run_calls operate_int fuel' demo_calls (new_play (demo_options 8))
       = Some w') /\
    well_formed w'.
Proof.
  assert (Hw : well_formed (new_play (demo_options 8)))
    by apply new_play_well_formed.
  assert (Hv : Forall valid_call demo_calls)
    by (repeat constructor; done).
  split; [exact Hw|]. split; [exact Hv|].
  exact (calls_keep_script_well_formed operate_int demo_calls _ Hw Hv).
Defined.

(** * The handlers of the Operation and of the Delay node *)

(** On these inputs [operate_int] is the arithmetic of the handler. *)
Lemma operate_int_exact name x y z :
  exact_outcome name x y = Some z ->
  is_operation name = true /\ operate_int name (VNum x) (VNum y) = VNum z.
Proof.
  unfold exact_outcome, is_operation, operate_int.
  destruct (String.eqb name "add"), (String.eqb name "sub"),
    (String.eqb name "mul"), (String.eqb name "div"); cbn [orb]; try done.
  all: try (destruct (safe_integer x && safe_integer y && safe_integer _);
            [by intros [= <-]|done]).
  destruct (negb (Z.eqb y 0) && Z.eqb (Z.modulo x y) 0); [|done].
  destruct (safe_integer x && safe_integer y && safe_integer _);
    [by intros [= <-]|done].
Qed.

Lemma triggerExit_queues self name w :
  queuedChain (play (fst (triggerExit self name w)))
    = queuedChain (play w) ++ exit_items w self name /\
  queuedProperties (play (fst (triggerExit self name w)))
    = queuedProperties (play w).
Proof.
  unfold exit_items, refs_of.
  destruct (refs_opt (heap w) EXIT self name) as [links|] eqn:E.
  - destruct (triggerExit_spec self name w links E) as (_ & H1 & H2).
    by rewrite H1, H2.
  - assert (T : triggerExit self name w = (w, false)).
    { revert E. unfold refs_opt, triggerExit.
      destruct (heap w !! self) as [n|]; [|done].
      cbn [node_refs]. by destruct (find_first _ _). }
    rewrite T. cbn. by rewrite app_nil_r.
Qed.

Lemma node_takes_entry_frame n x :
  node_takes_entry n x
  = match find_first (link_named x) (n_entry (frame_node n)) with
    | Some _ => n_parent (frame_node n) && truthy (node_property n "enabled")
    | None => false
    end.
Proof.
  unfold node_takes_entry, enabled. cbn.
  rewrite find_first_map by done. by destruct (find_first _ _).
Qed.

(** The tests of the queues look at the links, at the engine and at
    [enabled] only. *)
Lemma takes_entry_frame w w' r :
  tick_frame w w' ->
  (forall a, value_of w' a "enabled" = value_of w a "enabled") ->
  takes_entry w' r = takes_entry w r.
Proof.
  intros (E & _) V. apply (frame_lookup _ _ (r_node r)) in E.
  specialize (V (r_node r)). unfold value_of in V. unfold takes_entry.
  destruct (heap w' !! r_node r) as [n'|], (heap w !! r_node r) as [n|];
    cbn -[frame_node] in E; try done.
  assert (E' : frame_node n' = frame_node n) by congruence.
  by rewrite !node_takes_entry_frame, E', V.
Qed.

Lemma takes_property_frame w w' r :
  tick_frame w w' ->
  (forall a, value_of w' a "enabled" = value_of w a "enabled") ->
  takes_property w' r = takes_property w r.
Proof.
  intros (E & _) V. apply (frame_lookup _ _ (r_node r)) in E.
  specialize (V (r_node r)). unfold value_of in V. unfold takes_property.
  destruct (heap w' !! r_node r) as [n'|], (heap w !! r_node r) as [n|];
    cbn -[frame_node] in E; try done.
  assert (E' : frame_node n' = frame_node n) by congruence.
  unfold node_takes_property, enabled. rewrite V. f_equal.
  change (n_parent n') with (n_parent (frame_node n')). by rewrite E'.
Qed.

Lemma exit_items_frame w w' self name :
  tick_frame w w' ->
  (forall a, value_of w' a "enabled" = value_of w a "enabled") ->
  exit_items w' self name = exit_items w self name.
Proof.
  intros F V. unfold exit_items, refs_of. rewrite (tick_frame_refs w w') by done.
  f_equal. apply filter_ext. intros r. by apply takes_entry_frame.
Qed.

Section Handlers.
Variable operate : string -> Value -> Value -> Value.

(** [wcNodeProcessOperation.onTriggered] *)
Lemma operation_spec self name w n p :
  heap w !! self = Some n -> n_class n = wcNodeProcessOperation ->
  find_first (prop_named "result") (n_properties n) = Some p ->
  let r :=
    if is_operation name
    then operate name (node_property n "valueA") (node_property n "valueB")
    else VUndefined in
  let w' := onTriggered operate self name w in
  value_of w' self "result" = (if strict_eq r VUndefined then p_value p else r) /\
  (forall a x, (a, x) <> (self, "result") -> value_of w' a x = value_of w a x) /\
  queuedProperties (play w')
    = queuedProperties (play w)
      ++ (if strict_eq r VUndefined || strict_eq (p_value p) r then []
          else map (property_item r)
                 (List.filter (takes_property w) (p_outputs p))) /\
  queuedChain (play w') = queuedChain (play w) ++ exit_items w self "out".
Proof.
  intros Hn Hc Hp r w'. unfold w', onTriggered. rewrite Hn, Hc. fold r.
  set (w1 := fst (property self "result" r None w)).
  pose proof (property_tick_frame self "result" r None w) as F. fold w1 in F.
  pose proof (triggerExit_only_visual self "out" w1) as V.
  destruct (triggerExit_queues self "out" w1) as [Q1 Q2].
  assert (S1 :
    value_of w1 self "result" = (if strict_eq r VUndefined then p_value p else r) /\
    (forall a x, (a, x) <> (self, "result") -> value_of w1 a x = value_of w a x) /\
    queuedProperties (play w1)
      = queuedProperties (play w)
        ++ (if strict_eq r VUndefined || strict_eq (p_value p) r then []
            else map (property_item r)
                   (List.filter (takes_property w1) (p_outputs p))) /\
    queuedChain (play w1) = queuedChain (play w)).
  { destruct (strict_eq r VUndefined) eqn:Er.
    - assert (E1 : w1 = w).
      { unfold w1, property. by rewrite Hn, Hp, Er. }
      rewrite E1. cbn. rewrite app_nil_r.
      split; [|done]. unfold value_of, node_property. by rewrite Hn, Hp.
    - assert (Hr : r <> VUndefined).
      { intros E. apply (proj2 (strict_eq_true r VUndefined)) in E.
        congruence. }
      destruct (property_set_spec self "result" r None w n p Hn Hp Hr)
        as (_ & P1 & P2 & P3 & P4).
      fold w1 in P1, P2, P3, P4. split; [done|]. split; [done|].
      split; [|done]. rewrite P4. cbn. by destruct (strict_eq (p_value p) r). }
  destruct S1 as (S1 & S2 & S3 & S4).
  assert (En : forall a, value_of w1 a "enabled" = value_of w a "enabled").
  { intros a. apply S2. intros [= _ ?]. }
  split; [by rewrite (value_of_only_visual _ _ _ _ V)|].
  split; [intros a x Hne; rewrite (value_of_only_visual _ _ _ _ V); by apply S2|].
  split.
  - rewrite Q2, S3. f_equal.
    destruct (strict_eq r VUndefined || strict_eq (p_value p) r); [done|].
    f_equal. apply filter_ext. intros q. by apply takes_property_frame.
  - rewrite Q1, S4. f_equal. by apply exit_items_frame.
Qed.

Lemma threads_of_only_visual w w' a :
  only_visual w w' ->
  threads_of w' a = threads_of w a /\ awake_of w' a = awake_of w a.
Proof.
  intros V. unfold threads_of, awake_of.
  pose proof (only_visual_node (fun n => (nm_threads (n_meta n), nm_awake (n_meta n)))
                w w' a ltac:(done) V) as E.
  destruct (heap w' !! a) as [n'|], (heap w !! a) as [n|]; cbn in E; try done.
  by injection E as -> ->.
Qed.

Lemma remove_thread_fresh id l :
  id ∉ l -> remove_thread id (l ++ [id]) = l.
Proof.
  assert (R : thread_eqb id id = true).
  { destruct id; cbn; apply Nat.eqb_refl. }
  induction l as [|x l IH]; intros Hid; cbn.
  - by rewrite R.
  - destruct (thread_eqb x id) eqn:E.
    + exfalso. apply Hid.
      assert (x = id) as ->; [|by left].
      destruct x, id; cbn in E; try done; by apply Nat.eqb_eq in E as ->.
    + rewrite IH; [done|]. intros H. apply Hid. by right.
Qed.

Lemma existsb_thread_snoc id l :
  existsb (fun x => thread_eqb x id) (l ++ [id]) = true.
Proof.
  rewrite existsb_app. cbn.
  assert (R : thread_eqb id id = true).
  { destruct id; cbn; apply Nat.eqb_refl. }
  rewrite R. by destruct (existsb _ l).
Qed.

Lemma clearTimeout_fresh id hs :
  id ∉ timers hs ->
  clearTimeout id (mkHost (timers hs ++ [id]) (S (nextTimer hs)))
  = mkHost (timers hs) (S (nextTimer hs)).
Proof.
  intros Hid. unfold clearTimeout. cbn. f_equal.
  rewrite List.filter_app. cbn. rewrite Nat.eqb_refl. cbn.
  rewrite app_nil_r. induction (timers hs) as [|t l IH]; cbn; [done|].
  destruct (Nat.eqb t id) eqn:E.
  - apply Nat.eqb_eq in E as ->. exfalso. apply Hid. by left.
  - cbn. f_equal. apply IH. intros H. apply Hid. by right.
Qed.

(** [wcNodeProcessDelay.onTriggered] *)
Lemma delay_triggered_spec self name w n :
  heap w !! self = Some n -> n_class n = wcNodeProcessDelay ->
  let id := nextTimer (host w) in
  let w' := onTriggered operate self name w in
  threads_of w' self = threads_of w self ++ [ThreadNumber id] /\
  awake_of w' self = true /\
  (forall a, a <> self ->
     threads_of w' a = threads_of w a /\ awake_of w' a = awake_of w a) /\
  host w' = mkHost (timers (host w) ++ [id]) (S id) /\
  queuedChain (play w') = queuedChain (play w) ++ exit_items w self "out" /\
  queuedProperties (play w') = queuedProperties (play w) /\
  tick_frame w w' /\
  (forall a x, value_of w' a x = value_of w a x).
Proof.
  intros Hn Hc id w'. unfold w', onTriggered. rewrite Hn, Hc.
  set (w1 := fst (triggerExit self "out" w)).
  pose proof (triggerExit_only_visual self "out" w) as V. fold w1 in V.
  destruct (triggerExit_queues self "out" w) as [Q1 Q2]. fold w1 in Q1, Q2.
  pose proof V as (_ & _ & Hh).
  destruct (threads_of_only_visual w w1 self V) as [T1 A1].
  unfold setTimeout, beginThread, threads_of, awake_of in *. cbn.
  rewrite list_lookup_alter_eq.
  destruct (heap w1 !! self) as [n1|] eqn:Hn1.
  2: { destruct V as (E & _). apply (f_equal length) in E.
       rewrite !length_map in E. apply lookup_ge_None in Hn1.
       apply lookup_lt_Some in Hn. lia. }
  rewrite Hn in T1, A1. cbn. rewrite T1, Hh, Hn.
  split; [done|]. split; [done|]. split.
  { intros a Ha. rewrite list_lookup_alter_ne by done.
    apply (threads_of_only_visual w w1 a V). }
  split; [done|]. split; [done|]. split; [done|]. split.
  - eapply tick_frame_trans; [by apply only_visual_tick_frame|].
    split; [|split; [done|split]].
    + cbn. apply map_alter_same. by intros [].
    + cbn. rewrite ?Hh. lia.
    + intros t Ht. cbn. rewrite ?Hh in *. apply elem_of_app. by left.
  - intros a x. rewrite <- (value_of_only_visual w w1 a x V).
    unfold value_of. cbn. destruct (decide (a = self)) as [->|Ha].
    + rewrite list_lookup_alter_eq, Hn1. done.
    + by rewrite list_lookup_alter_ne.
Qed.

(** The Delay node from the trigger to the end of the delay. *)
Lemma delay_cycle_spec self name w n :
  heap w !! self = Some n -> n_class n = wcNodeProcessDelay ->
  let id := nextTimer (host w) in
  ThreadNumber id ∉ threads_of w self -> id ∉ timers (host w) ->
  let w1 := onTriggered operate self name w in
  let w2 := delay_elapsed self id w1 in
  threads_of w2 self = threads_of w self /\
  awake_of w2 self = match threads_of w self with [] => false | _ => true end /\
  (forall a, a <> self ->
     threads_of w2 a = threads_of w a /\ awake_of w2 a = awake_of w a) /\
  host w2 = mkHost (timers (host w)) (S id) /\
  queuedChain (play w2)
    = queuedChain (play w) ++ exit_items w self "out"
      ++ exit_items w self "finished" /\
  queuedProperties (play w2) = queuedProperties (play w).
Proof.
  intros Hn Hc id Hfresh Htimer w1 w2.
  destruct (delay_triggered_spec self name w n Hn Hc)
    as (T1 & A1 & O1 & H1 & Q1 & P1 & F1 & V1).
  fold id w1 in T1, A1, O1, H1, Q1, P1, F1, V1.
  unfold w2, delay_elapsed.
  set (w1' := with_host (clearTimeout id) w1).
  assert (H1' : host w1' = mkHost (timers (host w)) (S id)).
  { unfold w1'. cbn [with_host host]. rewrite H1.
    by apply clearTimeout_fresh. }
  assert (F1' : tick_frame w w1').
  { destruct F1 as (E1 & E2 & E3 & E4). split; [done|]. split; [done|].
    rewrite H1'. cbn. split; [lia|done]. }
  assert (V1' : forall a, value_of w1' a "enabled" = value_of w a "enabled").
  { intros a. apply (V1 a "enabled"). }
  set (w3 := fst (triggerExit self "finished" w1')).
  pose proof (triggerExit_only_visual self "finished" w1') as V. fold w3 in V.
  destruct (triggerExit_queues self "finished" w1') as [Q3 P3].
  fold w3 in Q3, P3.
  rewrite (exit_items_frame w w1' self "finished" F1' V1') in Q3.
  assert (T3 : forall a, threads_of w3 a = threads_of w1 a /\
                         awake_of w3 a = awake_of w1 a).
  { intros a. apply (threads_of_only_visual w1' w3 a V). }
  assert (Hh : host w3 = mkHost (timers (host w)) (S id)).
  { by destruct V as (_ & _ & ->). }
  destruct (T3 self) as [T3s A3s]. rewrite T1 in T3s. rewrite A1 in A3s.
  unfold threads_of, awake_of in T3s, A3s.
  destruct (heap w3 !! self) as [n3|] eqn:Hn3.
  2: { by destruct (threads_of w self). }
  unfold finishThread, threads_of, awake_of. cbn.
  rewrite list_lookup_alter_eq, Hn3. cbn.
  rewrite T3s, existsb_thread_snoc, remove_thread_fresh by done. cbn.
  unfold threads_of in *. rewrite Hn in *.
  split; [done|]. split.
  { rewrite A3s. by destruct (nm_threads (n_meta n)). }
  split.
  { intros a Ha. rewrite list_lookup_alter_ne by done.
    destruct (T3 a) as [Ta Aa]. destruct (O1 a Ha) as [Ta' Aa'].
    unfold threads_of, awake_of in *. by rewrite Ta, Aa, Ta', Aa'. }
  split; [done|]. split; [|by rewrite P3; unfold w1'; cbn; rewrite P1].
  rewrite Q3. unfold w1'. cbn. rewrite Q1. by rewrite app_assoc.
Qed.

End Handlers.

(** X15.  The handler of the Operation node.  For an entry other than
    [add], [sub], [mul] and [div] the outcome is [undefined]: the property
    [result] keeps its value and nothing is sent.  For one of these four
    entries, when [valueA] and [valueB] hold safe integers and the outcome
    is a safe integer again (for [div]: the divisor is not zero and leaves
    no remainder), [result] holds the outcome and, when it differs from
    the old value, one update goes to each output of [result] whose node
    belongs to the engine and is enabled.  In both cases no other property
    of any node changes and the exit [out] is triggered afterwards: the
    queue of entry links gets the items of [out].  (Operands that are no
    numbers, and outcomes that are no safe integers, are not covered:
    [Value] holds integers only.) *)
Theorem operation_stores_result (self : NodeId) (name : string) (w : World)
    (n : Node) (p : Property) :
  heap w !! self = Some n -> n_class n = wcNodeProcessOperation ->
  find_first (prop_named "result") (n_properties n) = Some p ->
  let w' := onTriggered operate_int self name w in
  (is_operation name = false ->
   value_of w' self "result" = p_value p /\
   queuedProperties (play w') = queuedProperties (play w) /\
   (forall a x, (a, x) <> (self, "result") ->
      value_of w' a x = value_of w a x) /\
   queuedChain (play w') = queuedChain (play w) ++ exit_items w self "out") /\
  (forall x y z,
     node_property n "valueA" = VNum x -> node_property n "valueB" = VNum y ->
     exact_outcome name x y = Some z ->
     value_of w' self "result" = VNum z /\
     queuedProperties (play w')
       = queuedProperties (play w)
         ++ (if strict_eq (p_value p) (VNum z) then []
             else map (property_item (VNum z))
                    (List.filter (takes_property w) (p_outputs p))) /\
     (forall a x, (a, x) <> (self, "result") ->
        value_of w' a x = value_of w a x) /\
     queuedChain (play w') = queuedChain (play w) ++ exit_items w self "out").
Proof.
  intros Hn Hc Hp w'.
  destruct (operation_spec operate_int self name w n p Hn Hc Hp)
    as (R1 & R2 & R3 & R4).
  fold w' in R1, R2, R3, R4. split.
  - intros Hno. rewrite Hno in R1, R3. cbn in R1, R3.
    rewrite app_nil_r in R3. done.
  - intros x y z Ha Hb Hz.
    destruct (operate_int_exact name x y z Hz) as [Ho Hr].
    rewrite Ho, Ha, Hb, Hr in R1, R3. cbn [strict_eq orb] in R1, R3. done.
Qed.

Section HandlerTheorems.
Variable operate : string -> Value -> Value -> Value.

(** X16.  The thread of a Delay node.  The handler triggers the exit
    [out], asks the host for a timer and records it: the timer is added
    to the threads of the node, which is awake, and to the timers of the
    host; no property value changes and no other node is touched.  When
    the timer elapses, the function given to the host triggers the exit
    [finished] and ends the thread: if the timer was a new one for the
    node and the host, the threads of the node and the timers of the host
    are the ones before the trigger, and the node is awake exactly when
    it has another thread left. *)
Theorem delay_thread_round_trip (self : NodeId) (name : string) (w : World)
    (n : Node) :
  heap w !! self = Some n -> n_class n = wcNodeProcessDelay ->
  let id := nextTimer (host w) in
  let w1 := onTriggered operate self name w in
  let w2 := delay_elapsed self id w1 in
  (threads_of w1 self = threads_of w self ++ [ThreadNumber id] /\
   awake_of w1 self = true /\
   (forall a, a <> self ->
      threads_of w1 a = threads_of w a /\ awake_of w1 a = awake_of w a) /\
   host w1 = mkHost (timers (host w) ++ [id]) (S id) /\
   queuedChain (play w1) = queuedChain (play w) ++ exit_items w self "out" /\
   queuedProperties (play w1) = queuedProperties (play w) /\
   (forall a x, value_of w1 a x = value_of w a x)) /\
  (ThreadNumber id ∉ threads_of w self -> id ∉ timers (host w) ->
   threads_of w2 self = threads_of w self /\
   awake_of w2 self
     = match threads_of w self with [] => false | _ => true end /\
   (forall a, a <> self ->
      threads_of w2 a = threads_of w a /\ awake_of w2 a = awake_of w a) /\
   host w2 = mkHost (timers (host w)) (S id) /\
   queuedChain (play w2)
     = queuedChain (play w) ++ exit_items w self "out"
       ++ exit_items w self "finished" /\
   queuedProperties (play w2) = queuedProperties (play w)).
Proof.
  intros Hn Hc id w1 w2. split.
  - destruct (delay_triggered_spec operate self name w n Hn Hc)
      as (T1 & A1 & O1 & H1 & Q1 & P1 & _ & V1).
    done.
  - intros Hf Ht. by apply (delay_cycle_spec operate self name w n).
Qed.

End HandlerTheorems.

Lemma operation_stores_result_witness :
  value_of (onTriggered operate_int 0 "add" interleave_world) 0 "result"
    = VNum 1 /\
  queuedProperties (play (onTriggered operate_int 0 "add" interleave_world))
    = queuedProperties (play interleave_world)
      ++ [mkPropertyItem 1 "message" (VNum 1)] /\
  value_of (onTriggered operate_int 0 "in" interleave_world) 0 "result"
    = VNum 0.
Proof.
  pose (n := default (mkNode wcNode [] [] [] (mkNodeMeta false false false [])
                        false false)
               (heap interleave_world !! 0)).
  pose (p := default (mkProperty EmptyString VUndefined VUndefined EmptyString
                        [] [] meta0 meta0)
               (find_first (prop_named "result") (n_properties n))).
  destruct (operation_stores_result 0 "add" interleave_world n p)
    as (_ & H2);
    [vm_compute; reflexivity|vm_compute; reflexivity|vm_compute; reflexivity|].
  destruct (H2 1%Z 0%Z 1%Z) as (R1 & R3 & _);
    [vm_compute; reflexivity|vm_compute; reflexivity|vm_compute; reflexivity|].
  destruct (operation_stores_result 0 "in" interleave_world n p)
    as (H1 & _);
    [vm_compute; reflexivity|vm_compute; reflexivity|vm_compute; reflexivity|].
  destruct (H1 eq_refl) as (R0 & _).
  split; [exact R1|]. split; [exact R3|]. exact R0.
Defined.

Lemma delay_thread_round_trip_witness :
  threads_of (onTriggered operate_int 1 "in" started_world) 1
    = [ThreadNumber 1; ThreadNumber 2] /\
  threads_of
    (delay_elapsed 1 2 (onTriggered operate_int 1 "in" started_world)) 1
    = [ThreadNumber 1] /\
  awake_of
    (delay_elapsed 1 2 (onTriggered operate_int 1 "in" started_world)) 1
    = true /\
  timers
    (host (delay_elapsed 1 2 (onTriggered operate_int 1 "in" started_world)))
    = [1].
Proof.
  pose (n := default (mkNode wcNode [] [] [] (mkNodeMeta false false false [])
                        false false)
               (heap started_world !! 1)).
  destruct (delay_thread_round_trip operate_int 1 "in" started_world n)
    as ((T1 & _) & C); [vm_compute; reflexivity|vm_compute; reflexivity|].
  destruct C as (T2 & A2 & _ & H2 & _).
  { vm_compute. intros H. inversion H as [|? ? ? H']. inversion H'. }
  { vm_compute. intros H. inversion H as [|? ? ? H']. inversion H'. }
  split; [exact T1|]. split; [exact T2|]. split; [exact A2|].
  exact (f_equal timers H2).
Defined.

(** * Disabled nodes and the tick *)

Section DisabledFacts.
Variable operate : string -> Value -> Value -> Value.



End DisabledFacts.



Section DisabledTheorems.
Variable operate : string -> Value -> Value -> Value.


End DisabledTheorems.


(** * The properties of the script *)

Lemma existsb_sprop_named name l :
  existsb (sprop_named name) l = true <-> name ∈ map sp_name l.
Proof.
  unfold sprop_named. induction l as [|q l IH]; cbn.
  - split; [done|]. by intros ?%elem_of_nil.
  - rewrite orb_true_iff, IH, elem_of_cons, String.eqb_eq.
    split; (intros [H|H]; [by left|by right]).
Qed.

Lemma find_first_sprop_snoc name x l q :
  sp_name q = name ->
  find_first (sprop_named x) (l ++ [q])
  = match find_first (sprop_named x) l with
    | Some r => Some r
    | None => if String.eqb name x then Some q else None
    end.
Proof.
  intros <-. induction l as [|r l IH]; cbn; [done|].
  by destruct (sprop_named x r).
Qed.

Lemma find_first_sprop_absent x l :
  x ∉ map sp_name l -> find_first (sprop_named x) l = None.
Proof.
  induction l as [|q l IH]; cbn; [done|]. intros H.
  apply not_elem_of_cons in H as [H1 H2]. unfold sprop_named at 1.
  destruct (String.eqb_spec (sp_name q) x) as [E|_]; [done|]. by apply IH.
Qed.

Lemma rename_scan_None name newName l : forall i prop,
  rename_scan name newName l i prop = None <-> newName ∈ map sp_name l.
Proof.
  induction l as [|q l IH]; intros i prop; cbn.
  - split; [done|]. by intros ?%elem_of_nil.
  - rewrite elem_of_cons. unfold sprop_named at 1.
    destruct (String.eqb_spec (sp_name q) newName) as [E|E].
    + split; [|done]. intros _. by left.
    + rewrite IH. split; [by right|]. by intros [?|?].
Qed.

Lemma rename_scan_Some name newName l : forall i prop r,
  rename_scan name newName l i prop = Some r ->
  (r = prop /\ name ∉ map sp_name l) \/
  (exists k q, r = Some (i + k) /\ l !! k = Some q /\ sp_name q = name).
Proof.
  induction l as [|q l IH]; intros i prop r; cbn.
  - intros [= <-]. left. split; [done|]. by intros ?%elem_of_nil.
  - destruct (sprop_named newName q); [done|]. intros H.
    apply IH in H as [[-> Hn]|(k & q' & -> & Hk & Hq)].
    + unfold sprop_named. destruct (String.eqb_spec (sp_name q) name) as [E|E].
      * right. exists 0, q. split; [f_equal; lia|done].
      * left. split; [done|]. by apply not_elem_of_cons.
    + right. exists (S k), q'. split; [f_equal; lia|done].
Qed.

Lemma alter_renamed name newName l : forall k q,
  NoDup (map sp_name l) -> l !! k = Some q -> sp_name q = name ->
  alter (set_sp_name newName) k l = map (renamed name newName) l.
Proof.
  assert (Id : forall l, name ∉ map sp_name l ->
            map (renamed name newName) l = l).
  { intros l0. induction l0 as [|r l0 IH]; cbn; [done|]. intros H.
    apply not_elem_of_cons in H as [H1 H2]. rewrite IH by done.
    unfold renamed, sprop_named.
    by destruct (String.eqb_spec (sp_name r) name). }
  induction l as [|r l IH]; intros [|k] q ND Hk Hq; try done; cbn in *.
  - injection Hk as ->. apply NoDup_cons in ND as [Hr _].
    rewrite Hq in Hr. rewrite (Id l Hr). unfold renamed, sprop_named.
    by rewrite Hq, String.eqb_refl.
  - apply NoDup_cons in ND as [Hr ND]. rewrite (IH k q ND Hk Hq).
    f_equal. unfold renamed, sprop_named.
    destruct (String.eqb_spec (sp_name r) name) as [E|E]; [|done].
    exfalso. apply Hr. rewrite E, <- Hq.
    apply list_elem_of_fmap. exists q. split; [done|].
    by eapply list_elem_of_lookup_2.
Qed.

Lemma renamed_names name newName l :
  map sp_name (map (renamed name newName) l)
  = map (fun x => if String.eqb x name then newName else x) (map sp_name l).
Proof.
  rewrite !map_map. apply map_ext. intros q. unfold renamed, sprop_named.
  by destruct (String.eqb (sp_name q) name).
Qed.

Lemma renamed_NoDup name newName l :
  newName ∉ map sp_name l -> NoDup (map sp_name l) ->
  NoDup (map sp_name (map (renamed name newName) l)).
Proof.
  intros Hnew ND. rewrite renamed_names.
  apply (NoDup_fmap_2_strong _ (map sp_name l)); [|done].
  intros x y Hx Hy.
  destruct (String.eqb_spec x name), (String.eqb_spec y name); congruence.
Qed.

Lemma renamed_back name newName l :
  newName ∉ map sp_name l ->
  map (renamed newName name) (map (renamed name newName) l) = l.
Proof.
  induction l as [|q l IH]; cbn; [done|]. intros H.
  apply not_elem_of_cons in H as [H1 H2]. rewrite IH by done. f_equal.
  unfold renamed, sprop_named.
  destruct (String.eqb_spec (sp_name q) name) as [E|E]; cbn.
  - rewrite String.eqb_refl. destruct q. cbn in *. by rewrite E.
  - by destruct (String.eqb_spec (sp_name q) newName).
Qed.

Lemma renamed_old_name_gone name newName l :
  name <> newName -> name ∉ map sp_name (map (renamed name newName) l).
Proof.
  intros Hne. rewrite renamed_names. intros H.
  apply list_elem_of_fmap in H as (x & E & _).
  destruct (String.eqb_spec x name); congruence.
Qed.

Lemma with_play_properties_back l w :
  with_play (fun p => set_script_properties (properties (play w)) p)
    (with_play (fun p => set_script_properties l p) w)
  = w.
Proof. by destruct w as [h [] hs]. Qed.

(** The renaming as a whole. *)
Lemma play_renameProperty_fails name newName w :
  newName ∈ script_names (play w) \/ name ∉ script_names (play w) ->
  play_renameProperty name newName w = (w, VBool false).
Proof.
  unfold play_renameProperty, script_names. intros H.
  destruct (rename_scan name newName (properties (play w)) 0 None)
    as [[i|]|] eqn:E; [|done|done].
  exfalso. destruct H as [H|H].
  - apply (rename_scan_None name newName _ 0 None) in H. congruence.
  - apply rename_scan_Some in E as [[? _]|(k & q & _ & Hk & Hq)]; [done|].
    apply H. rewrite <- Hq. apply list_elem_of_fmap. exists q.
    split; [done|]. by eapply list_elem_of_lookup_2.
Qed.

Lemma play_renameProperty_renames name newName w :
  NoDup (script_names (play w)) ->
  name ∈ script_names (play w) -> newName ∉ script_names (play w) ->
  play_renameProperty name newName w
  = (with_play
       (fun p =>
          set_script_properties
            (map (renamed name newName) (properties (play w))) p)
       w,
     VUndefined).
Proof.
  unfold play_renameProperty, script_names. intros ND Hin Hnew.
  destruct (rename_scan name newName (properties (play w)) 0 None)
    as [r|] eqn:E.
  2: { by apply rename_scan_None in E. }
  apply rename_scan_Some in E as [[-> Hout]|(k & q & -> & Hk & Hq)]; [done|].
  unfold notify_onSharedPropertyRenamed. cbn [Nat.add]. f_equal.
  destruct w as [h p hs]. unfold with_play. cbn in *. f_equal. f_equal.
  by apply (alter_renamed name newName _ k q).
Qed.

Lemma play_renameProperty_never_true name newName w :
  snd (play_renameProperty name newName w) <> VBool true.
Proof.
  unfold play_renameProperty.
  by destruct (rename_scan _ _ _ _ _) as [[i|]|].
Qed.

Lemma play_createProperty_spec name type v p :
  NoDup (script_names p) ->
  NoDup (script_names (fst (play_createProperty name type v p))) /\
  (name ∈ script_names p -> play_createProperty name type v p = (p, false)) /\
  (name ∉ script_names p ->
   snd (play_createProperty name type v p) = true /\
   properties (fst (play_createProperty name type v p))
     = properties p
       ++ [mkScriptProperty name v v
             (if has_PROPERTY_TYPE type then type else "string")] /\
   find_first (sprop_named name)
     (properties (fst (play_createProperty name type v p)))
     = Some (mkScriptProperty name v v
               (if has_PROPERTY_TYPE type then type else "string")) /\
   (forall x, x <> name ->
      find_first (sprop_named x)
        (properties (fst (play_createProperty name type v p)))
      = find_first (sprop_named x) (properties p))).
Proof.
  intros ND. unfold play_createProperty, script_names in *.
  destruct (existsb (sprop_named name) (properties p)) eqn:E.
  - apply existsb_sprop_named in E. done.
  - assert (Hout : name ∉ map sp_name (properties p)).
    { intros H. apply existsb_sprop_named in H. congruence. }
    cbn [fst snd]. replace (properties (set_script_properties _ p))
      with (properties p
            ++ [mkScriptProperty name v v
                  (if has_PROPERTY_TYPE type then type else "string")])
      by (by destruct p).
    split; [|split; [done|]].
    + rewrite map_app. cbn. apply NoDup_app. split; [done|].
      split; [|apply NoDup_singleton].
      intros x Hx ->%list_elem_of_singleton. done.
    + intros _. split; [done|]. split; [done|]. split.
      * rewrite (find_first_sprop_snoc name) by done.
        rewrite find_first_sprop_absent by done. by rewrite String.eqb_refl.
      * intros x Hx. rewrite (find_first_sprop_snoc name) by done.
        destruct (find_first _ _); [done|].
        destruct (String.eqb_spec name x); [congruence|done].
Qed.

Lemma play_renameProperty_spec name newName w :
  NoDup (script_names (play w)) ->
  snd (play_renameProperty name newName w) <> VBool true /\
  (newName ∈ script_names (play w) \/ name ∉ script_names (play w) ->
   play_renameProperty name newName w = (w, VBool false)) /\
  (name ∈ script_names (play w) -> newName ∉ script_names (play w) ->
   snd (play_renameProperty name newName w) = VUndefined /\
   heap (fst (play_renameProperty name newName w)) = heap w /\
   properties (play (fst (play_renameProperty name newName w)))
     = map (renamed name newName) (properties (play w)) /\
   NoDup (script_names (play (fst (play_renameProperty name newName w)))) /\
   play_renameProperty newName name (fst (play_renameProperty name newName w))
     = (w, VUndefined)).
Proof.
  intros ND. split; [apply play_renameProperty_never_true|].
  split; [apply play_renameProperty_fails|]. intros Hin Hnew.
  rewrite (play_renameProperty_renames name newName w ND Hin Hnew).
  cbn [fst snd].
  set (l' := map (renamed name newName) (properties (play w))).
  set (w' := with_play (fun p => set_script_properties l' p) w).
  assert (P' : properties (play w') = l') by (by destruct w as [h [] hs]).
  assert (Hne : name <> newName) by congruence.
  assert (ND' : NoDup (script_names (play w'))).
  { unfold script_names. rewrite P'. by apply renamed_NoDup. }
  split; [done|]. split; [done|]. split; [done|]. split; [done|].
  rewrite (play_renameProperty_renames newName name w' ND').
  - f_equal. rewrite P'. unfold l'. rewrite renamed_back by done.
    apply with_play_properties_back.
  - unfold script_names. rewrite P'. unfold l'. rewrite renamed_names.
    apply list_elem_of_fmap. exists name.
    by rewrite String.eqb_refl.
  - unfold script_names. rewrite P'. by apply renamed_old_name_gone.
Qed.

Lemma values_are_no_keys type :
  type ∈ PROPERTY_TYPE_values -> has_PROPERTY_TYPE type = false.
Proof.
  unfold PROPERTY_TYPE_values. rewrite !elem_of_cons, elem_of_nil.
  intros [->|[->|[->|[->|[->|[]]]]]]; reflexivity.
Qed.

(** X17.  [wcPlay.createProperty].  With distinct names before the call
    the names are distinct after it.  A name that is taken gives [false]
    and no change.  A new name gives [true]: the property is added at the
    end, with the value as its value and its initial value, the other
    properties are found as before, and the new one is found under its
    name.  Its type is the one given when that is a key of
    [wcPlay.PROPERTY_TYPE], and ['string'] otherwise, so for each value
    of [wcPlay.PROPERTY_TYPE]. *)
Theorem play_createProperty_adds (name type : string) (v : Value) (p : Play) :
  NoDup (script_names p) ->
  NoDup (script_names (fst (play_createProperty name type v p))) /\
  (name ∈ script_names p -> play_createProperty name type v p = (p, false)) /\
  (name ∉ script_names p ->
   snd (play_createProperty name type v p) = true /\
   properties (fst (play_createProperty name type v p))
     = properties p
       ++ [mkScriptProperty name v v
             (if has_PROPERTY_TYPE type then type else "string")] /\
   find_first (sprop_named name)
     (properties (fst (play_createProperty name type v p)))
     = Some (mkScriptProperty name v v
               (if has_PROPERTY_TYPE type then type else "string")) /\
   (forall x, x <> name ->
      find_first (sprop_named x)
        (properties (fst (play_createProperty name type v p)))
      = find_first (sprop_named x) (properties p)) /\
   (type ∈ PROPERTY_TYPE_values ->
    sp_type <$> find_first (sprop_named name)
                  (properties (fst (play_createProperty name type v p)))
    = Some "string")).
Proof.
  intros ND. destruct (play_createProperty_spec name type v p ND)
    as (H1 & H2 & H3).
  split; [done|]. split; [done|]. intros Hout.
  destruct (H3 Hout) as (R1 & R2 & R3 & R4).
  split; [done|]. split; [done|]. split; [done|]. split; [done|].
  intros Ht. by rewrite R3, (values_are_no_keys _ Ht).
Qed.

Lemma play_createProperty_adds_witness :
  NoDup
    (script_names
       (fst (play_createProperty "pace" "number" (VNum 2)
               (play script_world)))) /\
  play_createProperty "speed" "number" (VNum 2) (play script_world)
    = (play script_world, false) /\
  sp_type <$> find_first (sprop_named "pace")
                (properties
                   (fst (play_createProperty "pace" "number" (VNum 2)
                           (play script_world))))
    = Some "string".
Proof.
  destruct (play_createProperty_adds "pace" "number" (VNum 2)
              (play script_world)) as (H1 & _ & H3).
  { vm_compute. apply NoDup_singleton. }
  destruct (play_createProperty_adds "speed" "number" (VNum 2)
              (play script_world)) as (_ & H2 & _).
  { vm_compute. apply NoDup_singleton. }
  split; [exact H1|]. split.
  - apply H2. vm_compute. left.
  - destruct H3 as (_ & _ & _ & _ & H5).
    + vm_compute. intros H. inversion H as [|? ? ? H']. inversion H'.
    + apply H5. vm_compute. right. right. left.
Defined.

(** X18.  [wcPlay.renameProperty] never returns [true].  With distinct
    names: it returns [false] and changes nothing when the new name is
    taken (so too when it is the old name) or when no property has the
    old name; otherwise it returns nothing, the property of the old name
    has the new name and nothing else is changed, the names are distinct
    again, and renaming back gives the script before the two calls. *)
Theorem play_renameProperty_round_trip (name newName : string) (w : World) :
  NoDup (script_names (play w)) ->
  snd (play_renameProperty name newName w) <> VBool true /\
  (newName ∈ script_names (play w) \/ name ∉ script_names (play w) ->
   play_renameProperty name newName w = (w, VBool false)) /\
  (name ∈ script_names (play w) -> newName ∉ script_names (play w) ->
   snd (play_renameProperty name newName w) = VUndefined /\
   heap (fst (play_renameProperty name newName w)) = heap w /\
   properties (play (fst (play_renameProperty name newName w)))
     = map (renamed name newName) (properties (play w)) /\
   NoDup (script_names (play (fst (play_renameProperty name newName w)))) /\
   play_renameProperty newName name (fst (play_renameProperty name newName w))
     = (w, VUndefined)).
Proof. apply play_renameProperty_spec. Qed.

Lemma play_renameProperty_round_trip_witness :
  play_renameProperty "speed" "speed" script_world
    = (script_world, VBool false) /\
  script_names (play (fst (play_renameProperty "speed" "pace" script_world)))
    = ["pace"] /\
  play_renameProperty "pace" "speed"
    (fst (play_renameProperty "speed" "pace" script_world))
    = (script_world, VUndefined).
Proof.
  destruct (play_renameProperty_round_trip "speed" "speed" script_world)
    as (_ & H2 & _).
  { vm_compute. apply NoDup_singleton. }
  destruct (play_renameProperty_round_trip "speed" "pace" script_world)
    as (_ & _ & H3).
  { vm_compute. apply NoDup_singleton. }
  split; [apply H2; left; vm_compute; left|].
  destruct H3 as (_ & _ & P & _ & R).
  - vm_compute. left.
  - vm_compute. intros H. inversion H as [|? ? ? H']. inversion H'.
  - split; [|exact R]. unfold script_names. rewrite P. reflexivity.
Defined.
